(** * jstok: a shallow embedding of the tokenizer of [jstok.h]

    The development follows the header top to bottom: the token, frame and
    parser records, the frame stack, the token emitter, the lexical
    recognizers, the container operations, the driver [jstok_parse], and the
    helpers: [jstok_skip], [jstok_sse_next], [jstok_span], [jstok_eq],
    [jstok_array_at], [jstok_object_get], [jstok_atoi64], [jstok_atob],
    [jstok_unescape] and [jstok_path].

    Conventions of the embedding.
    - A C [int] is a [Z].  Positions never exceed [json_len] and the token
      counter never exceeds the position, so the parser performs no
      arithmetic that could overflow; [jstok_skip], which works on arbitrary
      token arrays, and [jstok_atoi64], which works on arbitrarily long
      digit strings, wrap explicitly.
    - A byte of the input is its unsigned value, a [Z] in [0, 255]; the input
      buffer is a [list Z] that is read through [json_at] only at offsets
      below [json_len].
    - A C array is a list that is read with [arr_get] and written with
      [arr_set]; a pointer that may be [NULL] is an [option].
    - A frame pointer ([jstok_frame_t*]) is the index of the slot of
      [p->stack] it points at.
    - The build flag [JSTOK_STRICT] is the section variable [strict];
      [JSTOK_PARENT_LINKS] is off (the default), so tokens have no [parent]
      field and the [parent] arguments, which the code then discards, are
      not threaded.
    - Loops whose stride varies run on fuel and answer [None] when the fuel
      is exhausted; the totality lemmas show that this never happens. *)

From Stdlib Require Import ZArith Lia Bool List Ascii String.
From Stdlib Require DecimalString.
From stdpp Require Import base decidable option list.

Local Open Scope Z_scope.

(** ** Arrays indexed by a C [int] *)

Definition arr_get {A : Type} (d : A) (l : list A) (i : Z) : A :=
  if decide (i < 0) then d else default d (l !! Z.to_nat i).

Definition arr_set {A : Type} (l : list A) (i : Z) (x : A) : list A :=
  if decide (i < 0) then l else <[Z.to_nat i := x]> l.

(** ** Characters *)

Definition chr (a : ascii) : Z := Z.of_N (N_of_ascii a).

Definition bytes_of_string (s : string) : list Z :=
  List.map chr (list_ascii_of_string s).

Abbreviation ch_tab := 9 (only parsing).
Abbreviation ch_lf := 10 (only parsing).
Abbreviation ch_cr := 13 (only parsing).
Abbreviation ch_space := 32 (only parsing).
Abbreviation ch_quote := 34 (only parsing).      (* double quote *)
Abbreviation ch_plus := 43 (only parsing).       (* '+' *)
Abbreviation ch_comma := 44 (only parsing).      (* ',' *)
Abbreviation ch_minus := 45 (only parsing).      (* '-' *)
Abbreviation ch_dot := 46 (only parsing).        (* '.' *)
Abbreviation ch_slash := 47 (only parsing).      (* '/' *)
Abbreviation ch_0 := 48 (only parsing).
Abbreviation ch_1 := 49 (only parsing).
Abbreviation ch_9 := 57 (only parsing).
Abbreviation ch_colon := 58 (only parsing).      (* ':' *)
Abbreviation ch_A := 65 (only parsing).
Abbreviation ch_E := 69 (only parsing).
Abbreviation ch_F := 70 (only parsing).
Abbreviation ch_lbracket := 91 (only parsing).   (* '[' *)
Abbreviation ch_backslash := 92 (only parsing).
Abbreviation ch_rbracket := 93 (only parsing).   (* ']' *)
Abbreviation ch_a := 97 (only parsing).
Abbreviation ch_b := 98 (only parsing).
Abbreviation ch_e := 101 (only parsing).
Abbreviation ch_f := 102 (only parsing).
Abbreviation ch_n := 110 (only parsing).
Abbreviation ch_r := 114 (only parsing).
Abbreviation ch_t := 116 (only parsing).
Abbreviation ch_u := 117 (only parsing).
Abbreviation ch_lbrace := 123 (only parsing).    (* '{' *)
Abbreviation ch_rbrace := 125 (only parsing).    (* '}' *)

Definition jstok_is_space (c : Z) : bool :=
  bool_decide (c = ch_space) || bool_decide (c = ch_tab)
  || bool_decide (c = ch_lf) || bool_decide (c = ch_cr).

Definition jstok_is_digit (c : Z) : bool :=
  bool_decide (c >= ch_0) && bool_decide (c <= ch_9).

Definition jstok_is_hex (c : Z) : bool :=
  jstok_is_digit c
  || (bool_decide (c >= ch_a) && bool_decide (c <= ch_f))
  || (bool_decide (c >= ch_A) && bool_decide (c <= ch_F)).

Definition jstok_is_delim (c : Z) : bool :=
  bool_decide (c = ch_comma) || bool_decide (c = ch_rbracket)
  || bool_decide (c = ch_rbrace) || jstok_is_space c.

(** ** Data model *)

Definition JSTOK_MAX_DEPTH : Z := 64.

Inductive jstoktype_t :=
  | JSTOK_UNDEFINED
  | JSTOK_OBJECT
  | JSTOK_ARRAY
  | JSTOK_STRING
  | JSTOK_PRIMITIVE.

#[global] Instance jstoktype_eq_dec : EqDecision jstoktype_t.
Proof. solve_decision. Defined.

Abbreviation JSTOK_ERROR_NOMEM := (-1) (only parsing).
Abbreviation JSTOK_ERROR_INVAL := (-2) (only parsing).
Abbreviation JSTOK_ERROR_PART := (-3) (only parsing).
Abbreviation JSTOK_ERROR_DEPTH := (-4) (only parsing).

Record jstoktok_t := mk_tok {
  tok_type : jstoktype_t;
  tok_start : Z;
  tok_end : Z;    (* exclusive *)
  tok_size : Z    (* object: pair count, array: element count, others: 0 *)
}.

Inductive jstok_state_t :=
  | JSTOK_ST_OBJ_KEY_OR_END
  | JSTOK_ST_OBJ_KEY
  | JSTOK_ST_OBJ_COLON
  | JSTOK_ST_OBJ_VALUE
  | JSTOK_ST_OBJ_COMMA_OR_END
  | JSTOK_ST_ARR_VALUE_OR_END
  | JSTOK_ST_ARR_VALUE
  | JSTOK_ST_ARR_COMMA_OR_END.

#[global] Instance jstok_state_eq_dec : EqDecision jstok_state_t.
Proof. solve_decision. Defined.

Record jstok_frame_t := mk_frame {
  fr_type : jstoktype_t;
  fr_st : jstok_state_t;
  fr_tok : Z      (* token index for this container, or -1 in count-only *)
}.

Record jstok_parser := mk_parser {
  pos : Z;          (* current scan position *)
  toknext : Z;      (* next token index / token count in count-only *)
  depth : Z;        (* number of active container frames *)
  root_done : Z;    (* parsed one top-level value *)
  error_pos : Z;
  error_code : Z;
  stack : list jstok_frame_t   (* jstok_frame_t stack[JSTOK_MAX_DEPTH] *)
}.

(** The token array of a call: [None] is [tokens == NULL], count-only mode. *)
Definition tokens := option (list jstoktok_t).

(** Field updates. *)

Definition set_pos (p : jstok_parser) (v : Z) : jstok_parser :=
  mk_parser v (toknext p) (depth p) (root_done p) (error_pos p) (error_code p) (stack p).

Definition set_toknext (p : jstok_parser) (v : Z) : jstok_parser :=
  mk_parser (pos p) v (depth p) (root_done p) (error_pos p) (error_code p) (stack p).

Definition set_depth (p : jstok_parser) (v : Z) : jstok_parser :=
  mk_parser (pos p) (toknext p) v (root_done p) (error_pos p) (error_code p) (stack p).

Definition set_root_done (p : jstok_parser) (v : Z) : jstok_parser :=
  mk_parser (pos p) (toknext p) (depth p) v (error_pos p) (error_code p) (stack p).

Definition set_stack (p : jstok_parser) (v : list jstok_frame_t) : jstok_parser :=
  mk_parser (pos p) (toknext p) (depth p) (root_done p) (error_pos p) (error_code p) v.

Definition set_tok_size (t : jstoktok_t) (v : Z) : jstoktok_t :=
  mk_tok (tok_type t) (tok_start t) (tok_end t) v.

Definition set_tok_end (t : jstoktok_t) (v : Z) : jstoktok_t :=
  mk_tok (tok_type t) (tok_start t) v (tok_size t).

Definition set_tok_start (t : jstoktok_t) (v : Z) : jstoktok_t :=
  mk_tok (tok_type t) v (tok_end t) (tok_size t).

Definition set_tok_type (t : jstoktok_t) (v : jstoktype_t) : jstoktok_t :=
  mk_tok v (tok_start t) (tok_end t) (tok_size t).

(** What an out-of-range read yields; the parser never performs one. *)
Definition no_frame : jstok_frame_t :=
  mk_frame JSTOK_UNDEFINED JSTOK_ST_OBJ_KEY_OR_END (-1).

Definition no_token : jstoktok_t := mk_tok JSTOK_UNDEFINED 0 0 0.

Definition json_at (json : list Z) (i : Z) : Z := arr_get 0 json i.

Definition tok_at (toks : list jstoktok_t) (i : Z) : jstoktok_t :=
  arr_get no_token toks i.

(** [*fr] for a frame pointer [fr] into [p->stack]. *)
Definition frame_at (p : jstok_parser) (fr : Z) : jstok_frame_t :=
  arr_get no_frame (stack p) fr.

(** [fr->st = st]. *)
Definition set_frame_st (p : jstok_parser) (fr : Z) (st : jstok_state_t) : jstok_parser :=
  set_stack p
    (arr_set (stack p) fr
       (mk_frame (fr_type (frame_at p fr)) st (fr_tok (frame_at p fr)))).

Definition jstok_set_error (p : jstok_parser) (code ps : Z) : jstok_parser :=
  mk_parser (pos p) (toknext p) (depth p) (root_done p) ps code (stack p).

Definition jstok_init (p : jstok_parser) : jstok_parser :=
  mk_parser 0 0 0 0 (-1) 0 (stack p).

(** ** Frame stack *)

Definition jstok_push (p : jstok_parser) (type : jstoktype_t)
    (st : jstok_state_t) (tok : Z) : Z * jstok_parser :=
  if decide (depth p >= JSTOK_MAX_DEPTH) then
    (JSTOK_ERROR_DEPTH, jstok_set_error p JSTOK_ERROR_DEPTH (pos p))
  else
    (0, set_depth
          (set_stack p (arr_set (stack p) (depth p) (mk_frame type st tok)))
          (depth p + 1)).

Definition jstok_pop (p : jstok_parser) : jstok_parser :=
  if decide (depth p > 0) then set_depth p (depth p - 1) else p.

Definition jstok_top (p : jstok_parser) : option Z :=
  if decide (depth p <= 0) then None else Some (depth p - 1).

(** ** Token emitter *)

Definition jstok_new_token (p : jstok_parser) (toks : tokens) (max_tokens : Z)
    (type : jstoktype_t) (start end_ : Z) : Z * jstok_parser * tokens :=
  match toks with
  | Some ts =>
      if decide (toknext p >= max_tokens) then
        (JSTOK_ERROR_NOMEM, jstok_set_error p JSTOK_ERROR_NOMEM (pos p), toks)
      else
        let idx := toknext p in
        (idx, set_toknext p (toknext p + 1),
         Some (arr_set ts idx (mk_tok type start end_ 0)))
  | None =>
      (* Count-only mode *)
      (toknext p, set_toknext p (toknext p + 1), None)
  end.

Definition jstok_inc_container_size (p : jstok_parser) (toks : tokens) : tokens :=
  match jstok_top p with
  | None => toks
  | Some fr =>
      match toks with
      | None => toks
      | Some ts =>
          let tk := fr_tok (frame_at p fr) in
          if decide (tk < 0) then toks
          else Some (arr_set ts tk (set_tok_size (tok_at ts tk) (tok_size (tok_at ts tk) + 1)))
      end
  end.

(** The undo of [jstok_inc_container_size] that [jstok_parse] performs inline
    on [JSTOK_ERROR_PART]: [if (tokens && fr->tok >= 0) tokens[fr->tok].size--]. *)
Definition dec_container_size (p : jstok_parser) (fr : Z) (toks : tokens) : tokens :=
  match toks with
  | None => toks
  | Some ts =>
      let tk := fr_tok (frame_at p fr) in
      if decide (tk >= 0) then
        Some (arr_set ts tk (set_tok_size (tok_at ts tk) (tok_size (tok_at ts tk) - 1)))
      else toks
  end.

Section Parser.

(** [JSTOK_STRICT] *)
Variable strict : bool.

(** ** Accept-value and accept-key *)

Definition jstok_accept_value (p : jstok_parser) (toks : tokens)
    : Z * jstok_parser * tokens :=
  match jstok_top p with
  | None =>
      if strict && negb (bool_decide (root_done p = 0)) then
        (JSTOK_ERROR_INVAL, jstok_set_error p JSTOK_ERROR_INVAL (pos p), toks)
      else (0, set_root_done p 1, toks)
  | Some fr =>
      let f := frame_at p fr in
      if decide (fr_type f = JSTOK_ARRAY) then
        if decide (fr_st f <> JSTOK_ST_ARR_VALUE_OR_END /\ fr_st f <> JSTOK_ST_ARR_VALUE) then
          (JSTOK_ERROR_INVAL, jstok_set_error p JSTOK_ERROR_INVAL (pos p), toks)
        else
          (0, set_frame_st p fr JSTOK_ST_ARR_COMMA_OR_END,
           jstok_inc_container_size p toks)
      else if decide (fr_type f = JSTOK_OBJECT) then
        if decide (fr_st f <> JSTOK_ST_OBJ_VALUE) then
          (JSTOK_ERROR_INVAL, jstok_set_error p JSTOK_ERROR_INVAL (pos p), toks)
        else
          (0, set_frame_st p fr JSTOK_ST_OBJ_COMMA_OR_END,
           jstok_inc_container_size p toks)
      else
        (JSTOK_ERROR_INVAL, jstok_set_error p JSTOK_ERROR_INVAL (pos p), toks)
  end.

Definition jstok_accept_key (p : jstok_parser) : Z * jstok_parser :=
  match jstok_top p with
  | None => (JSTOK_ERROR_INVAL, jstok_set_error p JSTOK_ERROR_INVAL (pos p))
  | Some fr =>
      let f := frame_at p fr in
      if decide (fr_type f <> JSTOK_OBJECT) then
        (JSTOK_ERROR_INVAL, jstok_set_error p JSTOK_ERROR_INVAL (pos p))
      else if decide (fr_st f <> JSTOK_ST_OBJ_KEY_OR_END /\ fr_st f <> JSTOK_ST_OBJ_KEY) then
        (JSTOK_ERROR_INVAL, jstok_set_error p JSTOK_ERROR_INVAL (pos p))
      else (0, set_frame_st p fr JSTOK_ST_OBJ_COLON)
  end.

(** ** String recognizer *)

(** The result of the [for (i = 0; i < 4; i++)] loop of a [\uXXXX] escape,
    entered with [p->pos] at the [u]. *)
Inductive hex4_result :=
  | Hex4Ok (ps : Z)       (* p->pos after the loop, at the last hex digit *)
  | Hex4Part (ps : Z)
  | Hex4Inval (ps : Z).

Fixpoint hex4_loop (n : nat) (json : list Z) (json_len : Z) (ps : Z) : hex4_result :=
  match n with
  | O => Hex4Ok ps
  | S n' =>
      let ps := ps + 1 in
      if decide (ps >= json_len) then Hex4Part ps
      else if negb (jstok_is_hex (json_at json ps)) then Hex4Inval ps
      else hex4_loop n' json json_len ps
  end.

Definition is_simple_escape (c : Z) : bool :=
  bool_decide (c = ch_quote) || bool_decide (c = ch_backslash)
  || bool_decide (c = ch_slash) || bool_decide (c = ch_b)
  || bool_decide (c = ch_f) || bool_decide (c = ch_n)
  || bool_decide (c = ch_r) || bool_decide (c = ch_t).

(** The [while (p->pos < json_len)] loop of [jstok_parse_string_token] and
    the rewind after it. *)
Fixpoint string_loop (fuel : nat) (json : list Z) (json_len : Z)
    (max_tokens : Z) (start_quote : Z) (p : jstok_parser) (toks : tokens)
    : option (Z * jstok_parser * tokens) :=
  if decide (pos p < json_len) then
    match fuel with
    | O => None
    | S fuel' =>
        let c := json_at json (pos p) in
        if decide (c < 32) then
          Some (JSTOK_ERROR_INVAL, jstok_set_error p JSTOK_ERROR_INVAL (pos p), toks)
        else if decide (c = ch_quote) then
          (* end exclusive is at the closing quote position *)
          let '(i, p1, toks1) :=
            jstok_new_token p toks max_tokens JSTOK_STRING (start_quote + 1) (pos p) in
          if decide (i < 0) then Some (i, p1, toks1)
          else Some (i, set_pos p1 (pos p1 + 1), toks1)
        else if decide (c = ch_backslash) then
          let p := set_pos p (pos p + 1) in
          if decide (pos p >= json_len) then
            Some (JSTOK_ERROR_PART,
                  set_pos (jstok_set_error p JSTOK_ERROR_PART (pos p)) start_quote, toks)
          else
            let c := json_at json (pos p) in
            if is_simple_escape c then
              string_loop fuel' json json_len max_tokens start_quote
                (set_pos p (pos p + 1)) toks
            else if decide (c = ch_u) then
              match hex4_loop 4 json json_len (pos p) with
              | Hex4Part e =>
                  Some (JSTOK_ERROR_PART,
                        set_pos (jstok_set_error (set_pos p e) JSTOK_ERROR_PART e)
                          start_quote, toks)
              | Hex4Inval e =>
                  Some (JSTOK_ERROR_INVAL,
                        jstok_set_error (set_pos p e) JSTOK_ERROR_INVAL e, toks)
              | Hex4Ok e =>
                  string_loop fuel' json json_len max_tokens start_quote
                    (set_pos p (e + 1)) toks
              end
            else
              Some (JSTOK_ERROR_INVAL, jstok_set_error p JSTOK_ERROR_INVAL (pos p), toks)
        else
          string_loop fuel' json json_len max_tokens start_quote
            (set_pos p (pos p + 1)) toks
    end
  else
    Some (JSTOK_ERROR_PART,
          set_pos (jstok_set_error p JSTOK_ERROR_PART (pos p)) start_quote, toks).

Definition jstok_parse_string_token (p : jstok_parser) (json : list Z)
    (json_len : Z) (toks : tokens) (max_tokens : Z)
    : option (Z * jstok_parser * tokens) :=
  let start_quote := pos p in
  if decide (pos p >= json_len \/ json_at json (pos p) <> ch_quote) then
    Some (JSTOK_ERROR_INVAL, jstok_set_error p JSTOK_ERROR_INVAL (pos p), toks)
  else
    let p := set_pos p (pos p + 1) in (* after opening quote *)
    string_loop (Z.to_nat (json_len - pos p)) json json_len max_tokens
      start_quote p toks.

(** ** Literal and number recognizers *)

(** The [while (lit[i] != '\0')] loop of [jstok_parse_literal] and the
    delimiter test after it; [lit] is what is left of the literal at index
    [i]. *)
Fixpoint literal_loop (lit : list Z) (p : jstok_parser) (json : list Z)
    (json_len : Z) (i : Z) : Z * jstok_parser :=
  match lit with
  | ch :: lit' =>
      if decide (pos p + i >= json_len) then
        (JSTOK_ERROR_PART, jstok_set_error p JSTOK_ERROR_PART (pos p + i))
      else if decide (json_at json (pos p + i) <> ch) then
        (JSTOK_ERROR_INVAL, jstok_set_error p JSTOK_ERROR_INVAL (pos p + i))
      else literal_loop lit' p json json_len (i + 1)
  | [] =>
      (* Next must be delimiter or EOF *)
      if bool_decide (pos p + i < json_len)
         && negb (jstok_is_delim (json_at json (pos p + i))) then
        (JSTOK_ERROR_INVAL, jstok_set_error p JSTOK_ERROR_INVAL (pos p + i))
      else (i, p)
  end.

Definition jstok_parse_literal (p : jstok_parser) (json : list Z)
    (json_len : Z) (lit : list Z) : Z * jstok_parser :=
  literal_loop lit p json json_len 0.

Definition lit_true : list Z := Eval cbv in bytes_of_string "true".
Definition lit_false : list Z := Eval cbv in bytes_of_string "false".
Definition lit_null : list Z := Eval cbv in bytes_of_string "null".

(** [while (i < json_len && jstok_is_digit(json[i])) i++;] run with as much
    fuel as there are bytes left, so that the fuel ends exactly when
    [i < json_len] fails. *)
Fixpoint digits_loop (fuel : nat) (json : list Z) (json_len : Z) (i : Z) : Z :=
  match fuel with
  | O => i
  | S fuel' =>
      if bool_decide (i < json_len) && jstok_is_digit (json_at json i)
      then digits_loop fuel' json json_len (i + 1)
      else i
  end.

Definition skip_digits (json : list Z) (json_len : Z) (i : Z) : Z :=
  digits_loop (Z.to_nat (json_len - i)) json json_len i.

(** [jstok_parse_number_span], cut at its four stages; each yields the
    return code, the parser and [*out_end] (0, the caller's initial value,
    when it is not written). *)

Definition number_tail (p : jstok_parser) (json : list Z) (json_len : Z) (i : Z)
    : Z * jstok_parser * Z :=
  (* Resume safety: If we hit EOF, we don't know if the number is done. *)
  if decide (i >= json_len) then
    (JSTOK_ERROR_PART, jstok_set_error p JSTOK_ERROR_PART i, 0)
  else if bool_decide (i < json_len) && negb (jstok_is_delim (json_at json i)) then
    (JSTOK_ERROR_INVAL, jstok_set_error p JSTOK_ERROR_INVAL i, 0)
  else (0, p, i).

Definition number_exp (p : jstok_parser) (json : list Z) (json_len : Z) (i : Z)
    : Z * jstok_parser * Z :=
  if bool_decide (i < json_len)
     && (bool_decide (json_at json i = ch_e) || bool_decide (json_at json i = ch_E)) then
    let i := i + 1 in
    if decide (i >= json_len) then
      (JSTOK_ERROR_PART, jstok_set_error p JSTOK_ERROR_PART i, 0)
    else
      let after_sign (i : Z) :=
        if negb (jstok_is_digit (json_at json i)) then
          (JSTOK_ERROR_INVAL, jstok_set_error p JSTOK_ERROR_INVAL i, 0)
        else number_tail p json json_len (skip_digits json json_len i) in
      if bool_decide (json_at json i = ch_plus) || bool_decide (json_at json i = ch_minus) then
        let i := i + 1 in
        if decide (i >= json_len) then
          (JSTOK_ERROR_PART, jstok_set_error p JSTOK_ERROR_PART i, 0)
        else after_sign i
      else after_sign i
  else number_tail p json json_len i.

Definition number_frac (p : jstok_parser) (json : list Z) (json_len : Z) (i : Z)
    : Z * jstok_parser * Z :=
  if bool_decide (i < json_len) && bool_decide (json_at json i = ch_dot) then
    let i := i + 1 in
    if decide (i >= json_len) then
      (JSTOK_ERROR_PART, jstok_set_error p JSTOK_ERROR_PART i, 0)
    else if negb (jstok_is_digit (json_at json i)) then
      (JSTOK_ERROR_INVAL, jstok_set_error p JSTOK_ERROR_INVAL i, 0)
    else number_exp p json json_len (skip_digits json json_len i)
  else number_exp p json json_len i.

Definition number_int (p : jstok_parser) (json : list Z) (json_len : Z) (i : Z)
    : Z * jstok_parser * Z :=
  if decide (json_at json i = ch_0) then
    let i := i + 1 in
    (* no leading zeros in strict JSON, but allow 0.<frac> or 0e... *)
    if bool_decide (i < json_len) && jstok_is_digit (json_at json i) && strict then
      (JSTOK_ERROR_INVAL, jstok_set_error p JSTOK_ERROR_INVAL i, 0)
    else number_frac p json json_len i
  else if bool_decide (json_at json i >= ch_1) && bool_decide (json_at json i <= ch_9) then
    number_frac p json json_len (skip_digits json json_len (i + 1))
  else
    (JSTOK_ERROR_INVAL, jstok_set_error p JSTOK_ERROR_INVAL i, 0).

Definition jstok_parse_number_span (p : jstok_parser) (json : list Z)
    (json_len : Z) : Z * jstok_parser * Z :=
  let i := pos p in
  if decide (i >= json_len) then
    (JSTOK_ERROR_PART, jstok_set_error p JSTOK_ERROR_PART i, 0)
  else if decide (json_at json i = ch_minus) then
    let i := i + 1 in
    if decide (i >= json_len) then
      (JSTOK_ERROR_PART, jstok_set_error p JSTOK_ERROR_PART i, 0)
    else number_int p json json_len i
  else number_int p json json_len i.

Definition jstok_parse_primitive_token (p : jstok_parser) (json : list Z)
    (json_len : Z) (toks : tokens) (max_tokens : Z) : Z * jstok_parser * tokens :=
  let start := pos p in
  if decide (pos p >= json_len) then
    (JSTOK_ERROR_PART, jstok_set_error p JSTOK_ERROR_PART (pos p), toks)
  else
    let literal (lit : list Z) :=
      let '(n, p1) := jstok_parse_literal p json json_len lit in
      if decide (n < 0) then (n, p1, toks)
      else
        let p2 := set_pos p1 (pos p1 + n) in
        jstok_new_token p2 toks max_tokens JSTOK_PRIMITIVE start (pos p2) in
    if decide (json_at json (pos p) = ch_t) then literal lit_true
    else if decide (json_at json (pos p) = ch_f) then literal lit_false
    else if decide (json_at json (pos p) = ch_n) then literal lit_null
    else
      (* number *)
      let '(n, p1, endpos) := jstok_parse_number_span p json json_len in
      if decide (n < 0) then (n, p1, toks)
      else
        let p2 := set_pos p1 endpos in
        jstok_new_token p2 toks max_tokens JSTOK_PRIMITIVE start (pos p2).

(** ** Container open and close *)

Definition jstok_start_container (p : jstok_parser) (toks : tokens)
    (max_tokens : Z) (type : jstoktype_t) : Z * jstok_parser * tokens :=
  (* This container token is a value for its parent *)
  let '(r, p1, toks1) := jstok_accept_value p toks in
  if decide (r < 0) then (r, p1, toks1)
  else
    let '(tok_idx, p2, toks2) :=
      jstok_new_token p1 toks1 max_tokens type (pos p1) (-1) in
    if decide (tok_idx < 0) then (tok_idx, p2, toks2)
    else
      let st := if decide (type = JSTOK_OBJECT)
                then JSTOK_ST_OBJ_KEY_OR_END else JSTOK_ST_ARR_VALUE_OR_END in
      (* Push new frame, tok_idx is -1 in count-only but that is fine *)
      let '(pushed, p3) :=
        jstok_push p2 type st (match toks2 with Some _ => tok_idx | None => -1 end) in
      if decide (pushed < 0) then (pushed, p3, toks2)
      else (tok_idx, set_pos p3 (pos p3 + 1), toks2). (* consume '{' or '[' *)

Definition jstok_end_container (p : jstok_parser) (toks : tokens)
    (type : jstoktype_t) (closer : Z) : Z * jstok_parser * tokens :=
  let inval := (JSTOK_ERROR_INVAL, jstok_set_error p JSTOK_ERROR_INVAL (pos p), toks) in
  match jstok_top p with
  | None => inval
  | Some fr =>
      let f := frame_at p fr in
      if decide (fr_type f <> type) then inval
      else
        (* Enforce valid closing state *)
        let state_ok :=
          if decide (type = JSTOK_OBJECT) then
            if decide (fr_st f = JSTOK_ST_OBJ_KEY) then false
            else if decide (fr_st f = JSTOK_ST_OBJ_COLON \/ fr_st f = JSTOK_ST_OBJ_VALUE) then false
            else if decide (fr_st f = JSTOK_ST_OBJ_KEY_OR_END \/ fr_st f = JSTOK_ST_OBJ_COMMA_OR_END) then true
            else false
          else
            if decide (fr_st f = JSTOK_ST_ARR_VALUE) then false
            else if decide (fr_st f = JSTOK_ST_ARR_VALUE_OR_END \/ fr_st f = JSTOK_ST_ARR_COMMA_OR_END) then true
            else false in
        if negb state_ok then inval
        else
          let tok_idx := fr_tok f in
          let toks1 :=
            match toks with
            | Some ts =>
                if decide (tok_idx >= 0) then
                  (* end is exclusive, so end after the closer *)
                  let ts := arr_set ts tok_idx (set_tok_end (tok_at ts tok_idx) (pos p + 1)) in
                  let ts :=
                    if decide (tok_start (tok_at ts tok_idx) < 0)
                    then arr_set ts tok_idx (set_tok_start (tok_at ts tok_idx) (pos p))
                    else ts in
                  let ts :=
                    if decide (tok_type (tok_at ts tok_idx) <> type)
                    then arr_set ts tok_idx (set_tok_type (tok_at ts tok_idx) type)
                    else ts in
                  Some ts
                else toks
            | None => toks
            end in
          (* Pop frame and consume closer *)
          let p1 := jstok_pop p in
          let p2 := if decide (closer <> 0) then set_pos p1 (pos p1 + 1) else p1 in
          (0, p2, toks1)
  end.

(** ** The driver *)

(** What one pass through the body of the [while (p->pos < json_len)] loop of
    [jstok_parse] does: [continue], or [return r]. *)
Inductive step_result :=
  | Continue (p : jstok_parser) (toks : tokens)
  | Return (r : Z) (p : jstok_parser) (toks : tokens).

(** The rollback of the side effects of [jstok_accept_value] that
    [jstok_parse] performs, twice inline, when the recognizer of the value
    answers [JSTOK_ERROR_PART]. *)
Definition rollback_value (p : jstok_parser) (toks : tokens) (fr : option Z)
    (saved_st : jstok_state_t) (saved_root_done : Z) : jstok_parser * tokens :=
  match fr with
  | Some fr => (set_frame_st p fr saved_st, dec_container_size p fr toks)
  | None => (set_root_done p saved_root_done, toks)
  end.

(** The test [jstok_parse] makes on a quote: [fr && fr->type == JSTOK_OBJECT
    && (fr->st == JSTOK_ST_OBJ_KEY_OR_END || fr->st == JSTOK_ST_OBJ_KEY)]. *)
Definition key_expected (p : jstok_parser) : bool :=
  match jstok_top p with
  | Some fr =>
      bool_decide (fr_type (frame_at p fr) = JSTOK_OBJECT)
      && (bool_decide (fr_st (frame_at p fr) = JSTOK_ST_OBJ_KEY_OR_END)
          || bool_decide (fr_st (frame_at p fr) = JSTOK_ST_OBJ_KEY))
  | None => false
  end.

Definition jstok_parse_step (json : list Z) (json_len : Z) (max_tokens : Z)
    (p : jstok_parser) (toks : tokens) : option step_result :=
  let c := json_at json (pos p) in
  if jstok_is_space c then Some (Continue (set_pos p (pos p + 1)) toks)
  else
    let fr := jstok_top p in
    let inval := Some (Return JSTOK_ERROR_INVAL
                         (jstok_set_error p JSTOK_ERROR_INVAL (pos p)) toks) in
    if decide (c = ch_lbrace) then
      let '(r, p1, toks1) := jstok_start_container p toks max_tokens JSTOK_OBJECT in
      if decide (r < 0) then Some (Return r p1 toks1) else Some (Continue p1 toks1)
    else if decide (c = ch_lbracket) then
      let '(r, p1, toks1) := jstok_start_container p toks max_tokens JSTOK_ARRAY in
      if decide (r < 0) then Some (Return r p1 toks1) else Some (Continue p1 toks1)
    else if decide (c = ch_rbrace \/ c = ch_rbracket) then
      let '(r, p1, toks1) :=
        if decide (c = ch_rbrace)
        then jstok_end_container p toks JSTOK_OBJECT ch_rbrace
        else jstok_end_container p toks JSTOK_ARRAY ch_rbracket in
      if decide (r < 0) then Some (Return r p1 toks1) else Some (Continue p1 toks1)
    else if decide (c = ch_colon) then
      match fr with
      | None => inval
      | Some fr =>
          if decide (fr_type (frame_at p fr) <> JSTOK_OBJECT
                     \/ fr_st (frame_at p fr) <> JSTOK_ST_OBJ_COLON) then inval
          else
            let p1 := set_frame_st p fr JSTOK_ST_OBJ_VALUE in
            Some (Continue (set_pos p1 (pos p1 + 1)) toks)
      end
    else if decide (c = ch_comma) then
      match fr with
      | None => inval
      | Some fr =>
          if decide (fr_type (frame_at p fr) = JSTOK_OBJECT) then
            if decide (fr_st (frame_at p fr) <> JSTOK_ST_OBJ_COMMA_OR_END) then inval
            else
              let p1 := set_frame_st p fr JSTOK_ST_OBJ_KEY in
              Some (Continue (set_pos p1 (pos p1 + 1)) toks)
          else
            if decide (fr_st (frame_at p fr) <> JSTOK_ST_ARR_COMMA_OR_END) then inval
            else
              let p1 := set_frame_st p fr JSTOK_ST_ARR_VALUE in
              Some (Continue (set_pos p1 (pos p1 + 1)) toks)
      end
    else if decide (c = ch_quote) then
      if key_expected p then
        (* If we're in an object expecting a key, treat as key *)
        let fri := default 0 fr in
        let saved_st := fr_st (frame_at p fri) in
        '(tok_idx, p1, toks1) ← jstok_parse_string_token p json json_len toks max_tokens;
        if decide (tok_idx < 0) then
          if decide (tok_idx = JSTOK_ERROR_PART)
          then Some (Return tok_idx (set_frame_st p1 fri saved_st) toks1)
          else Some (Return tok_idx p1 toks1)
        else
          let '(r, p2) := jstok_accept_key p1 in
          if decide (r < 0) then Some (Return r p2 toks1) else Some (Continue p2 toks1)
      else
        (* Otherwise treat as a value *)
        let saved_st := match fr with Some fr => fr_st (frame_at p fr)
                                    | None => JSTOK_ST_OBJ_KEY_OR_END end in
        let saved_root_done := root_done p in
        let '(r, p1, toks1) := jstok_accept_value p toks in
        if decide (r < 0) then Some (Return r p1 toks1)
        else
          '(tok_idx, p2, toks2) ← jstok_parse_string_token p1 json json_len toks1 max_tokens;
          if decide (tok_idx < 0) then
            if decide (tok_idx = JSTOK_ERROR_PART) then
              (* Rollback accept_value side effects *)
              let '(p3, toks3) := rollback_value p2 toks2 fr saved_st saved_root_done in
              Some (Return tok_idx p3 toks3)
            else Some (Return tok_idx p2 toks2)
          else Some (Continue p2 toks2)
    else
      (* Primitive value *)
      let saved_st := match fr with Some fr => fr_st (frame_at p fr)
                                  | None => JSTOK_ST_OBJ_KEY_OR_END end in
      let saved_root_done := root_done p in
      let '(r, p1, toks1) := jstok_accept_value p toks in
      if decide (r < 0) then Some (Return r p1 toks1)
      else
        let '(r, p2, toks2) := jstok_parse_primitive_token p1 json json_len toks1 max_tokens in
        if decide (r < 0) then
          if decide (r = JSTOK_ERROR_PART) then
            (* Rollback accept_value side effects *)
            let '(p3, toks3) := rollback_value p2 toks2 fr saved_st saved_root_done in
            Some (Return r p3 toks3)
          else Some (Return r p2 toks2)
        else Some (Continue p2 toks2).

(** The code of [jstok_parse] after the loop. *)
Definition jstok_parse_finish (p : jstok_parser) (toks : tokens)
    : Z * jstok_parser * tokens :=
  (* In strict mode, require exactly one top-level value *)
  if strict && bool_decide (depth p = 0) && bool_decide (root_done p = 0) then
    (JSTOK_ERROR_PART, jstok_set_error p JSTOK_ERROR_PART (pos p), toks)
  (* If input ended but containers are open, it's incomplete *)
  else if decide (depth p <> 0) then
    (JSTOK_ERROR_PART, jstok_set_error p JSTOK_ERROR_PART (pos p), toks)
  (* Success: tokens used or required token count *)
  else (toknext p, p, toks).

Fixpoint jstok_parse_loop (fuel : nat) (json : list Z) (json_len : Z)
    (max_tokens : Z) (p : jstok_parser) (toks : tokens)
    : option (Z * jstok_parser * tokens) :=
  if decide (pos p < json_len) then
    match fuel with
    | O => None
    | S fuel' =>
        match jstok_parse_step json json_len max_tokens p toks with
        | None => None
        | Some (Return r p1 toks1) => Some (r, p1, toks1)
        | Some (Continue p1 toks1) =>
            jstok_parse_loop fuel' json json_len max_tokens p1 toks1
        end
    end
  else Some (jstok_parse_finish p toks).

(** [jstok_parse] once its arguments are known to be valid: the parser and
    the buffer are not [NULL] and [json_len >= 0]. *)
Definition jstok_parse_body (p : jstok_parser) (json : list Z) (json_len : Z)
    (toks : tokens) (max_tokens : Z) : option (Z * jstok_parser * tokens) :=
  (* Reset error reporting for this call *)
  let p := jstok_set_error p 0 (-1) in
  jstok_parse_loop (Z.to_nat (json_len - pos p)) json json_len max_tokens p toks.

Definition jstok_parse (p : option jstok_parser) (json : option (list Z))
    (json_len : Z) (toks : tokens) (max_tokens : Z)
    : option (Z * option jstok_parser * tokens) :=
  match p, json with
  | Some p', Some json' =>
      if decide (json_len < 0) then
        Some (JSTOK_ERROR_INVAL, Some (jstok_set_error p' JSTOK_ERROR_INVAL 0), toks)
      else
        '(r, p1, toks1) ← jstok_parse_body p' json' json_len toks max_tokens;
        Some (r, Some p1, toks1)
  | Some p', None =>
      Some (JSTOK_ERROR_INVAL, Some (jstok_set_error p' JSTOK_ERROR_INVAL 0), toks)
  | None, _ => Some (JSTOK_ERROR_INVAL, None, toks)
  end.

End Parser.

(** ** Helpers: [jstok_skip] *)

(** A C [int] after an operation that may leave its range (two's complement). *)
Definition wrap_int (z : Z) : Z := (z + 2 ^ 31) mod 2 ^ 32 - 2 ^ 31.

(** The [while (sp > 0)] loop of [jstok_skip]; [rem] is the local array
    [int rem[JSTOK_MAX_DEPTH]]. *)
Fixpoint skip_loop (fuel : nat) (toks : list jstoktok_t) (count : Z)
    (idx sp : Z) (rem : list Z) : option Z :=
  if decide (sp > 0) then
    match fuel with
    | O => None
    | S fuel' =>
        if decide (arr_get 0 rem (sp - 1) = 0) then
          skip_loop fuel' toks count idx (sp - 1) rem
        else
          let rem := arr_set rem (sp - 1) (wrap_int (arr_get 0 rem (sp - 1) - 1)) in
          if decide (idx >= count) then Some count
          else
            let t := tok_at toks idx in
            if decide (tok_type t = JSTOK_STRING \/ tok_type t = JSTOK_PRIMITIVE) then
              skip_loop fuel' toks count (idx + 1) sp rem
            else if decide (sp >= JSTOK_MAX_DEPTH) then Some count
            else if decide (tok_type t = JSTOK_ARRAY) then
              skip_loop fuel' toks count (idx + 1) (sp + 1) (arr_set rem sp (tok_size t))
            else if decide (tok_type t = JSTOK_OBJECT) then
              skip_loop fuel' toks count (idx + 1) (sp + 1)
                (arr_set rem sp (wrap_int (tok_size t * 2)))
            else skip_loop fuel' toks count (idx + 1) sp rem
    end
  else Some idx.

(** Skip subtree without recursion using a small stack. *)
Definition jstok_skip (toks : option (list jstoktok_t)) (count i : Z) : option Z :=
  match toks with
  | None => Some count
  | Some ts =>
      if decide (i < 0 \/ i >= count) then Some count
      else
        let t := tok_at ts i in
        if decide (tok_type t = JSTOK_STRING \/ tok_type t = JSTOK_PRIMITIVE) then Some (i + 1)
        else
          let idx := i + 1 in
          let rem := replicate (Z.to_nat JSTOK_MAX_DEPTH) 0 in
          (* immediate children count *)
          if decide (tok_type t = JSTOK_ARRAY) then
            skip_loop (Z.to_nat (2 * (count - idx)) + 2) ts count idx 1
              (arr_set rem 0 (tok_size t))
          else if decide (tok_type t = JSTOK_OBJECT) then
            skip_loop (Z.to_nat (2 * (count - idx)) + 2) ts count idx 1
              (arr_set rem 0 (wrap_int (tok_size t * 2)))
          else Some (i + 1)
  end.

(** ** Helpers: [jstok_sse_next] *)

(** A [jstok_span_t] over the scanned buffer: the offset of [p] in [buf],
    and [n]. *)
Record jstok_span_t := mk_span { span_p : Z; span_n : Z }.

(** [jstok_str_prefix (buf + start, len, prefix)]. *)
Fixpoint str_prefix_loop (prefix : list Z) (buf : list Z) (start len : Z) (i : Z) : Z :=
  match prefix with
  | ch :: prefix' =>
      if decide (i >= len \/ json_at buf (start + i) <> ch) then 0
      else str_prefix_loop prefix' buf start len (i + 1)
  | [] => i (* Return length of prefix *)
  end.

Definition jstok_str_prefix (buf : list Z) (start len : Z) (prefix : list Z) : Z :=
  str_prefix_loop prefix buf start len 0.

Definition lit_data : list Z := Eval cbv in bytes_of_string "data:".

(** [while (i < len && buf[i] != '\n') i++;] on exactly as much fuel as
    there are bytes left. *)
Fixpoint newline_loop (fuel : nat) (buf : list Z) (len : Z) (i : Z) : Z :=
  match fuel with
  | O => i
  | S fuel' =>
      if bool_decide (i < len) && negb (bool_decide (json_at buf i = ch_lf))
      then newline_loop fuel' buf len (i + 1)
      else i
  end.

(** [jstok_sse_next]; the function calls itself to pass over the lines it
    skips, which the fuel bounds.  The result is the return value, [*pos]
    and [*out] ([out] may be [NULL]). *)
Fixpoint sse_next_rec (fuel : nat) (buf : list Z) (len : Z) (pos_ : Z)
    (out : option jstok_span_t) : option (Z * Z * option jstok_span_t) :=
  match fuel with
  | O => None
  | S fuel' =>
      let start := pos_ in
      (* Scan for newline *)
      let i := newline_loop (Z.to_nat (len - start)) buf len start in
      if decide (i >= len) then
        (* Line not complete *)
        Some (0, pos_, out)
      else
        (* Check for \r before \n *)
        let line_len := i - start in
        let line_len :=
          if bool_decide (line_len > 0)
             && bool_decide (json_at buf (start + line_len - 1) = ch_cr)
          then line_len - 1 else line_len in
        (* Advance position for next call (skip \n) *)
        let pos_ := i + 1 in
        (* Skip empty lines *)
        if decide (line_len = 0) then sse_next_rec fuel' buf len pos_ out
        else
          (* Check for "data:" prefix *)
          let prefix_len := jstok_str_prefix buf start line_len lit_data in
          if decide (prefix_len > 0) then
            (* Found data line *)
            let payload := start + prefix_len in
            let payload_len := line_len - prefix_len in
            (* Skip leading space if present *)
            let '(payload, payload_len) :=
              if bool_decide (payload_len > 0)
                 && bool_decide (json_at buf payload = ch_space)
              then (payload + 1, payload_len - 1) else (payload, payload_len) in
            Some (1, pos_,
                  match out with
                  | Some _ => Some (mk_span payload payload_len)
                  | None => None
                  end)
          else
            (* Found a line, but it wasn't "data:", skip it *)
            sse_next_rec fuel' buf len pos_ out
  end.

Definition jstok_sse_next (buf : list Z) (len : Z) (pos_ : Z)
    (out : option jstok_span_t) : option (Z * Z * option jstok_span_t) :=
  sse_next_rec (Z.to_nat (len - pos_) + 1) buf len pos_ out.

(** ** Helpers: [jstok_span], [jstok_eq] *)

(** [jstok_span]; the span is given by the offset of [p] in [json], and
    [None] stands for the span [{NULL, 0}] that the function returns on bad
    arguments. *)
Definition jstok_span (json : option (list Z)) (t : option jstoktok_t)
    : option jstok_span_t :=
  match json, t with
  | Some _, Some t =>
      if decide (tok_start t < 0 \/ tok_end t < tok_start t) then None
      else Some (mk_span (tok_start t) (tok_end t - tok_start t))
  | _, _ => None
  end.

(** A C string is the list of its bytes; [json_at s (length s)] is the
    terminating NUL, and a zero byte inside the list ends the string early.
    [while (s[n] != '\0') n++;] on as much fuel as the list has bytes, so that
    the fuel ends on the terminator. *)
Fixpoint cstr_len_loop (fuel : nat) (s : list Z) (n : Z) : Z :=
  match fuel with
  | O => n
  | S fuel' =>
      if decide (json_at s n <> 0) then cstr_len_loop fuel' s (n + 1) else n
  end.

Definition jstok_cstr_len (s : option (list Z)) : Z :=
  match s with
  | None => 0
  | Some s => cstr_len_loop (length s) s 0
  end.

(** [for (i = 0; i < n; i++) if (sp.p[i] != s[i]) return 0;] with one unit
    of fuel for each of the [n] rounds. *)
Fixpoint eq_loop (rounds : nat) (json : list Z) (sp : jstok_span_t)
    (s : list Z) (i : Z) : Z :=
  match rounds with
  | O => 1
  | S rounds' =>
      if decide (json_at json (span_p sp + i) <> json_at s i) then 0
      else eq_loop rounds' json sp s (i + 1)
  end.

Definition jstok_eq (json : option (list Z)) (t : option jstoktok_t)
    (s : option (list Z)) : Z :=
  match json, t, s with
  | Some json', Some _, Some s' =>
      match jstok_span json t with
      | None => 0
      | Some sp =>
          let n := jstok_cstr_len s in
          if decide (span_n sp <> n) then 0
          else eq_loop (Z.to_nat n) json' sp s' 0
      end
  | _, _, _ => 0
  end.

(** ** Helpers: [jstok_array_at], [jstok_object_get] *)

(** The [for (i = 0; i < idx; i++)] loop of [jstok_array_at]. *)
Fixpoint array_at_loop (rounds : nat) (toks : list jstoktok_t) (count cur : Z)
    : option Z :=
  match rounds with
  | O => Some cur
  | S rounds' =>
      cur ← jstok_skip (Some toks) count cur;
      if decide (cur >= count) then Some (-1)
      else array_at_loop rounds' toks count cur
  end.

Definition jstok_array_at (toks : option (list jstoktok_t))
    (count arr_tok idx : Z) : option Z :=
  match toks with
  | None => Some (-1)
  | Some ts =>
      if decide (arr_tok < 0 \/ arr_tok >= count) then Some (-1)
      else if decide (tok_type (tok_at ts arr_tok) <> JSTOK_ARRAY) then Some (-1)
      else if decide (idx < 0 \/ idx >= tok_size (tok_at ts arr_tok)) then Some (-1)
      else array_at_loop (Z.to_nat idx) ts count (arr_tok + 1)
  end.

(** The [for (pair = 0; pair < toks[obj_tok].size; pair++)] loop of
    [jstok_object_get]. *)
Fixpoint object_get_loop (rounds : nat) (json : list Z) (toks : list jstoktok_t)
    (count cur : Z) (key : list Z) : option Z :=
  match rounds with
  | O => Some (-1)
  | S rounds' =>
      let k := cur in
      let v := k + 1 in
      if decide (v >= count) then Some (-1)
      else if bool_decide (tok_type (tok_at toks k) = JSTOK_STRING)
              && negb (bool_decide
                         (jstok_eq (Some json) (Some (tok_at toks k)) (Some key) = 0))
      then Some v
      else
        cur ← jstok_skip (Some toks) count v;
        if decide (cur >= count) then Some (-1)
        else object_get_loop rounds' json toks count cur key
  end.

Definition jstok_object_get (json : option (list Z))
    (toks : option (list jstoktok_t)) (count obj_tok : Z)
    (key : option (list Z)) : option Z :=
  match json, toks, key with
  | Some json', Some ts, Some key' =>
      if decide (obj_tok < 0 \/ obj_tok >= count) then Some (-1)
      else if decide (tok_type (tok_at ts obj_tok) <> JSTOK_OBJECT) then Some (-1)
      else
        object_get_loop (Z.to_nat (tok_size (tok_at ts obj_tok)))
          json' ts count (obj_tok + 1) key'
  | _, _, _ => Some (-1)
  end.

(** ** Helpers: [jstok_atoi64], [jstok_atob] *)

(** A C [long long] after an operation that may leave its range. *)
Definition wrap_ll (z : Z) : Z := (z + 2 ^ 63) mod 2 ^ 64 - 2 ^ 63.

(** The [for (; i < sp.n; i++)] loop of [jstok_atoi64]: [None] is the
    [return -1] inside it, [Some val] the value at the exit. *)
Fixpoint atoi64_loop (rounds : nat) (json : list Z) (sp : jstok_span_t)
    (i val : Z) : option Z :=
  match rounds with
  | O => Some val
  | S rounds' =>
      let c := json_at json (span_p sp + i) in
      if decide (c < ch_0 \/ c > ch_9) then None
      else atoi64_loop rounds' json sp (i + 1) (wrap_ll (val * 10 + (c - ch_0)))
  end.

(** [jstok_atoi64]; [out] is the content of [*out] ([None] when the pointer
    is [NULL]), and the result is the return value with the content of
    [*out] after the call. *)
Definition jstok_atoi64 (json : option (list Z)) (t : option jstoktok_t)
    (out : option Z) : Z * option Z :=
  match json, t, out with
  | Some json', Some t', Some _ =>
      if decide (tok_type t' <> JSTOK_PRIMITIVE) then (-1, out)
      else
        match jstok_span json t with
        | None => (-1, out)
        | Some sp =>
            if decide (span_n sp = 0) then (-1, out)
            else
              let finish (sign i : Z) :=
                match atoi64_loop (Z.to_nat (span_n sp - i)) json' sp i 0 with
                | None => (-1, out)
                | Some val => (0, Some (wrap_ll (val * sign)))
                end in
              if decide (json_at json' (span_p sp) = ch_minus) then
                if decide (1 >= span_n sp) then (-1, out)
                else finish (-1) 1
              else finish 1 0
        end
  | _, _, _ => (-1, out)
  end.

Definition jstok_atob (json : option (list Z)) (t : option jstoktok_t)
    (out : option Z) : Z * option Z :=
  match json, t, out with
  | Some _, Some t', Some _ =>
      if decide (tok_type t' <> JSTOK_PRIMITIVE) then (-1, out)
      else if decide (jstok_eq json t (Some lit_true) <> 0) then (0, Some 1)
      else if decide (jstok_eq json t (Some lit_false) <> 0) then (0, Some 0)
      else (-1, out)
  | _, _, _ => (-1, out)
  end.
(** ** Helpers: [jstok_unescape] *)

Definition jstok_hexval (c : Z) : Z :=
  if decide (c >= ch_0 /\ c <= ch_9) then c - ch_0
  else if decide (c >= ch_a /\ c <= ch_f) then c - ch_a + 10
  else if decide (c >= ch_A /\ c <= ch_F) then c - ch_A + 10
  else -1.

(** The [for (i = 0; i < sp.n; i++)] loop of [jstok_unescape]; it yields the
    return value, the buffer [out] and the write offset [w].  On [-1] the
    buffer keeps what was written before the failure. *)
Fixpoint unescape_loop (fuel : nat) (json : list Z) (sp : jstok_span_t)
    (out_cap : Z) (i w : Z) (out : list Z) : option (Z * list Z * Z) :=
  if decide (i < span_n sp) then
    match fuel with
    | O => None
    | S fuel' =>
        let c := json_at json (span_p sp + i) in
        let put (i : Z) (b : Z) :=
          if decide (w >= out_cap) then Some (-1, out, w)
          else unescape_loop fuel' json sp out_cap (i + 1) (w + 1) (arr_set out w b) in
        if decide (c <> ch_backslash) then put i c
        else
          let i := i + 1 in
          if decide (i >= span_n sp) then Some (-1, out, w)
          else
            let c := json_at json (span_p sp + i) in
            if decide (c = ch_quote \/ c = ch_backslash \/ c = ch_slash) then put i c
            else if decide (c = ch_b) then put i 8
            else if decide (c = ch_f) then put i 12
            else if decide (c = ch_n) then put i ch_lf
            else if decide (c = ch_r) then put i ch_cr
            else if decide (c = ch_t) then put i ch_tab
            else if decide (c = ch_u) then
              if decide (i + 4 >= span_n sp) then Some (-1, out, w)
              else
                let v0 := jstok_hexval (json_at json (span_p sp + (i + 1))) in
                let v1 := jstok_hexval (json_at json (span_p sp + (i + 2))) in
                let v2 := jstok_hexval (json_at json (span_p sp + (i + 3))) in
                let v3 := jstok_hexval (json_at json (span_p sp + (i + 4))) in
                if decide (v0 < 0 \/ v1 < 0 \/ v2 < 0 \/ v3 < 0) then Some (-1, out, w)
                else
                  let code :=
                    Z.lor (Z.lor (Z.lor (Z.shiftl v0 12) (Z.shiftl v1 8))
                             (Z.shiftl v2 4)) v3 in
                  let i := i + 4 in
                  (* Encode as UTF-8, minimal *)
                  if decide (code <= 127) then
                    if decide (w + 1 > out_cap) then Some (-1, out, w)
                    else
                      unescape_loop fuel' json sp out_cap (i + 1) (w + 1)
                        (arr_set out w code)
                  else if decide (code <= 2047) then
                    if decide (w + 2 > out_cap) then Some (-1, out, w)
                    else
                      unescape_loop fuel' json sp out_cap (i + 1) (w + 2)
                        (arr_set
                           (arr_set out w
                              (Z.lor 192 (Z.land (Z.shiftr code 6) 31)))
                           (w + 1) (Z.lor 128 (Z.land code 63)))
                  else
                    if decide (w + 3 > out_cap) then Some (-1, out, w)
                    else
                      unescape_loop fuel' json sp out_cap (i + 1) (w + 3)
                        (arr_set
                           (arr_set
                              (arr_set out w
                                 (Z.lor 224 (Z.land (Z.shiftr code 12) 15)))
                              (w + 1) (Z.lor 128 (Z.land (Z.shiftr code 6) 63)))
                           (w + 2) (Z.lor 128 (Z.land code 63)))
            else Some (-1, out, w)
    end
  else Some (0, out, w).

(** [jstok_unescape]; [out] is the output buffer and [out_len] the content
    of [*out_len] ([None] for a [NULL] pointer); the result is the return
    value with the buffer and [*out_len] after the call. *)
Definition jstok_unescape (json : option (list Z)) (t : option jstoktok_t)
    (out : option (list Z)) (out_cap : Z) (out_len : option Z)
    : option (Z * option (list Z) * option Z) :=
  match json, t, out, out_len with
  | Some json', Some t', Some out', Some _ =>
      if decide (tok_type t' <> JSTOK_STRING) then Some (-1, out, out_len)
      else
        match jstok_span json t with
        | None => Some (-1, out, out_len)
        | Some sp =>
            '(r, out1, w) ← unescape_loop (Z.to_nat (span_n sp)) json' sp out_cap 0 0 out';
            if decide (r < 0) then Some (r, Some out1, out_len)
            else Some (0, Some out1, Some w)
        end
  | _, _, _, _ => Some (-1, out, out_len)
  end.

(** ** Helpers: [jstok_path] *)

(** One variadic argument of [jstok_path]: a key (a C string, [NULL] being
    the sentinel) or an array index. *)
Inductive path_arg :=
  | PathKey (key : option (list Z))
  | PathIdx (idx : Z).

(** The [while (curr >= 0 && curr < count)] loop of [jstok_path] over the
    variadic arguments.  Reading an argument that was not passed, or one of
    the other kind, is undefined in C: the model answers [None]. *)
Fixpoint path_loop (args : list path_arg) (json : list Z)
    (toks : list jstoktok_t) (count curr : Z) : option Z :=
  if decide (curr >= 0 /\ curr < count) then
    let type := tok_type (tok_at toks curr) in
    if decide (type = JSTOK_OBJECT) then
      match args with
      | PathKey None :: _ => Some curr (* Sentinel reached *)
      | PathKey (Some key) :: args' =>
          curr ← jstok_object_get (Some json) (Some toks) count curr (Some key);
          path_loop args' json toks count curr
      | _ => None
      end
    else if decide (type = JSTOK_ARRAY) then
      match args with
      | PathIdx idx :: args' =>
          curr ← jstok_array_at (Some toks) count curr idx;
          path_loop args' json toks count curr
      | _ => None
      end
    else
      (* Primitive or String: cannot traverse deeper *)
      Some curr
  else Some curr.

Definition jstok_path (json : option (list Z)) (toks : option (list jstoktok_t))
    (count root : Z) (args : list path_arg) : option Z :=
  match json, toks with
  | Some json', Some ts =>
      if decide (root < 0 \/ root >= count) then Some (-1)
      else path_loop args json' ts count root
  | _, _ => Some (-1)
  end.

(** * Definitions for the statements and the proofs *)

(** ** Inputs of the concrete scenarios *)

Definition json_array_123 : list Z := Eval cbv in bytes_of_string "[1,2,3]".

(** A parser struct whose stack array holds arbitrary frames. *)
Definition parser_with_stack (fs : list jstok_frame_t) : jstok_parser :=
  mk_parser 0 0 0 0 0 0 fs.

Definition blank_parser : jstok_parser :=
  parser_with_stack (replicate (Z.to_nat JSTOK_MAX_DEPTH) no_frame).

Definition blank_tokens (n : nat) : list jstoktok_t := replicate n no_token.

(** [n] opening brackets followed by [n] closing brackets. *)
Definition nested_arrays (n : nat) : list Z :=
  replicate n ch_lbracket ++ replicate n ch_rbracket.

(** The parser after 64 opening brackets in count-only mode. *)
Definition parser_at_depth_64 : jstok_parser :=
  mk_parser 64 64 64 1 (-1) 0
    (replicate 63 (mk_frame JSTOK_ARRAY JSTOK_ST_ARR_COMMA_OR_END (-1))
     ++ [mk_frame JSTOK_ARRAY JSTOK_ST_ARR_VALUE_OR_END (-1)]).

(** Test documents are written with single quotes standing for the double
    quotes of JSON. *)
Definition json_doc (s : string) : list Z :=
  (fun c => if decide (c = 39) then ch_quote else c) <$> bytes_of_string s.

Definition json_async : list Z :=
  Eval cbv in json_doc "{'async':'working','num':1234}".

Definition json_12 : list Z := Eval cbv in bytes_of_string "12".

Definition json_partial_escape : list Z :=
  Eval cbv in ch_quote :: bytes_of_string "a\u12".


Definition json_blank : list Z := [ch_space; ch_tab; ch_lf; ch_cr].

Definition sse_data_x : list Z := Eval cbv in bytes_of_string "data: x" ++ [ch_lf].

Definition skip_tokens : list jstoktok_t :=
  [mk_tok JSTOK_ARRAY 0 13 2;
   mk_tok JSTOK_PRIMITIVE 1 2 0;
   mk_tok JSTOK_OBJECT 3 12 1;
   mk_tok JSTOK_STRING 5 6 0;
   mk_tok JSTOK_PRIMITIVE 8 11 0].

(** ** The number grammar of the specification *)

(** The number grammar in the words of the specification:
    number = '-'? int frac? exp?, int = '0' | [1-9] [0-9]*,
    frac = '.' [0-9]+, exp = [eE] [+-]? [0-9]+.  It serves only to say that a
    document is a JSON number. *)
Definition spec_is_digit (c : Z) : bool := bool_decide (ch_0 <= c <= ch_9).

Fixpoint spec_digits (l : list Z) : list Z :=
  match l with
  | c :: l' => if spec_is_digit c then spec_digits l' else l
  | [] => []
  end.

Definition spec_digits1 (l : list Z) : option (list Z) :=
  match l with
  | c :: l' => if spec_is_digit c then Some (spec_digits l') else None
  | [] => None
  end.

Definition spec_int (l : list Z) : option (list Z) :=
  match l with
  | c :: l' =>
      if bool_decide (c = ch_0) then Some l'
      else if bool_decide (ch_1 <= c <= ch_9) then Some (spec_digits l')
      else None
  | [] => None
  end.

Definition spec_frac (l : list Z) : option (list Z) :=
  match l with
  | c :: l' => if bool_decide (c = ch_dot) then spec_digits1 l' else Some l
  | [] => Some []
  end.

Definition spec_exp (l : list Z) : option (list Z) :=
  match l with
  | c :: l' =>
      if bool_decide (c = ch_e \/ c = ch_E) then
        match l' with
        | s :: l'' =>
            if bool_decide (s = ch_plus \/ s = ch_minus)
            then spec_digits1 l'' else spec_digits1 l'
        | [] => None
        end
      else Some l
  | [] => Some []
  end.

Definition spec_number (l : list Z) : bool :=
  let l := match l with
           | c :: l' => if bool_decide (c = ch_minus) then l' else l
           | [] => []
           end in
  match spec_int l with
  | Some l1 =>
      match spec_frac l1 with
      | Some l2 =>
          match spec_exp l2 with
          | Some [] => true
          | _ => false
          end
      | None => false
      end
  | None => false
  end.

(** ** The string recognizer as a scan of the buffer *)

(** Where the loop of [jstok_parse_string_token] stops, as a function of the
    buffer alone: at the closing quote, at an offending byte, or at the end
    of the buffer. *)
Inductive scan_result :=
  | ScanClose (e : Z)
  | ScanInval (e : Z)
  | ScanPart (e : Z).

Fixpoint string_scan (fuel : nat) (json : list Z) (json_len ps : Z)
    : option scan_result :=
  if decide (ps < json_len) then
    match fuel with
    | O => None
    | S fuel' =>
        let c := json_at json ps in
        if decide (c < 32) then Some (ScanInval ps)
        else if decide (c = ch_quote) then Some (ScanClose ps)
        else if decide (c = ch_backslash) then
          let ps := ps + 1 in
          if decide (ps >= json_len) then Some (ScanPart ps)
          else
            let c := json_at json ps in
            if is_simple_escape c then string_scan fuel' json json_len (ps + 1)
            else if decide (c = ch_u) then
              match hex4_loop 4 json json_len ps with
              | Hex4Part e => Some (ScanPart e)
              | Hex4Inval e => Some (ScanInval e)
              | Hex4Ok e => string_scan fuel' json json_len (e + 1)
              end
            else Some (ScanInval ps)
        else string_scan fuel' json json_len (ps + 1)
    end
  else Some (ScanPart ps).

(** What [jstok_parse_string_token] does with the parser once the scan has
    stopped. *)
Definition string_outcome (max_tokens start_quote : Z) (p : jstok_parser)
    (toks : tokens) (s : scan_result) : Z * jstok_parser * tokens :=
  match s with
  | ScanClose e =>
      let '(i, p1, toks1) :=
        jstok_new_token (set_pos p e) toks max_tokens JSTOK_STRING (start_quote + 1) e in
      if decide (i < 0) then (i, p1, toks1)
      else (i, set_pos p1 (pos p1 + 1), toks1)
  | ScanInval e =>
      (JSTOK_ERROR_INVAL, jstok_set_error (set_pos p e) JSTOK_ERROR_INVAL e, toks)
  | ScanPart e =>
      (JSTOK_ERROR_PART,
       set_pos (jstok_set_error (set_pos p e) JSTOK_ERROR_PART e) start_quote, toks)
  end.

(** ** Answers of the recognizers and of the loop body *)

(** What [jstok_parse_number_span] can answer: 0 with the parser untouched
    and the end offset short of the end of the buffer, or an error recorded
    in the parser with [*out_end] not written. *)
Definition number_result_ok (p : jstok_parser) (json_len lo : Z)
    (res : Z * jstok_parser * Z) : Prop :=
  (res.1.1 = 0 /\ res.1.2 = p /\ lo <= res.2 < json_len)
  \/ ((res.1.1 = JSTOK_ERROR_PART \/ res.1.1 = JSTOK_ERROR_INVAL)
      /\ res.2 = 0 /\ exists x, res.1.2 = jstok_set_error p res.1.1 x).

(** The first [n] bytes of [lit] stand in the buffer at offset [ps]. *)
Definition lit_matches (json : list Z) (ps : Z) (lit : list Z) (n : nat) : Prop :=
  forall idx, (idx < n)%nat -> json_at json (ps + Z.of_nat idx) = nth idx lit 0.

(** The three kinds of answer of [jstok_parse_string_token] and
    [jstok_parse_primitive_token] on a parser [p] whose scan position is
    inside the buffer: [JSTOK_ERROR_PART] with nothing but the error fields
    changed; another error; or the index of the new token, with the position
    moved forward and the counter incremented. *)
Definition token_result (p : jstok_parser) (toks : tokens) (max_tokens json_len : Z)
    (res : Z * jstok_parser * tokens) : Prop :=
  (res.1.1 = JSTOK_ERROR_PART /\ res.2 = toks
   /\ exists x, res.1.2 = jstok_set_error p JSTOK_ERROR_PART x)
  \/ ((res.1.1 = JSTOK_ERROR_INVAL \/ res.1.1 = JSTOK_ERROR_NOMEM) /\ res.2 = toks
      /\ exists e x, res.1.2 = jstok_set_error (set_pos p e) res.1.1 x)
  \/ (res.1.1 = toknext p
      /\ (toks = None \/ toknext p < max_tokens)
      /\ exists e ty s en,
           pos p < e <= json_len
           /\ res.1.2 = set_toknext (set_pos p e) (toknext p + 1)
           /\ res.2 = (fun ts => arr_set ts (toknext p) (mk_tok ty s en 0)) <$> toks).

(** What a pass that continues has done to the scalar fields: the position
    moved forward inside the buffer, at most one token was counted, the
    error fields were not touched. *)
Definition continue_ok (json_len : Z) (p p' : jstok_parser) : Prop :=
  pos p < pos p' <= json_len
  /\ toknext p <= toknext p' <= toknext p + 1
  /\ error_pos p' = error_pos p /\ error_code p' = error_code p.

(** What a pass that returns has done: an error code, and on
    [JSTOK_ERROR_PART] nothing but the error fields has changed. *)
Definition return_ok (p : jstok_parser) (toks : tokens) (r : Z)
    (p' : jstok_parser) (toks' : tokens) : Prop :=
  r < 0
  /\ (r = JSTOK_ERROR_PART ->
      toks' = toks /\ exists x, p' = jstok_set_error p JSTOK_ERROR_PART x).

(** The value paths of the loop body: [jstok_accept_value], then a
    recognizer whose answer is a [token_result], then the rollback. *)
Definition value_path (strict : bool) (p : jstok_parser) (toks : tokens)
    (recognize : jstok_parser -> tokens -> option (Z * jstok_parser * tokens))
    : option step_result :=
  let fr := jstok_top p in
  let saved_st := match fr with
                  | Some fr => fr_st (frame_at p fr)
                  | None => JSTOK_ST_OBJ_KEY_OR_END
                  end in
  let saved_root_done := root_done p in
  let '(r, p1, toks1) := jstok_accept_value strict p toks in
  if decide (r < 0) then Some (Return r p1 toks1)
  else
    '(r, p2, toks2) ← recognize p1 toks1;
    if decide (r < 0) then
      if decide (r = JSTOK_ERROR_PART) then
        let '(p3, toks3) := rollback_value p2 toks2 fr saved_st saved_root_done in
        Some (Return r p3 toks3)
      else Some (Return r p2 toks2)
    else Some (Continue p2 toks2).

(** The loop of [jstok_parse] on exactly as much fuel as there are bytes
    left. *)
Definition run (strict : bool) (json : list Z) (json_len max_tokens : Z)
    (p : jstok_parser) (toks : tokens) : option (Z * jstok_parser * tokens) :=
  jstok_parse_loop strict (Z.to_nat (json_len - pos p)) json json_len max_tokens p toks.

(** ** Count-only mode against token mode *)

(** What a count-only parser and a token-mode parser that have read the same
    input have in common: the scalar fields, and the kind and sub-state of
    every frame in use.  (The frames differ in [tok], which is -1 in
    count-only mode, and the slots above [depth] are not looked at.) *)
Definition sim (pc pt : jstok_parser) : Prop :=
  pos pc = pos pt /\ toknext pc = toknext pt /\ depth pc = depth pt
  /\ root_done pc = root_done pt
  /\ error_pos pc = error_pos pt /\ error_code pc = error_code pt
  /\ length (stack pc) = length (stack pt)
  /\ forall i, 0 <= i < depth pt ->
       fr_type (frame_at pc i) = fr_type (frame_at pt i)
       /\ fr_st (frame_at pc i) = fr_st (frame_at pt i).

(** The loop body in the two modes. *)
Definition sim_result (rc rt : step_result) : Prop :=
  match rc, rt with
  | Continue pc None, Continue pt (Some _) => sim pc pt
  | Return r pc None, Return r' pt (Some _) => r = r' /\ sim pc pt
  | _, _ => False
  end.

Definition not_nomem (res : step_result) : Prop :=
  match res with
  | Return r _ _ => r <> JSTOK_ERROR_NOMEM
  | Continue _ _ => True
  end.

(** ** Texts *)

(** The text of a token: the bytes of the buffer from [start] up to, and
    without, [end]. *)
Definition tok_text (json : list Z) (t : jstoktok_t) : list Z :=
  json_at json <$> seqZ (tok_start t) (tok_end t - tok_start t).

(** A C string without a NUL byte before its terminator. *)
Definition no_nul (s : list Z) : Prop := Forall (fun b => b <> 0) s.

(** The texts [jstok_atoi64] accepts: an optional minus sign and one or more
    decimal digits. *)
Definition is_decimal (l : list Z) : bool :=
  match l with
  | [] => false
  | c :: d =>
      if decide (c = ch_minus)
      then negb (bool_decide (d = [])) && forallb jstok_is_digit d
      else forallb jstok_is_digit l
  end.

(** The bytes of a decimal literal of the Standard Library, digits and
    sign. *)
Definition uint_bytes (d : Decimal.uint) : list Z :=
  bytes_of_string (DecimalString.NilEmpty.string_of_uint d).

Definition int_bytes (d : Decimal.int) : list Z :=
  bytes_of_string (DecimalString.NilEmpty.string_of_int d).

Definition int_digits (d : Decimal.int) : Decimal.uint :=
  match d with Decimal.Pos u | Decimal.Neg u => u end.

(** What the loop of [jstok_unescape], entered at input offset [i] with write
    offset [w], has done when it answers [res]: the writes went to the
    offsets from [w] up to the final write offset, which stays within the
    capacity, and on success no more bytes were written than were read. *)
Definition unescape_ok (out_cap n i w : Z) (out : list Z)
    (res : Z * list Z * Z) : Prop :=
  length res.1.2 = length out
  /\ w <= res.2 <= out_cap
  /\ (forall k, k < w \/ res.2 <= k -> json_at res.1.2 k = json_at out k)
  /\ (res.1.1 = 0 /\ res.2 - w <= n - i \/ res.1.1 = -1 /\ i < n).

(** A data line of an SSE stream as [jstok_sse_next] reports it: the line
    starts at [line_start], at [from] or after a line feed, with the bytes
    [data:]; the payload [sp] starts after the prefix, or after the one
    space that follows it; it ends at the line feed, or at the carriage
    return before it; [next] is the offset after the line feed. *)
Definition sse_data_line (buf : list Z) (from line_start next : Z)
    (sp : jstok_span_t) : Prop :=
  from <= line_start
  /\ (line_start = from \/ json_at buf (line_start - 1) = ch_lf)
  /\ lit_matches buf line_start lit_data 5
  /\ (span_p sp = line_start + 5
      \/ span_p sp = line_start + 6 /\ json_at buf (line_start + 5) = ch_space)
  /\ 0 <= span_n sp
  /\ (span_p sp + span_n sp = next - 1
      \/ span_p sp + span_n sp = next - 2 /\ json_at buf (next - 2) = ch_cr)
  /\ json_at buf (next - 1) = ch_lf
  /\ forall k, line_start <= k < next - 1 -> json_at buf k <> ch_lf.

(** ** Token trees *)

(** Where [n] consecutive subtrees that start at token [i] end, [next]
    giving the end of one subtree. *)
Fixpoint forest_end (next : Z -> option Z) (n : nat) (i : Z) : option Z :=
  match n with
  | O => Some i
  | S n' => j ← next i; forest_end next n' j
  end.

(** Where the subtree of token [i] ends, read off the sizes of the tokens: a
    string or a primitive is one token, an array of size [n] is followed by
    [n] subtrees, an object of size [n] by [n] pairs of subtrees.  [None]
    when a size is negative, or when a token that is neither a string nor a
    primitive lies deeper than [d] containers. *)
Fixpoint tree_end (d : nat) (ts : list jstoktok_t) (i : Z) : option Z :=
  let t := tok_at ts i in
  if decide (tok_type t = JSTOK_STRING \/ tok_type t = JSTOK_PRIMITIVE) then Some (i + 1)
  else
    match d with
    | O => None
    | S d' =>
        if decide (tok_type t = JSTOK_ARRAY) then
          if decide (tok_size t < 0) then None
          else forest_end (tree_end d' ts) (Z.to_nat (tok_size t)) (i + 1)
        else if decide (tok_type t = JSTOK_OBJECT) then
          if decide (tok_size t < 0) then None
          else forest_end (tree_end d' ts) (Z.to_nat (2 * tok_size t)) (i + 1)
        else Some (i + 1)
    end.

(** A key token: a string token whose text is [key]. *)
Definition key_is (json : list Z) (t : jstoktok_t) (key : list Z) : Prop :=
  tok_type t = JSTOK_STRING /\ 0 <= tok_start t <= tok_end t
  /\ tok_text json t = key.

#[global] Instance key_is_dec json t key : Decision (key_is json t key).
Proof. unfold key_is. apply _. Defined.

(** The key tokens of [n] key/value pairs that start at token [cur], and the
    index after the last pair: a key is one token, a value is a subtree. *)
Fixpoint object_keys (ts : list jstoktok_t) (n : nat) (cur : Z)
    : option (list Z * Z) :=
  match n with
  | O => Some ([], cur)
  | S n' =>
      v_end ← tree_end (Z.to_nat JSTOK_MAX_DEPTH) ts (cur + 1);
      '(ks, e) ← object_keys ts n' v_end;
      Some (cur :: ks, e)
  end.

(** ** The driver *)

(** The error codes of the interface. *)
Definition error_codes (r : Z) : Prop :=
  r = JSTOK_ERROR_NOMEM \/ r = JSTOK_ERROR_INVAL \/ r = JSTOK_ERROR_PART
  \/ r = JSTOK_ERROR_DEPTH.

(** ** The tokens of a parse as a tree *)

(** The bytes of the buffer from [a] up to [b]. *)
Definition span_text (json : list Z) (a b : Z) : list Z :=
  json_at json <$> seqZ a (b - a).

(** The text of a token as its kind has it: a container begins with its
    bracket and, once closed, ends with the closing one; a string stands
    between quotes, and a scan of its bytes stops at the closing quote; a
    primitive is one of the three literals or a number. *)
Definition tok_text_ok (json : list Z) (t : jstoktok_t) : Prop :=
  match tok_type t with
  | JSTOK_OBJECT =>
      json_at json (tok_start t) = ch_lbrace
      /\ (tok_end t <> -1 -> json_at json (tok_end t - 1) = ch_rbrace)
  | JSTOK_ARRAY =>
      json_at json (tok_start t) = ch_lbracket
      /\ (tok_end t <> -1 -> json_at json (tok_end t - 1) = ch_rbracket)
  | JSTOK_STRING =>
      json_at json (tok_start t - 1) = ch_quote
      /\ exists fuel json_len,
           string_scan fuel json json_len (tok_start t) = Some (ScanClose (tok_end t))
  | JSTOK_PRIMITIVE =>
      tok_text json t = lit_true \/ tok_text json t = lit_false
      \/ tok_text json t = lit_null \/ spec_number (tok_text json t) = true
  | JSTOK_UNDEFINED => False
  end.

(** The index after [c] members of a container that begin at token [i]: the
    elements of an array, each a value, or for an object ([obj]) by turns a
    key, one string token, and a value; [key] tells whether a key comes
    first. *)
Fixpoint members_end (obj key : bool) (next : Z -> option Z)
    (ts : list jstoktok_t) (c : nat) (i : Z) : option Z :=
  match c with
  | O => Some i
  | S c' =>
      if key then
        if decide (tok_type (tok_at ts i) = JSTOK_STRING)
        then members_end obj false next ts c' (i + 1)
        else None
      else j ← next i; members_end obj obj next ts c' j
  end.

(** The index after the JSON value whose first token is [i], with
    containers nested at most [d] deep under it: a string or a primitive is
    one token, an array of size [n] is followed by [n] values, an object of
    size [n] by [n] pairs of a string token and a value. *)
Fixpoint value_end (d : nat) (ts : list jstoktok_t) (i : Z) : option Z :=
  let t := tok_at ts i in
  if decide (tok_type t = JSTOK_STRING \/ tok_type t = JSTOK_PRIMITIVE) then Some (i + 1)
  else
    match d with
    | O => None
    | S d' =>
        if decide (tok_type t = JSTOK_ARRAY) then
          if decide (tok_size t < 0) then None
          else members_end false false (value_end d' ts) ts (Z.to_nat (tok_size t)) (i + 1)
        else if decide (tok_type t = JSTOK_OBJECT) then
          if decide (tok_size t < 0) then None
          else members_end true true (value_end d' ts) ts (Z.to_nat (2 * tok_size t)) (i + 1)
        else None
    end.

(** Whether a key comes after [c] members. *)
Fixpoint turn (obj key : bool) (c : nat) : bool :=
  match c with
  | O => key
  | S c' => turn obj (if key then false else obj) c'
  end.

Definition is_object (f : jstok_frame_t) : bool :=
  bool_decide (fr_type f = JSTOK_OBJECT).

(** Two token arrays with the same kinds and sizes from [lo] up to [hi]. *)
Definition same_shape (ts ts' : list jstoktok_t) (lo hi : Z) : Prop :=
  forall k, lo <= k < hi ->
    tok_type (tok_at ts' k) = tok_type (tok_at ts k)
    /\ tok_size (tok_at ts' k) = tok_size (tok_at ts k).

(** The frames in use, the innermost first. *)
Definition frames (p : jstok_parser) : list jstok_frame_t :=
  rev (take (Z.to_nat (depth p)) (stack p)).

(** How the size of the token of the innermost open container relates to
    the number [c] of complete subtrees after it: an array counts its
    elements; an object counts its pairs, and between a key and the end of
    its value one more subtree, the key, is there. *)
Definition top_rel (f : jstok_frame_t) (size : Z) (c : nat) : Prop :=
  match fr_type f with
  | JSTOK_ARRAY => size = Z.of_nat c
  | JSTOK_OBJECT =>
      if decide (fr_st f = JSTOK_ST_OBJ_COLON \/ fr_st f = JSTOK_ST_OBJ_VALUE)
      then 2 * size + 1 = Z.of_nat c
      else 2 * size = Z.of_nat c
  | _ => False
  end.

(** The same for a container one of whose values is counted but not yet
    complete: a container that is open further in, or a value that has just
    been accepted. *)
Definition pending_rel (f : jstok_frame_t) (size : Z) (c : nat) : Prop :=
  match fr_type f with
  | JSTOK_ARRAY => size = Z.of_nat c + 1
  | JSTOK_OBJECT => 2 * size = Z.of_nat c + 1 /\ fr_st f = JSTOK_ST_OBJ_COMMA_OR_END
  | _ => False
  end.

(** The tokens before [stop] as the frames [fs] and the sizes describe
    them, when a value that begins at token [stop] is counted but not
    complete: every open container is followed by complete subtrees up to
    the next open container, and the last one up to [stop]. *)
Fixpoint outer (strict : bool) (rd : Z) (ts : list jstoktok_t)
    (fs : list jstok_frame_t) (stop : Z) : Prop :=
  match fs with
  | [] =>
      rd <> 0
      /\ exists c, members_end false false (value_end (Z.to_nat JSTOK_MAX_DEPTH) ts) ts c 0
                   = Some stop
                   /\ (strict = true -> c = 0%nat)
  | f :: rest =>
      0 <= fr_tok f
      /\ tok_type (tok_at ts (fr_tok f)) = fr_type f
      /\ (exists c, members_end (is_object f) (is_object f)
                      (value_end (63 - length rest) ts) ts c (fr_tok f + 1) = Some stop
                    /\ pending_rel f (tok_size (tok_at ts (fr_tok f))) c)
      /\ outer strict rd ts rest (fr_tok f)
  end.

(** The same between two passes of the loop, when every counted value is
    complete or an open container. *)
Definition inner (strict : bool) (rd : Z) (ts : list jstoktok_t)
    (fs : list jstok_frame_t) (stop : Z) : Prop :=
  match fs with
  | [] =>
      exists c, members_end false false (value_end (Z.to_nat JSTOK_MAX_DEPTH) ts) ts c 0
                = Some stop
                /\ (strict = true -> c = if decide (rd = 0) then 0%nat else 1%nat)
  | f :: rest =>
      0 <= fr_tok f
      /\ tok_type (tok_at ts (fr_tok f)) = fr_type f
      /\ (exists c, members_end (is_object f) (is_object f)
                      (value_end (63 - length rest) ts) ts c (fr_tok f + 1) = Some stop
                    /\ top_rel f (tok_size (tok_at ts (fr_tok f))) c)
      /\ outer strict rd ts rest (fr_tok f)
  end.

(** The tokens of the open containers. *)
Definition open_toks (fs : list jstok_frame_t) : list Z := fr_tok <$> fs.

(** Token [j] within the buffer read so far: it has a kind and a start; the
    token of an open container has the end -1, every other token is closed,
    with its end after its start. *)
Definition tok_within (ps : Z) (fs : list jstok_frame_t) (j : Z)
    (t : jstoktok_t) : Prop :=
  tok_type t <> JSTOK_UNDEFINED
  /\ 0 <= tok_start t < ps
  /\ (if decide (j ∈ open_toks fs) then tok_end t = -1
      else tok_start t <= tok_end t <= ps).

(** A token [a] and a later token [b]: [b] starts after [a], and [a] has
    ended before [b] starts, or is an open container, or ends after [b]. *)
Definition tok_ordered (a b : jstoktok_t) : Prop :=
  tok_start a < tok_start b
  /\ (0 <= tok_end a <= tok_start b
      \/ tok_end a = -1
      \/ 0 <= tok_end b <= tok_end a).

(** The spans of the first [n] tokens, at the position [ps] inside the open
    containers [fs], and their texts in the buffer [json]; [check] tells
    whether the tokens are known to come from this buffer. *)
Definition spans_ok (check : bool) (json : list Z) (ps : Z)
    (fs : list jstok_frame_t) (n : Z) (ts : list jstoktok_t) : Prop :=
  (forall j, 0 <= j < n -> tok_within ps fs j (tok_at ts j))
  /\ (forall j k, 0 <= j < k -> k < n -> tok_ordered (tok_at ts j) (tok_at ts k))
  /\ (check = true -> forall j, 0 <= j < n -> tok_text_ok json (tok_at ts j)).

(** What a recognizer of a string or of a primitive has done in token mode
    when it answers [res]: it failed, or it stored at [toknext] a token of
    the kind [ty] that lies between the old and the new position, with the
    text of its kind, and moved on. *)
Definition emitted (json : list Z) (ty : jstoktype_t) (p : jstok_parser)
    (ts : list jstoktok_t) (max_tokens json_len : Z)
    (res : Z * jstok_parser * tokens) : Prop :=
  res.1.1 < 0
  \/ exists t,
       res.1.1 = toknext p /\ toknext p < max_tokens
       /\ res.2 = Some (arr_set ts (toknext p) t)
       /\ tok_type t = ty
       /\ tok_size t = 0
       /\ pos p <= tok_start t <= tok_end t
       /\ tok_end t <= pos res.1.2 <= json_len
       /\ tok_start t < pos res.1.2
       /\ toknext res.1.2 = toknext p + 1
       /\ depth res.1.2 = depth p /\ stack res.1.2 = stack p
       /\ root_done res.1.2 = root_done p
       /\ tok_text_ok json t.

(** The invariant of the loop of [jstok_parse] in token mode. *)
Definition parse_inv (strict check : bool) (json : list Z) (max_tokens : Z)
    (p : jstok_parser) (toks : tokens) : Prop :=
  exists ts,
    toks = Some ts
    /\ max_tokens <= Z.of_nat (length ts)
    /\ 0 <= pos p /\ 0 <= toknext p <= Z.max 0 max_tokens
    /\ 0 <= depth p <= JSTOK_MAX_DEPTH
    /\ length (stack p) = Z.to_nat JSTOK_MAX_DEPTH
    /\ inner strict (root_done p) ts (frames p) (toknext p)
    /\ spans_ok check json (pos p) (frames p) (toknext p) ts.

(** A parse of [json_async] in two calls: what the first call, on the first
    12 bytes, and the second call, on all 30 bytes, leave behind. *)
Definition parser_async_part : jstok_parser :=
  mk_parser 9 2 1 1 12 JSTOK_ERROR_PART
    (arr_set (stack blank_parser) 0 (mk_frame JSTOK_OBJECT JSTOK_ST_OBJ_VALUE 0)).

Definition tokens_async_part : list jstoktok_t :=
  [mk_tok JSTOK_OBJECT 0 (-1) 0; mk_tok JSTOK_STRING 2 7 0;
   no_token; no_token; no_token; no_token].

Definition parser_async_done : jstok_parser :=
  mk_parser 30 5 0 1 (-1) 0
    (arr_set (stack blank_parser) 0 (mk_frame JSTOK_OBJECT JSTOK_ST_OBJ_COMMA_OR_END 0)).

Definition tokens_async_done : list jstoktok_t :=
  [mk_tok JSTOK_OBJECT 0 30 2; mk_tok JSTOK_STRING 2 7 0;
   mk_tok JSTOK_STRING 10 17 0; mk_tok JSTOK_STRING 20 23 0;
   mk_tok JSTOK_PRIMITIVE 25 29 0; no_token].

(** What a parse of [json_array_123] leaves behind. *)
Definition parser_array_done : jstok_parser :=
  mk_parser 7 4 0 1 (-1) 0
    (arr_set (stack blank_parser) 0 (mk_frame JSTOK_ARRAY JSTOK_ST_ARR_COMMA_OR_END 0)).

Definition tokens_array_done : list jstoktok_t :=
  [mk_tok JSTOK_ARRAY 0 7 3; mk_tok JSTOK_PRIMITIVE 1 2 0;
   mk_tok JSTOK_PRIMITIVE 3 4 0; mk_tok JSTOK_PRIMITIVE 5 6 0].

(** * Properties *)

(** ** Tactics *)

(** The [replicate]s a list of a known length stands for are spelled out
    one element at a time. *)
Ltac spell_list l H :=
  repeat (destruct l as [| ? l]; [discriminate H |]; simpl in H);
  try (destruct l; [clear H | discriminate H]).

(** Case analysis on the innermost test of a term. *)
Ltac break_term x :=
  lazymatch x with
  | context [match ?y with _ => _ end] => break_term y
  | decide ?P => destruct (decide P)
  | _ => destruct x eqn:?
  end.

Ltac break_hyp H :=
  match type of H with
  | context [match ?x with _ => _ end] => break_term x
  end.

Ltac break_goal :=
  match goal with
  | |- context [match ?x with _ => _ end] => break_term x
  end.

(** ** Arrays *)

Lemma arr_set_length {A} (l : list A) i x : length (arr_set l i x) = length l.
Proof. unfold arr_set. destruct (decide _); [reflexivity | apply length_insert]. Qed.

Lemma arr_get_set_same {A} (d : A) l i x :
  0 <= i < Z.of_nat (length l) -> arr_get d (arr_set l i x) i = x.
Proof.
  intros Hi. unfold arr_get, arr_set. destruct (decide _); [lia |].
  rewrite list_lookup_insert_eq by lia. reflexivity.
Qed.

Lemma arr_get_set_other {A} (d : A) l i j x :
  i <> j -> arr_get d (arr_set l i x) j = arr_get d l j.
Proof.
  intros Hij. unfold arr_get, arr_set.
  destruct (decide (j < 0)); [reflexivity |].
  destruct (decide (i < 0)); [reflexivity |].
  rewrite list_lookup_insert_ne by lia. reflexivity.
Qed.

Lemma arr_set_out {A} (l : list A) i x :
  ~ (0 <= i < Z.of_nat (length l)) -> arr_set l i x = l.
Proof.
  intros Hi. unfold arr_set. destruct (decide _); [reflexivity |].
  apply list_insert_ge. lia.
Qed.

Lemma arr_get_out {A} (d : A) l i :
  ~ (0 <= i < Z.of_nat (length l)) -> arr_get d l i = d.
Proof.
  intros Hi. unfold arr_get. destruct (decide _); [reflexivity |].
  rewrite lookup_ge_None_2 by lia. reflexivity.
Qed.

Lemma arr_set_set {A} (l : list A) i x y :
  arr_set (arr_set l i x) i y = arr_set l i y.
Proof.
  unfold arr_set. destruct (decide _); [reflexivity | apply list_insert_insert_eq].
Qed.

Lemma arr_set_get_id {A} (d : A) l i : arr_set l i (arr_get d l i) = l.
Proof.
  destruct (decide (0 <= i < Z.of_nat (length l))) as [Hi | Hi].
  - unfold arr_set, arr_get. destruct (decide _); [reflexivity |].
    destruct (lookup_lt_is_Some_2 l (Z.to_nat i) ltac:(lia)) as [x Hx].
    rewrite Hx. simpl. apply list_insert_id, Hx.
  - apply arr_set_out, Hi.
Qed.

(** ** Records rebuilt from their own fields *)

Lemma frame_eta f : mk_frame (fr_type f) (fr_st f) (fr_tok f) = f.
Proof. destruct f; reflexivity. Qed.

Lemma tok_eta t : mk_tok (tok_type t) (tok_start t) (tok_end t) (tok_size t) = t.
Proof. destruct t; reflexivity. Qed.

Lemma parser_eta p :
  mk_parser (pos p) (toknext p) (depth p) (root_done p) (error_pos p) (error_code p) (stack p)
  = p.
Proof. destruct p; reflexivity. Qed.

(** ** Frames under [set_frame_st] *)

Lemma frame_at_set_frame_st_type p fr st i :
  fr_type (frame_at (set_frame_st p fr st) i) = fr_type (frame_at p i).
Proof.
  unfold frame_at, set_frame_st; simpl.
  destruct (decide (fr = i)) as [-> | Hne]; [| rewrite arr_get_set_other by assumption; reflexivity].
  destruct (decide (0 <= i < Z.of_nat (length (stack p)))) as [Hi | Hi].
  - rewrite arr_get_set_same by assumption. reflexivity.
  - rewrite arr_set_out by assumption. reflexivity.
Qed.

Lemma frame_at_set_frame_st_tok p fr st i :
  fr_tok (frame_at (set_frame_st p fr st) i) = fr_tok (frame_at p i).
Proof.
  unfold frame_at, set_frame_st; simpl.
  destruct (decide (fr = i)) as [-> | Hne]; [| rewrite arr_get_set_other by assumption; reflexivity].
  destruct (decide (0 <= i < Z.of_nat (length (stack p)))) as [Hi | Hi].
  - rewrite arr_get_set_same by assumption. reflexivity.
  - rewrite arr_set_out by assumption. reflexivity.
Qed.

Lemma frame_at_set_frame_st_other p fr st i :
  fr <> i -> frame_at (set_frame_st p fr st) i = frame_at p i.
Proof. intros Hne. unfold frame_at, set_frame_st; simpl. apply arr_get_set_other, Hne. Qed.

Lemma frame_at_set_frame_st_same p fr st :
  0 <= fr < Z.of_nat (length (stack p)) ->
  fr_st (frame_at (set_frame_st p fr st) fr) = st.
Proof.
  intros Hi. unfold frame_at, set_frame_st; simpl.
  rewrite arr_get_set_same by assumption. reflexivity.
Qed.

Lemma frame_at_set_frame_st_st p fr st i :
  fr_st (frame_at (set_frame_st p fr st) i)
  = if decide (i = fr /\ 0 <= i < Z.of_nat (length (stack p))) then st
    else fr_st (frame_at p i).
Proof.
  destruct (decide _) as [[-> Hi] | Hno].
  - apply frame_at_set_frame_st_same, Hi.
  - destruct (decide (fr = i)) as [-> | Hne].
    + unfold frame_at, set_frame_st; simpl. rewrite arr_set_out by tauto. reflexivity.
    + rewrite frame_at_set_frame_st_other by assumption. reflexivity.
Qed.

(** Writing back the sub-state a frame had undoes a [set_frame_st]. *)
Lemma stack_set_frame_st_restore p fr st :
  stack (set_frame_st (set_frame_st p fr st) fr (fr_st (frame_at p fr))) = stack p.
Proof.
  unfold set_frame_st at 1. simpl.
  rewrite frame_at_set_frame_st_type, frame_at_set_frame_st_tok.
  unfold set_frame_st; simpl. rewrite arr_set_set, frame_eta.
  apply arr_set_get_id.
Qed.

Lemma set_frame_st_same_st p fr :
  set_frame_st p fr (fr_st (frame_at p fr)) = p.
Proof.
  unfold set_frame_st. rewrite frame_eta. unfold frame_at. rewrite arr_set_get_id.
  destruct p; reflexivity.
Qed.

(** Decrementing the size of the container undoes the increment. *)
Lemma dec_inc_container_size p q fr toks :
  jstok_top p = Some fr ->
  fr_tok (frame_at q fr) = fr_tok (frame_at p fr) ->
  dec_container_size q fr (jstok_inc_container_size p toks) = toks.
Proof.
  intros Htop Htok. unfold dec_container_size, jstok_inc_container_size.
  rewrite Htop, Htok. destruct toks as [ts |]; [| reflexivity].
  destruct (decide (fr_tok (frame_at p fr) < 0)) as [Hneg | Hpos].
  - destruct (decide _); [lia | reflexivity].
  - destruct (decide _); [| lia]. f_equal. rewrite arr_set_set.
    destruct (decide (0 <= fr_tok (frame_at p fr) < Z.of_nat (length ts))) as [Hi | Hi].
    + unfold tok_at, set_tok_size. rewrite !arr_get_set_same by assumption. simpl.
      replace (tok_size (arr_get no_token ts (fr_tok (frame_at p fr))) + 1 - 1)
        with (tok_size (arr_get no_token ts (fr_tok (frame_at p fr)))) by lia.
      rewrite tok_eta. apply arr_set_get_id.
    + apply arr_set_out, Hi.
Qed.

(** ** The scan of a string *)

Lemma hex4_loop_bounds n json json_len ps :
  match hex4_loop n json json_len ps with
  | Hex4Ok e => e = ps + Z.of_nat n /\ ((0 < n)%nat -> e < json_len)
  | Hex4Part e => ps < e /\ json_len <= e
  | Hex4Inval e => ps < e < json_len
  end.
Proof.
  revert ps; induction n as [| n IH]; intros ps; simpl; [lia |].
  repeat case_decide; try lia. destruct (negb _); [lia |].
  specialize (IH (ps + 1)). destruct (hex4_loop n json json_len (ps + 1)); lia.
Qed.

Lemma hex4_loop_mono n json k m ps :
  k <= m ->
  (forall e, hex4_loop n json k ps <> Hex4Part e) ->
  hex4_loop n json m ps = hex4_loop n json k ps.
Proof.
  intros Hkm. revert ps; induction n as [| n IH]; intros ps; simpl; [reflexivity |].
  intros Hnp.
  destruct (decide (ps + 1 >= k)); [exfalso; eapply Hnp; reflexivity |].
  destruct (decide (ps + 1 >= m)); [lia |].
  destruct (negb _); [reflexivity |]. apply IH, Hnp.
Qed.

#[local] Arguments hex4_loop : simpl never.

Lemma string_loop_scan fuel json json_len max_tokens sq p toks :
  string_loop fuel json json_len max_tokens sq p toks
  = string_outcome max_tokens sq p toks <$> string_scan fuel json json_len (pos p).
Proof.
  revert p. induction fuel as [| fuel IH]; intros [ps tn dp rd ep ec stk]; simpl.
  - destruct (decide (ps < json_len)); reflexivity.
  - repeat (case_decide || case_match); simpl; try reflexivity;
      try (rewrite IH; reflexivity); try congruence.
    all: change (set_pos (mk_parser ps tn dp rd ep ec stk) ps)
           with (mk_parser ps tn dp rd ep ec stk);
      match goal with H : jstok_new_token _ _ _ _ _ _ = _ |- _ => rewrite H end;
      destruct (decide _); try lia; reflexivity.
Qed.

Ltac hex4_facts :=
  match goal with
  | H : hex4_loop ?n ?json ?len ?ps = _ |- _ =>
      let Hb := fresh "Hb" in
      pose proof (hex4_loop_bounds n json len ps) as Hb; rewrite H in Hb; simpl in Hb
  end.

Lemma string_scan_total fuel json json_len ps :
  (Z.to_nat (json_len - ps) <= fuel)%nat ->
  is_Some (string_scan fuel json json_len ps).
Proof.
  revert ps; induction fuel as [| fuel IH]; intros ps Hf; simpl.
  - destruct (decide (ps < json_len)); [lia | eauto].
  - repeat (case_decide || case_match); eauto; apply IH; try lia.
    hex4_facts. lia.
Qed.

Lemma string_scan_bounds fuel json json_len ps s :
  string_scan fuel json json_len ps = Some s ->
  match s with
  | ScanClose e => ps <= e < json_len /\ json_at json e = ch_quote
  | ScanInval e => ps <= e < json_len
  | ScanPart e => ps <= e /\ json_len <= e
  end.
Proof.
  revert ps; induction fuel as [| fuel IH]; intros ps; simpl.
  - destruct (decide (ps < json_len)); [discriminate |]. intros [= <-]. lia.
  - intros Hs. repeat break_hyp Hs; simplify_eq; try hex4_facts;
      try (apply IH in Hs; destruct s); try lia.
Qed.

(** A scan that stopped before the end of a shorter buffer stops at the same
    place in a longer one, whatever the fuel. *)
Lemma string_scan_mono fuel fuel' json k m ps s :
  string_scan fuel json k ps = Some s ->
  (forall e, s <> ScanPart e) ->
  k <= m -> (Z.to_nat (m - ps) <= fuel')%nat ->
  string_scan fuel' json m ps = Some s.
Proof.
  intros Hs Hnp Hkm. revert fuel' ps Hs.
  induction fuel as [| fuel IH]; intros fuel' ps; simpl.
  - destruct (decide (ps < k)); [discriminate |]. intros [= <-]. exfalso. eapply Hnp; reflexivity.
  - destruct (decide (ps < k)) as [Hlt |]; [| intros [= <-]; exfalso; eapply Hnp; reflexivity].
    intros Hs Hf'. destruct fuel' as [| fuel']; [lia |]. simpl.
    destruct (decide (ps < m)); [| lia].
    destruct (decide (json_at json ps < 32)); [assumption |].
    destruct (decide (json_at json ps = 34)); [assumption |].
    destruct (decide (json_at json ps = 92)).
    + destruct (decide (ps + 1 >= k)); [simplify_eq; exfalso; eapply Hnp; reflexivity |].
      destruct (decide (ps + 1 >= m)); [lia |].
      destruct (is_simple_escape _); [apply IH; [assumption | lia] |].
      destruct (decide (json_at json (ps + 1) = 117)); [| assumption].
      rewrite (hex4_loop_mono 4 json k m (ps + 1) Hkm).
      * pose proof (hex4_loop_bounds 4 json k (ps + 1)) as Hb.
        destruct (hex4_loop 4 json k (ps + 1)); try assumption.
        apply IH; [assumption | lia].
      * intros e' He'. rewrite He' in Hs. simplify_eq. eapply Hnp; reflexivity.
    + apply IH; [assumption | lia].
Qed.

(** ** The number recognizer *)

Lemma digits_loop_ge fuel json json_len i :
  i <= digits_loop fuel json json_len i.
Proof.
  revert i; induction fuel as [| fuel IH]; intros i; simpl; [lia |].
  destruct (_ && _); [| lia]. specialize (IH (i + 1)). lia.
Qed.

Lemma digits_loop_le fuel json json_len i :
  i <= json_len -> digits_loop fuel json json_len i <= json_len.
Proof.
  revert i; induction fuel as [| fuel IH]; intros i Hi; simpl; [lia |].
  destruct (bool_decide (i < json_len)) eqn:Hlt; simpl; [| lia].
  apply bool_decide_eq_true in Hlt.
  destruct (jstok_is_digit _); [apply IH; lia | lia].
Qed.

Lemma digits_loop_mono fuel fuel' json k m i :
  k <= m ->
  digits_loop fuel json k i < k ->
  (Z.to_nat (k - i) <= fuel)%nat ->
  (Z.to_nat (m - i) <= fuel')%nat ->
  digits_loop fuel' json m i = digits_loop fuel json k i.
Proof.
  intros Hkm. revert fuel' i; induction fuel as [| fuel IH]; intros fuel' i; simpl.
  - lia.
  - destruct (bool_decide (i < k)) eqn:Hlt; simpl.
    + apply bool_decide_eq_true in Hlt.
      destruct (jstok_is_digit (json_at json i)) eqn:Hd.
      * intros Hres Hf Hf'. destruct fuel' as [| fuel']; simpl; [lia |].
        rewrite bool_decide_eq_true_2 by lia. rewrite Hd. simpl.
        apply IH; [assumption | lia | lia].
      * intros _ _ _. destruct fuel'; simpl; [reflexivity |].
        rewrite Hd, andb_false_r. reflexivity.
    + apply bool_decide_eq_false in Hlt. lia.
Qed.

Lemma skip_digits_ge json json_len i : i <= skip_digits json json_len i.
Proof. apply digits_loop_ge. Qed.

Lemma skip_digits_le json json_len i :
  i <= json_len -> skip_digits json json_len i <= json_len.
Proof. apply digits_loop_le. Qed.

Lemma skip_digits_mono json k m i :
  k <= m -> skip_digits json k i < k ->
  skip_digits json m i = skip_digits json k i.
Proof. intros Hkm Hlt. apply digits_loop_mono; auto. Qed.

(** Each stage of the number recognizer answers [JSTOK_ERROR_PART] once the
    index has reached the end of the buffer. *)
Lemma number_tail_eof p json json_len i :
  i >= json_len ->
  number_tail p json json_len i = (JSTOK_ERROR_PART, jstok_set_error p JSTOK_ERROR_PART i, 0).
Proof. intros H. unfold number_tail. destruct (decide _); [reflexivity | lia]. Qed.

Lemma number_exp_eof p json json_len i :
  i >= json_len ->
  number_exp p json json_len i = (JSTOK_ERROR_PART, jstok_set_error p JSTOK_ERROR_PART i, 0).
Proof.
  intros H. unfold number_exp. rewrite bool_decide_eq_false_2 by lia. simpl.
  apply number_tail_eof, H.
Qed.

Lemma number_frac_eof p json json_len i :
  i >= json_len ->
  number_frac p json json_len i = (JSTOK_ERROR_PART, jstok_set_error p JSTOK_ERROR_PART i, 0).
Proof.
  intros H. unfold number_frac. rewrite bool_decide_eq_false_2 by lia. simpl.
  apply number_exp_eof, H.
Qed.

(** A number whose recognition did not end in [JSTOK_ERROR_PART] is
    recognized in the same way in a longer buffer. *)
Lemma number_tail_mono p json k m i res :
  k <= m ->
  number_tail p json k i = res -> res.1.1 <> JSTOK_ERROR_PART ->
  number_tail p json m i = res.
Proof.
  intros Hkm <-. unfold number_tail.
  destruct (decide (i >= k)); [simpl; congruence |]. intros _.
  destruct (decide (i >= m)); [lia |].
  rewrite !bool_decide_eq_true_2 by lia. reflexivity.
Qed.

Lemma number_after_digits_mono (stage : jstok_parser -> list Z -> Z -> Z -> Z * jstok_parser * Z)
    p json k m i res :
  k <= m ->
  (forall j, j >= k ->
     stage p json k j = (JSTOK_ERROR_PART, jstok_set_error p JSTOK_ERROR_PART j, 0)) ->
  (forall j res, stage p json k j = res -> res.1.1 <> JSTOK_ERROR_PART ->
     stage p json m j = res) ->
  stage p json k (skip_digits json k i) = res -> res.1.1 <> JSTOK_ERROR_PART ->
  stage p json m (skip_digits json m i) = res.
Proof.
  intros Hkm Heof Hmono Hres Hnp.
  destruct (decide (skip_digits json k i < k)) as [Hlt | Hge].
  - rewrite (skip_digits_mono json k m i Hkm Hlt). apply Hmono; assumption.
  - rewrite Heof in Hres by lia. subst res. simpl in Hnp. congruence.
Qed.

Lemma number_exp_mono p json k m i res :
  k <= m ->
  number_exp p json k i = res -> res.1.1 <> JSTOK_ERROR_PART ->
  number_exp p json m i = res.
Proof.
  intros Hkm. destruct (decide (i >= k)) as [Hge | Hlt].
  { rewrite number_exp_eof by assumption. intros <-. simpl. congruence. }
  unfold number_exp.
  rewrite (bool_decide_eq_true_2 (i < k)), (bool_decide_eq_true_2 (i < m)) by lia.
  simpl. destruct (_ || _).
  - destruct (decide (i + 1 >= k)); [intros <-; simpl; congruence |].
    destruct (decide (i + 1 >= m)); [lia |].
    destruct (_ || _).
    + destruct (decide (i + 1 + 1 >= k)); [intros <-; simpl; congruence |].
      destruct (decide (i + 1 + 1 >= m)); [lia |].
      destruct (negb _); [auto |].
      apply (number_after_digits_mono number_tail); auto using number_tail_eof.
      intros; eapply number_tail_mono; eauto.
    + destruct (negb _); [auto |].
      apply (number_after_digits_mono number_tail); auto using number_tail_eof.
      intros; eapply number_tail_mono; eauto.
  - apply number_tail_mono, Hkm.
Qed.

Lemma number_frac_mono p json k m i res :
  k <= m ->
  number_frac p json k i = res -> res.1.1 <> JSTOK_ERROR_PART ->
  number_frac p json m i = res.
Proof.
  intros Hkm. destruct (decide (i >= k)) as [Hge | Hlt].
  { rewrite number_frac_eof by assumption. intros <-. simpl. congruence. }
  unfold number_frac.
  rewrite (bool_decide_eq_true_2 (i < k)), (bool_decide_eq_true_2 (i < m)) by lia.
  simpl. destruct (bool_decide _).
  - destruct (decide (i + 1 >= k)); [intros <-; simpl; congruence |].
    destruct (decide (i + 1 >= m)); [lia |].
    destruct (negb _); [auto |].
    apply (number_after_digits_mono number_exp); auto using number_exp_eof.
    intros; eapply number_exp_mono; eauto.
  - apply number_exp_mono, Hkm.
Qed.

Lemma number_int_mono strict p json k m i res :
  k <= m -> i < k ->
  number_int strict p json k i = res -> res.1.1 <> JSTOK_ERROR_PART ->
  number_int strict p json m i = res.
Proof.
  intros Hkm Hi. unfold number_int.
  destruct (decide (json_at json i = 48)).
  - destruct (decide (i + 1 >= k)) as [Hge | Hlt].
    + rewrite (bool_decide_eq_false_2 (i + 1 < k)) by lia. simpl.
      rewrite number_frac_eof by assumption. intros <-. simpl. congruence.
    + rewrite (bool_decide_eq_true_2 (i + 1 < k)), (bool_decide_eq_true_2 (i + 1 < m)) by lia.
      simpl. destruct (_ && _); [auto |]. apply number_frac_mono, Hkm.
  - destruct (_ && _); [| auto].
    apply (number_after_digits_mono number_frac); auto using number_frac_eof.
    intros; eapply number_frac_mono; eauto.
Qed.

Lemma number_span_mono strict p json k m res :
  k <= m ->
  jstok_parse_number_span strict p json k = res -> res.1.1 <> JSTOK_ERROR_PART ->
  jstok_parse_number_span strict p json m = res.
Proof.
  intros Hkm. unfold jstok_parse_number_span.
  destruct (decide (pos p >= k)); [intros <-; simpl; congruence |].
  destruct (decide (pos p >= m)); [lia |].
  destruct (decide (json_at json (pos p) = 45)).
  - destruct (decide (pos p + 1 >= k)); [intros <-; simpl; congruence |].
    destruct (decide (pos p + 1 >= m)); [lia |].
    apply number_int_mono; [assumption | lia].
  - apply number_int_mono; [assumption | lia].
Qed.

Lemma number_result_ok_weaken p json_len lo lo' res :
  lo' <= lo -> number_result_ok p json_len lo res -> number_result_ok p json_len lo' res.
Proof. unfold number_result_ok. intros ? [(? & ? & ?) | ?]; [left | right]; auto with lia. Qed.

Ltac number_err := right; simpl; repeat split; eauto.

Lemma number_tail_ok p json json_len i :
  number_result_ok p json_len i (number_tail p json json_len i).
Proof.
  unfold number_tail. destruct (decide _); [number_err |].
  destruct (_ && _); [number_err |]. left; simpl. repeat split; lia.
Qed.

Lemma number_exp_ok p json json_len i :
  number_result_ok p json_len i (number_exp p json json_len i).
Proof.
  unfold number_exp. destruct (_ && _); [| apply number_tail_ok].
  destruct (decide _); [number_err |].
  destruct (_ || _).
  - destruct (decide _); [number_err |]. destruct (negb _); [number_err |].
    eapply number_result_ok_weaken; [| apply number_tail_ok].
    pose proof (skip_digits_ge json json_len (i + 1 + 1)). lia.
  - destruct (negb _); [number_err |].
    eapply number_result_ok_weaken; [| apply number_tail_ok].
    pose proof (skip_digits_ge json json_len (i + 1)). lia.
Qed.

Lemma number_frac_ok p json json_len i :
  number_result_ok p json_len i (number_frac p json json_len i).
Proof.
  unfold number_frac. destruct (_ && _); [| apply number_exp_ok].
  destruct (decide _); [number_err |]. destruct (negb _); [number_err |].
  eapply number_result_ok_weaken; [| apply number_exp_ok].
  pose proof (skip_digits_ge json json_len (i + 1)). lia.
Qed.

Lemma number_int_ok strict p json json_len i :
  number_result_ok p json_len (i + 1) (number_int strict p json json_len i).
Proof.
  unfold number_int. destruct (decide _).
  - destruct (_ && _); [number_err | apply number_frac_ok].
  - destruct (_ && _); [| number_err].
    eapply number_result_ok_weaken; [| apply number_frac_ok].
    pose proof (skip_digits_ge json json_len (i + 1)). lia.
Qed.

Lemma number_span_ok strict p json json_len :
  number_result_ok p json_len (pos p + 1) (jstok_parse_number_span strict p json json_len).
Proof.
  unfold jstok_parse_number_span. destruct (decide _); [number_err |].
  destruct (decide _).
  - destruct (decide _); [number_err |].
    eapply number_result_ok_weaken; [| apply number_int_ok]. lia.
  - apply number_int_ok.
Qed.

(** ** The literal recognizer *)





(** Conversely, every answer of the loop is one of these three. *)
Lemma literal_loop_shape lit p json json_len i n p' :
  pos p + i <= json_len ->
  literal_loop lit p json json_len i = (n, p') ->
  (n = i + Z.of_nat (length lit) /\ p' = p /\ pos p + n <= json_len
   /\ lit_matches json (pos p + i) lit (length lit))
  \/ ((n = JSTOK_ERROR_PART \/ n = JSTOK_ERROR_INVAL)
      /\ exists x, p' = jstok_set_error p n x).
Proof.
  revert i; induction lit as [| ch lit IH]; intros i Hi; simpl.
  - destruct (_ && _); intros [= <- <-]; [right; eauto |].
    left. repeat split; try lia. intros idx Hidx. lia.
  - destruct (decide (pos p + i >= json_len)); [intros [= <- <-]; right; eauto |].
    destruct (decide _) as [| Heq]; [intros [= <- <-]; right; eauto |].
    intros H. apply IH in H; [| lia].
    destruct H as [(Hn & Hp & Hle & Hm) | H]; [left | right; exact H].
    repeat split; try lia; try assumption.
    intros [| idx] Hidx; simpl.
    + rewrite Z.add_0_r. destruct (decide (json_at json (pos p + i) = ch)); [assumption | contradiction].
    + rewrite <- (Hm idx) by lia. f_equal. lia.
Qed.

(** In a longer buffer the loop answers as before, except that a literal
    that ended exactly at the end of the shorter buffer may now be followed
    by a byte that is not a delimiter. *)
Lemma literal_loop_mono lit p json k m i n p' :
  k <= m ->
  literal_loop lit p json k i = (n, p') -> n <> JSTOK_ERROR_PART ->
  literal_loop lit p json m i = (n, p')
  \/ (n = i + Z.of_nat (length lit) /\ p' = p
      /\ literal_loop lit p json m i
         = (JSTOK_ERROR_INVAL, jstok_set_error p JSTOK_ERROR_INVAL (pos p + n))).
Proof.
  intros Hkm. revert i; induction lit as [| ch lit IH]; intros i; simpl.
  - destruct (bool_decide (pos p + i < k)) eqn:Hk; simpl.
    + apply bool_decide_eq_true in Hk.
      rewrite (bool_decide_eq_true_2 (pos p + i < m)) by lia. simpl. auto.
    + intros [= <- <-] _. destruct (_ && _); [| auto].
      right. rewrite Z.add_0_r. auto.
  - destruct (decide (pos p + i >= k)); [intros [= <- <-]; congruence |].
    destruct (decide (pos p + i >= m)); [lia |].
    destruct (decide _); [auto |].
    intros H Hn. destruct (IH _ H Hn) as [? | (? & ? & ?)]; [auto | right].
    repeat split; try lia; assumption.
Qed.


(** ** What the value recognizers leave behind *)

Lemma string_outcome_result max_tokens p toks json_len s :
  0 <= toknext p ->
  match s with
  | ScanClose e => pos p <= e < json_len
  | ScanInval e => True
  | ScanPart e => True
  end ->
  token_result p toks max_tokens json_len (string_outcome max_tokens (pos p) p toks s).
Proof.
  intros Htn Hs. destruct s as [e | e | e]; simpl.
  - unfold jstok_new_token. destruct toks as [ts |]; simpl.
    + destruct (decide (toknext p >= max_tokens)); simpl.
      * destruct (decide (-1 < 0)); [| lia].
        right; left; simpl. repeat split; eauto.
      * destruct (decide (toknext p < 0)); [lia |].
        right; right; simpl. repeat split; [right; lia |].
        exists (e + 1), JSTOK_STRING, (pos p + 1), e. repeat split; try lia.
    + destruct (decide (toknext p < 0)); [lia |].
      right; right; simpl. repeat split; [left; reflexivity |].
      exists (e + 1), JSTOK_STRING, (pos p + 1), e. repeat split; try lia.
  - right; left; simpl. repeat split; eauto.
  - left; simpl. repeat split. exists e. destruct p; reflexivity.
Qed.

Lemma string_token_total p json json_len toks max_tokens :
  is_Some (jstok_parse_string_token p json json_len toks max_tokens).
Proof.
  unfold jstok_parse_string_token. destruct (decide _); [eauto |].
  rewrite string_loop_scan. simpl.
  destruct (string_scan_total (Z.to_nat (json_len - (pos p + 1))) json json_len (pos p + 1))
    as [s Hs]; [lia |].
  rewrite Hs. simpl. eauto.
Qed.

Lemma string_token_result p json json_len toks max_tokens res :
  0 <= toknext p ->
  jstok_parse_string_token p json json_len toks max_tokens = Some res ->
  token_result p toks max_tokens json_len res.
Proof.
  intros Htn. unfold jstok_parse_string_token.
  destruct (decide _).
  - intros [= <-]. right; left; simpl. repeat split; eauto.
  - rewrite string_loop_scan. simpl.
    destruct (string_scan _ _ _ _) as [s |] eqn:Hs; [| discriminate].
    simpl. intros [= <-].
    apply string_scan_bounds in Hs.
    pose proof (string_outcome_result max_tokens p toks json_len s Htn) as Hres.
    assert (Heq : forall s, string_outcome max_tokens (pos p) (set_pos p (pos p + 1)) toks s
                            = string_outcome max_tokens (pos p) p toks s).
    { intros [e | e | e]; destruct p; reflexivity. }
    rewrite Heq. apply Hres. destruct s; auto. lia.
Qed.

(** In a longer buffer the string recognizer repeats every answer other than
    [JSTOK_ERROR_PART]. *)
Lemma string_token_mono p json k m toks max_tokens res :
  k <= m -> pos p < k ->
  jstok_parse_string_token p json k toks max_tokens = Some res ->
  res.1.1 <> JSTOK_ERROR_PART ->
  jstok_parse_string_token p json m toks max_tokens = Some res.
Proof.
  intros Hkm Hp Hk Hr. unfold jstok_parse_string_token in *.
  destruct (decide (pos p >= k \/ _)) as [Hbad | Hok].
  - destruct (decide (pos p >= m \/ _)) as [_ | Hok']; [assumption |].
    destruct Hbad as [Hge | Hq]; [lia | tauto].
  - destruct (decide (pos p >= m \/ _)) as [Hbad | _]; [destruct Hbad; [lia | tauto] |].
    rewrite string_loop_scan in *. simpl in *.
    destruct (string_scan _ json k _) as [s |] eqn:Hs; [| discriminate].
    simpl in Hk. injection Hk as <-.
    rewrite (string_scan_mono _ _ json k m _ s Hs); [reflexivity | | assumption | lia].
    intros e ->. simpl in Hr. lia.
Qed.

Lemma emit_result p toks max_tokens json_len e ty s en :
  0 <= toknext p -> pos p < e <= json_len ->
  token_result p toks max_tokens json_len
    (jstok_new_token (set_pos p e) toks max_tokens ty s en).
Proof.
  intros Htn He. unfold jstok_new_token. destruct toks as [ts |]; simpl.
  - destruct (decide (toknext p >= max_tokens)).
    + right; left; simpl. repeat split; eauto.
    + right; right; simpl. repeat split; [right; lia |].
      exists e, ty, s, en. repeat split; lia.
  - right; right; simpl. repeat split; [left; reflexivity |].
    exists e, ty, s, en. repeat split; lia.
Qed.

Lemma literal_token_result p json json_len toks max_tokens lit n p1 :
  0 <= toknext p -> pos p < json_len -> (0 < length lit)%nat ->
  jstok_parse_literal p json json_len lit = (n, p1) ->
  token_result p toks max_tokens json_len
    (if decide (n < 0) then (n, p1, toks)
     else jstok_new_token (set_pos p1 (pos p1 + n)) toks max_tokens
            JSTOK_PRIMITIVE (pos p) (pos (set_pos p1 (pos p1 + n)))).
Proof.
  intros Htn Hp Hlen Hlit. unfold jstok_parse_literal in Hlit.
  apply literal_loop_shape in Hlit; [| lia].
  destruct Hlit as [(-> & -> & Hle & _) | ([-> | ->] & x & ->)].
  - destruct (decide _); [lia |]. apply emit_result; [assumption | lia].
  - simpl. left; simpl. eauto.
  - simpl. right; left; simpl. repeat split; eauto.
Qed.

Lemma primitive_token_result strict p json json_len toks max_tokens :
  0 <= toknext p ->
  token_result p toks max_tokens json_len
    (jstok_parse_primitive_token strict p json json_len toks max_tokens).
Proof.
  intros Htn. unfold jstok_parse_primitive_token.
  destruct (decide (pos p >= json_len)); [left; simpl; eauto |].
  destruct (decide _).
  { destruct (jstok_parse_literal p json json_len lit_true) as [ln lp] eqn:Hlit.
    eapply (literal_token_result _ _ _ _ _ _ _ _ Htn) in Hlit; [exact Hlit | lia | simpl; lia]. }
  destruct (decide _).
  { destruct (jstok_parse_literal p json json_len lit_false) as [ln lp] eqn:Hlit.
    eapply (literal_token_result _ _ _ _ _ _ _ _ Htn) in Hlit; [exact Hlit | lia | simpl; lia]. }
  destruct (decide _).
  { destruct (jstok_parse_literal p json json_len lit_null) as [ln lp] eqn:Hlit.
    eapply (literal_token_result _ _ _ _ _ _ _ _ Htn) in Hlit; [exact Hlit | lia | simpl; lia]. }
  pose proof (number_span_ok strict p json json_len) as Hnum.
  destruct (jstok_parse_number_span strict p json json_len) as [[r p1] e].
  destruct Hnum as [(Hr & Hp1 & He) | ([Hr | Hr] & He & x & Hp1)]; simpl in *; subst.
  - destruct (decide _); [lia |]. apply emit_result; [assumption | lia].
  - simpl. left; simpl. eauto.
  - simpl. right; left; simpl. repeat split; eauto.
Qed.

(** In a longer buffer the primitive recognizer repeats every answer other
    than [JSTOK_ERROR_PART], unless a literal that ended the shorter buffer
    is now followed by a byte that is not a delimiter. *)
Lemma primitive_token_mono strict p json k m toks max_tokens res :
  k <= m ->
  jstok_parse_primitive_token strict p json k toks max_tokens = res ->
  res.1.1 <> JSTOK_ERROR_PART ->
  jstok_parse_primitive_token strict p json m toks max_tokens = res
  \/ exists p',
       jstok_parse_primitive_token strict p json m toks max_tokens
       = (JSTOK_ERROR_INVAL, p', toks).
Proof.
  intros Hkm <-. unfold jstok_parse_primitive_token.
  destruct (decide (pos p >= k)); [simpl; congruence |].
  destruct (decide (pos p >= m)); [lia |].
  assert (Hlit : forall lit,
    (let '(n, p1) := jstok_parse_literal p json k lit in
     if decide (n < 0) then (n, p1, toks)
     else jstok_new_token (set_pos p1 (pos p1 + n)) toks max_tokens JSTOK_PRIMITIVE
            (pos p) (pos (set_pos p1 (pos p1 + n)))).1.1 <> JSTOK_ERROR_PART ->
    (let '(n, p1) := jstok_parse_literal p json m lit in
     if decide (n < 0) then (n, p1, toks)
     else jstok_new_token (set_pos p1 (pos p1 + n)) toks max_tokens JSTOK_PRIMITIVE
            (pos p) (pos (set_pos p1 (pos p1 + n))))
    = (let '(n, p1) := jstok_parse_literal p json k lit in
       if decide (n < 0) then (n, p1, toks)
       else jstok_new_token (set_pos p1 (pos p1 + n)) toks max_tokens JSTOK_PRIMITIVE
              (pos p) (pos (set_pos p1 (pos p1 + n))))
    \/ exists p',
         (let '(n, p1) := jstok_parse_literal p json m lit in
          if decide (n < 0) then (n, p1, toks)
          else jstok_new_token (set_pos p1 (pos p1 + n)) toks max_tokens JSTOK_PRIMITIVE
                 (pos p) (pos (set_pos p1 (pos p1 + n))))
         = (JSTOK_ERROR_INVAL, p', toks)).
  { intros lit. unfold jstok_parse_literal.
    destruct (literal_loop lit p json k 0) as [ln lp] eqn:Hk.
    intros Hnp.
    assert (Hn : ln <> JSTOK_ERROR_PART).
    { intros ->. simpl in Hnp. congruence. }
    destruct (literal_loop_mono lit p json k m 0 ln lp Hkm Hk Hn) as [-> | (_ & _ & ->)].
    - left; reflexivity.
    - right. simpl. eauto. }
  destruct (decide _); [apply Hlit |].
  destruct (decide _); [apply Hlit |].
  destruct (decide _); [apply Hlit |].
  destruct (jstok_parse_number_span strict p json k) as [[r p1] e] eqn:Hnum.
  intros Hnp. left.
  rewrite (number_span_mono strict p json k m _ Hkm Hnum); [reflexivity |].
  simpl. intros ->. simpl in Hnp. congruence.
Qed.

(** ** One pass through the loop body *)

Lemma accept_value_cases strict p toks :
  jstok_accept_value strict p toks
  = (JSTOK_ERROR_INVAL, jstok_set_error p JSTOK_ERROR_INVAL (pos p), toks)
  \/ (jstok_top p = None
      /\ jstok_accept_value strict p toks = (0, set_root_done p 1, toks))
  \/ (exists fr st,
        jstok_top p = Some fr
        /\ jstok_accept_value strict p toks
           = (0, set_frame_st p fr st, jstok_inc_container_size p toks)).
Proof.
  unfold jstok_accept_value. destruct (jstok_top p) as [fr |] eqn:Htop.
  - repeat (destruct (decide _)); eauto 10.
  - destruct (_ && _); auto.
Qed.

Lemma accept_value_scalars strict p toks r p1 toks1 :
  jstok_accept_value strict p toks = (r, p1, toks1) ->
  pos p1 = pos p /\ toknext p1 = toknext p.
Proof.
  destruct (accept_value_cases strict p toks) as [-> | [(_ & ->) | (fr & st & _ & ->)]];
    intros [= <- <- <-]; auto.
Qed.

Lemma accept_value_frame strict p toks r p1 toks1 :
  jstok_accept_value strict p toks = (r, p1, toks1) ->
  pos p1 = pos p /\ toknext p1 = toknext p /\ depth p1 = depth p
  /\ (toks = None -> toks1 = None)
  /\ (forall ts, toks = Some ts -> exists ts1, toks1 = Some ts1 /\ length ts1 = length ts).
Proof.
  unfold jstok_accept_value, jstok_inc_container_size, arr_set.
  intros H. repeat (case_match; simplify_eq); simpl; repeat split;
    try congruence; intros; simplify_eq; eexists; split; try reflexivity;
    rewrite ?length_insert; reflexivity.
Qed.

Lemma rollback_frame p fr st c x :
  set_frame_st (jstok_set_error (set_frame_st p fr st) c x) fr (fr_st (frame_at p fr))
  = jstok_set_error p c x.
Proof.
  pose proof (stack_set_frame_st_restore p fr st) as Hs.
  unfold set_frame_st, frame_at, jstok_set_error, set_stack in *; simpl in *.
  rewrite Hs. reflexivity.
Qed.

Lemma start_container_facts strict json_len p toks max_tokens type r p' toks' :
  0 <= toknext p -> pos p < json_len ->
  jstok_start_container strict p toks max_tokens type = (r, p', toks') ->
  if decide (r < 0) then r <> JSTOK_ERROR_PART else continue_ok json_len p p'.
Proof.
  intros Htn Hp. unfold jstok_start_container, jstok_new_token, jstok_push.
  destruct (accept_value_cases strict p toks) as [-> | [(Htop & ->) | (fr & st & Htop & ->)]];
    simpl; intros H; repeat break_hyp H; simplify_eq; simpl in *;
    try destruct (decide _); try lia; unfold continue_ok; simpl; try lia.
Qed.

Lemma end_container_facts json_len p toks type closer r p' toks' :
  pos p < json_len -> closer <> 0 ->
  jstok_end_container p toks type closer = (r, p', toks') ->
  if decide (r < 0) then r <> JSTOK_ERROR_PART else continue_ok json_len p p'.
Proof.
  intros Hp Hc. unfold jstok_end_container, jstok_pop.
  intros H; repeat break_hyp H; simplify_eq; simpl in *;
    try destruct (decide _); try lia; unfold continue_ok; simpl; lia.
Qed.

Lemma rollback_value_frame p fr st x toks :
  jstok_top p = Some fr ->
  rollback_value (jstok_set_error (set_frame_st p fr st) JSTOK_ERROR_PART x)
    (jstok_inc_container_size p toks) (Some fr) (fr_st (frame_at p fr)) (root_done p)
  = (jstok_set_error p JSTOK_ERROR_PART x, toks).
Proof.
  intros Htop. unfold rollback_value. rewrite rollback_frame. f_equal.
  apply dec_inc_container_size; [assumption |].
  change (frame_at (jstok_set_error (set_frame_st p fr st) JSTOK_ERROR_PART x) fr)
    with (frame_at (set_frame_st p fr st) fr).
  apply frame_at_set_frame_st_tok.
Qed.

Lemma rollback_value_root p x toks :
  rollback_value (jstok_set_error (set_root_done p 1) JSTOK_ERROR_PART x)
    toks None JSTOK_ST_OBJ_KEY_OR_END (root_done p)
  = (jstok_set_error p JSTOK_ERROR_PART x, toks).
Proof. destruct p; reflexivity. Qed.

Lemma value_path_facts strict json_len max_tokens p toks recognize res :
  0 <= toknext p -> pos p < json_len ->
  (forall q t r, 0 <= toknext q -> recognize q t = Some r ->
                 token_result q t max_tokens json_len r) ->
  value_path strict p toks recognize = Some res ->
  match res with
  | Continue p' toks' => continue_ok json_len p p'
  | Return r p' toks' => return_ok p toks r p' toks'
  end.
Proof.
  intros Htn Hp Hrec. unfold value_path.
  destruct (accept_value_cases strict p toks) as [-> | [(Htop & ->) | (fr & st & Htop & ->)]].
  - simpl. intros [= <-]. split; [lia | discriminate].
  - simpl. specialize (Hrec (set_root_done p 1) toks).
    destruct (recognize _ _) as [[[r p2] toks2] |]; [| discriminate].
    specialize (Hrec _ Htn eq_refl).
    destruct Hrec as [(Hr & Ht & x & Hp2) | [(Hr & Ht & e & x & Hp2) | (Hr & Hroom & e & ty & s & en & He & Hp2 & Ht)]];
      simpl in *; subst.
    + simpl. rewrite Htop, rollback_value_root. intros [= <-]. split; [lia | eauto].
    + destruct (decide _); [| lia]. destruct (decide _); [lia |].
      intros [= <-]. split; [lia | lia].
    + destruct (decide _); [lia |]. intros [= <-]. unfold continue_ok; simpl. lia.
  - simpl. specialize (Hrec (set_frame_st p fr st) (jstok_inc_container_size p toks)).
    destruct (recognize _ _) as [[[r p2] toks2] |]; [| discriminate].
    specialize (Hrec _ Htn eq_refl).
    destruct Hrec as [(Hr & Ht & x & Hp2) | [(Hr & Ht & e & x & Hp2) | (Hr & Hroom & e & ty & s & en & He & Hp2 & Ht)]];
      simpl in *; subst.
    + simpl. rewrite Htop, rollback_value_frame by assumption. intros [= <-]. split; [lia | eauto].
    + destruct (decide _); [| lia]. destruct (decide _); [lia |].
      intros [= <-]. split; [lia | lia].
    + destruct (decide _); [lia |]. intros [= <-]. unfold continue_ok; simpl. lia.
Qed.

(** The loop body, with its two value paths folded into [value_path]. *)
Lemma step_value_paths strict json json_len max_tokens p toks :
  jstok_parse_step strict json json_len max_tokens p toks
  = let c := json_at json (pos p) in
    if jstok_is_space c then Some (Continue (set_pos p (pos p + 1)) toks)
    else
      let fr := jstok_top p in
      let inval := Some (Return JSTOK_ERROR_INVAL
                           (jstok_set_error p JSTOK_ERROR_INVAL (pos p)) toks) in
      if decide (c = ch_lbrace) then
        let '(r, p1, toks1) := jstok_start_container strict p toks max_tokens JSTOK_OBJECT in
        if decide (r < 0) then Some (Return r p1 toks1) else Some (Continue p1 toks1)
      else if decide (c = ch_lbracket) then
        let '(r, p1, toks1) := jstok_start_container strict p toks max_tokens JSTOK_ARRAY in
        if decide (r < 0) then Some (Return r p1 toks1) else Some (Continue p1 toks1)
      else if decide (c = ch_rbrace \/ c = ch_rbracket) then
        let '(r, p1, toks1) :=
          if decide (c = ch_rbrace)
          then jstok_end_container p toks JSTOK_OBJECT ch_rbrace
          else jstok_end_container p toks JSTOK_ARRAY ch_rbracket in
        if decide (r < 0) then Some (Return r p1 toks1) else Some (Continue p1 toks1)
      else if decide (c = ch_colon) then
        match fr with
        | None => inval
        | Some fr =>
            if decide (fr_type (frame_at p fr) <> JSTOK_OBJECT
                       \/ fr_st (frame_at p fr) <> JSTOK_ST_OBJ_COLON) then inval
            else
              let p1 := set_frame_st p fr JSTOK_ST_OBJ_VALUE in
              Some (Continue (set_pos p1 (pos p1 + 1)) toks)
        end
      else if decide (c = ch_comma) then
        match fr with
        | None => inval
        | Some fr =>
            if decide (fr_type (frame_at p fr) = JSTOK_OBJECT) then
              if decide (fr_st (frame_at p fr) <> JSTOK_ST_OBJ_COMMA_OR_END) then inval
              else
                let p1 := set_frame_st p fr JSTOK_ST_OBJ_KEY in
                Some (Continue (set_pos p1 (pos p1 + 1)) toks)
            else
              if decide (fr_st (frame_at p fr) <> JSTOK_ST_ARR_COMMA_OR_END) then inval
              else
                let p1 := set_frame_st p fr JSTOK_ST_ARR_VALUE in
                Some (Continue (set_pos p1 (pos p1 + 1)) toks)
        end
      else if decide (c = ch_quote) then
        if key_expected p then
          let fri := default 0 fr in
          let saved_st := fr_st (frame_at p fri) in
          '(tok_idx, p1, toks1) ← jstok_parse_string_token p json json_len toks max_tokens;
          if decide (tok_idx < 0) then
            if decide (tok_idx = JSTOK_ERROR_PART)
            then Some (Return tok_idx (set_frame_st p1 fri saved_st) toks1)
            else Some (Return tok_idx p1 toks1)
          else
            let '(r, p2) := jstok_accept_key p1 in
            if decide (r < 0) then Some (Return r p2 toks1) else Some (Continue p2 toks1)
        else
          value_path strict p toks
            (fun q t => jstok_parse_string_token q json json_len t max_tokens)
      else
        value_path strict p toks
          (fun q t => Some (jstok_parse_primitive_token strict q json json_len t max_tokens)).
Proof.
  unfold jstok_parse_step, value_path. simpl.
  repeat (break_goal; try reflexivity).
Qed.

Lemma step_total strict json json_len max_tokens p toks :
  is_Some (jstok_parse_step strict json json_len max_tokens p toks).
Proof.
  rewrite step_value_paths. unfold value_path. simpl.
  destruct (string_token_total p json json_len toks max_tokens) as [[[r1 q1] t1] Hs1].
  rewrite Hs1.
  destruct (jstok_accept_value strict p toks) as [[r0 p0] t0].
  destruct (string_token_total p0 json json_len t0 max_tokens) as [[[r2 q2] t2] Hs2].
  rewrite Hs2. simpl.
  repeat (break_goal; eauto).
Qed.

(** One pass through the loop body, from a parser whose token counter is
    not negative and whose position is inside the buffer. *)
Lemma step_facts strict json json_len max_tokens p toks res :
  0 <= toknext p -> pos p < json_len ->
  jstok_parse_step strict json json_len max_tokens p toks = Some res ->
  match res with
  | Continue p' toks' => continue_ok json_len p p'
  | Return r p' toks' => return_ok p toks r p' toks'
  end.
Proof.
  intros Htn Hp. rewrite step_value_paths. simpl.
  destruct (jstok_is_space _).
  { intros [= <-]. unfold continue_ok; simpl. lia. }
  destruct (decide _).
  { destruct (jstok_start_container _ _ _ _ _) as [[r p1] toks1] eqn:Hsc.
    apply (start_container_facts _ json_len) in Hsc; [| assumption | assumption].
    destruct (decide (r < 0)); intros [= <-]; [split; [lia | intros; lia] | assumption]. }
  destruct (decide _).
  { destruct (jstok_start_container _ _ _ _ _) as [[r p1] toks1] eqn:Hsc.
    apply (start_container_facts _ json_len) in Hsc; [| assumption | assumption].
    destruct (decide (r < 0)); intros [= <-]; [split; [lia | intros; lia] | assumption]. }
  destruct (decide _).
  { destruct (decide _).
    - destruct (jstok_end_container _ _ _ _) as [[r p1] toks1] eqn:Hec.
      apply (end_container_facts json_len) in Hec; [| assumption | lia].
      destruct (decide (r < 0)); intros [= <-]; [split; [lia | intros; lia] | assumption].
    - destruct (jstok_end_container _ _ _ _) as [[r p1] toks1] eqn:Hec.
      apply (end_container_facts json_len) in Hec; [| assumption | lia].
      destruct (decide (r < 0)); intros [= <-]; [split; [lia | intros; lia] | assumption]. }
  destruct (decide _).
  { intros H; repeat break_hyp H; simplify_eq; unfold continue_ok, return_ok; simpl; lia. }
  destruct (decide _).
  { intros H; repeat break_hyp H; simplify_eq; unfold continue_ok, return_ok; simpl; lia. }
  destruct (decide _).
  { destruct (key_expected p) eqn:Hkey.
    - destruct (jstok_parse_string_token _ _ _ _ _) as [[[r p1] toks1] |] eqn:Hst;
        [| discriminate].
      apply string_token_result in Hst; [| assumption]. simpl.
      destruct Hst as [(Hr & Ht & x & Hp2) | [(Hr & Ht & ee & x & Hp2) | (Hr & Hroom & ee & ty & s & en & He & Hp2 & Ht)]];
        simpl in *; subst.
      + simpl. intros [= <-]. split; [lia |]. intros _. split; [reflexivity |].
        exists x.
        change (frame_at p (default 0 (jstok_top p)))
          with (frame_at (jstok_set_error p JSTOK_ERROR_PART x) (default 0 (jstok_top p))).
        apply set_frame_st_same_st.
      + destruct (decide _); [| lia]. destruct (decide _); [lia |].
        intros [= <-]. split; lia.
      + destruct (decide _); [lia |]. unfold jstok_accept_key. simpl.
        intros H; repeat break_hyp H; simplify_eq;
          unfold continue_ok, return_ok; simpl; lia.
    - apply (value_path_facts strict json_len max_tokens); try assumption.
      intros q t r Hq Hr. eapply string_token_result; eassumption. }
  apply (value_path_facts strict json_len max_tokens); try assumption.
  intros q t r Hq [= <-]. apply primitive_token_result, Hq.
Qed.

(** ** The loop body under a longer buffer *)

Lemma value_path_mono strict p toks rk rm k p' toks' :
  0 <= toknext p -> pos p < k ->
  (forall q t res,
     0 <= toknext q -> pos q < k -> rk q t = Some res ->
     res.1.1 <> JSTOK_ERROR_PART ->
     rm q t = Some res \/ exists q', rm q t = Some (JSTOK_ERROR_INVAL, q', t)) ->
  value_path strict p toks rk = Some (Continue p' toks') ->
  value_path strict p toks rm = Some (Continue p' toks')
  \/ exists p'' toks'', value_path strict p toks rm = Some (Return JSTOK_ERROR_INVAL p'' toks'').
Proof.
  intros Htn Hp Hmono. unfold value_path.
  destruct (jstok_accept_value strict p toks) as [[r0 p1] toks1] eqn:Hacc.
  apply accept_value_scalars in Hacc as [Hp1 Ht1].
  destruct (decide (r0 < 0)); [discriminate |].
  destruct (rk p1 toks1) as [[[r p2] toks2] |] eqn:Hrk; [| discriminate]. simpl.
  destruct (decide (r < 0)).
  { destruct (decide _); [destruct (rollback_value _ _ _ _ _) |]; discriminate. }
  intros [= <- <-].
  destruct (Hmono p1 toks1 _ ltac:(lia) ltac:(lia) Hrk ltac:(simpl; lia)) as [-> | [q' ->]]; simpl.
  - left. destruct (decide _); [lia | reflexivity].
  - right. eauto.
Qed.

Lemma step_mono strict json k m max_tokens p toks p' toks' :
  k <= m -> 0 <= toknext p -> pos p < k ->
  jstok_parse_step strict json k max_tokens p toks = Some (Continue p' toks') ->
  jstok_parse_step strict json m max_tokens p toks = Some (Continue p' toks')
  \/ exists p'' toks'',
       jstok_parse_step strict json m max_tokens p toks
       = Some (Return JSTOK_ERROR_INVAL p'' toks'').
Proof.
  intros Hkm Htn Hp. rewrite !step_value_paths. simpl.
  destruct (jstok_is_space _); [auto |].
  do 5 (destruct (decide _); [auto |]).
  destruct (decide _).
  { destruct (key_expected p).
    - destruct (jstok_parse_string_token p json k toks max_tokens)
        as [[[r p1] toks1] |] eqn:Hst; [| discriminate].
      simpl. destruct (decide (r < 0)).
      { destruct (decide _); discriminate. }
      rewrite (string_token_mono p json k m toks max_tokens _ Hkm Hp Hst) by (simpl; lia).
      simpl. destruct (decide _); [lia | auto].
    - apply (value_path_mono strict p toks _ _ k); try assumption.
      intros q t res Hq Hqp Hres Hnp. left.
      eapply string_token_mono; eauto. }
  apply (value_path_mono strict p toks _ _ k); try assumption.
  intros q t res Hq Hqp [= <-] Hnp.
  destruct (primitive_token_mono strict q json k m t max_tokens _ Hkm eq_refl Hnp)
    as [-> | [q' ->]]; eauto.
Qed.

(** ** The loop *)

Section Loop.

Variables (strict : bool) (json : list Z) (json_len max_tokens : Z).

Lemma loop_fuel_irrelevant fuel fuel' p toks :
  0 <= toknext p ->
  (Z.to_nat (json_len - pos p) <= fuel)%nat ->
  (Z.to_nat (json_len - pos p) <= fuel')%nat ->
  jstok_parse_loop strict fuel json json_len max_tokens p toks
  = jstok_parse_loop strict fuel' json json_len max_tokens p toks.
Proof.
  revert fuel' p toks. induction fuel as [| fuel IH]; intros fuel' p toks Htn Hf Hf'.
  - destruct fuel'; simpl; destruct (decide _); try reflexivity; lia.
  - simpl. destruct (decide (pos p < json_len)) as [Hlt |].
    + destruct fuel' as [| fuel']; [lia |]. simpl.
      destruct (decide _); [| lia].
      destruct (jstok_parse_step _ _ _ _ _ _) as [[p1 t1 | r p1 t1] |] eqn:Hstep;
        try reflexivity.
      apply step_facts in Hstep; [| assumption | assumption].
      destruct Hstep as (Hpos & Htok & _). apply IH; lia.
    + destruct fuel'; simpl; destruct (decide _); try reflexivity; lia.
Qed.

Lemma run_exit p toks :
  ~ pos p < json_len -> run strict json json_len max_tokens p toks = Some (jstok_parse_finish strict p toks).
Proof.
  intros H. unfold run. destruct (Z.to_nat _); simpl; destruct (decide _); tauto.
Qed.

Lemma run_step p toks :
  0 <= toknext p -> pos p < json_len ->
  run strict json json_len max_tokens p toks
  = match jstok_parse_step strict json json_len max_tokens p toks with
    | None => None
    | Some (Return r p1 toks1) => Some (r, p1, toks1)
    | Some (Continue p1 toks1) => run strict json json_len max_tokens p1 toks1
    end.
Proof.
  intros Htn Hlt. unfold run at 1.
  destruct (Z.to_nat (json_len - pos p)) as [| fuel] eqn:Hfuel; [lia |].
  simpl. destruct (decide _); [| lia].
  destruct (jstok_parse_step _ _ _ _ _ _) as [[p1 t1 | r p1 t1] |] eqn:Hstep;
    try reflexivity.
  apply step_facts in Hstep; [| assumption | assumption].
  destruct Hstep as (Hpos & Htok & _). apply loop_fuel_irrelevant; lia.
Qed.

(** The loop terminates: the fuel [jstok_parse] gives it is never exhausted. *)
Lemma run_total p toks : 0 <= toknext p -> is_Some (run strict json json_len max_tokens p toks).
Proof.
  unfold run. remember (Z.to_nat (json_len - pos p)) as fuel eqn:Hfuel.
  assert (Hle : (Z.to_nat (json_len - pos p) <= fuel)%nat) by lia. clear Hfuel.
  revert p toks Hle. induction fuel as [| fuel IH]; intros p toks Hle Htn; simpl.
  - destruct (decide _); [lia | eauto].
  - destruct (decide _); [| eauto].
    destruct (step_total strict json json_len max_tokens p toks) as [res Hstep].
    rewrite Hstep. destruct res as [p1 t1 | r p1 t1]; [| eauto].
    apply step_facts in Hstep; [| assumption | assumption].
    destruct Hstep as (Hpos & Htok & _). apply IH; lia.
Qed.

End Loop.

Lemma parse_body_run strict p json json_len toks max_tokens :
  jstok_parse_body strict p json json_len toks max_tokens
  = run strict json json_len max_tokens (jstok_set_error p 0 (-1)) toks.
Proof. reflexivity. Qed.

Lemma parse_valid_args strict p json json_len toks max_tokens :
  0 <= json_len ->
  jstok_parse strict (Some p) (Some json) json_len toks max_tokens
  = (fun res => (res.1.1, Some res.1.2, res.2))
    <$> run strict json json_len max_tokens (jstok_set_error p 0 (-1)) toks.
Proof.
  intros H. unfold jstok_parse. destruct (decide _); [lia |].
  rewrite parse_body_run. destruct (run _ _ _ _ _ _) as [[[r p1] t1] |]; reflexivity.
Qed.

(** [jstok_parse] returns: with valid arguments and a token counter that is
    not negative, the fuel of the loop is never exhausted. *)
Lemma parse_total strict p json json_len toks max_tokens :
  0 <= toknext p ->
  exists r p' toks',
    jstok_parse strict (Some p) (Some json) json_len toks max_tokens
    = Some (r, Some p', toks').
Proof.
  intros Htn. unfold jstok_parse. destruct (decide _); [eauto |].
  rewrite parse_body_run.
  destruct (run_total strict json json_len max_tokens (jstok_set_error p 0 (-1)) toks Htn)
    as [[[r p1] t1] ->].
  simpl. eauto.
Qed.

(** ** Resuming after [JSTOK_ERROR_PART] *)

Lemma reset_after_error p c x :
  error_pos p = -1 -> error_code p = 0 ->
  jstok_set_error (jstok_set_error p c x) 0 (-1) = p.
Proof. destruct p; simpl; intros -> ->; reflexivity. Qed.

Lemma finish_part strict p toks p1 toks1 :
  0 <= toknext p ->
  jstok_parse_finish strict p toks = (JSTOK_ERROR_PART, p1, toks1) ->
  toks1 = toks /\ exists x, p1 = jstok_set_error p JSTOK_ERROR_PART x.
Proof.
  intros Htn. unfold jstok_parse_finish.
  intros H; repeat break_hyp H; simplify_eq; eauto; lia.
Qed.

Section Resume.

Variables (strict : bool) (json : list Z) (k m max_tokens : Z).
Hypothesis Hkm : k <= m.

(** A call that stops with [JSTOK_ERROR_PART] at length [k] leaves, once the
    error fields are reset, a state that the loop at length [m] passes
    through on its way from the state the call started in; so the loop at
    length [m] ends from both in the same way, unless it ends with
    [JSTOK_ERROR_INVAL]. *)
Lemma resume_run fuel p toks p1 toks1 res :
  (Z.to_nat (k - pos p) <= fuel)%nat ->
  0 <= toknext p -> error_pos p = -1 -> error_code p = 0 ->
  run strict json k max_tokens p toks = Some (JSTOK_ERROR_PART, p1, toks1) ->
  run strict json m max_tokens p toks = Some res ->
  res.1.1 <> JSTOK_ERROR_INVAL ->
  run strict json m max_tokens (jstok_set_error p1 0 (-1)) toks1 = Some res.
Proof.
  revert p toks. induction fuel as [| fuel IH]; intros p toks Hfuel Htn Hep Hec Hk Hm Hr.
  - rewrite run_exit in Hk by lia. injection Hk as Hk.
    apply finish_part in Hk as [-> [x ->]]; [| assumption].
    rewrite reset_after_error by assumption. exact Hm.
  - destruct (decide (pos p < k)) as [Hlt | Hge].
    + rewrite run_step in Hk by assumption.
      destruct (jstok_parse_step strict json k max_tokens p toks)
        as [[p2 t2 | r p2 t2] |] eqn:Hstep; [| | discriminate].
      * pose proof (step_facts _ _ _ _ _ _ _ Htn Hlt Hstep) as (Hpos & Htok & Hep2 & Hec2).
        rewrite run_step in Hm by lia.
        destruct (step_mono strict json k m max_tokens p toks p2 t2 Hkm Htn Hlt Hstep)
          as [Hm2 | (p'' & t'' & Hm2)]; rewrite Hm2 in Hm.
        -- apply (IH p2 t2); try lia; assumption.
        -- injection Hm as <-. simpl in Hr. congruence.
      * injection Hk as -> -> ->.
        pose proof (step_facts _ _ _ _ _ _ _ Htn Hlt Hstep) as (_ & Hpart).
        destruct (Hpart eq_refl) as [-> [x ->]].
        rewrite reset_after_error by assumption. exact Hm.
    + rewrite run_exit in Hk by assumption. injection Hk as Hk.
      apply finish_part in Hk as [-> [x ->]]; [| assumption].
      rewrite reset_after_error by assumption. exact Hm.
Qed.

End Resume.

(** ** The two modes side by side *)

Lemma sim_set_pos pc pt v : sim pc pt -> sim (set_pos pc v) (set_pos pt v).
Proof. unfold sim; simpl; intuition. Qed.

Lemma sim_set_toknext pc pt v : sim pc pt -> sim (set_toknext pc v) (set_toknext pt v).
Proof. unfold sim; simpl; intuition. Qed.

Lemma sim_set_root_done pc pt v : sim pc pt -> sim (set_root_done pc v) (set_root_done pt v).
Proof. unfold sim; simpl; intuition. Qed.

Lemma sim_set_error pc pt c x : sim pc pt -> sim (jstok_set_error pc c x) (jstok_set_error pt c x).
Proof. unfold sim; simpl; intuition. Qed.

Lemma sim_set_depth pc pt v :
  v <= depth pt -> sim pc pt -> sim (set_depth pc v) (set_depth pt v).
Proof.
  unfold sim; simpl. intros Hv (? & ? & ? & ? & ? & ? & ? & Hfr).
  repeat split; try assumption; apply Hfr; lia.
Qed.

Lemma sim_set_frame_st pc pt fr st :
  sim pc pt -> sim (set_frame_st pc fr st) (set_frame_st pt fr st).
Proof.
  intros (? & ? & ? & ? & ? & ? & Hlen & Hfr).
  unfold sim. repeat split; try assumption.
  - unfold set_frame_st; simpl. rewrite !arr_set_length. assumption.
  - rewrite !frame_at_set_frame_st_type. apply Hfr. assumption.
  - rewrite !frame_at_set_frame_st_st. rewrite Hlen.
    destruct (decide _); [reflexivity |]. apply Hfr. assumption.
Qed.

Lemma sim_top pc pt : sim pc pt -> jstok_top pc = jstok_top pt.
Proof. intros (_ & _ & Hd & _). unfold jstok_top. rewrite Hd. reflexivity. Qed.

Lemma sim_top_frame pc pt fr :
  sim pc pt -> jstok_top pt = Some fr ->
  fr_type (frame_at pc fr) = fr_type (frame_at pt fr)
  /\ fr_st (frame_at pc fr) = fr_st (frame_at pt fr).
Proof.
  intros (_ & _ & _ & _ & _ & _ & _ & Hfr). unfold jstok_top.
  destruct (decide _); [discriminate |]. intros [= <-]. apply Hfr. lia.
Qed.

Lemma sim_key_expected pc pt : sim pc pt -> key_expected pc = key_expected pt.
Proof.
  intros Hsim. unfold key_expected. rewrite (sim_top pc pt Hsim).
  destruct (jstok_top pt) as [fr |] eqn:Htop; [| reflexivity].
  destruct (sim_top_frame pc pt fr Hsim Htop) as [-> ->]. reflexivity.
Qed.

Lemma sim_pos pc pt : sim pc pt -> pos pc = pos pt.
Proof. intros H; apply H. Qed.

Lemma sim_init pc0 pt0 :
  length (stack pc0) = length (stack pt0) -> sim (jstok_init pc0) (jstok_init pt0).
Proof. intros Hlen. unfold sim; simpl. repeat split; try assumption; lia. Qed.

(** [jstok_accept_value] and [jstok_accept_key] in the two modes. *)
Lemma accept_value_sim strict pc pt ts r pt1 toks1 :
  sim pc pt ->
  jstok_accept_value strict pt (Some ts) = (r, pt1, toks1) ->
  exists pc1 ts1,
    jstok_accept_value strict pc None = (r, pc1, None)
    /\ toks1 = Some ts1 /\ sim pc1 pt1.
Proof.
  intros Hsim. unfold jstok_accept_value, jstok_inc_container_size.
  rewrite (sim_top pc pt Hsim).
  destruct (jstok_top pt) as [fr |] eqn:Htop.
  - destruct (sim_top_frame pc pt fr Hsim Htop) as [-> ->].
    destruct Hsim as (Hpos & Hsim'). rewrite Hpos.
    pose proof (conj Hpos Hsim' : sim pc pt) as Hsim.
    intros H; repeat break_hyp H; simplify_eq; eexists _, _;
      (split; [reflexivity |]); (split; [reflexivity |]);
      auto using sim_set_error, sim_set_frame_st.
  - destruct Hsim as (Hpos & Htn & Hd & Hrd & Hsim'). rewrite Hpos, Hrd.
    pose proof (conj Hpos (conj Htn (conj Hd (conj Hrd Hsim'))) : sim pc pt) as Hsim.
    intros H; repeat break_hyp H; simplify_eq; eexists _, _;
      (split; [reflexivity |]); (split; [reflexivity |]);
      auto using sim_set_error, sim_set_root_done.
Qed.

Lemma accept_key_sim pc pt r pt1 :
  sim pc pt ->
  jstok_accept_key pt = (r, pt1) ->
  exists pc1, jstok_accept_key pc = (r, pc1) /\ sim pc1 pt1.
Proof.
  intros Hsim. unfold jstok_accept_key. rewrite (sim_top pc pt Hsim).
  destruct Hsim as (Hpos & Hsim'). rewrite Hpos.
  pose proof (conj Hpos Hsim' : sim pc pt) as Hsim.
  destruct (jstok_top pt) as [fr |] eqn:Htop.
  - destruct (sim_top_frame pc pt fr Hsim Htop) as [-> ->].
    intros H; repeat break_hyp H; simplify_eq; eexists;
      (split; [reflexivity |]); auto using sim_set_error, sim_set_frame_st.
  - intros [= <- <-]. eexists; split; [reflexivity |]. auto using sim_set_error.
Qed.

(** The token emitter in the two modes, when the array has room. *)
Lemma new_token_sim pc pt ts max_c max_t ty s e r pt1 toks1 :
  sim pc pt ->
  jstok_new_token pt (Some ts) max_t ty s e = (r, pt1, toks1) ->
  r <> JSTOK_ERROR_NOMEM ->
  exists pc1 ts1,
    jstok_new_token pc None max_c ty s e = (r, pc1, None)
    /\ toks1 = Some ts1 /\ sim pc1 pt1.
Proof.
  intros Hsim. unfold jstok_new_token.
  destruct (decide _); intros [= <- <- <-] Hr; [congruence |].
  destruct Hsim as (Hpos & Htn & Hsim'). rewrite Htn.
  pose proof (conj Hpos (conj Htn Hsim') : sim pc pt) as Hsim.
  eexists _, _. split; [reflexivity |]. split; [reflexivity |].
  apply sim_set_toknext, Hsim.
Qed.

Lemma push_sim pc pt ty st tok_c tok_t r pt1 :
  sim pc pt ->
  jstok_push pt ty st tok_t = (r, pt1) ->
  exists pc1, jstok_push pc ty st tok_c = (r, pc1) /\ sim pc1 pt1.
Proof.
  intros Hsim. unfold jstok_push.
  destruct Hsim as (Hpos & Htn & Hd & Hrd & Hep & Hec & Hlen & Hfr). rewrite Hd, Hpos.
  assert (Hsim : sim pc pt) by (unfold sim; auto 10).
  destruct (decide _); intros [= <- <-]; eexists; (split; [reflexivity |]).
  - apply sim_set_error, Hsim.
  - unfold sim; simpl. rewrite !arr_set_length. repeat split; try assumption.
    + destruct (decide (i = depth pt)) as [-> | Hne].
      * unfold frame_at; simpl.
        destruct (decide (0 <= depth pt < Z.of_nat (length (stack pt)))) as [Hin | Hout].
        -- rewrite !arr_get_set_same by lia. reflexivity.
        -- rewrite !arr_set_out, !arr_get_out by lia. reflexivity.
      * unfold frame_at; simpl. rewrite !arr_get_set_other by lia. apply Hfr. lia.
    + destruct (decide (i = depth pt)) as [-> | Hne].
      * unfold frame_at; simpl.
        destruct (decide (0 <= depth pt < Z.of_nat (length (stack pt)))) as [Hin | Hout].
        -- rewrite !arr_get_set_same by lia. reflexivity.
        -- rewrite !arr_set_out, !arr_get_out by lia. reflexivity.
      * unfold frame_at; simpl. rewrite !arr_get_set_other by lia. apply Hfr. lia.
Qed.

Lemma pop_sim pc pt : sim pc pt -> sim (jstok_pop pc) (jstok_pop pt).
Proof.
  intros Hsim. unfold jstok_pop.
  destruct Hsim as (Hpos & Htn & Hd & Hsim'). rewrite Hd.
  assert (Hsim : sim pc pt) by (unfold sim; auto 10).
  destruct (decide _); [| assumption]. apply sim_set_depth; [lia | assumption].
Qed.

Lemma start_container_sim strict pc pt ts max_c max_t ty r pt1 toks1 :
  sim pc pt ->
  jstok_start_container strict pt (Some ts) max_t ty = (r, pt1, toks1) ->
  r <> JSTOK_ERROR_NOMEM ->
  exists pc1 ts1,
    jstok_start_container strict pc None max_c ty = (r, pc1, None)
    /\ toks1 = Some ts1 /\ sim pc1 pt1.
Proof.
  intros Hsim. unfold jstok_start_container.
  destruct (jstok_accept_value strict pt (Some ts)) as [[r0 q1] t1] eqn:Hacc.
  destruct (accept_value_sim strict pc pt ts _ _ _ Hsim Hacc) as (qc1 & ts1 & -> & -> & Hsim1).
  destruct (decide (r0 < 0)).
  { intros [= <- <- <-] _. eauto. }
  rewrite (sim_pos _ _ Hsim1).
  destruct (jstok_new_token q1 (Some ts1) max_t ty (pos q1) (-1)) as [[i q2] t2] eqn:Hnew.
  destruct (decide (i < 0)).
  { intros [= <- <- <-] Hr.
    destruct (new_token_sim qc1 q1 ts1 max_c max_t _ _ _ _ _ _ Hsim1 Hnew Hr)
      as (qc2 & ts2 & -> & -> & Hsim2).
    simpl. destruct (decide (i < 0)); [| lia]. eauto. }
  assert (Hi : i <> JSTOK_ERROR_NOMEM) by lia.
  destruct (new_token_sim qc1 q1 ts1 max_c max_t _ _ _ _ _ _ Hsim1 Hnew Hi)
    as (qc2 & ts2 & -> & -> & Hsim2).
  simpl. destruct (decide (i < 0)); [lia |].
  destruct (jstok_push q2 ty _ i) as [pushed q3] eqn:Hpush.
  destruct (push_sim qc2 q2 ty _ (-1) i _ _ Hsim2 Hpush) as (qc3 & -> & Hsim3).
  destruct (decide (pushed < 0)); intros Heq _; injection Heq as <- <- <-;
    eexists _, _; (split; [reflexivity |]); (split; [reflexivity |]); [assumption |].
  rewrite (sim_pos _ _ Hsim3). apply sim_set_pos, Hsim3.
Qed.

Lemma end_container_sim pc pt ts ty closer r pt1 toks1 :
  sim pc pt ->
  jstok_end_container pt (Some ts) ty closer = (r, pt1, toks1) ->
  exists pc1 ts1,
    jstok_end_container pc None ty closer = (r, pc1, None)
    /\ toks1 = Some ts1 /\ sim pc1 pt1.
Proof.
  intros Hsim. unfold jstok_end_container. rewrite (sim_top pc pt Hsim).
  rewrite (sim_pos _ _ Hsim).
  pose proof (pop_sim pc pt Hsim) as Hpop.
  pose proof (sim_pos _ _ Hpop) as Hpp.
  destruct (jstok_top pt) as [fr |] eqn:Htop.
  - destruct (sim_top_frame pc pt fr Hsim Htop) as [-> ->].
    intros H; repeat break_hyp H; simplify_eq; eexists _, _;
      (split; [reflexivity |]); (split; [reflexivity |]);
      rewrite ?Hpp; auto using sim_set_error, sim_set_pos.
  - intros [= <- <- <-]. eexists _, _. split; [reflexivity |]. split; [reflexivity |].
    apply sim_set_error, Hsim.
Qed.

(** The recognizers in the two modes. *)
Lemma string_outcome_sim pc pt ts max_c max_t sq s r pt1 toks1 :
  sim pc pt ->
  string_outcome max_t sq pt (Some ts) s = (r, pt1, toks1) ->
  r <> JSTOK_ERROR_NOMEM ->
  exists pc1 ts1,
    string_outcome max_c sq pc None s = (r, pc1, None)
    /\ toks1 = Some ts1 /\ sim pc1 pt1.
Proof.
  intros Hsim. destruct s as [e | e | e]; unfold string_outcome.
  - destruct (jstok_new_token (set_pos pt e) (Some ts) max_t JSTOK_STRING (sq + 1) e)
      as [[i q1] t1] eqn:Hnew.
    assert (Hsim0 : sim (set_pos pc e) (set_pos pt e)) by (apply sim_set_pos; assumption).
    destruct (decide (i < 0)); intros [= <- <- <-] Hr.
    + destruct (new_token_sim _ _ ts max_c max_t _ _ _ _ _ _ Hsim0 Hnew Hr)
        as (qc1 & ts1 & -> & -> & Hsim1).
      destruct (decide (i < 0)); [| lia]. eauto.
    + assert (Hi : i <> JSTOK_ERROR_NOMEM) by lia.
      destruct (new_token_sim _ _ ts max_c max_t _ _ _ _ _ _ Hsim0 Hnew Hi)
        as (qc1 & ts1 & -> & -> & Hsim1).
      destruct (decide (i < 0)); [lia |].
      eexists _, _. split; [reflexivity |]. split; [reflexivity |].
      rewrite (sim_pos _ _ Hsim1). apply sim_set_pos, Hsim1.
  - intros [= <- <- <-] _. eexists _, _. split; [reflexivity |]. split; [reflexivity |].
    apply sim_set_error, sim_set_pos. assumption.
  - intros [= <- <- <-] _. eexists _, _. split; [reflexivity |]. split; [reflexivity |].
    apply sim_set_pos, sim_set_error, sim_set_pos. assumption.
Qed.

Lemma string_token_sim pc pt ts json json_len max_c max_t r pt1 toks1 :
  sim pc pt ->
  jstok_parse_string_token pt json json_len (Some ts) max_t = Some (r, pt1, toks1) ->
  r <> JSTOK_ERROR_NOMEM ->
  exists pc1 ts1,
    jstok_parse_string_token pc json json_len None max_c = Some (r, pc1, None)
    /\ toks1 = Some ts1 /\ sim pc1 pt1.
Proof.
  intros Hsim. unfold jstok_parse_string_token. rewrite (sim_pos _ _ Hsim).
  destruct (decide _).
  { intros [= <- <- <-] _. eexists _, _. split; [reflexivity |]. split; [reflexivity |].
    apply sim_set_error, Hsim. }
  rewrite !string_loop_scan. cbn [pos set_pos].
  destruct (string_scan _ _ _ _) as [s |]; [| discriminate].
  unfold fmap, option_fmap, option_map.
  intros [= Hout] Hr.
  destruct (string_outcome_sim (set_pos pc (pos pt + 1)) (set_pos pt (pos pt + 1))
              ts max_c max_t (pos pt) s r pt1 toks1) as (pc1 & ts1 & -> & -> & Hsim1);
    [apply sim_set_pos, Hsim | exact Hout | exact Hr |].
  eauto.
Qed.

Lemma literal_loop_sim lit pc pt json json_len i :
  sim pc pt ->
  (literal_loop lit pc json json_len i).1 = (literal_loop lit pt json json_len i).1
  /\ sim (literal_loop lit pc json json_len i).2 (literal_loop lit pt json json_len i).2.
Proof.
  intros Hsim. revert i. induction lit as [| ch lit IH]; intros i; simpl;
    rewrite (sim_pos _ _ Hsim).
  - destruct (_ && _); simpl; auto using sim_set_error.
  - repeat (destruct (decide _)); simpl; auto using sim_set_error.
Qed.

Lemma number_span_sim strict pc pt json json_len :
  sim pc pt ->
  (jstok_parse_number_span strict pc json json_len).1.1
  = (jstok_parse_number_span strict pt json json_len).1.1
  /\ (jstok_parse_number_span strict pc json json_len).2
     = (jstok_parse_number_span strict pt json json_len).2
  /\ sim (jstok_parse_number_span strict pc json json_len).1.2
         (jstok_parse_number_span strict pt json json_len).1.2.
Proof.
  intros Hsim.
  unfold jstok_parse_number_span, number_int, number_frac, number_exp, number_tail.
  rewrite (sim_pos _ _ Hsim).
  repeat break_goal; simpl; auto using sim_set_error.
Qed.

Lemma literal_branch_sim pc pt ts json json_len max_c max_t lit start r pt1 toks1 :
  sim pc pt ->
  (let '(n, p1) := jstok_parse_literal pt json json_len lit in
   if decide (n < 0) then (n, p1, Some ts)
   else jstok_new_token (set_pos p1 (pos p1 + n)) (Some ts) max_t JSTOK_PRIMITIVE
          start (pos (set_pos p1 (pos p1 + n)))) = (r, pt1, toks1) ->
  r <> JSTOK_ERROR_NOMEM ->
  exists pc1 ts1,
    (let '(n, p1) := jstok_parse_literal pc json json_len lit in
     if decide (n < 0) then (n, p1, None)
     else jstok_new_token (set_pos p1 (pos p1 + n)) None max_c JSTOK_PRIMITIVE
            start (pos (set_pos p1 (pos p1 + n)))) = (r, pc1, None)
    /\ toks1 = Some ts1 /\ sim pc1 pt1.
Proof.
  intros Hsim. unfold jstok_parse_literal.
  destruct (literal_loop_sim lit pc pt json json_len 0 Hsim) as [Hn Hsim1].
  destruct (literal_loop lit pt json json_len 0) as [n q1].
  destruct (literal_loop lit pc json json_len 0) as [n' qc1].
  simpl in Hn, Hsim1. subst n'.
  destruct (decide (n < 0)).
  - intros [= <- <- <-] _. eauto.
  - cbn [pos set_pos]. rewrite (sim_pos _ _ Hsim1). intros Hnew Hr.
    eapply new_token_sim; [| exact Hnew | exact Hr].
    apply sim_set_pos, Hsim1.
Qed.

Lemma primitive_token_sim strict pc pt ts json json_len max_c max_t r pt1 toks1 :
  sim pc pt ->
  jstok_parse_primitive_token strict pt json json_len (Some ts) max_t = (r, pt1, toks1) ->
  r <> JSTOK_ERROR_NOMEM ->
  exists pc1 ts1,
    jstok_parse_primitive_token strict pc json json_len None max_c = (r, pc1, None)
    /\ toks1 = Some ts1 /\ sim pc1 pt1.
Proof.
  intros Hsim. unfold jstok_parse_primitive_token. rewrite (sim_pos _ _ Hsim).
  destruct (decide (pos pt >= json_len)).
  { intros [= <- <- <-] _. eexists _, _. split; [reflexivity |]. split; [reflexivity |].
    apply sim_set_error, Hsim. }
  destruct (decide _); [apply literal_branch_sim, Hsim |].
  destruct (decide _); [apply literal_branch_sim, Hsim |].
  destruct (decide _); [apply literal_branch_sim, Hsim |].
  destruct (number_span_sim strict pc pt json json_len Hsim) as (Hr & He & Hsim1).
  destruct (jstok_parse_number_span strict pt json json_len) as [[nr q1] ne].
  destruct (jstok_parse_number_span strict pc json json_len) as [[nr' qc1] ne'].
  simpl in Hr, He, Hsim1. subst nr' ne'.
  destruct (decide (nr < 0)).
  - intros [= <- <- <-] _. eauto.
  - cbn [pos set_pos]. intros Hnew Hnm.
    eapply new_token_sim; [| exact Hnew | exact Hnm].
    apply sim_set_pos, Hsim1.
Qed.

Lemma rollback_value_sim pc pt pc2 pt2 ts2 :
  sim pc pt -> sim pc2 pt2 ->
  sim (rollback_value pc2 None (jstok_top pc)
         (match jstok_top pc with
          | Some fr => fr_st (frame_at pc fr)
          | None => JSTOK_ST_OBJ_KEY_OR_END
          end) (root_done pc)).1
      (rollback_value pt2 (Some ts2) (jstok_top pt)
         (match jstok_top pt with
          | Some fr => fr_st (frame_at pt fr)
          | None => JSTOK_ST_OBJ_KEY_OR_END
          end) (root_done pt)).1
  /\ (rollback_value pc2 None (jstok_top pc)
        (match jstok_top pc with
         | Some fr => fr_st (frame_at pc fr)
         | None => JSTOK_ST_OBJ_KEY_OR_END
         end) (root_done pc)).2 = None
  /\ is_Some (rollback_value pt2 (Some ts2) (jstok_top pt)
        (match jstok_top pt with
         | Some fr => fr_st (frame_at pt fr)
         | None => JSTOK_ST_OBJ_KEY_OR_END
         end) (root_done pt)).2.
Proof.
  intros Hsim Hsim2. rewrite (sim_top pc pt Hsim). unfold rollback_value.
  destruct (jstok_top pt) as [fr |] eqn:Htop; simpl.
  - destruct (sim_top_frame pc pt fr Hsim Htop) as [_ ->].
    split; [apply sim_set_frame_st, Hsim2 |]. split; [reflexivity |].
    destruct (decide _); eauto.
  - destruct Hsim as (_ & _ & _ & -> & _).
    split; [apply sim_set_root_done, Hsim2 |]. split; [reflexivity | eauto].
Qed.

Lemma value_path_sim strict pc pt ts rec_c rec_t res_t :
  sim pc pt ->
  (forall qc qt tq r qt1 tq1,
     sim qc qt -> rec_t qt (Some tq) = Some (r, qt1, tq1) ->
     r <> JSTOK_ERROR_NOMEM ->
     exists qc1 tq1',
       rec_c qc None = Some (r, qc1, None) /\ tq1 = Some tq1' /\ sim qc1 qt1) ->
  value_path strict pt (Some ts) rec_t = Some res_t ->
  not_nomem res_t ->
  exists res_c,
    value_path strict pc None rec_c = Some res_c /\ sim_result res_c res_t.
Proof.
  intros Hsim Hrec. unfold value_path.
  destruct (jstok_accept_value strict pt (Some ts)) as [[r0 q1] t1] eqn:Hacc.
  destruct (accept_value_sim strict pc pt ts _ _ _ Hsim Hacc) as (qc1 & ts1 & -> & -> & Hsim1).
  destruct (decide (r0 < 0)).
  { intros [= <-] _. eexists. split; [reflexivity |]. simpl. auto. }
  destruct (rec_t q1 (Some ts1)) as [[[r q2] t2] |] eqn:Hrt; [| discriminate].
  cbn [mbind option_bind].
  destruct (decide (r < 0)) as [Hneg | Hpos].
  - destruct (decide (r = JSTOK_ERROR_PART)) as [-> | Hnp].
    + destruct (Hrec qc1 q1 ts1 _ _ _ Hsim1 Hrt ltac:(lia)) as (qc2 & ts2 & -> & -> & Hsim2).
      cbn [mbind option_bind].
      destruct (decide (-3 < 0)); [| lia]. destruct (decide (-3 = -3)); [| lia].
      pose proof (rollback_value_sim pc pt qc2 q2 ts2 Hsim Hsim2) as (Hs & Hn & [ts3 Hts]).
      destruct (rollback_value qc2 None _ _ _) as [pc3 tc3].
      destruct (rollback_value q2 (Some ts2) _ _ _) as [pt3 tt3].
      simpl in Hs, Hn, Hts. subst tc3 tt3.
      intros [= <-] _. eexists. split; [reflexivity |]. simpl. auto.
    + intros [= <-] Hnm. simpl in Hnm.
      destruct (Hrec qc1 q1 ts1 _ _ _ Hsim1 Hrt Hnm) as (qc2 & ts2 & -> & -> & Hsim2).
      cbn [mbind option_bind].
      destruct (decide (r < 0)); [| lia]. destruct (decide (r = -3)); [lia |].
      eexists. split; [reflexivity |]. simpl. auto.
  - intros [= <-] _.
    destruct (Hrec qc1 q1 ts1 _ _ _ Hsim1 Hrt ltac:(lia)) as (qc2 & ts2 & -> & -> & Hsim2).
    cbn [mbind option_bind].
    destruct (decide (r < 0)); [lia |].
    eexists. split; [reflexivity |]. simpl. auto.
Qed.

Lemma step_sim strict json json_len max_c max_t pc pt ts res_t :
  sim pc pt ->
  jstok_parse_step strict json json_len max_t pt (Some ts) = Some res_t ->
  not_nomem res_t ->
  exists res_c,
    jstok_parse_step strict json json_len max_c pc None = Some res_c
    /\ sim_result res_c res_t.
Proof.
  intros Hsim. rewrite !step_value_paths. cbn zeta. rewrite (sim_pos _ _ Hsim).
  destruct (jstok_is_space _).
  { intros [= <-] _. eexists. split; [reflexivity |]. simpl. apply sim_set_pos, Hsim. }
  destruct (decide _).
  { destruct (jstok_start_container strict pt _ _ _) as [[r q1] t1] eqn:Hsc.
    destruct (decide (r < 0)); intros [= <-] Hnm; simpl in Hnm;
      (destruct (start_container_sim strict pc pt ts max_c max_t _ _ _ _ Hsim Hsc ltac:(lia))
         as (qc1 & ts1 & -> & -> & Hsim1));
      (destruct (decide (r < 0)); [| try lia]; try lia);
      (eexists; split; [reflexivity |]); simpl; auto. }
  destruct (decide _).
  { destruct (jstok_start_container strict pt _ _ _) as [[r q1] t1] eqn:Hsc.
    destruct (decide (r < 0)); intros [= <-] Hnm; simpl in Hnm;
      (destruct (start_container_sim strict pc pt ts max_c max_t _ _ _ _ Hsim Hsc ltac:(lia))
         as (qc1 & ts1 & -> & -> & Hsim1));
      (destruct (decide (r < 0)); [| try lia]; try lia);
      (eexists; split; [reflexivity |]); simpl; auto. }
  destruct (decide _).
  { destruct (decide _).
    - destruct (jstok_end_container pt _ _ _) as [[r q1] t1] eqn:Hec.
      destruct (end_container_sim pc pt ts _ _ _ _ _ Hsim Hec) as (qc1 & ts1 & -> & -> & Hsim1).
      destruct (decide (r < 0)); intros [= <-] _;
        (eexists; split; [reflexivity |]); simpl; auto.
    - destruct (jstok_end_container pt _ _ _) as [[r q1] t1] eqn:Hec.
      destruct (end_container_sim pc pt ts _ _ _ _ _ Hsim Hec) as (qc1 & ts1 & -> & -> & Hsim1).
      destruct (decide (r < 0)); intros [= <-] _;
        (eexists; split; [reflexivity |]); simpl; auto. }
  destruct (decide _).
  { rewrite (sim_top pc pt Hsim).
    destruct (jstok_top pt) as [fr |] eqn:Htop.
    - destruct (sim_top_frame pc pt fr Hsim Htop) as [-> ->].
      destruct (decide _); intros [= <-] _; (eexists; split; [reflexivity |]); simpl;
        [split; [reflexivity |]; apply sim_set_error, Hsim |].
      rewrite (sim_pos _ _ Hsim). apply sim_set_pos, sim_set_frame_st, Hsim.
    - intros [= <-] _. eexists; split; [reflexivity |]. simpl.
      split; [reflexivity |]. apply sim_set_error, Hsim. }
  destruct (decide _).
  { rewrite (sim_top pc pt Hsim).
    destruct (jstok_top pt) as [fr |] eqn:Htop.
    - destruct (sim_top_frame pc pt fr Hsim Htop) as [-> ->].
      repeat (destruct (decide _)); intros [= <-] _;
        (eexists; split; [reflexivity |]); simpl;
        try (split; [reflexivity |]; apply sim_set_error, Hsim);
        rewrite (sim_pos _ _ Hsim); apply sim_set_pos, sim_set_frame_st, Hsim.
    - intros [= <-] _. eexists; split; [reflexivity |]. simpl.
      split; [reflexivity |]. apply sim_set_error, Hsim. }
  destruct (decide _).
  { rewrite (sim_key_expected pc pt Hsim).
    destruct (key_expected pt) eqn:Hkey.
    - destruct (jstok_parse_string_token pt _ _ _ _) as [[[r q1] t1] |] eqn:Hst;
        [| discriminate].
      cbn [mbind option_bind].
      assert (Hfr : fr_st (frame_at pc (default 0 (jstok_top pc)))
                    = fr_st (frame_at pt (default 0 (jstok_top pt)))).
      { unfold key_expected in Hkey. rewrite (sim_top pc pt Hsim).
        destruct (jstok_top pt) as [fr |] eqn:Htop; [| discriminate].
        apply (sim_top_frame pc pt fr Hsim Htop). }
      rewrite (sim_top pc pt Hsim) in *. rewrite Hfr.
      destruct (decide (r < 0)).
      + destruct (decide (r = JSTOK_ERROR_PART)) as [-> | Hnp]; intros [= <-] Hnm; simpl in Hnm;
          (destruct (string_token_sim pc pt ts json json_len max_c max_t _ _ _ Hsim Hst ltac:(lia))
             as (qc1 & ts1 & -> & -> & Hsim1));
          cbn [mbind option_bind].
        * destruct (decide (-3 < 0)); [| lia]. destruct (decide (-3 = -3)); [| lia].
          eexists; split; [reflexivity |]. simpl. split; [reflexivity |].
          apply sim_set_frame_st, Hsim1.
        * destruct (decide (r < 0)); [| lia]. destruct (decide (r = -3)); [lia |].
          eexists; split; [reflexivity |]. simpl. auto.
      + destruct (string_token_sim pc pt ts json json_len max_c max_t _ _ _ Hsim Hst ltac:(lia))
          as (qc1 & ts1 & -> & -> & Hsim1).
        cbn [mbind option_bind]. destruct (decide (r < 0)); [lia |].
        destruct (jstok_accept_key q1) as [rk q2] eqn:Hak.
        destruct (accept_key_sim qc1 q1 _ _ Hsim1 Hak) as (qc2 & -> & Hsim2).
        destruct (decide (rk < 0)); intros [= <-] _;
          (eexists; split; [reflexivity |]); simpl; auto.
    - apply value_path_sim; [assumption |].
      intros qc qt tq r qt1 tq1 Hq Hr Hnm. eapply string_token_sim; eassumption. }
  apply value_path_sim; [assumption |].
  intros qc qt tq r qt1 tq1 Hq [= Hr] Hnm.
  destruct (primitive_token_sim strict qc qt tq json json_len max_c max_t _ _ _ Hq Hr Hnm)
    as (qc1 & ts1 & -> & -> & Hsim1).
  eauto.
Qed.

Lemma finish_sim strict pc pt ts :
  sim pc pt ->
  (jstok_parse_finish strict pc None).1.1 = (jstok_parse_finish strict pt (Some ts)).1.1
  /\ sim (jstok_parse_finish strict pc None).1.2 (jstok_parse_finish strict pt (Some ts)).1.2
  /\ (jstok_parse_finish strict pc None).2 = None
  /\ (jstok_parse_finish strict pt (Some ts)).2 = Some ts.
Proof.
  intros Hsim. unfold jstok_parse_finish.
  destruct Hsim as (Hpos & Htn & Hd & Hrd & Hrest). rewrite Hpos, Htn, Hd, Hrd.
  assert (Hsim : sim pc pt) by (unfold sim; auto 10).
  repeat break_goal; simpl; auto using sim_set_error.
Qed.

(** The whole loop: unless token mode runs out of token slots, count-only
    mode returns the same value from a parser with the same scalar fields. *)
Lemma run_sim strict json json_len max_c max_t fuel pc pt ts r pt' tt' :
  (Z.to_nat (json_len - pos pt) <= fuel)%nat ->
  sim pc pt -> 0 <= toknext pt ->
  run strict json json_len max_t pt (Some ts) = Some (r, pt', tt') ->
  r <> JSTOK_ERROR_NOMEM ->
  exists pc',
    run strict json json_len max_c pc None = Some (r, pc', None)
    /\ sim pc' pt' /\ is_Some tt'.
Proof.
  revert pc pt ts. induction fuel as [| fuel IH]; intros pc pt ts Hfuel Hsim Htn Hrun Hr.
  - rewrite run_exit in Hrun |- * by (rewrite ?(sim_pos _ _ Hsim); lia).
    destruct (finish_sim strict pc pt ts Hsim) as (Hc & Hs & Hn & Ht).
    destruct (jstok_parse_finish strict pc None) as [[rc pc1] tc].
    destruct (jstok_parse_finish strict pt (Some ts)) as [[rt pt1] tt].
    simpl in *. simplify_eq. eauto.
  - destruct (decide (pos pt < json_len)) as [Hlt | Hge].
    + pose proof Hsim as (Hpos & Htnc & _).
      rewrite run_step in Hrun by assumption.
      rewrite run_step by lia.
      destruct (jstok_parse_step strict json json_len max_t pt (Some ts))
        as [res_t |] eqn:Hstep; [| discriminate].
      assert (Hnm : not_nomem res_t).
      { destruct res_t; simpl; [exact I |]. simplify_eq. assumption. }
      destruct (step_sim strict json json_len max_c max_t pc pt ts res_t Hsim Hstep Hnm)
        as (res_c & -> & Hres).
      pose proof (step_facts _ _ _ _ _ _ _ Htn Hlt Hstep) as Hfacts.
      destruct res_t as [pt1 [ts1 |] | rt pt1 [ts1 |]], res_c as [pc1 [tc1 |] | rc pc1 [tc1 |]];
        simpl in Hres; try contradiction.
      * destruct Hfacts as (Hp1 & Ht1 & _). eapply IH; try eassumption; lia.
      * destruct Hres as [-> Hs1]. simplify_eq. eauto.
    + rewrite run_exit in Hrun |- * by (rewrite ?(sim_pos _ _ Hsim); lia).
      destruct (finish_sim strict pc pt ts Hsim) as (Hc & Hs & Hn & Ht).
      destruct (jstok_parse_finish strict pc None) as [[rc pc1] tc].
      destruct (jstok_parse_finish strict pt (Some ts)) as [[rt pt1] tt].
      simpl in *. simplify_eq. eauto.
Qed.

(** ** When token mode runs out of token slots *)

Lemma new_token_nomem p toks max_tokens ty s e p' toks' :
  0 <= toknext p ->
  jstok_new_token p toks max_tokens ty s e = (JSTOK_ERROR_NOMEM, p', toks') ->
  toknext p >= max_tokens.
Proof.
  intros Htn. unfold jstok_new_token.
  intros H; repeat break_hyp H; simplify_eq; lia.
Qed.

Lemma string_token_nomem p json json_len toks max_tokens p' toks' :
  0 <= toknext p ->
  jstok_parse_string_token p json json_len toks max_tokens
  = Some (JSTOK_ERROR_NOMEM, p', toks') ->
  toknext p >= max_tokens.
Proof.
  intros Htn. unfold jstok_parse_string_token.
  destruct (decide _); [discriminate |].
  rewrite string_loop_scan.
  destruct (string_scan _ _ _ _) as [[e | e | e] |]; unfold fmap, option_fmap, option_map;
    try discriminate.
  unfold string_outcome.
  destruct (jstok_new_token _ _ _ _ _ _) as [[i q1] t1] eqn:Hnew.
  destruct (decide (i < 0)); intros [= -> <- <-]; [| lia].
  apply new_token_nomem in Hnew; simpl in *; assumption.
Qed.

Lemma primitive_token_nomem strict p json json_len toks max_tokens p' toks' :
  0 <= toknext p ->
  jstok_parse_primitive_token strict p json json_len toks max_tokens
  = (JSTOK_ERROR_NOMEM, p', toks') ->
  toknext p >= max_tokens.
Proof.
  intros Htn. unfold jstok_parse_primitive_token.
  destruct (decide (pos p >= json_len)) as [| Hlt]; [discriminate |].
  assert (Hlit : forall lit,
    (let '(n, p1) := jstok_parse_literal p json json_len lit in
     if decide (n < 0) then (n, p1, toks)
     else jstok_new_token (set_pos p1 (pos p1 + n)) toks max_tokens JSTOK_PRIMITIVE
            (pos p) (pos (set_pos p1 (pos p1 + n)))) = (JSTOK_ERROR_NOMEM, p', toks') ->
    toknext p >= max_tokens).
  { intros lit. unfold jstok_parse_literal.
    destruct (literal_loop lit p json json_len 0) as [ln lp] eqn:Hl.
    apply literal_loop_shape in Hl; [| lia].
    destruct Hl as [(-> & -> & _) | ([-> | ->] & _)]; simpl; try discriminate.
    destruct (decide _); [intros [= ? ? ?]; lia |].
    intros Hnew. apply new_token_nomem in Hnew; simpl in *; assumption. }
  destruct (decide _); [apply Hlit |].
  destruct (decide _); [apply Hlit |].
  destruct (decide _); [apply Hlit |].
  pose proof (number_span_ok strict p json json_len) as Hnum.
  destruct (jstok_parse_number_span strict p json json_len) as [[nr q1] ne].
  destruct Hnum as [(Hr & Hp1 & He) | ([Hr | Hr] & He & x & Hp1)]; simpl in *; subst;
    simpl; try discriminate.
  intros Hnew. apply new_token_nomem in Hnew; simpl in *; assumption.
Qed.

Lemma start_container_nomem strict p toks max_tokens ty p' toks' :
  0 <= toknext p ->
  jstok_start_container strict p toks max_tokens ty = (JSTOK_ERROR_NOMEM, p', toks') ->
  toknext p >= max_tokens.
Proof.
  intros Htn. unfold jstok_start_container.
  destruct (jstok_accept_value strict p toks) as [[r0 p1] t1] eqn:Hacc.
  pose proof (accept_value_scalars _ _ _ _ _ _ Hacc) as [_ Ht1].
  destruct (accept_value_cases strict p toks) as [H | [(_ & H) | (fr & st & _ & H)]];
    rewrite H in Hacc; injection Hacc as <- <- <-; simpl; try discriminate.
  all: destruct (jstok_new_token _ _ _ _ _ _) as [[i q2] t2] eqn:Hnew;
    destruct (decide (i < 0));
    [intros [= -> <- <-]; apply new_token_nomem in Hnew; simpl in *; assumption |];
    unfold jstok_push; destruct (decide _); simpl; intros [= ? ? ?]; lia.
Qed.

Lemma end_container_not_nomem p toks ty closer p' toks' :
  jstok_end_container p toks ty closer <> (JSTOK_ERROR_NOMEM, p', toks').
Proof.
  unfold jstok_end_container. intros H; repeat break_hyp H; simplify_eq.
Qed.

Lemma value_path_nomem strict max_tokens p toks recognize p' toks' :
  0 <= toknext p ->
  (forall q t q' t', 0 <= toknext q ->
     recognize q t = Some (JSTOK_ERROR_NOMEM, q', t') -> toknext q >= max_tokens) ->
  value_path strict p toks recognize = Some (Return JSTOK_ERROR_NOMEM p' toks') ->
  toknext p >= max_tokens.
Proof.
  intros Htn Hrec. unfold value_path.
  destruct (jstok_accept_value strict p toks) as [[r0 p1] t1] eqn:Hacc.
  pose proof (accept_value_scalars _ _ _ _ _ _ Hacc) as [_ Ht1].
  destruct (accept_value_cases strict p toks) as [H | [(_ & H) | (fr & st & _ & H)]];
    rewrite H in Hacc; injection Hacc as <- <- <-; simpl; try discriminate.
  all: destruct (recognize _ _) as [[[r q2] t2] |] eqn:Hr; [| discriminate];
    cbn [mbind option_bind];
    destruct (decide (r < 0)); [| discriminate];
    destruct (decide (r = -3)); [destruct (rollback_value _ _ _ _ _); intros [= ? ? ?]; lia |];
    intros [= -> <- <-]; apply Hrec in Hr; simpl in *; assumption.
Qed.

Lemma step_nomem strict json json_len max_tokens p toks p' toks' :
  0 <= toknext p ->
  jstok_parse_step strict json json_len max_tokens p toks
  = Some (Return JSTOK_ERROR_NOMEM p' toks') ->
  toknext p >= max_tokens.
Proof.
  intros Htn. rewrite step_value_paths. cbn zeta.
  destruct (jstok_is_space _); [discriminate |].
  destruct (decide _).
  { destruct (jstok_start_container _ _ _ _ _) as [[r q1] t1] eqn:Hsc.
    destruct (decide (r < 0)); intros [= -> <- <-].
    eapply start_container_nomem; eassumption. }
  destruct (decide _).
  { destruct (jstok_start_container _ _ _ _ _) as [[r q1] t1] eqn:Hsc.
    destruct (decide (r < 0)); intros [= -> <- <-].
    eapply start_container_nomem; eassumption. }
  destruct (decide _).
  { destruct (decide _).
    - destruct (jstok_end_container _ _ _ _) as [[r q1] t1] eqn:Hec.
      destruct (decide (r < 0)); intros [= -> <- <-].
      apply end_container_not_nomem in Hec. contradiction.
    - destruct (jstok_end_container _ _ _ _) as [[r q1] t1] eqn:Hec.
      destruct (decide (r < 0)); intros [= -> <- <-].
      apply end_container_not_nomem in Hec. contradiction. }
  destruct (decide _).
  { intros H; repeat break_hyp H; simplify_eq. }
  destruct (decide _).
  { intros H; repeat break_hyp H; simplify_eq. }
  destruct (decide _).
  { destruct (key_expected p).
    - destruct (jstok_parse_string_token _ _ _ _ _) as [[[r q1] t1] |] eqn:Hst;
        [| discriminate].
      cbn [mbind option_bind].
      destruct (decide (r < 0)).
      + destruct (decide (r = -3)); intros [= -> <- <-]; [lia |].
        eapply string_token_nomem; eassumption.
      + unfold jstok_accept_key. intros H; repeat break_hyp H; simplify_eq.
    - apply value_path_nomem; [assumption |].
      intros q t q' t' Hq Hr. eapply string_token_nomem; eassumption. }
  apply value_path_nomem; [assumption |].
  intros q t q' t' Hq [= Hr]. eapply primitive_token_nomem; eassumption.
Qed.

(** With at least as many token slots as input bytes, token mode never runs
    out of them: the token counter never exceeds the scan position. *)
Lemma run_no_nomem strict json json_len max_tokens fuel p toks r p' toks' :
  (Z.to_nat (json_len - pos p) <= fuel)%nat ->
  json_len <= max_tokens ->
  0 <= toknext p <= pos p ->
  run strict json json_len max_tokens p toks = Some (r, p', toks') ->
  r <> JSTOK_ERROR_NOMEM.
Proof.
  intros Hfuel Hmax. revert p toks Hfuel.
  induction fuel as [| fuel IH]; intros p toks Hfuel Htn Hrun.
  - rewrite run_exit in Hrun by lia. unfold jstok_parse_finish in Hrun.
    repeat break_hyp Hrun; simplify_eq; lia.
  - destruct (decide (pos p < json_len)) as [Hlt | Hge].
    + rewrite run_step in Hrun by lia.
      destruct (jstok_parse_step strict json json_len max_tokens p toks)
        as [[p1 t1 | r1 p1 t1] |] eqn:Hstep; [| | discriminate].
      * pose proof (step_facts _ _ _ _ _ _ _ (proj1 Htn) Hlt Hstep) as (Hp1 & Ht1 & _).
        apply (IH p1 t1); [lia | lia | assumption].
      * injection Hrun as -> -> ->. intros ->.
        apply step_nomem in Hstep; lia.
    + rewrite run_exit in Hrun by lia. unfold jstok_parse_finish in Hrun.
      repeat break_hyp Hrun; simplify_eq; lia.
Qed.

(** * The claims *)

(** ** C1: incremental parsing against one-shot parsing *)

(** C1, as the code has it.  A parser is initialized and [jstok_parse]
    returns [JSTOK_ERROR_PART] for the first [k] bytes of a buffer; the
    call is repeated on the same buffer with a length [m >= k].  Whenever a
    one-shot parse of the [m] bytes by a freshly initialized parser into the
    same token array returns anything but [JSTOK_ERROR_INVAL] -- in
    particular whenever it succeeds -- the resumed call returns the same
    value and leaves the same parser state and the same token array, hence
    the same token count and the same (type, start, end, size) of every
    token. *)
Theorem c1_resume_equals_one_shot (strict : bool) (p0 : jstok_parser)
    (json : list Z) (k m : Z) (toks : tokens) (max_tokens : Z)
    (p1 : jstok_parser) (toks1 : tokens)
    (r : Z) (p2 : jstok_parser) (toks2 : tokens) :
  0 <= k <= m ->
  jstok_parse strict (Some (jstok_init p0)) (Some json) k toks max_tokens
  = Some (JSTOK_ERROR_PART, Some p1, toks1) ->
  jstok_parse strict (Some (jstok_init p0)) (Some json) m toks max_tokens
  = Some (r, Some p2, toks2) ->
  r <> JSTOK_ERROR_INVAL ->
  jstok_parse strict (Some p1) (Some json) m toks1 max_tokens
  = Some (r, Some p2, toks2).
Proof.
  intros [Hk Hkm] Hprefix Hfull Hr.
  rewrite parse_valid_args in * by lia.
  change (jstok_set_error (jstok_init p0) 0 (-1)) with (jstok_init p0) in *.
  destruct (run strict json k max_tokens (jstok_init p0) toks)
    as [[[rk pk] tk] |] eqn:Hrunk; [| discriminate].
  simpl in Hprefix. injection Hprefix as -> -> ->.
  destruct (run strict json m max_tokens (jstok_init p0) toks)
    as [[[rm pm] tm] |] eqn:Hrunm; [| discriminate].
  simpl in Hfull. injection Hfull as -> -> ->.
  rewrite (resume_run strict json k m max_tokens Hkm _ (jstok_init p0) toks p1 toks1
             (r, p2, toks2) (le_n _)); simpl; try reflexivity; try assumption; lia.
Qed.

Lemma c1_resume_equals_one_shot_witness :
  exists p1 toks1 p2,
    jstok_parse true (Some (jstok_init blank_parser)) (Some json_async) 6
      (Some (blank_tokens 5)) 5
    = Some (JSTOK_ERROR_PART, Some p1, toks1)
    /\ jstok_parse true (Some p1) (Some json_async) 30 toks1 5
       = Some (5, Some p2,
               Some [mk_tok JSTOK_OBJECT 0 30 2;
                     mk_tok JSTOK_STRING 2 7 0;
                     mk_tok JSTOK_STRING 10 17 0;
                     mk_tok JSTOK_STRING 20 23 0;
                     mk_tok JSTOK_PRIMITIVE 25 29 0]).
Proof.
  eexists _, _, _. split; [vm_compute; reflexivity |].
  eapply (c1_resume_equals_one_shot true blank_parser json_async 6 30
            (Some (blank_tokens 5)) 5).
  - lia.
  - vm_compute; reflexivity.
  - vm_compute; reflexivity.
  - discriminate.
Defined.

(** C1, the claim as stated fails: the document [12] is a JSON number, its
    first byte alone is answered with [JSTOK_ERROR_PART], and the resumed
    call on the full two bytes does not succeed: it is answered with
    [JSTOK_ERROR_PART] again, because a number is not committed at the end
    of the buffer. *)
Lemma c1_top_level_number_is_never_accepted :
  spec_number json_12 = true
  /\ forall strict : bool,
       exists p1 toks1 p2 toks2,
         jstok_parse strict (Some (jstok_init blank_parser)) (Some json_12) 1
           (Some (blank_tokens 1)) 1
         = Some (JSTOK_ERROR_PART, Some p1, toks1)
         /\ jstok_parse strict (Some p1) (Some json_12) 2 toks1 1
            = Some (JSTOK_ERROR_PART, Some p2, toks2).
Proof.
  split; [reflexivity |].
  intros []; eexists _, _, _, _;
    (split; [vm_compute; reflexivity |]); vm_compute; reflexivity.
Qed.

(** ** C2: a string cut by the end of the buffer *)

(** The recognizer answers [JSTOK_ERROR_PART] exactly when the scan after
    the opening quote runs into the end of the buffer. *)
Lemma string_token_part_scan p json json_len toks max_tokens q tq :
  0 <= toknext p ->
  jstok_parse_string_token p json json_len toks max_tokens
  = Some (JSTOK_ERROR_PART, q, tq) ->
  pos p < json_len /\ json_at json (pos p) = ch_quote
  /\ exists e,
       string_scan (Z.to_nat (json_len - (pos p + 1))) json json_len (pos p + 1)
       = Some (ScanPart e).
Proof.
  intros Htn. unfold jstok_parse_string_token.
  destruct (decide _) as [| Hok]; [discriminate |].
  rewrite string_loop_scan. simpl.
  destruct (string_scan _ _ _ _) as [[e | e | e] |] eqn:Hs; simpl; try discriminate.
  - unfold jstok_new_token. intros H. repeat break_hyp H; simplify_eq; simpl in *; lia.
  - intros _. repeat split; [lia | | eauto].
    destruct (decide (json_at json (pos p) = 34)); [assumption | tauto].
Qed.

Lemma string_token_of_scan_part p json json_len toks max_tokens e :
  pos p < json_len -> json_at json (pos p) = ch_quote ->
  string_scan (Z.to_nat (json_len - (pos p + 1))) json json_len (pos p + 1)
  = Some (ScanPart e) ->
  jstok_parse_string_token p json json_len toks max_tokens
  = Some (JSTOK_ERROR_PART, jstok_set_error p JSTOK_ERROR_PART e, toks).
Proof.
  intros Hlt Hq Hs. unfold jstok_parse_string_token.
  destruct (decide _) as [[? | ?] |]; [lia | tauto |].
  rewrite string_loop_scan. simpl. rewrite Hs. simpl.
  destruct p; reflexivity.
Qed.

Lemma value_path_part strict p toks recognize p1 toks1 p2 toks2 :
  jstok_accept_value strict p toks = (0, p1, toks1) ->
  recognize p1 toks1 = Some (JSTOK_ERROR_PART, p2, toks2) ->
  exists p' toks',
    value_path strict p toks recognize = Some (Return JSTOK_ERROR_PART p' toks').
Proof.
  intros Hacc Hrec. unfold value_path. rewrite Hacc. simpl. rewrite Hrec. simpl.
  destruct (rollback_value _ _ _ _ _). eauto.
Qed.

Lemma accept_value_code_reset strict p toks c x :
  (jstok_accept_value strict (jstok_set_error p c x) toks).1.1
  = (jstok_accept_value strict p toks).1.1.
Proof.
  unfold jstok_accept_value. simpl.
  change (jstok_top (jstok_set_error p c x)) with (jstok_top p).
  destruct (jstok_top p) as [fr |].
  - change (frame_at (jstok_set_error p c x) fr) with (frame_at p fr).
    repeat break_goal; reflexivity.
  - repeat break_goal; reflexivity.
Qed.

(** When the string recognizer, started at the scan position, runs into the
    end of the buffer, and the string stands where a key is expected or
    where a value is accepted, [jstok_parse] returns [JSTOK_ERROR_PART] and
    only the error fields of the parser have changed. *)
Lemma string_partial_rewinds strict p json json_len toks max_tokens q tq :
  0 <= pos p -> 0 <= toknext p ->
  jstok_parse_string_token p json json_len toks max_tokens
  = Some (JSTOK_ERROR_PART, q, tq) ->
  key_expected p = true \/ (jstok_accept_value strict p toks).1.1 = 0 ->
  exists x,
    jstok_parse strict (Some p) (Some json) json_len toks max_tokens
    = Some (JSTOK_ERROR_PART, Some (jstok_set_error p JSTOK_ERROR_PART x), toks)
    /\ json_at json (pos p) = ch_quote.
Proof.
  intros Hpos Htn Heof Hlegal.
  destruct (string_token_part_scan _ _ _ _ _ _ _ Htn Heof) as (Hlt & Hq & e & Hscan).
  rewrite parse_valid_args by lia.
  set (pr := jstok_set_error p 0 (-1)).
  assert (Hstep : exists p' toks',
             jstok_parse_step strict json json_len max_tokens pr toks
             = Some (Return JSTOK_ERROR_PART p' toks')).
  { rewrite step_value_paths. simpl. rewrite Hq. simpl.
    change (key_expected pr) with (key_expected p).
    destruct (key_expected p) eqn:Hkey.
    - rewrite (string_token_of_scan_part pr json json_len toks max_tokens e Hlt Hq Hscan).
      simpl. eauto.
    - destruct Hlegal as [? | Hacc]; [discriminate |].
      rewrite <- (accept_value_code_reset strict p toks 0 (-1)) in Hacc. fold pr in Hacc.
      destruct (jstok_accept_value strict pr toks) as [[r0 p1] toks1] eqn:Hav.
      simpl in Hacc. subst r0.
      pose proof (accept_value_scalars _ _ _ _ _ _ Hav) as [Hp1 Ht1].
      eapply value_path_part; [exact Hav |].
      apply string_token_of_scan_part with (e := e); rewrite Hp1; assumption. }
  destruct Hstep as (p' & toks' & Hstep).
  rewrite run_step, Hstep by (simpl; lia). simpl.
  apply step_facts in Hstep; [| simpl; lia | simpl; lia].
  destruct Hstep as [_ Hpart]. destruct (Hpart eq_refl) as [-> [x ->]].
  exists x. split; [| assumption]. destruct p; reflexivity.
Qed.

(** C2. When the string recognizer, started on the quote at the scan
    position, hits the end of the buffer inside the string or in the middle
    of an escape (and the string stands where a key is expected or a value
    is accepted, so that [jstok_parse] calls the recognizer), [jstok_parse]
    returns [JSTOK_ERROR_PART] with [pos] back on the opening quote, and
    [depth], [toknext], [root_done], the whole frame stack and the token
    array are as they were before the call; in particular the six bytes of
    an opening quote followed by [a\u12], parsed from position 0 by a
    freshly initialized parser, give [JSTOK_ERROR_PART] with [pos] 0. *)
Theorem c2_string_partial_rewinds (strict : bool) (p : jstok_parser)
    (json : list Z) (json_len : Z) (toks : tokens) (max_tokens : Z)
    (q : jstok_parser) (tq : tokens) :
  0 <= pos p -> 0 <= toknext p ->
  jstok_parse_string_token p json json_len toks max_tokens
  = Some (JSTOK_ERROR_PART, q, tq) ->
  key_expected p = true \/ (jstok_accept_value strict p toks).1.1 = 0 ->
  (exists p',
     jstok_parse strict (Some p) (Some json) json_len toks max_tokens
     = Some (JSTOK_ERROR_PART, Some p', toks)
     /\ json_at json (pos p') = ch_quote
     /\ pos p' = pos p /\ depth p' = depth p /\ toknext p' = toknext p
     /\ root_done p' = root_done p /\ stack p' = stack p
     /\ error_code p' = JSTOK_ERROR_PART)
  /\ (forall p0 toks0 max0,
        exists p',
          jstok_parse strict (Some (jstok_init p0)) (Some json_partial_escape) 6 toks0 max0
          = Some (JSTOK_ERROR_PART, Some p', toks0)
          /\ pos p' = 0 /\ depth p' = 0 /\ toknext p' = 0 /\ root_done p' = 0
          /\ stack p' = stack p0).
Proof.
  intros Hpos Htn Heof Hlegal. split.
  - destruct (string_partial_rewinds strict p json json_len toks max_tokens q tq
                Hpos Htn Heof Hlegal) as (x & Hparse & Hq).
    eexists. split; [exact Hparse |]. simpl. auto 10.
  - intros p0 toks0 max0.
    destruct (string_partial_rewinds strict (jstok_init p0) json_partial_escape 6
                toks0 max0 (jstok_set_error (jstok_init p0) JSTOK_ERROR_PART 6) toks0)
      as (x & Hparse & _).
    + simpl; lia.
    + simpl; lia.
    + apply string_token_of_scan_part; [simpl; lia | reflexivity |].
      vm_compute. reflexivity.
    + right. destruct strict; reflexivity.
    + eexists. split; [exact Hparse |]. simpl. auto.
Qed.

Lemma c2_string_partial_rewinds_witness :
  exists p',
    jstok_parse true (Some (jstok_init blank_parser)) (Some json_partial_escape) 6
      (Some (blank_tokens 1)) 1
    = Some (JSTOK_ERROR_PART, Some p', Some (blank_tokens 1))
    /\ json_at json_partial_escape (pos p') = ch_quote
    /\ pos p' = 0 /\ depth p' = 0 /\ toknext p' = 0
    /\ root_done p' = 0 /\ stack p' = stack blank_parser
    /\ error_code p' = JSTOK_ERROR_PART.
Proof.
  apply (c2_string_partial_rewinds true (jstok_init blank_parser) json_partial_escape 6
           (Some (blank_tokens 1)) 1
           (jstok_set_error (jstok_init blank_parser) JSTOK_ERROR_PART 6)
           (Some (blank_tokens 1))).
  - simpl; lia.
  - simpl; lia.
  - vm_compute. reflexivity.
  - right. reflexivity.
Defined.

(** ** C3: count-only mode *)

(** C3. For every input buffer and every length, two freshly initialized
    parsers, one run in count-only mode and one in token mode: whenever
    token mode does not run out of token slots (it returns anything but
    [JSTOK_ERROR_NOMEM]), count-only mode returns the same value, be it a
    count or an error, and ends with the same [toknext] (and the same
    [pos], [depth], [root_done], [error_pos] and [error_code]); and token
    mode does not run out of slots when there are at least as many as
    input bytes. *)
Theorem c3_count_only_equals_token_mode (strict : bool) (pc0 pt0 : jstok_parser)
    (json : list Z) (json_len : Z) (ts : list jstoktok_t) (max_c max_t : Z) :
  length (stack pc0) = Z.to_nat JSTOK_MAX_DEPTH ->
  length (stack pt0) = Z.to_nat JSTOK_MAX_DEPTH ->
  exists r pt' ts',
    jstok_parse strict (Some (jstok_init pt0)) (Some json) json_len (Some ts) max_t
    = Some (r, Some pt', ts')
    /\ (json_len <= max_t -> r <> JSTOK_ERROR_NOMEM)
    /\ (r <> JSTOK_ERROR_NOMEM ->
        exists pc',
          jstok_parse strict (Some (jstok_init pc0)) (Some json) json_len None max_c
          = Some (r, Some pc', None)
          /\ toknext pc' = toknext pt' /\ pos pc' = pos pt'
          /\ depth pc' = depth pt' /\ root_done pc' = root_done pt'
          /\ error_pos pc' = error_pos pt' /\ error_code pc' = error_code pt').
Proof.
  intros Hlc Hlt.
  assert (Hsim0 : sim (jstok_init pc0) (jstok_init pt0))
    by (apply sim_init; congruence).
  destruct (decide (json_len < 0)) as [Hneg | Hpos].
  { unfold jstok_parse. destruct (decide (json_len < 0)); [| lia].
    eexists _, _, _. split; [reflexivity |]. split; [lia |]. intros _.
    eexists. split; [reflexivity |]. simpl. auto 10. }
  rewrite !parse_valid_args by lia.
  change (jstok_set_error (jstok_init pt0) 0 (-1)) with (jstok_init pt0).
  change (jstok_set_error (jstok_init pc0) 0 (-1)) with (jstok_init pc0).
  destruct (run_total strict json json_len max_t (jstok_init pt0) (Some ts))
    as [[[r pt'] tt'] Hrun]; [simpl; lia |].
  exists r, pt', tt'. rewrite Hrun. split; [reflexivity |]. split.
  - intros Hmax.
    eapply (run_no_nomem strict json json_len max_t);
      [apply le_n | exact Hmax | | exact Hrun].
    simpl; lia.
  - intros Hr.
    destruct (run_sim strict json json_len max_c max_t _ _ _ ts r pt' tt' (le_n _)
                Hsim0 ltac:(simpl; lia) Hrun Hr) as (pc' & -> & Hsim & _).
    exists pc'. split; [reflexivity |].
    destruct Hsim as (? & ? & ? & ? & ? & ? & _). auto 10.
Qed.

Lemma c3_count_only_equals_token_mode_witness :
  exists pt' ts',
    jstok_parse true (Some (jstok_init blank_parser)) (Some json_async) 30
      (Some (blank_tokens 30)) 30
    = Some (5, Some pt', ts')
    /\ exists pc',
         jstok_parse true (Some (jstok_init blank_parser)) (Some json_async) 30 None 0
         = Some (5, Some pc', None)
         /\ toknext pc' = toknext pt'.
Proof.
  destruct (c3_count_only_equals_token_mode true blank_parser blank_parser json_async 30
              (blank_tokens 30) 0 30 eq_refl eq_refl)
    as (r & pt' & ts' & Htok & Hroom & Hcount).
  assert (Hr : r = 5).
  { vm_compute in Htok. injection Htok as Hr _ _. symmetry. exact Hr. }
  subst r. exists pt', ts'. split; [exact Htok |].
  destruct (Hcount ltac:(lia)) as (pc' & Hc & Htn & _).
  exists pc'. split; [exact Hc | exact Htn].
Defined.

(** ** C4: literals *)




(** ** C5: empty and blank input *)

Lemma step_space strict json json_len max_tokens p toks :
  jstok_is_space (json_at json (pos p)) = true ->
  jstok_parse_step strict json json_len max_tokens p toks
  = Some (Continue (set_pos p (pos p + 1)) toks).
Proof. intros H. unfold jstok_parse_step. simpl. rewrite H. reflexivity. Qed.

(** Over a run of whitespace the loop only moves the position. *)
Lemma run_blank strict json json_len max_tokens fuel p toks :
  (Z.to_nat (json_len - pos p) <= fuel)%nat ->
  0 <= toknext p -> pos p <= json_len ->
  (forall i, pos p <= i < json_len -> jstok_is_space (json_at json i) = true) ->
  run strict json json_len max_tokens p toks
  = Some (jstok_parse_finish strict (set_pos p json_len) toks).
Proof.
  revert p. induction fuel as [| fuel IH]; intros p Hfuel Htn Hpos Hblank.
  - rewrite run_exit by lia. replace json_len with (pos p) by lia.
    destruct p; reflexivity.
  - destruct (decide (pos p < json_len)) as [Hlt | Hge].
    + rewrite run_step, step_space by (try apply Hblank; lia).
      rewrite IH; simpl; try lia; [reflexivity |].
      intros i Hi. apply Hblank. lia.
    + rewrite run_exit by lia. replace json_len with (pos p) by lia.
      destruct p; reflexivity.
Qed.

(** C5, as the code has it.  On an input of zero bytes or of whitespace
    only, [jstok_parse] on a freshly initialized parser returns
    [JSTOK_ERROR_PART] when built with [JSTOK_STRICT], and 0 -- success
    with no token -- when built without; the position is at the end of the
    input and no token is counted or written. *)
Theorem c5_blank_input (strict : bool) (p0 : jstok_parser) (json : list Z)
    (json_len : Z) (toks : tokens) (max_tokens : Z) :
  0 <= json_len ->
  (forall i, 0 <= i < json_len -> jstok_is_space (json_at json i) = true) ->
  exists p',
    jstok_parse strict (Some (jstok_init p0)) (Some json) json_len toks max_tokens
    = Some (if strict then JSTOK_ERROR_PART else 0, Some p', toks)
    /\ pos p' = json_len /\ toknext p' = 0 /\ depth p' = 0 /\ root_done p' = 0
    /\ error_code p' = (if strict then JSTOK_ERROR_PART else 0).
Proof.
  intros Hlen Hblank. rewrite parse_valid_args by assumption.
  rewrite (run_blank strict json json_len max_tokens (Z.to_nat json_len)); simpl;
    try lia; [| exact Hblank].
  destruct strict; eexists; (split; [reflexivity |]); simpl; auto.
Qed.

Lemma c5_blank_input_witness :
  exists p',
    jstok_parse false (Some (jstok_init blank_parser)) (Some json_blank) 4
      (Some (blank_tokens 1)) 1
    = Some (0, Some p', Some (blank_tokens 1))
    /\ pos p' = 4 /\ toknext p' = 0 /\ depth p' = 0 /\ root_done p' = 0
    /\ error_code p' = 0.
Proof.
  apply (c5_blank_input false blank_parser json_blank 4 (Some (blank_tokens 1)) 1).
  - lia.
  - intros i Hi.
    assert (Hc : i = 0 \/ i = 1 \/ i = 2 \/ i = 3) by lia.
    destruct Hc as [-> | [-> | [-> | ->]]]; reflexivity.
Defined.

(** C5, the claim as stated fails: built without [JSTOK_STRICT],
    [jstok_parse] answers the empty input, and an input of whitespace, with
    0 and not with [JSTOK_ERROR_PART]. *)
Lemma c5_permissive_blank_input_returns_zero :
  (exists p',
     jstok_parse false (Some (jstok_init blank_parser)) (Some []) 0
       (Some (blank_tokens 1)) 1
     = Some (0, Some p', Some (blank_tokens 1)))
  /\ (exists p',
        jstok_parse false (Some (jstok_init blank_parser)) (Some json_blank) 4
          (Some (blank_tokens 1)) 1
        = Some (0, Some p', Some (blank_tokens 1)))
  /\ 0 <> JSTOK_ERROR_PART.
Proof.
  split; [| split]; [eexists; vm_compute; reflexivity .. | lia].
Qed.

(** ** C6: the depth limit *)

(** Opening a container on a full frame stack: the value is accepted and
    the token emitted first, then [jstok_push] refuses. *)
Lemma start_container_full_stack strict p toks max_tokens type p1 toks1 :
  depth p >= JSTOK_MAX_DEPTH ->
  0 <= toknext p ->
  jstok_accept_value strict p toks = (0, p1, toks1) ->
  toks = None \/ toknext p < max_tokens ->
  exists p' toks',
    jstok_start_container strict p toks max_tokens type
    = (JSTOK_ERROR_DEPTH, p', toks')
    /\ error_code p' = JSTOK_ERROR_DEPTH /\ error_pos p' = pos p.
Proof.
  intros Hfull Htn Hacc Hroom. unfold jstok_start_container. rewrite Hacc.
  destruct (accept_value_frame _ _ _ _ _ _ Hacc) as (Hp & Ht & Hd & Hnone & Hsome).
  destruct (decide (0 < 0)) as [? | _]; [lia |].
  unfold jstok_new_token, jstok_push.
  destruct toks1 as [ts1 |].
  - destruct (decide (toknext p1 >= max_tokens)) as [Hge | _].
    { destruct Hroom as [-> | Hlt]; [specialize (Hnone eq_refl); discriminate | lia]. }
    destruct (decide (toknext p1 < 0)); [lia |]. simpl.
    destruct (decide (depth p1 >= JSTOK_MAX_DEPTH)); [| lia]. simpl.
    eexists _, _. repeat split. assumption.
  - destruct (decide (toknext p1 < 0)); [lia |]. simpl.
    destruct (decide (depth p1 >= JSTOK_MAX_DEPTH)); [| lia]. simpl.
    eexists _, _. repeat split. assumption.
Qed.

Lemma step_open_full_stack strict json json_len max_tokens p toks p1 toks1 :
  depth p >= JSTOK_MAX_DEPTH ->
  0 <= toknext p ->
  json_at json (pos p) = ch_lbracket \/ json_at json (pos p) = ch_lbrace ->
  jstok_accept_value strict p toks = (0, p1, toks1) ->
  toks = None \/ toknext p < max_tokens ->
  exists p' toks',
    jstok_parse_step strict json json_len max_tokens p toks
    = Some (Return JSTOK_ERROR_DEPTH p' toks')
    /\ error_code p' = JSTOK_ERROR_DEPTH /\ error_pos p' = pos p.
Proof.
  intros Hfull Htn Hc Hacc Hroom. unfold jstok_parse_step.
  destruct Hc as [-> | ->]; simpl.
  - destruct (start_container_full_stack strict p toks max_tokens JSTOK_ARRAY
                p1 toks1 Hfull Htn Hacc Hroom) as (p' & toks' & -> & He & Hp).
    simpl. eauto.
  - destruct (start_container_full_stack strict p toks max_tokens JSTOK_OBJECT
                p1 toks1 Hfull Htn Hacc Hroom) as (p' & toks' & -> & He & Hp).
    simpl. eauto.
Qed.

(** C6. With [JSTOK_MAX_DEPTH] at its default of 64: 64 nested arrays parse
    successfully (64 tokens), in count-only and in token mode; a 65th nested
    opener makes [jstok_parse] return [JSTOK_ERROR_DEPTH] (-4) with the error
    recorded at byte 64; and in general, from any parser state whose 64
    frames are in use, an opening bracket or brace that is a legal value
    and has a token slot makes the loop body return -4. *)
Theorem c6_depth_limit (strict : bool) (p0 : jstok_parser)
    (toks64 toks65 : list jstoktok_t) :
  length (stack p0) = Z.to_nat JSTOK_MAX_DEPTH ->
  length toks64 = 64%nat ->
  length toks65 = 65%nat ->
  (exists p', jstok_parse strict (Some (jstok_init p0)) (Some (nested_arrays 64)) 128 None 0
              = Some (64, Some p', None))
  /\ (exists p' toks', jstok_parse strict (Some (jstok_init p0)) (Some (nested_arrays 64)) 128
                         (Some toks64) 64
                       = Some (64, Some p', Some toks'))
  /\ (exists p', jstok_parse strict (Some (jstok_init p0)) (Some (nested_arrays 65)) 130 None 0
                 = Some (JSTOK_ERROR_DEPTH, Some p', None)
                 /\ error_code p' = JSTOK_ERROR_DEPTH /\ error_pos p' = 64)
  /\ (exists p' toks', jstok_parse strict (Some (jstok_init p0)) (Some (nested_arrays 65)) 130
                         (Some toks65) 65
                       = Some (JSTOK_ERROR_DEPTH, Some p', Some toks')
                       /\ error_code p' = JSTOK_ERROR_DEPTH /\ error_pos p' = 64)
  /\ (forall json json_len max_tokens p toks p1 toks1,
        depth p = JSTOK_MAX_DEPTH ->
        0 <= toknext p ->
        json_at json (pos p) = ch_lbracket \/ json_at json (pos p) = ch_lbrace ->
        jstok_accept_value strict p toks = (0, p1, toks1) ->
        toks = None \/ toknext p < max_tokens ->
        exists p' toks',
          jstok_parse_step strict json json_len max_tokens p toks
          = Some (Return JSTOK_ERROR_DEPTH p' toks')).
Proof.
  intros Hstack H64 H65.
  destruct p0 as [ps tn dp rd ep ec stk]; simpl in Hstack.
  change (Z.to_nat JSTOK_MAX_DEPTH) with 64%nat in Hstack.
  spell_list stk Hstack. spell_list toks64 H64. spell_list toks65 H65.
  repeat split.
  - destruct strict; eexists; vm_compute; reflexivity.
  - destruct strict; eexists _, _; vm_compute; reflexivity.
  - destruct strict; eexists; vm_compute; repeat split; reflexivity.
  - destruct strict; eexists _, _; vm_compute; repeat split; reflexivity.
  - intros json json_len max_tokens p toks p1 toks1 Hd Htn Hc Hacc Hroom.
    destruct (step_open_full_stack strict json json_len max_tokens p toks p1 toks1)
      as (p' & toks' & Hstep & _); eauto. lia.
Qed.

Lemma c6_depth_limit_witness :
  (exists p', jstok_parse true (Some (jstok_init blank_parser)) (Some (nested_arrays 64)) 128 None 0
              = Some (64, Some p', None))
  /\ (exists p', jstok_parse true (Some (jstok_init blank_parser)) (Some (nested_arrays 65)) 130 None 0
                 = Some (JSTOK_ERROR_DEPTH, Some p', None)
                 /\ error_code p' = JSTOK_ERROR_DEPTH /\ error_pos p' = 64)
  /\ (exists p' toks',
        jstok_parse_step true (nested_arrays 65) 130 0 parser_at_depth_64 None
        = Some (Return JSTOK_ERROR_DEPTH p' toks')).
Proof.
  destruct (c6_depth_limit true blank_parser (blank_tokens 64) (blank_tokens 65)
              eq_refl eq_refl eq_refl) as (H1 & _ & H3 & _ & H5).
  split; [exact H1 | split; [exact H3 |]].
  eapply (H5 (nested_arrays 65) 130 0 parser_at_depth_64 None).
  - reflexivity.
  - vm_compute. discriminate.
  - left. reflexivity.
  - vm_compute. reflexivity.
  - left. reflexivity.
Defined.

(** ** C7: a one-shot parse *)

(** C7. A one-shot parse of the seven bytes [[1,2,3]] by a freshly
    initialized parser, into a token array of four slots whatever they held
    before, returns 4 and leaves the array token (start 0, end 7, size 3)
    followed by the primitive tokens (1,2), (3,4) and (5,6), each of size 0;
    this in strict and in permissive builds. *)
Theorem c7_parse_array_123 (strict : bool) (p0 : jstok_parser)
    (toks : list jstoktok_t) :
  length (stack p0) = Z.to_nat JSTOK_MAX_DEPTH ->
  length toks = 4%nat ->
  exists p',
    jstok_parse strict (Some (jstok_init p0)) (Some json_array_123) 7 (Some toks) 4
    = Some (4, Some p',
            Some [mk_tok JSTOK_ARRAY 0 7 3;
                  mk_tok JSTOK_PRIMITIVE 1 2 0;
                  mk_tok JSTOK_PRIMITIVE 3 4 0;
                  mk_tok JSTOK_PRIMITIVE 5 6 0])
    /\ pos p' = 7 /\ toknext p' = 4 /\ depth p' = 0.
Proof.
  intros Hstack Htoks.
  destruct p0 as [ps tn dp rd ep ec stk]; simpl in Hstack.
  destruct stk as [| f0 stk]; [discriminate Hstack |].
  spell_list toks Htoks.
  destruct strict; eexists; vm_compute; repeat split; reflexivity.
Qed.

Lemma c7_parse_array_123_witness :
  exists p',
    jstok_parse true (Some (jstok_init blank_parser)) (Some json_array_123) 7
      (Some (blank_tokens 4)) 4
    = Some (4, Some p',
            Some [mk_tok JSTOK_ARRAY 0 7 3;
                  mk_tok JSTOK_PRIMITIVE 1 2 0;
                  mk_tok JSTOK_PRIMITIVE 3 4 0;
                  mk_tok JSTOK_PRIMITIVE 5 6 0])
    /\ pos p' = 7 /\ toknext p' = 4 /\ depth p' = 0.
Proof.
  apply (c7_parse_array_123 true blank_parser (blank_tokens 4)); reflexivity.
Defined.

(** ** C8: the SSE line scanner *)

(** A scan that starts at or beyond the end of the buffer stops at once. *)
Lemma newline_loop_beyond buf len i :
  i >= len -> newline_loop (Z.to_nat (len - i)) buf len i = i.
Proof. intros H. replace (Z.to_nat (len - i)) with 0%nat by lia. reflexivity. Qed.

(** Whenever [*pos] is at or beyond [len], [jstok_sse_next] answers 0
    (need more) and does not write [*pos]. *)
Lemma sse_next_beyond_length buf len pos_ out :
  pos_ >= len -> jstok_sse_next buf len pos_ out = Some (0, pos_, out).
Proof.
  intros H. unfold jstok_sse_next.
  replace (Z.to_nat (len - pos_) + 1)%nat with 1%nat by lia.
  simpl. rewrite newline_loop_beyond by assumption.
  destruct (decide (pos_ >= len)); [reflexivity | lia].
Qed.

(** C8. [jstok_sse_next] does not clamp [*pos]: on the 8-byte buffer
    [data: x\n] entered with [*pos = 131], it returns 0 (need more) and
    leaves [*pos] at 131, not at the length 8. *)
Theorem c8_sse_next_leaves_pos_beyond_length :
  jstok_sse_next sse_data_x 8 131 (Some (mk_span 0 0))
  = Some (0, 131, Some (mk_span 0 0)).
Proof. apply sse_next_beyond_length; lia. Qed.

(** ** C9: argument validation *)

(** C9. [jstok_parse] called with a [NULL] parser, a [NULL] buffer or a
    negative length returns [JSTOK_ERROR_INVAL] (-2) at once and leaves the
    token array as it was; a parser that is not [NULL] gets [error_code] -2
    and [error_pos] 0 and keeps its [pos], [toknext], [depth], [root_done]
    and frame stack. *)
Theorem c9_parse_rejects_invalid_arguments (strict : bool)
    (p : option jstok_parser) (json : option (list Z)) (json_len : Z)
    (toks : tokens) (max_tokens : Z) :
  p = None \/ json = None \/ json_len < 0 ->
  exists p',
    jstok_parse strict p json json_len toks max_tokens
    = Some (JSTOK_ERROR_INVAL, p', toks)
    /\ match p with
       | None => p' = None
       | Some q =>
           exists q', p' = Some q'
             /\ error_code q' = JSTOK_ERROR_INVAL /\ error_pos q' = 0
             /\ pos q' = pos q /\ toknext q' = toknext q
             /\ depth q' = depth q /\ root_done q' = root_done q
             /\ stack q' = stack q
       end.
Proof.
  intros Hbad. unfold jstok_parse.
  destruct p as [q |]; [| eexists; split; reflexivity].
  destruct json as [js |].
  - destruct (decide (json_len < 0)) as [_ | Hge].
    + eexists; split; [reflexivity |]. eexists; repeat split.
    + destruct Hbad as [? | [? | ?]]; [discriminate | discriminate | lia].
  - eexists; split; [reflexivity |]. eexists; repeat split.
Qed.

Lemma c9_parse_rejects_invalid_arguments_witness :
  exists p',
    jstok_parse true (Some blank_parser) (Some json_array_123) (-1)
      (Some (blank_tokens 4)) 4
    = Some (JSTOK_ERROR_INVAL, p', Some (blank_tokens 4))
    /\ exists q', p' = Some q'
         /\ error_code q' = JSTOK_ERROR_INVAL /\ error_pos q' = 0
         /\ pos q' = pos blank_parser /\ toknext q' = toknext blank_parser
         /\ depth q' = depth blank_parser /\ root_done q' = root_done blank_parser
         /\ stack q' = stack blank_parser.
Proof.
  apply (c9_parse_rejects_invalid_arguments true (Some blank_parser)
           (Some json_array_123) (-1) (Some (blank_tokens 4)) 4).
  right; right; lia.
Defined.

(** ** C10: [jstok_skip] *)

Lemma skip_loop_bounds fuel toks count idx sp rem r :
  idx <= count ->
  skip_loop fuel toks count idx sp rem = Some r ->
  idx <= r <= count.
Proof.
  revert idx sp rem. induction fuel as [| fuel IH]; intros idx sp rem Hidx; simpl.
  - destruct (decide _); [discriminate |]. intros [= <-]. lia.
  - intros H. repeat break_hyp H; simplify_eq; try lia;
      apply IH in H; lia.
Qed.

(** The loop ends: every pass pops a counter or moves to the next token,
    and it stops at [count]. *)
Lemma skip_loop_total fuel toks count idx sp rem :
  idx <= count ->
  (Z.to_nat (2 * (count - idx) + sp) <= fuel)%nat ->
  is_Some (skip_loop fuel toks count idx sp rem).
Proof.
  revert idx sp rem. induction fuel as [| fuel IH]; intros idx sp rem Hidx Hfuel; simpl.
  - destruct (decide _); [lia | eauto].
  - repeat break_goal; eauto; apply IH; lia.
Qed.

(** C10. For a token array and a count that is not negative: when
    [0 <= i < count], [jstok_skip] returns an index in [[i+1, count]], never
    one at or before [i] and never one beyond [count]; when the array is
    [NULL] or [i] is out of range, it returns [count]. *)
Theorem c10_skip_result_bounds (toks : option (list jstoktok_t)) (count i : Z) :
  0 <= count ->
  (forall ts, toks = Some ts -> 0 <= i < count ->
     exists r, jstok_skip toks count i = Some r /\ i + 1 <= r <= count)
  /\ (toks = None \/ i < 0 \/ i >= count -> jstok_skip toks count i = Some count).
Proof.
  intros Hcount. split.
  - intros ts -> Hi. unfold jstok_skip.
    destruct (decide _); [lia |].
    destruct (decide _); [eexists; split; [reflexivity | lia] |].
    destruct (decide _).
    { destruct (skip_loop_total (Z.to_nat (2 * (count - (i + 1))) + 2) ts count (i + 1) 1
                  (arr_set (replicate (Z.to_nat JSTOK_MAX_DEPTH) 0) 0 (tok_size (tok_at ts i))))
        as [r Hr]; [lia | lia |].
      exists r. split; [exact Hr |]. apply skip_loop_bounds in Hr; lia. }
    destruct (decide _); [| eexists; split; [reflexivity | lia]].
    destruct (skip_loop_total (Z.to_nat (2 * (count - (i + 1))) + 2) ts count (i + 1) 1
                (arr_set (replicate (Z.to_nat JSTOK_MAX_DEPTH) 0) 0
                   (wrap_int (tok_size (tok_at ts i) * 2))))
      as [r Hr]; [lia | lia |].
    exists r. split; [exact Hr |]. apply skip_loop_bounds in Hr; lia.
  - intros Hbad. unfold jstok_skip. destruct toks as [ts |]; [| reflexivity].
    destruct (decide _); [reflexivity |].
    destruct Hbad as [? | ?]; [discriminate | lia].
Qed.

Lemma c10_skip_result_bounds_witness :
  (exists r, jstok_skip (Some skip_tokens) 5 2 = Some r /\ 2 + 1 <= r <= 5)
  /\ jstok_skip (Some skip_tokens) 5 7 = Some 5.
Proof.
  destruct (c10_skip_result_bounds (Some skip_tokens) 5 2 ltac:(lia)) as [Hin _].
  destruct (c10_skip_result_bounds (Some skip_tokens) 5 7 ltac:(lia)) as [_ Hout].
  split; [apply (Hin skip_tokens eq_refl); lia | apply Hout; right; right; lia].
Defined.

(** * Further properties of the helpers *)

(** ** Reading lists *)

Lemma json_at_lookup (l : list Z) (n : nat) :
  json_at l (Z.of_nat n) = default 0 (l !! n).
Proof.
  unfold json_at, arr_get. destruct (decide _); [lia |]. by rewrite Nat2Z.id.
Qed.

Lemma json_at_beyond (l : list Z) i : Z.of_nat (length l) <= i -> json_at l i = 0.
Proof.
  intros H. unfold json_at, arr_get. destruct (decide _); [reflexivity |].
  rewrite lookup_ge_None_2; [reflexivity | lia].
Qed.

Lemma no_nul_at s i : no_nul s -> 0 <= i < Z.of_nat (length s) -> json_at s i <> 0.
Proof.
  intros Hs Hi. replace i with (Z.of_nat (Z.to_nat i)) by lia.
  rewrite json_at_lookup.
  destruct (lookup_lt_is_Some_2 s (Z.to_nat i)) as [x Hx]; [lia |].
  rewrite Hx. simpl. unfold no_nul in Hs. rewrite Forall_lookup in Hs. eauto.
Qed.

Lemma tok_text_length json t :
  length (tok_text json t) = Z.to_nat (tok_end t - tok_start t).
Proof. unfold tok_text. by rewrite length_fmap, length_seqZ. Qed.

Lemma tok_text_lookup json t (j : nat) :
  (j < Z.to_nat (tok_end t - tok_start t))%nat ->
  tok_text json t !! j = Some (json_at json (tok_start t + Z.of_nat j)).
Proof.
  intros H. unfold tok_text. rewrite list_lookup_fmap, lookup_seqZ_lt by lia.
  reflexivity.
Qed.

(** ** [jstok_cstr_len] and [jstok_eq] *)

Lemma cstr_len_loop_no_nul s fuel n :
  no_nul s -> 0 <= n -> (Z.to_nat n + fuel = length s)%nat ->
  cstr_len_loop fuel s n = Z.of_nat (length s).
Proof.
  intros Hs. revert n; induction fuel as [| fuel IH]; intros n Hn Hlen; simpl.
  - lia.
  - destruct (decide _) as [_ | Hz].
    + apply IH; lia.
    + exfalso. apply Hz. apply no_nul_at; [assumption | lia].
Qed.

Lemma cstr_len_no_nul s : no_nul s -> jstok_cstr_len (Some s) = Z.of_nat (length s).
Proof. intros Hs. apply cstr_len_loop_no_nul; [assumption | lia | lia]. Qed.

Lemma eq_loop_values rounds json sp s i :
  eq_loop rounds json sp s i = 1 \/ eq_loop rounds json sp s i = 0.
Proof.
  revert i; induction rounds as [| rounds IH]; intros i; simpl; [by left |].
  destruct (decide _); [by right | apply IH].
Qed.

Lemma eq_loop_one rounds json sp s i :
  eq_loop rounds json sp s i = 1
  <-> forall j, (j < rounds)%nat ->
        json_at json (span_p sp + i + Z.of_nat j) = json_at s (i + Z.of_nat j).
Proof.
  revert i; induction rounds as [| rounds IH]; intros i; simpl.
  - split; [intros _ j; lia | reflexivity].
  - destruct (decide _) as [Hne | Heq].
    + split; [discriminate |]. intros H. exfalso. apply Hne.
      specialize (H 0%nat ltac:(lia)). by rewrite !Z.add_0_r in H.
    + apply dec_stable in Heq. rewrite IH. split.
      * intros H [| j] Hj; [by rewrite !Z.add_0_r |].
        specialize (H j ltac:(lia)).
        by replace (span_p sp + i + Z.of_nat (S j)) with (span_p sp + (i + 1) + Z.of_nat j) by lia;
           replace (i + Z.of_nat (S j)) with (i + 1 + Z.of_nat j) by lia.
      * intros H j Hj. specialize (H (S j) ltac:(lia)).
        by replace (span_p sp + i + Z.of_nat (S j)) with (span_p sp + (i + 1) + Z.of_nat j) in H by lia;
           replace (i + Z.of_nat (S j)) with (i + 1 + Z.of_nat j) in H by lia.
Qed.

Lemma jstok_eq_text_gen json t s :
  no_nul s ->
  jstok_eq (Some json) (Some t) (Some s)
  = if decide (0 <= tok_start t <= tok_end t /\ tok_text json t = s) then 1 else 0.
Proof.
  intros Hs. unfold jstok_eq, jstok_span.
  destruct (decide (tok_start t < 0 \/ _)) as [Hbad | Hok].
  { destruct (decide _) as [[? _] |]; [lia | reflexivity]. }
  cbn [span_n span_p]. rewrite cstr_len_no_nul by assumption.
  destruct (decide (tok_end t - tok_start t <> _)) as [Hlen | Hlen].
  { destruct (decide _) as [[_ Heq] |]; [| reflexivity].
    exfalso. apply Hlen. rewrite <- Heq, tok_text_length. lia. }
  apply dec_stable in Hlen.
  destruct (decide _) as [[_ Heq] | Hne].
  - apply eq_loop_one. intros j Hj. cbn [span_p]. rewrite Z.add_0_r, Z.add_0_l.
    rewrite (json_at_lookup s j), <- Heq, tok_text_lookup by lia. reflexivity.
  - destruct (eq_loop_values (Z.to_nat (Z.of_nat (length s))) json
                (mk_span (tok_start t) (tok_end t - tok_start t)) s 0) as [H1 | H0];
      [| assumption].
    exfalso. apply Hne. split; [lia |].
    rewrite eq_loop_one in H1. cbn [span_p] in H1.
    apply list_eq. intros j. destruct (decide (j < length s)%nat) as [Hj | Hj].
    + rewrite tok_text_lookup by lia.
      specialize (H1 j ltac:(lia)). rewrite Z.add_0_r, Z.add_0_l in H1.
      rewrite H1, json_at_lookup.
      destruct (lookup_lt_is_Some_2 s j Hj) as [x ->]. reflexivity.
    + rewrite !lookup_ge_None_2; [reflexivity | lia |].
      rewrite tok_text_length. lia.
Qed.

(** X1. [jstok_eq] compares the text of a token with a C string.  With a
    [NULL] argument it answers 0.  Otherwise, for a string without a NUL
    byte before its terminator, it answers 1 when the token has
    [0 <= start <= end] and its text is the string, byte for byte and of the
    same length, and 0 in every other case. *)
Theorem jstok_eq_compares_text (json : list Z) (t : jstoktok_t) (s : list Z) :
  no_nul s ->
  jstok_eq (Some json) (Some t) (Some s)
  = (if decide (0 <= tok_start t <= tok_end t /\ tok_text json t = s) then 1 else 0)
  /\ jstok_eq None (Some t) (Some s) = 0
  /\ jstok_eq (Some json) None (Some s) = 0
  /\ jstok_eq (Some json) (Some t) None = 0.
Proof.
  intros Hs. split; [| repeat split].
  apply jstok_eq_text_gen. exact Hs.
Qed.

Lemma jstok_eq_compares_text_witness :
  no_nul (bytes_of_string "async")
  /\ jstok_eq (Some json_async) (Some (mk_tok JSTOK_STRING 2 7 0))
       (Some (bytes_of_string "async")) = 1.
Proof.
  assert (Hs : no_nul (bytes_of_string "async")).
  { repeat (constructor; [discriminate |]). constructor. }
  split; [exact Hs |].
  destruct (jstok_eq_compares_text json_async (mk_tok JSTOK_STRING 2 7 0)
              (bytes_of_string "async") Hs) as [-> _].
  reflexivity.
Defined.

(** ** [jstok_atob] *)

(** X2. [jstok_atob] answers 0 and stores 1 exactly on a primitive token
    whose text is [true], answers 0 and stores 0 exactly on a primitive
    token whose text is [false], and in every other case, a [NULL] argument
    included, answers -1 and leaves [*out] as it was. *)
Theorem jstok_atob_exact (json : list Z) (t : jstoktok_t) (o : Z) :
  jstok_atob (Some json) (Some t) (Some o)
  = (if decide (tok_type t = JSTOK_PRIMITIVE /\ 0 <= tok_start t <= tok_end t
                /\ tok_text json t = lit_true) then (0, Some 1)
     else if decide (tok_type t = JSTOK_PRIMITIVE /\ 0 <= tok_start t <= tok_end t
                     /\ tok_text json t = lit_false) then (0, Some 0)
     else (-1, Some o))
  /\ jstok_atob None (Some t) (Some o) = (-1, Some o)
  /\ jstok_atob (Some json) None (Some o) = (-1, Some o)
  /\ jstok_atob (Some json) (Some t) None = (-1, None).
Proof.
  split; [| repeat split].
  assert (Ht : no_nul lit_true) by (repeat (constructor; [discriminate |]); constructor).
  assert (Hf : no_nul lit_false) by (repeat (constructor; [discriminate |]); constructor).
  unfold jstok_atob. rewrite !jstok_eq_text_gen by assumption.
  destruct (decide (tok_type t <> JSTOK_PRIMITIVE)) as [Hty | Hty].
  { repeat (destruct (decide _) as [[? _] |]; [congruence |]). reflexivity. }
  apply dec_stable in Hty.
  destruct (decide (0 <= tok_start t <= tok_end t /\ tok_text json t = lit_true))
    as [[? ?] | Hn].
  { destruct (decide (1 <> 0)); [| lia].
    destruct (decide _) as [_ | Hn]; [reflexivity | tauto]. }
  destruct (decide (0 <> 0)); [lia |].
  destruct (decide (tok_type t = _ /\ _ /\ tok_text json t = lit_true)) as [? | _];
    [tauto |].
  destruct (decide (0 <= tok_start t <= tok_end t /\ tok_text json t = lit_false))
    as [[? ?] | Hn'].
  { destruct (decide (1 <> 0)); [| lia].
    destruct (decide _) as [_ | Hn']; [reflexivity | tauto]. }
  destruct (decide (0 <> 0)); [lia |].
  destruct (decide _) as [? | _]; [tauto | reflexivity].
Qed.

(** ** [jstok_atoi64] *)

Lemma atoi64_loop_digits rounds json sp i val :
  is_Some (atoi64_loop rounds json sp i val)
  <-> forallb jstok_is_digit
        (json_at json <$> seqZ (span_p sp + i) (Z.of_nat rounds)) = true.
Proof.
  revert i val; induction rounds as [| rounds IH]; intros i val.
  - simpl. split; [reflexivity | eauto].
  - rewrite seqZ_cons by lia. cbn [atoi64_loop fmap list_fmap forallb].
    replace (Z.pred (Z.of_nat (S rounds))) with (Z.of_nat rounds) by lia.
    replace (Z.succ (span_p sp + i)) with (span_p sp + (i + 1)) by lia.
    destruct (decide _) as [Hnd | Hd].
    + split; [intros [? ?]; discriminate |].
      unfold jstok_is_digit. intros H. apply andb_true_iff in H as [H _].
      apply andb_true_iff in H as [H1 H2].
      apply bool_decide_eq_true in H1, H2. lia.
    + rewrite IH. unfold jstok_is_digit at 2.
      rewrite !bool_decide_eq_true_2 by lia. reflexivity.
Qed.

Lemma tok_text_nil json t : tok_end t <= tok_start t -> tok_text json t = [].
Proof.
  intros H. unfold tok_text.
  replace (tok_end t - tok_start t) with (- Z.of_nat (Z.to_nat (tok_start t - tok_end t))) by lia.
  destruct (Z.to_nat (tok_start t - tok_end t)); [reflexivity |].
  reflexivity.
Qed.

Lemma tok_text_cons json t :
  tok_start t < tok_end t ->
  tok_text json t
  = json_at json (tok_start t)
    :: (json_at json <$> seqZ (tok_start t + 1) (tok_end t - tok_start t - 1)).
Proof.
  intros H. unfold tok_text. rewrite seqZ_cons by lia.
  replace (Z.succ (tok_start t)) with (tok_start t + 1) by lia.
  replace (Z.pred (tok_end t - tok_start t)) with (tok_end t - tok_start t - 1) by lia.
  reflexivity.
Qed.

(** X3. [jstok_atoi64] answers 0 exactly on the primitive tokens with
    [0 <= start <= end] whose text is an optional minus sign followed by one
    or more decimal digits; in every other case it answers -1 and leaves
    [*out] as it was. *)
Theorem jstok_atoi64_accepts (json : list Z) (t : jstoktok_t) (o : Z) :
  ((jstok_atoi64 (Some json) (Some t) (Some o)).1 = 0
   <-> tok_type t = JSTOK_PRIMITIVE /\ 0 <= tok_start t <= tok_end t
       /\ is_decimal (tok_text json t) = true)
  /\ ((jstok_atoi64 (Some json) (Some t) (Some o)).1 <> 0
      -> jstok_atoi64 (Some json) (Some t) (Some o) = (-1, Some o)).
Proof.
  unfold jstok_atoi64, jstok_span.
  destruct (decide (tok_type t <> JSTOK_PRIMITIVE)) as [Hty | Hty].
  { split; [| reflexivity]. simpl. split; [lia | tauto]. }
  apply dec_stable in Hty.
  destruct (decide (tok_start t < 0 \/ _)) as [Hbad | Hok].
  { split; [| reflexivity]. simpl. split; [lia | intros (_ & ? & _); lia]. }
  cbn [span_n span_p].
  destruct (decide (tok_end t - tok_start t = 0)) as [Hz | Hnz].
  { split; [| reflexivity]. simpl. split; [lia |].
    intros (_ & _ & H). rewrite tok_text_nil in H by lia. discriminate. }
  rewrite tok_text_cons by lia. unfold is_decimal.
  destruct (decide (json_at json (tok_start t) = ch_minus)) as [Hm | Hm].
  - destruct (decide (1 >= tok_end t - tok_start t)) as [H1 | H1].
    { split; [| reflexivity]. simpl. split; [lia |].
      intros (_ & _ & H).
      replace (tok_end t - tok_start t - 1) with 0 in H by lia. discriminate. }
    pose proof (atoi64_loop_digits (Z.to_nat (tok_end t - tok_start t - 1)) json
                  (mk_span (tok_start t) (tok_end t - tok_start t)) 1 0) as Hd.
    cbn [span_p] in Hd. rewrite Z2Nat.id in Hd by lia.
    destruct (atoi64_loop _ _ _ _ _) as [v |] eqn:Hl.
    + split; [| simpl; lia]. simpl. split; [intros _ | reflexivity].
      repeat split; [assumption | lia | lia |].
      apply andb_true_iff. split; [| apply Hd; eauto].
      rewrite bool_decide_eq_false_2; [reflexivity |].
      rewrite seqZ_cons by lia. discriminate.
    + split; [| reflexivity]. simpl. split; [lia |].
      intros (_ & _ & H). apply andb_true_iff in H as [_ H].
      apply Hd in H as [? ?]. discriminate.
  - pose proof (atoi64_loop_digits (Z.to_nat (tok_end t - tok_start t - 0)) json
                  (mk_span (tok_start t) (tok_end t - tok_start t)) 0 0) as Hd.
    cbn [span_p] in Hd. rewrite Z2Nat.id, seqZ_cons in Hd by lia.
    replace (Z.succ (tok_start t + 0)) with (tok_start t + 1) in Hd by lia.
    replace (Z.pred (tok_end t - tok_start t - 0)) with (tok_end t - tok_start t - 1) in Hd by lia.
    rewrite Z.add_0_r in Hd.
    destruct (atoi64_loop _ _ _ _ _) as [v |] eqn:Hl.
    + split; [| simpl; lia]. simpl. split; [intros _ | reflexivity].
      repeat split; [assumption | lia | lia |]. apply Hd. eauto.
    + split; [| reflexivity]. simpl. split; [lia |].
      intros (_ & _ & H). apply Hd in H as [? ?]. discriminate.
Qed.

Lemma wrap_ll_id z : - 2 ^ 63 <= z < 2 ^ 63 -> wrap_ll z = z.
Proof. intros H. unfold wrap_ll. rewrite Z.mod_small; lia. Qed.

Lemma of_uint_acc_ge d acc : (acc <= Pos.of_uint_acc d acc)%positive.
Proof.
  revert acc; induction d as [| d IH | d IH | d IH | d IH | d IH | d IH | d IH | d IH | d IH | d IH];
    intros acc; simpl; [lia | ..];
    (etransitivity; [| apply IH]); lia.
Qed.

Lemma atoi64_loop_acc d json sp i acc :
  json_at json <$> seqZ (span_p sp + i) (Z.of_nat (length (uint_bytes d))) = uint_bytes d ->
  Z.pos (Pos.of_uint_acc d acc) < 2 ^ 63 ->
  atoi64_loop (length (uint_bytes d)) json sp i (Z.pos acc)
  = Some (Z.pos (Pos.of_uint_acc d acc)).
Proof.
  revert i acc;
    induction d as [| d IH | d IH | d IH | d IH | d IH | d IH | d IH | d IH | d IH | d IH];
    intros i acc; [reflexivity | ..];
    (intros Hb Hlt;
     change (length (uint_bytes _)) with (S (length (uint_bytes d))) in Hb |- *;
     rewrite seqZ_cons in Hb by lia;
     injection Hb as Hb Ht;
     match type of Hb with
     | _ = ?c => let c' := eval vm_compute in c in change c with c' in Hb
     end;
     cbn [atoi64_loop]; rewrite Hb;
     (destruct (decide _) as [? | _]; [lia |]);
     cbn [Pos.of_uint_acc] in Hlt |- *;
     match type of Hlt with
     | Z.pos (Pos.of_uint_acc d ?a) < _ =>
         pose proof (of_uint_acc_ge d a) as Hge;
         replace (Z.succ (span_p sp + i)) with (span_p sp + (i + 1)) in Ht by lia;
         replace (Z.pred (Z.of_nat (S (length (uint_bytes d)))))
           with (Z.of_nat (length (uint_bytes d))) in Ht by lia;
         match goal with
         | |- atoi64_loop _ _ _ _ ?v = _ =>
             replace v with (Z.pos a) by (rewrite wrap_ll_id; lia)
         end;
         apply IH; assumption
     end).
Qed.

Lemma atoi64_loop_zero d json sp i :
  json_at json <$> seqZ (span_p sp + i) (Z.of_nat (length (uint_bytes d))) = uint_bytes d ->
  Z.of_N (Pos.of_uint d) < 2 ^ 63 ->
  atoi64_loop (length (uint_bytes d)) json sp i 0 = Some (Z.of_N (Pos.of_uint d)).
Proof.
  revert i;
    induction d as [| d IH | d IH | d IH | d IH | d IH | d IH | d IH | d IH | d IH | d IH];
    intros i; [reflexivity | ..];
    (intros Hb Hlt;
     change (length (uint_bytes _)) with (S (length (uint_bytes d))) in Hb |- *;
     rewrite seqZ_cons in Hb by lia;
     injection Hb as Hb Ht;
     match type of Hb with
     | _ = ?c => let c' := eval vm_compute in c in change c with c' in Hb
     end;
     cbn [atoi64_loop]; rewrite Hb;
     (destruct (decide _) as [? | _]; [lia |]);
     replace (Z.succ (span_p sp + i)) with (span_p sp + (i + 1)) in Ht by lia;
     replace (Z.pred (Z.of_nat (S (length (uint_bytes d)))))
       with (Z.of_nat (length (uint_bytes d))) in Ht by lia;
     cbn [Pos.of_uint] in Hlt |- *).
  - (* a leading zero *)
    change (wrap_ll (0 * 10 + (48 - 48))) with 0. apply IH; assumption.
  - change (wrap_ll (0 * 10 + (49 - 48))) with (Z.pos 1). by apply atoi64_loop_acc.
  - change (wrap_ll (0 * 10 + (50 - 48))) with (Z.pos 2). by apply atoi64_loop_acc.
  - change (wrap_ll (0 * 10 + (51 - 48))) with (Z.pos 3). by apply atoi64_loop_acc.
  - change (wrap_ll (0 * 10 + (52 - 48))) with (Z.pos 4). by apply atoi64_loop_acc.
  - change (wrap_ll (0 * 10 + (53 - 48))) with (Z.pos 5). by apply atoi64_loop_acc.
  - change (wrap_ll (0 * 10 + (54 - 48))) with (Z.pos 6). by apply atoi64_loop_acc.
  - change (wrap_ll (0 * 10 + (55 - 48))) with (Z.pos 7). by apply atoi64_loop_acc.
  - change (wrap_ll (0 * 10 + (56 - 48))) with (Z.pos 8). by apply atoi64_loop_acc.
  - change (wrap_ll (0 * 10 + (57 - 48))) with (Z.pos 9). by apply atoi64_loop_acc.
Qed.

Lemma uint_bytes_head d :
  d <> Decimal.Nil ->
  exists c l, uint_bytes d = c :: l /\ ch_0 <= c <= ch_9.
Proof.
  destruct d; [congruence | ..]; intros _;
    (eexists _, _; split; [reflexivity | split; intros H; vm_compute in H; discriminate H]).
Qed.

(** X4. On a primitive token whose text is a decimal literal -- an optional
    minus sign and one or more digits, leading zeros allowed -- of a value
    strictly between [-2^63] and [2^63], [jstok_atoi64] answers 0 and stores
    the value of the literal, the one the Standard Library's [Z.of_int]
    assigns to it. *)
Theorem jstok_atoi64_value (json : list Z) (t : jstoktok_t) (d : Decimal.int) (o : Z) :
  tok_type t = JSTOK_PRIMITIVE -> 0 <= tok_start t ->
  int_digits d <> Decimal.Nil ->
  tok_text json t = int_bytes d ->
  - 2 ^ 63 < Z.of_int d < 2 ^ 63 ->
  jstok_atoi64 (Some json) (Some t) (Some o) = (0, Some (Z.of_int d)).
Proof.
  intros Hty Hstart Hnil Htext Hrange.
  destruct (uint_bytes_head _ Hnil) as (c & l & Hcl & Hc).
  assert (Hlen : tok_start t < tok_end t).
  { destruct (decide (tok_start t < tok_end t)); [assumption |].
    rewrite tok_text_nil in Htext by lia.
    destruct d as [u | u]; cbn [int_digits] in Hcl;
      [change (int_bytes (Decimal.Pos u)) with (uint_bytes u) in Htext;
       rewrite Hcl in Htext |];
      discriminate. }
  unfold jstok_atoi64, jstok_span.
  destruct (decide (tok_type t <> _)); [congruence |].
  destruct (decide (tok_start t < 0 \/ _)); [lia |]. cbn [span_n span_p].
  destruct (decide (_ = 0)); [lia |].
  unfold tok_text in Htext.
  destruct d as [u | u]; cbn [int_digits] in *.
  - (* no sign *)
    change (int_bytes (Decimal.Pos u)) with (uint_bytes u) in Htext.
    assert (H0 : json_at json (tok_start t) = c).
    { rewrite seqZ_cons, Hcl in Htext by lia. by injection Htext. }
    destruct (decide (json_at json (tok_start t) = ch_minus)); [lia |].
    assert (Hn : Z.to_nat (tok_end t - tok_start t - 0) = length (uint_bytes u)).
    { rewrite <- Htext, length_fmap, length_seqZ. lia. }
    rewrite Hn, atoi64_loop_zero.
    + rewrite Z.mul_1_r, wrap_ll_id; [reflexivity |].
      cbn [Z.of_int] in Hrange. unfold Z.of_uint in Hrange. lia.
    + cbn [span_p]. rewrite <- Hn, Z2Nat.id, Z.add_0_r, Z.sub_0_r by lia. exact Htext.
    + cbn [Z.of_int] in Hrange. unfold Z.of_uint in Hrange. lia.
  - (* a minus sign *)
    change (int_bytes (Decimal.Neg u)) with (ch_minus :: uint_bytes u) in Htext.
    rewrite seqZ_cons in Htext by lia. injection Htext as Hm Htext.
    destruct (decide (json_at json (tok_start t) = ch_minus)); [| congruence].
    assert (Hn : Z.to_nat (tok_end t - tok_start t - 1) = length (uint_bytes u)).
    { rewrite <- Htext, length_fmap, length_seqZ. lia. }
    assert (Hu : (0 < length (uint_bytes u))%nat) by (rewrite Hcl; simpl; lia).
    destruct (decide (1 >= _)); [lia |].
    cbn [Z.of_int] in Hrange. unfold Z.of_uint in Hrange.
    rewrite Hn, atoi64_loop_zero.
    + rewrite wrap_ll_id by lia. cbn [Z.of_int]. unfold Z.of_uint. do 2 f_equal. lia.
    + cbn [span_p]. rewrite <- Hn, Z2Nat.id by lia.
      replace (tok_start t + 1) with (Z.succ (tok_start t)) by lia.
      replace (tok_end t - tok_start t - 1) with (Z.pred (tok_end t - tok_start t)) by lia.
      exact Htext.
    + lia.
Qed.

Lemma jstok_atoi64_value_witness :
  jstok_atoi64 (Some json_async) (Some (mk_tok JSTOK_PRIMITIVE 25 29 0)) (Some 0)
  = (0, Some 1234).
Proof.
  apply (jstok_atoi64_value json_async (mk_tok JSTOK_PRIMITIVE 25 29 0)
           (Decimal.Pos (Decimal.D1 (Decimal.D2 (Decimal.D3 (Decimal.D4 Decimal.Nil))))) 0).
  - reflexivity.
  - simpl. lia.
  - discriminate.
  - reflexivity.
  - vm_compute. split; reflexivity.
Defined.

(** ** [jstok_unescape] *)

Lemma unescape_ok_step out_cap n i w out i1 w1 out1 res :
  unescape_ok out_cap n i1 w1 out1 res ->
  length out1 = length out -> w <= w1 -> w1 - w <= i1 - i -> i < i1 <= n ->
  (forall k, k < w \/ w1 <= k -> json_at out1 k = json_at out k) ->
  unescape_ok out_cap n i w out res.
Proof.
  intros (Hlen & Hw & Hout & Hr) Hlen1 Hw1 Hi Hi1 Hout1. repeat split.
  - congruence.
  - lia.
  - lia.
  - intros k Hk. rewrite Hout by lia. apply Hout1. lia.
  - destruct Hr as [[? ?] | [? ?]]; [left | right]; split; try assumption; lia.
Qed.

Lemma unescape_ok_fail out_cap n i w out :
  w <= out_cap -> i < n -> unescape_ok out_cap n i w out (-1, out, w).
Proof. intros. repeat split; simpl; lia. Qed.

Lemma json_at_set_other out w b k : k <> w -> json_at (arr_set out w b) k = json_at out k.
Proof. intros H. unfold json_at. apply arr_get_set_other. congruence. Qed.

Lemma unescape_loop_ok fuel json sp out_cap i w out :
  w <= out_cap -> i <= span_n sp ->
  (Z.to_nat (span_n sp - i) <= fuel)%nat ->
  exists res,
    unescape_loop fuel json sp out_cap i w out = Some res
    /\ unescape_ok out_cap (span_n sp) i w out res.
Proof.
  revert i w out; induction fuel as [| fuel IH]; intros i w out Hw Hi Hfuel.
  - simpl. destruct (decide _); [lia |]. eexists; split; [reflexivity |].
    repeat split; simpl; lia.
  - cbn [unescape_loop]. destruct (decide (i < span_n sp)) as [Hlt | Hge].
    2:{ eexists; split; [reflexivity |]. repeat split; simpl; lia. }
    cbv zeta.
    repeat match goal with
           | |- context [decide ?P] => destruct (decide P)
           end;
      try (eexists; split; [reflexivity |]; apply unescape_ok_fail; lia);
      match goal with
      | |- context [unescape_loop fuel json sp out_cap ?i1 ?w1 ?out1] =>
          destruct (IH i1 w1 out1) as (res & -> & Hres); [lia | lia | lia |];
          exists res; split; [reflexivity |];
          apply (unescape_ok_step _ _ _ _ _ _ _ _ _ Hres);
          [rewrite ?arr_set_length; reflexivity | lia | lia | lia |];
          intros k Hk; rewrite ?json_at_set_other by lia; reflexivity
      end.
Qed.

(** X5. [jstok_unescape] with valid pointers always returns, 0 or -1, and
    never writes outside the capacity it was given: the bytes of [out] at
    the offsets from [out_cap] on are as they were.  On 0 the output length
    stored in [*out_len] is at most [out_cap] and at most the length of the
    token text, and the bytes from that length on are as they were; on -1
    [*out_len] is not written. *)
Theorem jstok_unescape_bounds (json : list Z) (t : jstoktok_t)
    (out : list Z) (out_cap ol : Z) :
  0 <= out_cap ->
  exists r out' ol',
    jstok_unescape (Some json) (Some t) (Some out) out_cap (Some ol)
    = Some (r, Some out', ol')
    /\ length out' = length out
    /\ (forall k, out_cap <= k -> json_at out' k = json_at out k)
    /\ (r = 0
        /\ (exists w, ol' = Some w /\ 0 <= w <= out_cap
                      /\ w <= tok_end t - tok_start t
                      /\ forall k, w <= k -> json_at out' k = json_at out k)
        \/ r = -1 /\ ol' = Some ol).
Proof.
  intros Hcap. unfold jstok_unescape, jstok_span.
  destruct (decide (tok_type t <> _)).
  { eexists _, _, _. split; [reflexivity |]. repeat split; auto. }
  destruct (decide (tok_start t < 0 \/ _)).
  { eexists _, _, _. split; [reflexivity |]. repeat split; auto. }
  cbn [span_n].
  destruct (unescape_loop_ok (Z.to_nat (tok_end t - tok_start t)) json
              (mk_span (tok_start t) (tok_end t - tok_start t)) out_cap 0 0 out)
    as ([[r out'] w] & -> & Hlen & Hw & Hout & Hr); [lia | simpl; lia | simpl; lia |].
  simpl in *. destruct Hr as [[-> Hn] | [-> _]].
  - destruct (decide (0 < 0)); [lia |].
    eexists _, _, _. split; [reflexivity |]. split; [assumption |].
    split; [intros k Hk; apply Hout; lia |]. left. split; [reflexivity |].
    exists w. repeat split; try lia. intros k Hk. apply Hout. lia.
  - destruct (decide (-1 < 0)); [| lia].
    eexists _, _, _. split; [reflexivity |]. split; [assumption |].
    split; [intros k Hk; apply Hout; lia |]. right. split; reflexivity.
Qed.

Lemma jstok_unescape_bounds_witness :
  exists r out' ol',
    jstok_unescape (Some json_async) (Some (mk_tok JSTOK_STRING 10 17 0))
      (Some (replicate 8 0)) 4 (Some 0)
    = Some (r, Some out', ol')
    /\ forall k, 4 <= k -> json_at out' k = json_at (replicate 8 0) k.
Proof.
  destruct (jstok_unescape_bounds json_async (mk_tok JSTOK_STRING 10 17 0)
              (replicate 8 0) 4 0 ltac:(lia)) as (r & out' & ol' & H & _ & Hk & _).
  exists r, out', ol'. split; [exact H | exact Hk].
Defined.

(** *** Strings the tokenizer accepts *)

Lemma hex4_loop_hex n json json_len ps e :
  hex4_loop n json json_len ps = Hex4Ok e ->
  forall j, 1 <= j <= Z.of_nat n -> jstok_is_hex (json_at json (ps + j)) = true.
Proof.
  revert ps; induction n as [| n IH]; intros ps; [intros _ j; simpl; lia |].
  change (hex4_loop (S n) json json_len ps)
    with (if decide (ps + 1 >= json_len) then Hex4Part (ps + 1)
          else if negb (jstok_is_hex (json_at json (ps + 1))) then Hex4Inval (ps + 1)
          else hex4_loop n json json_len (ps + 1)).
  destruct (decide _); [discriminate |].
  destruct (jstok_is_hex (json_at json (ps + 1))) eqn:Hh; [| discriminate].
  simpl. intros H j Hj. destruct (decide (j = 1)) as [-> | Hj1]; [assumption |].
  replace (ps + j) with (ps + 1 + (j - 1)) by lia. apply (IH _ H). lia.
Qed.

Lemma hexval_hex c : jstok_is_hex c = true -> 0 <= jstok_hexval c.
Proof.
  unfold jstok_is_hex, jstok_is_digit, jstok_hexval. intros H.
  repeat (apply orb_true_iff in H as [H | H]);
    apply andb_true_iff in H as [H1 H2];
    apply bool_decide_eq_true in H1, H2;
    repeat (destruct (decide _)); lia.
Qed.

Lemma is_simple_escape_cases c :
  is_simple_escape c = true ->
  c = ch_quote \/ c = ch_backslash \/ c = ch_slash \/ c = ch_b \/ c = ch_f
  \/ c = ch_n \/ c = ch_r \/ c = ch_t.
Proof.
  unfold is_simple_escape. intros H.
  repeat (apply orb_true_iff in H as [H | H]);
    apply bool_decide_eq_true in H; tauto.
Qed.

(** Where the scan of the tokenizer finds the closing quote, the loop of
    [jstok_unescape] over the same bytes runs to the end, given room for as
    many bytes as are left to read. *)
Lemma scan_unescape json json_len sp out_cap fuel :
  forall ps e fuel' i w out,
    string_scan fuel json json_len ps = Some (ScanClose e) ->
    span_p sp + i = ps -> span_p sp + span_n sp = e ->
    span_n sp - i <= out_cap - w ->
    (Z.to_nat (span_n sp - i) <= fuel')%nat ->
    exists out' w', unescape_loop fuel' json sp out_cap i w out = Some (0, out', w').
Proof.
  induction fuel as [| fuel IH]; intros ps e fuel' i w out Hs Hp He Hcap Hf.
  { simpl in Hs. destruct (decide _); discriminate. }
  subst ps. cbn [string_scan] in Hs.
  destruct (decide (span_p sp + i < json_len)); [| discriminate].
  destruct (decide (json_at json (span_p sp + i) < 32)); [discriminate |].
  destruct (decide (json_at json (span_p sp + i) = ch_quote)) as [Hq | Hq].
  { injection Hs as <-.
    destruct fuel'; simpl; (destruct (decide (i < span_n sp)); [lia | eauto]). }
  destruct (decide (json_at json (span_p sp + i) = ch_backslash)) as [Hb | Hb].
  - destruct (decide (span_p sp + i + 1 >= json_len)); [discriminate |].
    replace (span_p sp + i + 1) with (span_p sp + (i + 1)) in * by lia.
    destruct (is_simple_escape (json_at json (span_p sp + (i + 1)))) eqn:Hse.
    + (* a two-byte escape *)
      pose proof (string_scan_bounds _ _ _ _ _ Hs) as [Hb1 _].
      apply is_simple_escape_cases in Hse.
      destruct fuel' as [| fuel']; [lia |]. cbn [unescape_loop]. cbv zeta.
      repeat match goal with
             | |- context [decide ?P] => destruct (decide P)
             end;
        try (exfalso; lia);
        (eapply IH; [exact Hs | lia | lia | lia | lia]).
    + destruct (decide (json_at json (span_p sp + (i + 1)) = ch_u)) as [Hu | Hu];
        [| discriminate].
      destruct (hex4_loop 4 json json_len (span_p sp + (i + 1))) as [e1 | e1 | e1] eqn:Hh;
        [| discriminate | discriminate].
      pose proof (hex4_loop_bounds 4 json json_len (span_p sp + (i + 1))) as Hhb.
      rewrite Hh in Hhb. destruct Hhb as [-> _].
      pose proof (string_scan_bounds _ _ _ _ _ Hs) as [Hb1 _].
      pose proof (hexval_hex _ (hex4_loop_hex _ _ _ _ _ Hh 1 ltac:(lia))) as H1.
      pose proof (hexval_hex _ (hex4_loop_hex _ _ _ _ _ Hh 2 ltac:(lia))) as H2.
      pose proof (hexval_hex _ (hex4_loop_hex _ _ _ _ _ Hh 3 ltac:(lia))) as H3.
      pose proof (hexval_hex _ (hex4_loop_hex _ _ _ _ _ Hh 4 ltac:(lia))) as H4.
      replace (span_p sp + (i + 1) + 1) with (span_p sp + (i + 1 + 1)) in * by lia.
      replace (span_p sp + (i + 1) + 2) with (span_p sp + (i + 1 + 2)) in * by lia.
      replace (span_p sp + (i + 1) + 3) with (span_p sp + (i + 1 + 3)) in * by lia.
      replace (span_p sp + (i + 1) + 4) with (span_p sp + (i + 1 + 4)) in * by lia.
      destruct fuel' as [| fuel']; [lia |]. cbn [unescape_loop]. cbv zeta.
      repeat match goal with
             | |- context [decide ?P] => destruct (decide P)
             end;
        try (exfalso; lia);
        (eapply IH; [exact Hs | lia | lia | lia | lia]).
  - (* an ordinary byte *)
    pose proof (string_scan_bounds _ _ _ _ _ Hs) as [Hb1 _].
    destruct fuel' as [| fuel']; [lia |]. cbn [unescape_loop]. cbv zeta.
    destruct (decide (i < span_n sp)); [| lia].
    destruct (decide (json_at json (span_p sp + i) <> ch_backslash)); [| tauto].
    destruct (decide (w >= out_cap)); [lia |].
    eapply IH; [exact Hs | lia | lia | lia | lia].
Qed.

(** X6. A string token that [jstok_parse_string_token] has accepted and
    stored can always be decoded: [jstok_unescape] on it answers 0 whenever
    [out_cap] is at least the length of the token text.  (Every escape the
    tokenizer lets through is one [jstok_unescape] knows, and no decoded
    string is longer than its text.) *)
Theorem accepted_string_unescapes (p : jstok_parser) (json : list Z)
    (json_len : Z) (ts : list jstoktok_t) (max_tokens i : Z)
    (p' : jstok_parser) (ts' : list jstoktok_t) (out : list Z) (out_cap ol : Z) :
  0 <= pos p -> 0 <= toknext p -> max_tokens <= Z.of_nat (length ts) ->
  jstok_parse_string_token p json json_len (Some ts) max_tokens
  = Some (i, p', Some ts') ->
  0 <= i ->
  tok_end (tok_at ts' i) - tok_start (tok_at ts' i) <= out_cap ->
  exists out' w,
    jstok_unescape (Some json) (Some (tok_at ts' i)) (Some out) out_cap (Some ol)
    = Some (0, Some out', Some w).
Proof.
  intros Hpos Htn Hmax Hp Hi Hcap.
  unfold jstok_parse_string_token in Hp.
  destruct (decide _); [injection Hp as <- _ _; lia |].
  rewrite string_loop_scan in Hp. cbn [pos set_pos] in Hp.
  destruct (string_scan _ _ _ _) as [s |] eqn:Hs; [| discriminate].
  simpl in Hp. destruct s as [e | e | e]; simpl in Hp;
    [| injection Hp as <- _ _; lia | injection Hp as <- _ _; lia].
  unfold jstok_new_token in Hp. cbn [toknext set_pos pos] in Hp.
  destruct (decide (toknext p >= max_tokens)); [injection Hp as <- _ _; lia |].
  destruct (decide (toknext p < 0)); [lia |].
  injection Hp as <- _ <-.
  pose proof (string_scan_bounds _ _ _ _ _ Hs) as [He _].
  unfold tok_at in *. rewrite arr_get_set_same in * by lia.
  cbn [tok_end tok_start] in Hcap.
  unfold jstok_unescape, jstok_span. cbn [tok_type tok_start tok_end].
  destruct (decide (JSTOK_STRING <> JSTOK_STRING)); [congruence |].
  destruct (decide (pos p + 1 < 0 \/ _)); [lia |]. cbn [span_n].
  destruct (scan_unescape json json_len (mk_span (pos p + 1) (e - (pos p + 1)))
              out_cap _ _ _ (Z.to_nat (e - (pos p + 1))) 0 0 out Hs)
    as (out' & w' & ->); cbn [span_p span_n]; try lia.
  simpl. destruct (decide (0 < 0)); [lia |]. eauto.
Qed.

Lemma accepted_string_unescapes_witness :
  exists out' w,
    jstok_unescape (Some json_async) (Some (mk_tok JSTOK_STRING 2 7 0))
      (Some (replicate 8 0)) 8 (Some 0)
    = Some (0, Some out', Some w).
Proof.
  apply (accepted_string_unescapes (set_pos blank_parser 1) json_async 30
           (blank_tokens 4) 4 0 (set_toknext (set_pos blank_parser 8) 1)
           (arr_set (blank_tokens 4) 0 (mk_tok JSTOK_STRING 2 7 0))
           (replicate 8 0) 8 0).
  - simpl. lia.
  - simpl. lia.
  - simpl. lia.
  - vm_compute. reflexivity.
  - lia.
  - vm_compute. discriminate.
Defined.

(** *** Strings without escapes *)

Lemma unescape_loop_plain fuel json sp out_cap :
  forall (j : nat) out,
    Z.of_nat j <= span_n sp -> span_n sp <= out_cap ->
    span_n sp <= Z.of_nat (length out) ->
    (forall k, Z.of_nat j <= k < span_n sp -> json_at json (span_p sp + k) <> ch_backslash) ->
    (Z.to_nat (span_n sp - Z.of_nat j) <= fuel)%nat ->
    exists out',
      unescape_loop fuel json sp out_cap (Z.of_nat j) (Z.of_nat j) out
      = Some (0, out', span_n sp)
      /\ forall k : nat,
           out' !! k = if decide (Z.of_nat j <= Z.of_nat k < span_n sp)
                       then Some (json_at json (span_p sp + Z.of_nat k))
                       else out !! k.
Proof.
  induction fuel as [| fuel IH]; intros j out Hj Hcap Hlen Hplain Hfuel.
  - simpl. destruct (decide _); [lia |].
    replace (Z.of_nat j) with (span_n sp) by lia.
    eexists; split; [reflexivity |]. intros k. destruct (decide _); [lia | reflexivity].
  - cbn [unescape_loop]. destruct (decide (Z.of_nat j < span_n sp)) as [Hlt | Hge].
    2:{ replace (Z.of_nat j) with (span_n sp) by lia.
        eexists; split; [reflexivity |]. intros k. destruct (decide _); [lia | reflexivity]. }
    cbv zeta.
    destruct (decide (json_at json (span_p sp + Z.of_nat j) <> ch_backslash)) as [_ | Hb];
      [| exfalso; apply Hb, Hplain; lia].
    destruct (decide (Z.of_nat j >= out_cap)); [lia |].
    replace (Z.of_nat j + 1) with (Z.of_nat (S j)) by lia.
    destruct (IH (S j) (arr_set out (Z.of_nat j) (json_at json (span_p sp + Z.of_nat j))))
      as (out' & -> & Hout'); [lia | lia | rewrite arr_set_length; lia | | lia |].
    { intros k Hk. apply Hplain. lia. }
    exists out'. split; [reflexivity |]. intros k. rewrite Hout'.
    unfold arr_set. destruct (decide (Z.of_nat j < 0)); [lia |]. rewrite Nat2Z.id.
    destruct (decide (k = j)) as [-> | Hkj].
    + destruct (decide (Z.of_nat (S j) <= _ < _)); [lia |].
      destruct (decide (Z.of_nat j <= _ < _)); [| lia].
      apply list_lookup_insert_eq. lia.
    + rewrite list_lookup_insert_ne by congruence.
      repeat destruct (decide _); try lia; reflexivity.
Qed.

(** X7. A string token without a backslash in its text is copied as it is:
    given a capacity of at least the length of the text, in a buffer of at
    least that capacity, [jstok_unescape] answers 0, writes the text at the
    start of the buffer, leaves the bytes after it as they were and stores
    the length of the text in [*out_len]. *)
Theorem jstok_unescape_plain (json : list Z) (t : jstoktok_t)
    (out : list Z) (out_cap ol : Z) :
  tok_type t = JSTOK_STRING -> 0 <= tok_start t <= tok_end t ->
  tok_end t - tok_start t <= out_cap <= Z.of_nat (length out) ->
  ch_backslash ∉ tok_text json t ->
  jstok_unescape (Some json) (Some t) (Some out) out_cap (Some ol)
  = Some (0, Some (tok_text json t ++ drop (Z.to_nat (tok_end t - tok_start t)) out),
          Some (tok_end t - tok_start t)).
Proof.
  intros Hty Hspan Hcap Hplain.
  unfold jstok_unescape, jstok_span.
  destruct (decide (tok_type t <> _)); [congruence |].
  destruct (decide (tok_start t < 0 \/ _)); [lia |]. cbn [span_n].
  destruct (unescape_loop_plain (Z.to_nat (tok_end t - tok_start t)) json
              (mk_span (tok_start t) (tok_end t - tok_start t)) out_cap 0 out)
    as (out' & Hloop & Hout'); cbn [span_n span_p]; try lia.
  { intros k Hk Hb. apply Hplain. apply list_elem_of_lookup.
    exists (Z.to_nat k). rewrite tok_text_lookup by lia. rewrite Z2Nat.id by lia.
    by rewrite Hb. }
  change (Z.of_nat 0) with 0 in Hloop. rewrite Hloop. simpl.
  destruct (decide (0 < 0)); [lia |]. cbn [span_n span_p] in *. repeat f_equal.
  apply list_eq. intros k. rewrite Hout'.
  destruct (decide _) as [Hk | Hk].
  - rewrite lookup_app_l by (rewrite tok_text_length; lia).
    rewrite tok_text_lookup by lia. reflexivity.
  - rewrite lookup_app_r by (rewrite tok_text_length; lia).
    rewrite lookup_drop, tok_text_length. f_equal. lia.
Qed.

Lemma jstok_unescape_plain_witness :
  jstok_unescape (Some json_async) (Some (mk_tok JSTOK_STRING 10 17 0))
    (Some (replicate 9 0)) 8 (Some 0)
  = Some (0, Some (tok_text json_async (mk_tok JSTOK_STRING 10 17 0)
                   ++ drop (Z.to_nat (17 - 10)) (replicate 9 0)),
          Some (17 - 10)).
Proof.
  apply (jstok_unescape_plain json_async (mk_tok JSTOK_STRING 10 17 0)
           (replicate 9 0) 8 0).
  - reflexivity.
  - simpl. lia.
  - simpl. lia.
  - intros H. vm_compute in H. repeat (apply elem_of_cons in H as [H | H]; [discriminate |]).
    by apply elem_of_nil in H.
Defined.

(** ** [jstok_sse_next] *)

Lemma newline_loop_facts fuel buf len i :
  i <= len -> (Z.to_nat (len - i) <= fuel)%nat ->
  i <= newline_loop fuel buf len i <= len
  /\ (forall k, i <= k < newline_loop fuel buf len i -> json_at buf k <> ch_lf)
  /\ (newline_loop fuel buf len i < len ->
      json_at buf (newline_loop fuel buf len i) = ch_lf).
Proof.
  revert i; induction fuel as [| fuel IH]; intros i Hi Hfuel; simpl.
  - repeat split; lia.
  - destruct (bool_decide (i < len)) eqn:Hlt; simpl.
    + apply bool_decide_eq_true in Hlt.
      destruct (bool_decide (json_at buf i = ch_lf)) eqn:Hlf; simpl.
      * apply bool_decide_eq_true in Hlf. repeat split; lia.
      * apply bool_decide_eq_false in Hlf.
        destruct (IH (i + 1)) as (Hb & Hno & Hat); [lia | lia |].
        split; [lia |]. split; [| assumption].
        intros k Hk. destruct (decide (k = i)) as [-> | ?]; [assumption |].
        apply Hno. lia.
    + apply bool_decide_eq_false in Hlt. repeat split; lia.
Qed.

Lemma str_prefix_data buf start len :
  jstok_str_prefix buf start len lit_data = 0
  \/ jstok_str_prefix buf start len lit_data = 5
     /\ 5 <= len /\ lit_matches buf start lit_data 5.
Proof.
  unfold jstok_str_prefix, lit_data. simpl.
  repeat match goal with
         | |- context [decide (?a >= len \/ ?b <> ?c)] =>
             destruct (decide (a >= len \/ b <> c)); [by left |]
         end.
  change (0 + 1 + 1 + 1 + 1 + 1) with 5. change (0 + 1 + 1 + 1 + 1) with 4 in *.
  change (0 + 1 + 1 + 1) with 3 in *. change (0 + 1 + 1) with 2 in *.
  change (0 + 1) with 1 in *.
  right. split; [reflexivity |]. split; [lia |].
  intros idx Hidx.
  destruct idx as [| idx]; [change (Z.of_nat 0) with 0; simpl; lia |].
  destruct idx as [| idx]; [change (Z.of_nat 1) with 1; simpl; lia |].
  destruct idx as [| idx]; [change (Z.of_nat 2) with 2; simpl; lia |].
  destruct idx as [| idx]; [change (Z.of_nat 3) with 3; simpl; lia |].
  destruct idx as [| idx]; [change (Z.of_nat 4) with 4; simpl; lia |].
  lia.
Qed.

Lemma sse_next_rec_facts fuel buf len pos_ out :
  0 <= pos_ <= len -> (Z.to_nat (len - pos_) < fuel)%nat ->
  exists r pos' out',
    sse_next_rec fuel buf len pos_ out = Some (r, pos', out')
    /\ pos_ <= pos' <= len
    /\ (pos' = pos_ \/ json_at buf (pos' - 1) = ch_lf)
    /\ (r = 0 /\ out' = out
        /\ (forall k, pos' <= k < len -> json_at buf k <> ch_lf)
        \/ r = 1
           /\ exists line_start sp,
                sse_data_line buf pos_ line_start pos' sp
                /\ out' = match out with Some _ => Some sp | None => None end).
Proof.
  revert pos_; induction fuel as [| fuel IH]; intros pos_ Hpos Hfuel; [lia |].
  cbn [sse_next_rec]. cbv zeta.
  pose proof (newline_loop_facts (Z.to_nat (len - pos_)) buf len pos_ ltac:(lia) ltac:(lia))
    as (Hi & Hno & Hlf).
  set (i := newline_loop (Z.to_nat (len - pos_)) buf len pos_) in *.
  destruct (decide (i >= len)) as [Hend | Hin].
  { eexists _, _, _. split; [reflexivity |]. split; [lia |]. split; [by left |].
    left. repeat split. intros k Hk. apply Hno. lia. }
  specialize (Hlf ltac:(lia)).
  set (line_len := if bool_decide (i - pos_ > 0)
                      && bool_decide (json_at buf (pos_ + (i - pos_) - 1) = ch_cr)
                   then i - pos_ - 1 else i - pos_).
  assert (Hll : line_len = i - pos_
                \/ line_len = i - pos_ - 1 /\ i - pos_ > 0 /\ json_at buf (i - 1) = ch_cr).
  { subst line_len. destruct (bool_decide (i - pos_ > 0)) eqn:H1; simpl; [| by left].
    destruct (bool_decide (json_at buf _ = ch_cr)) eqn:H2; [| by left].
    apply bool_decide_eq_true in H1, H2. right. repeat split; try lia.
    rewrite <- H2. f_equal. lia. }
  assert (Hrec : exists r pos' out',
             sse_next_rec fuel buf len (i + 1) out = Some (r, pos', out')
             /\ pos_ <= pos' <= len
             /\ (pos' = pos_ \/ json_at buf (pos' - 1) = ch_lf)
             /\ (r = 0 /\ out' = out
                 /\ (forall k, pos' <= k < len -> json_at buf k <> ch_lf)
                 \/ r = 1
                    /\ exists line_start sp,
                         sse_data_line buf pos_ line_start pos' sp
                         /\ out' = match out with Some _ => Some sp | None => None end)).
  { destruct (IH (i + 1)) as (r & pos' & out' & Hr & Hb & Hprev & Hcase); [lia | lia |].
    exists r, pos', out'. split; [exact Hr |]. split; [lia |].
    assert (Hprev' : json_at buf (pos' - 1) = ch_lf).
    { destruct Hprev as [-> | ?]; [| assumption].
      by replace (i + 1 - 1) with i by lia. }
    split; [by right |].
    destruct Hcase as [? | [-> (ls & sp & Hline & ->)]]; [by left | right].
    split; [reflexivity |]. exists ls, sp. split; [| reflexivity].
    destruct Hline as (Hls & Hstart & Hrest). split; [lia |]. split; [| exact Hrest].
    destruct Hstart as [-> | ?]; [| by right].
    right. by replace (i + 1 - 1) with i by lia. }
  destruct (decide (line_len = 0)) as [Hz | Hnz]; [exact Hrec |].
  destruct (str_prefix_data buf pos_ line_len) as [-> | (-> & H5 & Hmatch)].
  { destruct (decide (0 > 0)); [lia | exact Hrec]. }
  destruct (decide (5 > 0)); [| lia].
  set (skip := bool_decide (line_len - 5 > 0) && bool_decide (json_at buf (pos_ + 5) = ch_space)).
  assert (Hskip : skip = true -> line_len - 5 > 0 /\ json_at buf (pos_ + 5) = ch_space).
  { subst skip. intros H. apply andb_true_iff in H as [H1 H2].
    by apply bool_decide_eq_true in H1, H2. }
  destruct skip eqn:Hsk.
  - destruct (Hskip eq_refl) as [Hl Hsp].
    eexists _, _, _. split; [reflexivity |]. split; [lia |].
    split; [right; by replace (i + 1 - 1) with i by lia |].
    right. split; [reflexivity |]. eexists pos_, _. split; [| reflexivity].
    unfold sse_data_line. cbn [span_p span_n].
    replace (i + 1 - 1) with i by lia. replace (i + 1 - 2) with (i - 1) by lia.
    split; [lia |]. split; [by left |]. split; [exact Hmatch |].
    split; [right; split; [lia | exact Hsp] |]. split; [lia |].
    split; [| split; [exact Hlf | intros k Hk; apply Hno; lia]].
    destruct Hll as [Hl' | (Hl' & _ & Hcr)]; [left; lia | right; split; [lia | assumption]].
  - eexists _, _, _. split; [reflexivity |]. split; [lia |].
    split; [right; by replace (i + 1 - 1) with i by lia |].
    right. split; [reflexivity |]. eexists pos_, _. split; [| reflexivity].
    unfold sse_data_line. cbn [span_p span_n].
    replace (i + 1 - 1) with i by lia. replace (i + 1 - 2) with (i - 1) by lia.
    split; [lia |]. split; [by left |]. split; [exact Hmatch |].
    split; [left; lia |]. split; [lia |].
    split; [| split; [exact Hlf | intros k Hk; apply Hno; lia]].
    destruct Hll as [Hl' | (Hl' & _ & Hcr)]; [left; lia | right; split; [lia | assumption]].
Qed.

(** X8. When [jstok_sse_next], called with [0 <= *pos] and a non-[NULL]
    [out], answers 1, the span it stores is the payload of a data line: a
    line that starts at or after the old [*pos] with the bytes [data:], the
    payload beginning after the prefix (or after the one space that follows
    it) and ending at the line feed (or at the carriage return before it).
    [*pos] is left just after that line feed, within the buffer. *)
Theorem sse_next_reports_data_line (buf : list Z) (len pos_ : Z)
    (o : jstok_span_t) (pos' : Z) (sp : jstok_span_t) :
  0 <= pos_ ->
  jstok_sse_next buf len pos_ (Some o) = Some (1, pos', Some sp) ->
  pos_ < pos' <= len
  /\ exists line_start, sse_data_line buf pos_ line_start pos' sp.
Proof.
  intros Hpos Hnext.
  destruct (decide (pos_ >= len)) as [Hge | Hlt].
  { rewrite sse_next_beyond_length in Hnext by assumption. discriminate. }
  unfold jstok_sse_next in Hnext.
  destruct (sse_next_rec_facts (Z.to_nat (len - pos_) + 1) buf len pos_ (Some o))
    as (r & q & out' & Hr & Hq & _ & Hcase); [lia | lia |].
  rewrite Hr in Hnext. injection Hnext as -> -> ->.
  destruct Hcase as [[? _] | [_ (ls & sp' & Hline & Hsp)]]; [lia |].
  injection Hsp as ->. split; [| by exists ls].
  destruct Hline as (H1 & _ & _ & H4 & H5 & H6 & _). lia.
Qed.

Lemma sse_next_reports_data_line_witness :
  0 < 8 <= 8 /\ exists line_start, sse_data_line sse_data_x 0 line_start 8 (mk_span 6 1).
Proof.
  apply (sse_next_reports_data_line sse_data_x 8 0 (mk_span 0 0) 8 (mk_span 6 1)).
  - lia.
  - vm_compute. reflexivity.
Defined.

(** X9. [jstok_sse_next] called with [0 <= *pos <= len] always returns, 0
    or 1, and leaves [*pos] between its old value and [len], at its old
    value or just after a line feed.  When it answers 0 it has not written
    [*out], and no line feed is left from the new [*pos] to the end of the
    buffer: [*pos] is the start of the line that is still incomplete. *)
Theorem sse_next_need_more (buf : list Z) (len pos_ : Z) (out : option jstok_span_t) :
  0 <= pos_ <= len ->
  exists r pos' out',
    jstok_sse_next buf len pos_ out = Some (r, pos', out')
    /\ (r = 0 \/ r = 1)
    /\ pos_ <= pos' <= len
    /\ (pos' = pos_ \/ json_at buf (pos' - 1) = ch_lf)
    /\ (r = 0 -> out' = out /\ forall k, pos' <= k < len -> json_at buf k <> ch_lf).
Proof.
  intros Hpos. unfold jstok_sse_next.
  destruct (sse_next_rec_facts (Z.to_nat (len - pos_) + 1) buf len pos_ out)
    as (r & q & out' & Hr & Hq & Hprev & Hcase); [lia | lia |].
  exists r, q, out'. split; [exact Hr |].
  split; [destruct Hcase as [[? _] | [? _]]; auto |].
  split; [exact Hq |]. split; [exact Hprev |].
  intros ->. destruct Hcase as [(_ & ? & ?) | [? _]]; [auto | lia].
Qed.

Lemma sse_next_need_more_witness :
  exists r pos' out',
    jstok_sse_next sse_data_x 7 0 None = Some (r, pos', out')
    /\ (r = 0 \/ r = 1)
    /\ 0 <= pos' <= 7
    /\ (pos' = 0 \/ json_at sse_data_x (pos' - 1) = ch_lf)
    /\ (r = 0 -> out' = None /\ forall k, pos' <= k < 7 -> json_at sse_data_x k <> ch_lf).
Proof.
  apply (sse_next_need_more sse_data_x 7 0 None). lia.
Defined.

(** ** [jstok_skip] on token trees *)

Lemma wrap_int_id z : - 2 ^ 31 <= z < 2 ^ 31 -> wrap_int z = z.
Proof. intros H. unfold wrap_int. rewrite Z.mod_small; lia. Qed.

Lemma forest_end_mono (next : Z -> option Z) n :
  (forall i j, next i = Some j -> i < j) ->
  forall i j, forest_end next n i = Some j -> i + Z.of_nat n <= j.
Proof.
  intros Hnext. induction n as [| n IH]; intros i j; simpl; [intros [= <-]; lia |].
  destruct (next i) as [k |] eqn:Hk; [| discriminate]. simpl.
  intros H. apply Hnext in Hk. apply IH in H. lia.
Qed.

Lemma tree_end_gt d ts i j : tree_end d ts i = Some j -> i < j.
Proof.
  revert i j; induction d as [| d IH]; intros i j; simpl.
  - destruct (decide _); [intros [= <-]; lia | discriminate].
  - destruct (decide _); [intros [= <-]; lia |].
    repeat (destruct (decide _); try discriminate);
      try (intros [= <-]; lia);
      intros H; apply (forest_end_mono _ _ IH) in H; lia.
Qed.

Lemma forest_end_ge d ts n i j :
  forest_end (tree_end d ts) n i = Some j -> i + Z.of_nat n <= j.
Proof. apply forest_end_mono. intros ? ?. apply tree_end_gt. Qed.

Lemma skip_loop_more fuel k toks count idx sp rem r :
  skip_loop fuel toks count idx sp rem = Some r ->
  skip_loop (fuel + k) toks count idx sp rem = Some r.
Proof.
  revert idx sp rem; induction fuel as [| fuel IH]; intros idx sp rem.
  - simpl. destruct (decide (sp > 0)); [discriminate |].
    intros H. destruct k; simpl; destruct (decide (sp > 0)); try lia; exact H.
  - cbn [skip_loop Nat.add]. destruct (decide (sp > 0)); [| auto].
    repeat (destruct (decide _); [solve [auto] |]). auto.
Qed.

(** The loop of [jstok_skip] passes over a forest of [n] subtrees whose count
    is on top of the stack [rem], and then pops that count. *)
Lemma forest_skip ts count d :
  forall n i j sp rem,
    forest_end (tree_end d ts) n i = Some j ->
    0 <= i -> j <= count -> count < 2 ^ 31 ->
    1 <= sp -> sp + Z.of_nat d <= JSTOK_MAX_DEPTH ->
    length rem = Z.to_nat JSTOK_MAX_DEPTH ->
    arr_get 0 rem (sp - 1) = Z.of_nat n ->
    exists steps rem',
      length rem' = Z.to_nat JSTOK_MAX_DEPTH
      /\ (forall k, k < sp - 1 -> arr_get 0 rem' k = arr_get 0 rem k)
      /\ forall fuel, skip_loop (steps + fuel) ts count i sp rem
                      = skip_loop fuel ts count j (sp - 1) rem'.
Proof.
  induction d as [d IHd] using lt_wf_ind.
  induction n as [| n IHn]; intros i j sp rem Hend Hi Hj Hcount Hsp Hd Hlen Htop.
  - injection Hend as <-. exists 1%nat, rem. repeat split; [assumption |].
    intros fuel. cbn [skip_loop Nat.add].
    destruct (decide (sp > 0)); [| lia].
    destruct (decide (arr_get 0 rem (sp - 1) = 0)); [reflexivity | simpl in *; lia].
  - cbn [forest_end] in Hend.
    destruct (tree_end d ts i) as [j1 |] eqn:Hj1; [| discriminate]. simpl in Hend.
    pose proof (tree_end_gt _ _ _ _ Hj1) as Hlt.
    pose proof (forest_end_ge _ _ _ _ _ Hend) as Hge.
    assert (Hn : Z.of_nat (S n) < 2 ^ 31) by lia.
    set (rem1 := arr_set rem (sp - 1) (Z.of_nat n)).
    assert (Hlen1 : length rem1 = Z.to_nat JSTOK_MAX_DEPTH)
      by (subst rem1; rewrite arr_set_length; assumption).
    assert (Htop1 : arr_get 0 rem1 (sp - 1) = Z.of_nat n).
    { subst rem1. apply arr_get_set_same. unfold JSTOK_MAX_DEPTH in *. lia. }
    assert (Hlow1 : forall k, k < sp - 1 -> arr_get 0 rem1 k = arr_get 0 rem k).
    { intros k Hk. subst rem1. apply arr_get_set_other. lia. }
    (* one pass of the loop on the token [i] *)
    assert (Hstep : forall fuel,
              skip_loop (S fuel) ts count i sp rem
              = let t := tok_at ts i in
                if decide (tok_type t = JSTOK_STRING \/ tok_type t = JSTOK_PRIMITIVE) then
                  skip_loop fuel ts count (i + 1) sp rem1
                else if decide (sp >= JSTOK_MAX_DEPTH) then Some count
                else if decide (tok_type t = JSTOK_ARRAY) then
                  skip_loop fuel ts count (i + 1) (sp + 1) (arr_set rem1 sp (tok_size t))
                else if decide (tok_type t = JSTOK_OBJECT) then
                  skip_loop fuel ts count (i + 1) (sp + 1)
                    (arr_set rem1 sp (wrap_int (tok_size t * 2)))
                else skip_loop fuel ts count (i + 1) sp rem1).
    { intros fuel. cbn [skip_loop].
      destruct (decide (sp > 0)); [| lia].
      destruct (decide (arr_get 0 rem (sp - 1) = 0)); [lia |].
      rewrite Htop, wrap_int_id by lia.
      replace (Z.of_nat (S n) - 1) with (Z.of_nat n) by lia. fold rem1.
      destruct (decide (i >= count)); [lia | reflexivity]. }
    (* the rest of the forest, once the subtree of [i] is passed *)
    assert (Hrest : forall rem2,
              length rem2 = Z.to_nat JSTOK_MAX_DEPTH ->
              (forall k, k < sp -> arr_get 0 rem2 k = arr_get 0 rem1 k) ->
              exists steps rem',
                length rem' = Z.to_nat JSTOK_MAX_DEPTH
                /\ (forall k, k < sp - 1 -> arr_get 0 rem' k = arr_get 0 rem k)
                /\ forall fuel, skip_loop (steps + fuel) ts count j1 sp rem2
                                = skip_loop fuel ts count j (sp - 1) rem').
    { intros rem2 Hlen2 Hlow2.
      destruct (IHn j1 j sp rem2 Hend) as (steps & rem' & Hl & Hlow & Hrun);
        try assumption; try lia.
      { rewrite Hlow2 by lia. exact Htop1. }
      exists steps, rem'. split; [assumption |]. split; [| assumption].
      intros k Hk. rewrite Hlow, Hlow2 by lia. apply Hlow1. lia. }
    (* a container whose forest of [m] subtrees ends at [j1] *)
    assert (Hnest : forall d' m,
              d = S d' ->
              forest_end (tree_end d' ts) (Z.to_nat m) (i + 1) = Some j1 -> 0 <= m ->
              exists steps rem',
                length rem' = Z.to_nat JSTOK_MAX_DEPTH
                /\ (forall k, k < sp - 1 -> arr_get 0 rem' k = arr_get 0 rem k)
                /\ forall fuel,
                     skip_loop (steps + fuel) ts count (i + 1) (sp + 1) (arr_set rem1 sp m)
                     = skip_loop fuel ts count j (sp - 1) rem').
    { intros d' m -> Hf Hm.
      destruct (IHd d' ltac:(lia) (Z.to_nat m) (i + 1) j1 (sp + 1) (arr_set rem1 sp m) Hf)
        as (steps1 & rem2 & Hlen2 & Hlow2 & Hrun1); try lia.
      { by rewrite arr_set_length. }
      { replace (sp + 1 - 1) with sp by lia.
        rewrite arr_get_set_same; [lia |]. unfold JSTOK_MAX_DEPTH in *. lia. }
      destruct (Hrest rem2 Hlen2) as (steps2 & rem' & Hl & Hlow & Hrun2).
      { intros k Hk. rewrite Hlow2 by lia. apply arr_get_set_other. lia. }
      exists (steps1 + steps2)%nat, rem'. split; [assumption |]. split; [assumption |].
      intros fuel. rewrite <- Nat.add_assoc, Hrun1.
      replace (sp + 1 - 1) with sp by lia. apply Hrun2. }
    assert (Hscalar : j1 = i + 1 ->
              (forall fuel, skip_loop (S fuel) ts count i sp rem
                            = skip_loop fuel ts count (i + 1) sp rem1) ->
              exists steps rem',
                length rem' = Z.to_nat JSTOK_MAX_DEPTH
                /\ (forall k, k < sp - 1 -> arr_get 0 rem' k = arr_get 0 rem k)
                /\ forall fuel, skip_loop (steps + fuel) ts count i sp rem
                                = skip_loop fuel ts count j (sp - 1) rem').
    { intros -> Hone.
      destruct (Hrest rem1 Hlen1 (fun _ _ => eq_refl)) as (steps & rem' & Hl & Hlow & Hrun).
      exists (S steps), rem'. split; [assumption |]. split; [assumption |].
      intros fuel. cbn [Nat.add]. rewrite Hone. apply Hrun. }
    destruct (decide (tok_type (tok_at ts i) = JSTOK_STRING
                      \/ tok_type (tok_at ts i) = JSTOK_PRIMITIVE)) as [Hsc | Hsc].
    { apply Hscalar.
      - destruct d; simpl in Hj1; rewrite decide_True in Hj1 by assumption; congruence.
      - intros fuel. rewrite Hstep. cbv zeta. by rewrite decide_True. }
    destruct d as [| d'].
    { simpl in Hj1. rewrite decide_False in Hj1 by assumption. discriminate. }
    cbn [tree_end] in Hj1. cbv zeta in Hj1. rewrite decide_False in Hj1 by assumption.
    assert (Hsp64 : ~ sp >= JSTOK_MAX_DEPTH) by lia.
    destruct (decide (tok_type (tok_at ts i) = JSTOK_ARRAY)) as [Har | Har].
    { destruct (decide (tok_size (tok_at ts i) < 0)); [discriminate |].
      destruct (Hnest d' (tok_size (tok_at ts i)) eq_refl Hj1 ltac:(lia))
        as (steps & rem' & Hl & Hlow & Hrun).
      exists (S steps), rem'. split; [assumption |]. split; [assumption |].
      intros fuel. cbn [Nat.add]. rewrite Hstep. cbv zeta.
      rewrite decide_False by assumption. rewrite (decide_False (P := sp >= _)) by assumption.
      rewrite decide_True by assumption. apply Hrun. }
    destruct (decide (tok_type (tok_at ts i) = JSTOK_OBJECT)) as [Hob | Hob].
    { destruct (decide (tok_size (tok_at ts i) < 0)); [discriminate |].
      pose proof (forest_end_ge _ _ _ _ _ Hj1) as Hge'.
      destruct (Hnest d' (2 * tok_size (tok_at ts i)) eq_refl Hj1 ltac:(lia))
        as (steps & rem' & Hl & Hlow & Hrun).
      exists (S steps), rem'. split; [assumption |]. split; [assumption |].
      intros fuel. cbn [Nat.add]. rewrite Hstep. cbv zeta.
      rewrite decide_False by assumption. rewrite (decide_False (P := sp >= _)) by assumption.
      rewrite (decide_False (P := _ = JSTOK_ARRAY)) by assumption.
      rewrite decide_True by assumption.
      rewrite wrap_int_id by lia.
      replace (tok_size (tok_at ts i) * 2) with (2 * tok_size (tok_at ts i)) by lia.
      apply Hrun. }
    apply Hscalar; [congruence |].
    intros fuel. rewrite Hstep. cbv zeta.
    rewrite decide_False by assumption. rewrite (decide_False (P := sp >= _)) by assumption.
    rewrite (decide_False (P := _ = JSTOK_ARRAY)) by assumption.
    by rewrite decide_False.
Qed.

Lemma tree_end_S d ts i :
  tree_end (S d) ts i
  = let t := tok_at ts i in
    if decide (tok_type t = JSTOK_STRING \/ tok_type t = JSTOK_PRIMITIVE) then Some (i + 1)
    else if decide (tok_type t = JSTOK_ARRAY) then
      if decide (tok_size t < 0) then None
      else forest_end (tree_end d ts) (Z.to_nat (tok_size t)) (i + 1)
    else if decide (tok_type t = JSTOK_OBJECT) then
      if decide (tok_size t < 0) then None
      else forest_end (tree_end d ts) (Z.to_nat (2 * tok_size t)) (i + 1)
    else Some (i + 1).
Proof. reflexivity. Qed.

Lemma skip_subtree ts count i j :
  0 <= i < count -> count < 2 ^ 31 ->
  tree_end (Z.to_nat JSTOK_MAX_DEPTH) ts i = Some j -> j <= count ->
  jstok_skip (Some ts) count i = Some j.
Proof.
  intros Hi Hcount Hend Hj. unfold jstok_skip.
  destruct (decide (i < 0 \/ i >= count)); [lia |].
  change (Z.to_nat JSTOK_MAX_DEPTH) with (S 63) in Hend.
  rewrite tree_end_S in Hend. cbv zeta in *.
  destruct (decide (tok_type (tok_at ts i) = JSTOK_STRING \/ _)); [exact Hend |].
  assert (Hloop : forall m,
            forest_end (tree_end 63 ts) (Z.to_nat m) (i + 1) = Some j -> 0 <= m ->
            skip_loop (Z.to_nat (2 * (count - (i + 1))) + 2) ts count (i + 1) 1
              (arr_set (replicate (Z.to_nat JSTOK_MAX_DEPTH) 0) 0 m) = Some j).
  { intros m Hf Hm.
    destruct (forest_skip ts count 63 (Z.to_nat m) (i + 1) j 1
                (arr_set (replicate (Z.to_nat JSTOK_MAX_DEPTH) 0) 0 m) Hf)
      as (steps & rem' & _ & _ & Hrun); try lia.
    { unfold JSTOK_MAX_DEPTH. lia. }
    { by rewrite arr_set_length, length_replicate. }
    { rewrite arr_get_set_same; [lia |]. rewrite length_replicate.
      unfold JSTOK_MAX_DEPTH. lia. }
    specialize (Hrun 0%nat). cbn [skip_loop] in Hrun.
    destruct (decide (1 - 1 > 0)); [lia |].
    destruct (skip_loop_total (Z.to_nat (2 * (count - (i + 1))) + 2) ts count (i + 1) 1
                (arr_set (replicate (Z.to_nat JSTOK_MAX_DEPTH) 0) 0 m)) as [r Hr];
      [lia | lia |].
    rewrite Hr. f_equal.
    apply (skip_loop_more _ (steps + 0)) in Hr.
    apply (skip_loop_more _ (Z.to_nat (2 * (count - (i + 1))) + 2)) in Hrun.
    rewrite Nat.add_comm in Hr. congruence. }
  destruct (decide (tok_type (tok_at ts i) = JSTOK_ARRAY)).
  { destruct (decide (tok_size (tok_at ts i) < 0)); [discriminate |].
    apply Hloop; [assumption | lia]. }
  destruct (decide (tok_type (tok_at ts i) = JSTOK_OBJECT)); [| exact Hend].
  destruct (decide (tok_size (tok_at ts i) < 0)); [discriminate |].
  pose proof (forest_end_ge _ _ _ _ _ Hend) as Hge.
  rewrite wrap_int_id by lia.
  replace (tok_size (tok_at ts i) * 2) with (2 * tok_size (tok_at ts i)) by lia.
  apply Hloop; [assumption | lia].
Qed.

(** X10. On a token array in which the sizes of the containers describe a
    tree -- every array of size [n] followed by [n] subtrees, every object
    of size [n] by [n] pairs of subtrees -- with containers nested at most
    [JSTOK_MAX_DEPTH] deep under token [i], [jstok_skip] returns the index
    just after the last token of the subtree of [i]. *)
Theorem jstok_skip_subtree (ts : list jstoktok_t) (count i j : Z) :
  0 <= i < count -> count < 2 ^ 31 ->
  tree_end (Z.to_nat JSTOK_MAX_DEPTH) ts i = Some j -> j <= count ->
  jstok_skip (Some ts) count i = Some j
  /\ i < j
  /\ (tok_type (tok_at ts i) = JSTOK_ARRAY -> i + 1 + tok_size (tok_at ts i) <= j)
  /\ (tok_type (tok_at ts i) = JSTOK_OBJECT -> i + 1 + 2 * tok_size (tok_at ts i) <= j).
Proof.
  intros Hi Hcount Hend Hj. split; [by apply skip_subtree |].
  split; [by apply tree_end_gt in Hend |].
  change (Z.to_nat JSTOK_MAX_DEPTH) with (S 63) in Hend.
  rewrite tree_end_S in Hend. cbv zeta in Hend.
  split; intros Hty; rewrite Hty in Hend;
    rewrite decide_False in Hend by (intros [? | ?]; discriminate).
  - rewrite decide_True in Hend by reflexivity.
    destruct (decide (tok_size (tok_at ts i) < 0)); [discriminate |].
    apply forest_end_ge in Hend. lia.
  - rewrite decide_False in Hend by discriminate.
    rewrite decide_True in Hend by reflexivity.
    destruct (decide (tok_size (tok_at ts i) < 0)); [discriminate |].
    apply forest_end_ge in Hend. lia.
Qed.

Lemma jstok_skip_subtree_witness :
  jstok_skip (Some skip_tokens) 5 2 = Some 5
  /\ 2 < 5
  /\ (tok_type (tok_at skip_tokens 2) = JSTOK_ARRAY ->
      2 + 1 + tok_size (tok_at skip_tokens 2) <= 5)
  /\ (tok_type (tok_at skip_tokens 2) = JSTOK_OBJECT ->
      2 + 1 + 2 * tok_size (tok_at skip_tokens 2) <= 5).
Proof.
  apply (jstok_skip_subtree skip_tokens 5 2 5).
  - lia.
  - lia.
  - vm_compute. reflexivity.
  - lia.
Defined.

(** ** [jstok_array_at] and [jstok_object_get] *)

Lemma skip_returns toks count i :
  0 <= count ->
  exists r, jstok_skip toks count i = Some r
            /\ (r = count \/ 0 <= i /\ i + 1 <= r <= count).
Proof.
  intros Hcount. unfold jstok_skip. destruct toks as [ts |]; [| eauto].
  destruct (decide _); [eauto |].
  assert (Hloop : forall m,
            exists r, skip_loop (Z.to_nat (2 * (count - (i + 1))) + 2) ts count (i + 1) 1
                        (arr_set (replicate (Z.to_nat JSTOK_MAX_DEPTH) 0) 0 m) = Some r
                      /\ (r = count \/ 0 <= i /\ i + 1 <= r <= count)).
  { intros m.
    destruct (skip_loop_total (Z.to_nat (2 * (count - (i + 1))) + 2) ts count (i + 1) 1
                (arr_set (replicate (Z.to_nat JSTOK_MAX_DEPTH) 0) 0 m)) as [r Hr];
      [lia | lia |].
    exists r. split; [exact Hr |]. apply skip_loop_bounds in Hr; lia. }
  repeat (destruct (decide _); [first [apply Hloop | eexists; split; [reflexivity | lia]] |]).
  eexists; split; [reflexivity | lia].
Qed.

Lemma array_at_loop_bounds rounds ts count cur :
  0 <= count ->
  exists r, array_at_loop rounds ts count cur = Some r
            /\ (rounds = 0%nat /\ r = cur
                \/ (0 < rounds)%nat /\ (r = -1 \/ 0 <= cur /\ cur < r < count)).
Proof.
  intros Hcount. revert cur; induction rounds as [| rounds IH]; intros cur;
    cbn [array_at_loop].
  - eexists; split; [reflexivity |]. left. auto.
  - destruct (skip_returns (Some ts) count cur Hcount) as (c & -> & Hc).
    cbn [mbind option_bind].
    destruct (decide (c >= count));
      [eexists; split; [reflexivity | right; split; [lia | by left]] |].
    destruct (IH c) as (r & -> & Hr). exists r. split; [reflexivity |].
    right. split; [lia |].
    destruct Hr as [[_ ->] | [_ [-> | ?]]]; [right; lia | by left | right; lia].
Qed.

Lemma array_at_loop_forest ts count n cur c :
  0 <= cur -> count < 2 ^ 31 ->
  forest_end (tree_end (Z.to_nat JSTOK_MAX_DEPTH) ts) n cur = Some c -> c < count ->
  array_at_loop n ts count cur = Some c.
Proof.
  intros Hcur Hcount. revert cur Hcur; induction n as [| n IH]; intros cur Hcur;
    cbn [forest_end array_at_loop].
  - by intros [= <-].
  - destruct (tree_end _ ts cur) as [j |] eqn:Hj; [| discriminate].
    cbn [mbind option_bind]. intros Hf Hc.
    pose proof (tree_end_gt _ _ _ _ Hj) as Hlt.
    pose proof (forest_end_ge _ _ _ _ _ Hf) as Hge.
    rewrite (skip_subtree ts count cur j) by (assumption || lia).
    cbn [mbind option_bind].
    destruct (decide (j >= count)); [lia |]. apply IH; [lia | assumption | assumption].
Qed.

(** X11. On a token tree, [jstok_array_at] returns the index of element
    [idx] of the array [arr_tok]: the token reached from the first element,
    [arr_tok + 1], by passing over [idx] subtrees. *)
Theorem jstok_array_at_element (ts : list jstoktok_t) (count arr_tok idx c : Z) :
  0 <= arr_tok < count -> count < 2 ^ 31 ->
  tok_type (tok_at ts arr_tok) = JSTOK_ARRAY ->
  0 <= idx < tok_size (tok_at ts arr_tok) ->
  forest_end (tree_end (Z.to_nat JSTOK_MAX_DEPTH) ts) (Z.to_nat idx) (arr_tok + 1) = Some c ->
  c < count ->
  jstok_array_at (Some ts) count arr_tok idx = Some c.
Proof.
  intros Ha Hcount Hty Hidx Hf Hc. unfold jstok_array_at.
  destruct (decide (arr_tok < 0 \/ _)); [lia |].
  destruct (decide (tok_type _ <> _)); [congruence |].
  destruct (decide (idx < 0 \/ _)); [lia |].
  apply array_at_loop_forest; (assumption || lia).
Qed.

Lemma jstok_array_at_element_witness :
  jstok_array_at (Some skip_tokens) 5 0 1 = Some 2.
Proof.
  apply (jstok_array_at_element skip_tokens 5 0 1 2).
  - lia.
  - lia.
  - reflexivity.
  - simpl. lia.
  - vm_compute. reflexivity.
  - lia.
Defined.

Lemma jstok_array_at_bounds_gen ts count arr_tok idx :
  0 <= count ->
  exists r,
    jstok_array_at (Some ts) count arr_tok idx = Some r
    /\ (r = -1 \/ arr_tok < r <= count).
Proof.
  intros Hcount. unfold jstok_array_at.
  repeat (destruct (decide _); [eauto |]).
  destruct (array_at_loop_bounds (Z.to_nat idx) ts count (arr_tok + 1) Hcount)
    as (r & -> & Hr).
  exists r. split; [reflexivity | lia].
Qed.

(** X12. [jstok_array_at] always returns, and what it returns is -1 or an
    index after [arr_tok] and below [count] -- except that for [idx = 0] it
    returns [arr_tok + 1] without comparing it to [count], so that on an
    array token that is the last of the token array ([arr_tok + 1 = count])
    with a positive size it returns [count].  It returns -1 when [toks] is
    [NULL], when [arr_tok] is not an index of an array token, and when
    [idx] is not in [0, size). *)
Theorem jstok_array_at_bounds (toks : option (list jstoktok_t)) (count arr_tok idx : Z) :
  0 <= count ->
  exists r,
    jstok_array_at toks count arr_tok idx = Some r
    /\ (r = -1 \/ arr_tok < r < count \/ idx = 0 /\ r = arr_tok + 1 /\ r = count)
    /\ (toks = None \/ arr_tok < 0 \/ arr_tok >= count \/ idx < 0 -> r = -1)
    /\ (forall ts, toks = Some ts ->
          tok_type (tok_at ts arr_tok) <> JSTOK_ARRAY
          \/ idx >= tok_size (tok_at ts arr_tok) -> r = -1)
    /\ (forall ts, toks = Some ts -> 0 <= arr_tok -> arr_tok + 1 = count ->
          tok_type (tok_at ts arr_tok) = JSTOK_ARRAY ->
          0 < tok_size (tok_at ts arr_tok) -> idx = 0 -> r = count).
Proof.
  intros Hcount. unfold jstok_array_at. destruct toks as [ts |].
  2:{ exists (-1). repeat split; auto; intros; discriminate. }
  destruct (decide (arr_tok < 0 \/ _)).
  { exists (-1). repeat split; auto; intros; lia. }
  destruct (decide (tok_type _ <> _)).
  { exists (-1). repeat split; auto. intros ts' [= <-]. intros. congruence. }
  destruct (decide (idx < 0 \/ _)).
  { exists (-1). repeat split; auto. intros ts' [= <-]. intros. lia. }
  destruct (array_at_loop_bounds (Z.to_nat idx) ts count (arr_tok + 1) Hcount)
    as (r & -> & Hr).
  exists r. split; [reflexivity |]. split; [| split; [| split]].
  - destruct Hr as [[Hz ->] | [_ [-> | ?]]]; [| by left | right; left; lia].
    destruct (decide (arr_tok + 1 < count)); [right; left; lia | right; right; lia].
  - intros [? | ?]; [discriminate | lia].
  - intros ts' [= <-] [? | ?]; [tauto | lia].
  - intros ts' [= <-] ? ? ? ? ->. destruct Hr as [[_ ->] | [? _]]; lia.
Qed.

Lemma jstok_array_at_bounds_witness :
  exists r,
    jstok_array_at (Some [mk_tok JSTOK_ARRAY 0 (-1) 1]) 1 0 0 = Some r
    /\ r = 1.
Proof.
  destruct (jstok_array_at_bounds (Some [mk_tok JSTOK_ARRAY 0 (-1) 1]) 1 0 0 ltac:(lia))
    as (r & Hr & _ & _ & _ & Hlast).
  exists r. split; [exact Hr |].
  apply (Hlast _ eq_refl); (reflexivity || lia).
Defined.

Lemma object_get_test json ts k key :
  no_nul key ->
  bool_decide (tok_type (tok_at ts k) = JSTOK_STRING)
  && negb (bool_decide (jstok_eq (Some json) (Some (tok_at ts k)) (Some key) = 0))
  = bool_decide (key_is json (tok_at ts k) key).
Proof.
  intros Hkey. rewrite jstok_eq_text_gen by assumption. unfold key_is.
  destruct (decide (tok_type (tok_at ts k) = JSTOK_STRING)) as [Hty | Hty].
  - rewrite (bool_decide_eq_true_2 _ Hty). simpl.
    destruct (decide (0 <= _ <= _ /\ _)) as [Hm | Hm].
    + rewrite bool_decide_eq_false_2 by lia. simpl.
      symmetry. apply bool_decide_eq_true_2. tauto.
    + rewrite bool_decide_eq_true_2 by reflexivity. simpl.
      symmetry. apply bool_decide_eq_false_2. tauto.
  - rewrite (bool_decide_eq_false_2 _ Hty). simpl.
    symmetry. apply bool_decide_eq_false_2. tauto.
Qed.

Lemma object_get_loop_sound rounds json ts count cur key :
  0 <= count -> no_nul key ->
  exists r,
    object_get_loop rounds json ts count cur key = Some r
    /\ (r = -1
        \/ (0 < rounds)%nat /\ cur + 1 <= r < count
           /\ key_is json (tok_at ts (r - 1)) key).
Proof.
  intros Hcount Hkey. revert cur; induction rounds as [| rounds IH]; intros cur;
    cbn [object_get_loop]; [eauto |]. cbv zeta.
  destruct (decide (cur + 1 >= count)); [eauto |].
  rewrite object_get_test by assumption.
  destruct (bool_decide (key_is json (tok_at ts cur) key)) eqn:Hm.
  - apply bool_decide_eq_true in Hm. eexists; split; [reflexivity |]. right.
    split; [lia |]. split; [lia |]. by replace (cur + 1 - 1) with cur by lia.
  - destruct (skip_returns (Some ts) count (cur + 1) Hcount) as (c & -> & Hc).
    cbn [mbind option_bind].
    destruct (decide (c >= count)); [eauto |].
    destruct (IH c) as (r & -> & Hr). exists r. split; [reflexivity |].
    destruct Hr as [-> | (_ & ? & ?)]; [by left | right].
    split; [lia |]. split; [lia | assumption].
Qed.

(** X13. [jstok_object_get] always returns, and what it returns is -1 or
    the index, after [obj_tok + 1] and below [count], of a token that stands
    right after a string token whose text is [key].  It returns -1 when an
    argument is [NULL], when [obj_tok] is not the index of an object token,
    and when the object has no pairs. *)
Theorem jstok_object_get_sound (json : list Z) (ts : list jstoktok_t)
    (count obj_tok : Z) (key : list Z) :
  0 <= count -> no_nul key ->
  (exists r,
     jstok_object_get (Some json) (Some ts) count obj_tok (Some key) = Some r
     /\ (r = -1
         \/ obj_tok + 2 <= r < count /\ key_is json (tok_at ts (r - 1)) key)
     /\ (obj_tok < 0 \/ obj_tok >= count
         \/ tok_type (tok_at ts obj_tok) <> JSTOK_OBJECT
         \/ tok_size (tok_at ts obj_tok) <= 0 -> r = -1))
  /\ jstok_object_get None (Some ts) count obj_tok (Some key) = Some (-1)
  /\ jstok_object_get (Some json) None count obj_tok (Some key) = Some (-1)
  /\ jstok_object_get (Some json) (Some ts) count obj_tok None = Some (-1).
Proof.
  intros Hcount Hkey. split; [| repeat split]. unfold jstok_object_get.
  destruct (decide (obj_tok < 0 \/ _)).
  { exists (-1). repeat split; auto. }
  destruct (decide (tok_type _ <> _)).
  { exists (-1). repeat split; auto. }
  destruct (object_get_loop_sound (Z.to_nat (tok_size (tok_at ts obj_tok))) json ts
              count (obj_tok + 1) key Hcount Hkey) as (r & -> & Hr).
  exists r. split; [reflexivity |]. split.
  - destruct Hr as [-> | (_ & ? & ?)]; [by left | right]. split; [lia | assumption].
  - intros [? | [? | [? | ?]]]; try lia; tauto.
Qed.

Lemma jstok_object_get_sound_witness :
  exists r,
    jstok_object_get (Some json_async)
      (Some [mk_tok JSTOK_OBJECT 0 30 2; mk_tok JSTOK_STRING 2 7 0;
             mk_tok JSTOK_STRING 10 17 0; mk_tok JSTOK_STRING 20 23 0;
             mk_tok JSTOK_PRIMITIVE 25 29 0])
      5 0 (Some (bytes_of_string "num")) = Some r
    /\ (r = -1 \/ 0 + 2 <= r < 5).
Proof.
  assert (Hkey : no_nul (bytes_of_string "num")).
  { repeat (constructor; [discriminate |]). constructor. }
  destruct (jstok_object_get_sound json_async
              [mk_tok JSTOK_OBJECT 0 30 2; mk_tok JSTOK_STRING 2 7 0;
               mk_tok JSTOK_STRING 10 17 0; mk_tok JSTOK_STRING 20 23 0;
               mk_tok JSTOK_PRIMITIVE 25 29 0]
              5 0 (bytes_of_string "num") ltac:(lia) Hkey)
    as [(r & Hr & Hcase & _) _].
  exists r. split; [exact Hr |]. destruct Hcase as [? | [? _]]; [by left | by right].
Defined.

Lemma object_keys_ge ts n cur ks e :
  object_keys ts n cur = Some (ks, e) -> cur + 2 * Z.of_nat n <= e.
Proof.
  revert cur ks; induction n as [| n IH]; intros cur ks; cbn [object_keys].
  - intros [= _ <-]. lia.
  - destruct (tree_end _ ts (cur + 1)) as [v |] eqn:Hv; [| discriminate].
    cbn [mbind option_bind].
    destruct (object_keys ts n v) as [[ks' e'] |] eqn:Hk; [| discriminate].
    intros [= _ <-]. apply tree_end_gt in Hv. apply IH in Hk. lia.
Qed.

Lemma object_get_loop_keys json ts count key n cur ks e :
  no_nul key -> 0 <= cur -> count < 2 ^ 31 ->
  object_keys ts n cur = Some (ks, e) -> e <= count ->
  object_get_loop n json ts count cur key
  = Some (match find (fun k => bool_decide (key_is json (tok_at ts k) key)) ks with
          | Some k => k + 1
          | None => -1
          end).
Proof.
  intros Hkey Hcur Hcount. revert cur ks Hcur; induction n as [| n IH];
    intros cur ks Hcur; cbn [object_keys object_get_loop].
  - by intros [= <- _].
  - destruct (tree_end _ ts (cur + 1)) as [v |] eqn:Hv; [| discriminate].
    cbn [mbind option_bind].
    destruct (object_keys ts n v) as [[ks' e'] |] eqn:Hk; [| discriminate].
    intros [= <- <-] He. cbv zeta.
    pose proof (tree_end_gt _ _ _ _ Hv) as Hlt.
    pose proof (object_keys_ge _ _ _ _ _ Hk) as Hge.
    destruct (decide (cur + 1 >= count)); [lia |].
    rewrite object_get_test by assumption. cbn [find].
    destruct (bool_decide (key_is json (tok_at ts cur) key)); [reflexivity |].
    rewrite (skip_subtree ts count (cur + 1) v) by (assumption || lia).
    cbn [mbind option_bind].
    destruct (decide (v >= count)) as [Hv' | Hv'].
    + destruct n as [| n]; [| lia]. cbn [object_keys] in Hk.
      injection Hk as <- _. reflexivity.
    + apply (IH v ks'); [lia | assumption | assumption].
Qed.

(** X14. On a token tree, [jstok_object_get] returns the value of the first
    pair of the object whose key is a string token with the text [key] --
    the index of the token that follows that key -- and -1 when no pair has
    such a key. *)
Theorem jstok_object_get_first_key (json : list Z) (ts : list jstoktok_t)
    (count obj_tok : Z) (key : list Z) (ks : list Z) (e : Z) :
  no_nul key -> 0 <= obj_tok < count -> count < 2 ^ 31 ->
  tok_type (tok_at ts obj_tok) = JSTOK_OBJECT ->
  object_keys ts (Z.to_nat (tok_size (tok_at ts obj_tok))) (obj_tok + 1) = Some (ks, e) ->
  e <= count ->
  jstok_object_get (Some json) (Some ts) count obj_tok (Some key)
  = Some (match find (fun k => bool_decide (key_is json (tok_at ts k) key)) ks with
          | Some k => k + 1
          | None => -1
          end).
Proof.
  intros Hkey Hobj Hcount Hty Hks He. unfold jstok_object_get.
  destruct (decide (obj_tok < 0 \/ _)); [lia |].
  destruct (decide (tok_type _ <> _)); [congruence |].
  apply (object_get_loop_keys json ts count key _ _ ks e); (assumption || lia).
Qed.

Lemma jstok_object_get_first_key_witness :
  jstok_object_get (Some json_async)
    (Some [mk_tok JSTOK_OBJECT 0 30 2; mk_tok JSTOK_STRING 2 7 0;
           mk_tok JSTOK_STRING 10 17 0; mk_tok JSTOK_STRING 20 23 0;
           mk_tok JSTOK_PRIMITIVE 25 29 0])
    5 0 (Some (bytes_of_string "num"))
  = Some 4.
Proof.
  apply (jstok_object_get_first_key json_async
           [mk_tok JSTOK_OBJECT 0 30 2; mk_tok JSTOK_STRING 2 7 0;
            mk_tok JSTOK_STRING 10 17 0; mk_tok JSTOK_STRING 20 23 0;
            mk_tok JSTOK_PRIMITIVE 25 29 0]
           5 0 (bytes_of_string "num") [1; 3] 5).
  - repeat (constructor; [discriminate |]). constructor.
  - lia.
  - lia.
  - reflexivity.
  - vm_compute. reflexivity.
  - lia.
Defined.

(** ** [jstok_path] *)

Lemma object_get_loop_bounds rounds json ts count cur key :
  0 <= count ->
  exists r,
    object_get_loop rounds json ts count cur key = Some r
    /\ (r = -1 \/ cur + 1 <= r < count).
Proof.
  intros Hcount. revert cur; induction rounds as [| rounds IH]; intros cur;
    cbn [object_get_loop]; [eauto |]. cbv zeta.
  destruct (decide (cur + 1 >= count)); [eauto |].
  destruct (_ && _); [eexists; split; [reflexivity | right; lia] |].
  destruct (skip_returns (Some ts) count (cur + 1) Hcount) as (c & -> & Hc).
  cbn [mbind option_bind].
  destruct (decide (c >= count)); [eauto |].
  destruct (IH c) as (r & -> & Hr). exists r. split; [reflexivity | lia].
Qed.

Lemma path_loop_bounds args json ts count curr r :
  0 <= count ->
  path_loop args json ts count curr = Some r ->
  r = curr \/ r = -1 \/ 0 <= curr /\ curr < r <= count.
Proof.
  intros Hcount. revert curr; induction args as [| a args IH]; intros curr;
    cbn [path_loop]; cbv zeta.
  - repeat (destruct (decide _); try discriminate); intros [= <-]; by left.
  - destruct (decide (curr >= 0 /\ curr < count)) as [Hc |]; [| intros [= <-]; by left].
    destruct (decide (_ = JSTOK_OBJECT)).
    + destruct a as [[key |] | idx]; [| intros [= <-]; by left | discriminate].
      unfold jstok_object_get.
      destruct (decide (curr < 0 \/ _)); [lia |].
      destruct (decide (tok_type _ <> _)); [tauto |].
      destruct (object_get_loop_bounds (Z.to_nat (tok_size (tok_at ts curr))) json ts
                  count (curr + 1) key Hcount) as (c & -> & Hcb).
      cbn [mbind option_bind]. intros H. apply IH in H. lia.
    + destruct (decide (_ = JSTOK_ARRAY)); [| intros [= <-]; by left].
      destruct a as [key | idx]; [discriminate |].
      destruct (jstok_array_at_bounds_gen ts count curr idx Hcount) as (c & -> & Hcb).
      cbn [mbind option_bind]. intros H. apply IH in H. lia.
Qed.

(** X15. Whenever the variadic arguments of [jstok_path] are of the kinds it
    reads (a key for an object, an index for an array), what it returns is
    -1 or an index from [root] up to [count].  It returns -1 when [json] or
    [toks] is [NULL] or [root] is not below [count], and it returns [root],
    reading no argument, when the root token is neither an object nor an
    array. *)
Theorem jstok_path_bounds (json : list Z) (ts : list jstoktok_t)
    (count root : Z) (args : list path_arg) :
  0 <= count ->
  (forall r, jstok_path (Some json) (Some ts) count root args = Some r ->
             r = -1 \/ 0 <= root <= r /\ r <= count)
  /\ (root < 0 \/ root >= count ->
      jstok_path (Some json) (Some ts) count root args = Some (-1))
  /\ (0 <= root < count ->
      tok_type (tok_at ts root) <> JSTOK_OBJECT ->
      tok_type (tok_at ts root) <> JSTOK_ARRAY ->
      jstok_path (Some json) (Some ts) count root args = Some root)
  /\ jstok_path None (Some ts) count root args = Some (-1)
  /\ jstok_path (Some json) None count root args = Some (-1).
Proof.
  intros Hcount. split; [| split; [| split; [| split; reflexivity]]].
  - intros r. unfold jstok_path.
    destruct (decide (root < 0 \/ _)); [intros [= <-]; by left |].
    intros H. apply path_loop_bounds in H; [| assumption]. lia.
  - intros Hroot. unfold jstok_path. destruct (decide _); [reflexivity | lia].
  - intros Hroot Hobj Harr. unfold jstok_path.
    destruct (decide (root < 0 \/ _)); [lia |].
    destruct args; cbn [path_loop]; cbv zeta;
      (destruct (decide (root >= 0 /\ _)); [| lia]);
      rewrite !decide_False by assumption; reflexivity.
Qed.

Lemma jstok_path_bounds_witness :
  jstok_path (Some json_async) (Some skip_tokens) 5 0 [PathIdx 1; PathKey None] = Some 2
  /\ (2 = -1 \/ 0 <= 0 <= 2 /\ 2 <= 5).
Proof.
  destruct (jstok_path_bounds json_async skip_tokens 5 0 [PathIdx 1; PathKey None]
              ltac:(lia)) as [H _].
  split; [vm_compute; reflexivity |]. apply H. vm_compute. reflexivity.
Defined.

(** * Further properties of [jstok_parse] *)

(** ** Invariants of the loop *)

(** A property that is established by every pass that returns and by the
    code after the loop, under an invariant that every pass that continues
    keeps, holds of every result of the loop. *)
Lemma run_invariant strict json json_len max_tokens
    (I : jstok_parser -> tokens -> Prop) (Q : Z -> jstok_parser -> tokens -> Prop) :
  (forall p toks, I p toks -> 0 <= toknext p) ->
  (forall p toks p' toks',
     I p toks -> pos p < json_len ->
     jstok_parse_step strict json json_len max_tokens p toks = Some (Continue p' toks') ->
     I p' toks') ->
  (forall p toks r p' toks',
     I p toks -> pos p < json_len ->
     jstok_parse_step strict json json_len max_tokens p toks = Some (Return r p' toks') ->
     Q r p' toks') ->
  (forall p toks r p' toks',
     I p toks -> ~ pos p < json_len ->
     jstok_parse_finish strict p toks = (r, p', toks') -> Q r p' toks') ->
  forall p toks r p' toks',
    I p toks ->
    run strict json json_len max_tokens p toks = Some (r, p', toks') ->
    Q r p' toks'.
Proof.
  intros Htn Hcont Hret Hfin p toks r p' toks'.
  remember (Z.to_nat (json_len - pos p)) as fuel eqn:Hfuel.
  assert (Hle : (Z.to_nat (json_len - pos p) <= fuel)%nat) by lia. clear Hfuel.
  revert p toks Hle. induction fuel as [| fuel IH]; intros p toks Hle HI Hrun.
  - rewrite run_exit in Hrun by lia. injection Hrun as Hrun.
    apply (Hfin p toks); [assumption | lia | assumption].
  - destruct (decide (pos p < json_len)) as [Hlt | Hge].
    + rewrite run_step in Hrun by eauto.
      destruct (jstok_parse_step strict json json_len max_tokens p toks)
        as [[p1 t1 | r1 p1 t1] |] eqn:Hstep; [| | discriminate].
      * pose proof (step_facts _ _ _ _ _ _ _ (Htn _ _ HI) Hlt Hstep) as (Hp1 & _).
        apply (IH p1 t1); [lia | eauto | assumption].
      * injection Hrun as <- <- <-. eauto.
    + rewrite run_exit in Hrun by lia. injection Hrun as Hrun.
      apply (Hfin p toks); assumption.
Qed.

(** ** What a call reports *)

Lemma accept_value_code strict p toks r p' toks' :
  jstok_accept_value strict p toks = (r, p', toks') ->
  r = 0 /\ error_code p' = error_code p /\ error_pos p' = error_pos p
  \/ r = JSTOK_ERROR_INVAL /\ error_code p' = r /\ error_pos p' = pos p.
Proof.
  destruct (accept_value_cases strict p toks) as [-> | [(_ & ->) | (fr & st & _ & ->)]];
    intros [= <- <- <-]; simpl; auto.
Qed.

Lemma token_result_code p toks max_tokens json_len res :
  0 <= toknext p ->
  token_result p toks max_tokens json_len res ->
  res.1.1 < 0 ->
  error_code res.1.2 = res.1.1
  /\ (res.1.1 = JSTOK_ERROR_PART \/ res.1.1 = JSTOK_ERROR_INVAL
      \/ res.1.1 = JSTOK_ERROR_NOMEM).
Proof.
  intros Htn [(Hr & _ & x & ->) | [(Hr & _ & e & x & ->) | (Hr & _)]] Hneg.
  - rewrite Hr. simpl. auto.
  - simpl. split; [reflexivity | tauto].
  - lia.
Qed.

Lemma start_container_code strict p toks max_tokens type r p' toks' :
  0 <= toknext p ->
  jstok_start_container strict p toks max_tokens type = (r, p', toks') ->
  r < 0 -> error_code p' = r /\ error_codes r.
Proof.
  intros Htn. unfold jstok_start_container, jstok_new_token, jstok_push, error_codes.
  destruct (accept_value_cases strict p toks) as [-> | [(Htop & ->) | (fr & st & Htop & ->)]];
    simpl; intros H; repeat break_hyp H; simplify_eq; simpl in *; intros;
    try lia; (split; [reflexivity | lia]).
Qed.

Lemma end_container_code p toks type closer r p' toks' :
  jstok_end_container p toks type closer = (r, p', toks') ->
  r < 0 -> error_code p' = r /\ error_codes r.
Proof.
  unfold jstok_end_container, jstok_pop, error_codes.
  intros H; repeat break_hyp H; simplify_eq; simpl in *; intros;
    try lia; (split; [reflexivity | lia]).
Qed.

Lemma error_code_set_frame_st p fr st : error_code (set_frame_st p fr st) = error_code p.
Proof. reflexivity. Qed.

Lemma rollback_value_code p toks fr st rd :
  error_code (rollback_value p toks fr st rd).1 = error_code p.
Proof. destruct fr; reflexivity. Qed.

Lemma value_path_code strict max_tokens json_len p toks recognize r p' toks' :
  0 <= toknext p ->
  (forall q t res, 0 <= toknext q -> recognize q t = Some res ->
                   token_result q t max_tokens json_len res) ->
  value_path strict p toks recognize = Some (Return r p' toks') ->
  error_code p' = r /\ error_codes r.
Proof.
  intros Htn Hrec. unfold value_path.
  destruct (jstok_accept_value strict p toks) as [[r0 p1] t1] eqn:Hacc.
  pose proof (accept_value_scalars _ _ _ _ _ _ Hacc) as [_ Htn1].
  destruct (accept_value_code _ _ _ _ _ _ Hacc) as [(-> & _) | (-> & Hc & _)].
  2:{ simpl. intros [= <- <- <-]. unfold error_codes. split; [assumption | lia]. }
  simpl. destruct (recognize p1 t1) as [[[r2 p2] t2] |] eqn:Hr; [| discriminate].
  cbn [mbind option_bind].
  destruct (decide (r2 < 0)) as [Hneg |]; [| discriminate].
  assert (Htn' : 0 <= toknext p1) by lia.
  pose proof (token_result_code _ _ _ _ _ Htn' (Hrec _ _ _ Htn' Hr) Hneg)
    as [Hcode Hcases]. simpl in Hcode, Hcases.
  destruct (decide (r2 = -3)).
  - pose proof (rollback_value_code p2 t2 (jstok_top p)
                  (match jstok_top p with
                   | Some fr => fr_st (frame_at p fr)
                   | None => JSTOK_ST_OBJ_KEY_OR_END
                   end) (root_done p)) as Hrb.
    destruct (rollback_value _ _ _ _ _) as [p3 t3]. simpl in Hrb.
    intros [= <- <- <-]. unfold error_codes. split; [congruence | tauto].
  - intros [= <- <- <-]. unfold error_codes. split; [assumption | tauto].
Qed.

Lemma step_return_code strict json json_len max_tokens p toks r p' toks' :
  0 <= toknext p ->
  jstok_parse_step strict json json_len max_tokens p toks = Some (Return r p' toks') ->
  error_code p' = r /\ error_codes r.
Proof.
  intros Htn. rewrite step_value_paths. cbn zeta.
  destruct (jstok_is_space _); [discriminate |].
  destruct (decide _).
  { destruct (jstok_start_container _ _ _ _ _) as [[r1 q1] t1] eqn:Hsc.
    destruct (decide (r1 < 0)); intros [= <- <- <-].
    eapply start_container_code; [exact Htn | eassumption | assumption]. }
  destruct (decide _).
  { destruct (jstok_start_container _ _ _ _ _) as [[r1 q1] t1] eqn:Hsc.
    destruct (decide (r1 < 0)); intros [= <- <- <-].
    eapply start_container_code; [exact Htn | eassumption | assumption]. }
  destruct (decide _).
  { destruct (decide _).
    - destruct (jstok_end_container _ _ _ _) as [[r1 q1] t1] eqn:Hec.
      destruct (decide (r1 < 0)); intros [= <- <- <-].
      eapply end_container_code; eassumption.
    - destruct (jstok_end_container _ _ _ _) as [[r1 q1] t1] eqn:Hec.
      destruct (decide (r1 < 0)); intros [= <- <- <-].
      eapply end_container_code; eassumption. }
  destruct (decide _).
  { intros H; repeat break_hyp H; simplify_eq; unfold error_codes; simpl; (split; [reflexivity | lia]). }
  destruct (decide _).
  { intros H; repeat break_hyp H; simplify_eq; unfold error_codes; simpl; (split; [reflexivity | lia]). }
  destruct (decide _).
  { destruct (key_expected p).
    - destruct (jstok_parse_string_token _ _ _ _ _) as [[[r1 q1] t1] |] eqn:Hst;
        [| discriminate].
      cbn [mbind option_bind].
      pose proof (string_token_result _ _ _ _ _ _ Htn Hst) as Hres.
      destruct (decide (r1 < 0)) as [Hneg |].
      + pose proof (token_result_code _ _ _ _ _ Htn Hres Hneg) as [Hcode Hcases].
        simpl in Hcode, Hcases. unfold error_codes.
        destruct (decide (r1 = -3)); intros [= <- <- <-];
          (split; [assumption | tauto]).
      + unfold jstok_accept_key.
        intros H; repeat break_hyp H; simplify_eq; unfold error_codes; simpl;
          (split; [reflexivity | lia]).
    - apply (value_path_code strict max_tokens json_len); [assumption |].
      intros q t res Hq Hr. eapply string_token_result; eassumption. }
  apply (value_path_code strict max_tokens json_len); [assumption |].
  intros q t res Hq [= <-]. apply primitive_token_result, Hq.
Qed.

(** What the loop has done when it is entered with the error fields reset,
    as [jstok_parse] enters it. *)
Lemma run_reports strict json json_len max_tokens p toks r p' toks' :
  0 <= toknext p -> error_code p = 0 -> error_pos p = -1 ->
  run strict json json_len max_tokens p toks = Some (r, p', toks') ->
  r < 0 /\ error_code p' = r /\ error_codes r
  \/ 0 <= r /\ r = toknext p' /\ error_code p' = 0 /\ error_pos p' = -1
     /\ depth p' = 0 /\ json_len <= pos p'
     /\ (strict = true -> root_done p' <> 0).
Proof.
  intros Htn Hc He Hrun.
  refine (run_invariant strict json json_len max_tokens
            (fun p _ => 0 <= toknext p /\ error_code p = 0 /\ error_pos p = -1)
            (fun r p' _ =>
               r < 0 /\ error_code p' = r /\ error_codes r
               \/ 0 <= r /\ r = toknext p' /\ error_code p' = 0 /\ error_pos p' = -1
                  /\ depth p' = 0 /\ json_len <= pos p'
                  /\ (strict = true -> root_done p' <> 0))
            _ _ _ _ _ _ _ _ _ _ Hrun).
  - tauto.
  - intros q t q' t' (Hp & Hc' & He') Hlt Hstep.
    apply step_facts in Hstep; [| assumption | assumption].
    destruct Hstep as (_ & ? & ? & ?). repeat split; (lia || congruence).
  - intros q t r1 q' t' (Hp & _) Hlt Hstep. left.
    pose proof (step_facts _ _ _ _ _ _ _ Hp Hlt Hstep) as [Hneg _].
    apply step_return_code in Hstep; [| assumption]. tauto.
  - intros q t r1 q' t' (Hp & Hc' & He') Hge. unfold jstok_parse_finish.
    destruct (strict && bool_decide (depth q = 0) && bool_decide (root_done q = 0)) eqn:Hs.
    { intros [= <- <- <-]. left. unfold error_codes. simpl. lia. }
    destruct (decide (depth q <> 0)) as [Hd | Hd].
    { intros [= <- <- <-]. left. unfold error_codes. simpl. lia. }
    intros [= <- <- <-]. right. repeat split; try lia. intros ->.
    rewrite (bool_decide_eq_true_2 (depth q = 0)) in Hs by lia. simpl in Hs.
    by apply bool_decide_eq_false in Hs.
  - auto.
Qed.

(** X16. A call of [jstok_parse] with valid arguments on a parser whose
    token counter is not negative always returns, and reports what it
    returns in the parser.  A negative result is one of the four error codes
    and [error_code] holds it.  A result that is not negative is the token
    counter [toknext]; then [error_code] is 0 and [error_pos] is -1, no
    container is open, the whole buffer has been read, and in strict mode a
    top-level value has been seen. *)
Theorem jstok_parse_reports (strict : bool) (p0 : jstok_parser) (json : list Z)
    (json_len : Z) (toks : tokens) (max_tokens : Z) :
  0 <= json_len -> 0 <= toknext p0 ->
  exists r p' toks',
    jstok_parse strict (Some p0) (Some json) json_len toks max_tokens
    = Some (r, Some p', toks')
    /\ (r < 0 /\ error_code p' = r /\ error_codes r
        \/ 0 <= r /\ r = toknext p' /\ error_code p' = 0 /\ error_pos p' = -1
           /\ depth p' = 0 /\ json_len <= pos p'
           /\ (strict = true -> root_done p' <> 0)).
Proof.
  intros Hlen Htn. rewrite parse_valid_args by assumption.
  destruct (run_total strict json json_len max_tokens (jstok_set_error p0 0 (-1)) toks)
    as [[[r p'] toks'] Hrun]; [assumption |].
  rewrite Hrun. exists r, p', toks'. split; [reflexivity |].
  apply run_reports in Hrun; [exact Hrun | assumption | reflexivity | reflexivity].
Qed.

Lemma jstok_parse_reports_witness :
  exists r p' toks',
    jstok_parse true (Some (jstok_init blank_parser)) (Some json_async) 30
      (Some (blank_tokens 8)) 8
    = Some (r, Some p', toks')
    /\ (r < 0 /\ error_code p' = r /\ error_codes r
        \/ 0 <= r /\ r = toknext p' /\ error_code p' = 0 /\ error_pos p' = -1
           /\ depth p' = 0 /\ 30 <= pos p'
           /\ (true = true -> root_done p' <> 0)).
Proof.
  apply (jstok_parse_reports true (jstok_init blank_parser) json_async 30
           (Some (blank_tokens 8)) 8).
  - lia.
  - simpl. lia.
Defined.

(** X17. A call that succeeded can be repeated: called again on the parser
    and the token array it left, with the same buffer and length (and any
    [max_tokens]), [jstok_parse] returns the same count and changes neither
    the parser nor the tokens. *)
Theorem jstok_parse_again (strict : bool) (p0 : jstok_parser) (json : list Z)
    (json_len : Z) (toks : tokens) (max_tokens max_tokens' r : Z)
    (p' : jstok_parser) (toks' : tokens) :
  0 <= json_len -> 0 <= toknext p0 ->
  jstok_parse strict (Some p0) (Some json) json_len toks max_tokens
  = Some (r, Some p', toks') ->
  0 <= r ->
  jstok_parse strict (Some p') (Some json) json_len toks' max_tokens'
  = Some (r, Some p', toks').
Proof.
  intros Hlen Htn Hparse Hr. rewrite parse_valid_args in * by assumption.
  destruct (run _ _ _ _ _ toks) as [[[r1 p1] t1] |] eqn:Hrun; [| discriminate].
  injection Hparse as -> -> ->.
  apply run_reports in Hrun; [| assumption | reflexivity | reflexivity].
  destruct Hrun as [? | (_ & -> & Hc & He & Hd & Hpos & Hroot)]; [lia |].
  replace (jstok_set_error p' 0 (-1)) with p'
    by (destruct p'; unfold jstok_set_error; simpl in *; congruence).
  rewrite run_exit by lia. unfold jstok_parse_finish.
  rewrite (bool_decide_eq_true_2 (depth p' = 0)) by assumption.
  destruct strict; simpl.
  - rewrite bool_decide_eq_false_2 by auto.
    destruct (decide (depth p' <> 0)); [lia | reflexivity].
  - destruct (decide (depth p' <> 0)); [lia | reflexivity].
Qed.

Lemma jstok_parse_again_witness :
  jstok_parse true
    (Some (mk_parser 7 4 0 1 (-1) 0
             (arr_set (stack blank_parser) 0 (mk_frame JSTOK_ARRAY JSTOK_ST_ARR_COMMA_OR_END 0))))
    (Some json_array_123) 7
    (Some [mk_tok JSTOK_ARRAY 0 7 3; mk_tok JSTOK_PRIMITIVE 1 2 0;
           mk_tok JSTOK_PRIMITIVE 3 4 0; mk_tok JSTOK_PRIMITIVE 5 6 0]) 0
  = Some (4,
          Some (mk_parser 7 4 0 1 (-1) 0
                  (arr_set (stack blank_parser) 0 (mk_frame JSTOK_ARRAY JSTOK_ST_ARR_COMMA_OR_END 0))),
          Some [mk_tok JSTOK_ARRAY 0 7 3; mk_tok JSTOK_PRIMITIVE 1 2 0;
                mk_tok JSTOK_PRIMITIVE 3 4 0; mk_tok JSTOK_PRIMITIVE 5 6 0]).
Proof.
  apply (jstok_parse_again true (jstok_init blank_parser) json_array_123 7
           (Some (blank_tokens 4)) 4 0).
  - lia.
  - simpl. lia.
  - vm_compute. reflexivity.
  - lia.
Defined.

(** ** Strict mode after the top-level value *)

Lemma run_skip_spaces strict json json_len max_tokens fuel p toks j :
  (Z.to_nat (j - pos p) <= fuel)%nat ->
  0 <= toknext p -> pos p <= j <= json_len ->
  (forall i, pos p <= i < j -> jstok_is_space (json_at json i) = true) ->
  run strict json json_len max_tokens p toks
  = run strict json json_len max_tokens (set_pos p j) toks.
Proof.
  revert p. induction fuel as [| fuel IH]; intros p Hfuel Htn Hpos Hblank.
  - replace j with (pos p) by lia. destruct p; reflexivity.
  - destruct (decide (pos p < j)) as [Hlt | Hge].
    + rewrite run_step, step_space by (try apply Hblank; lia).
      rewrite IH; simpl; try lia; [reflexivity |].
      intros i Hi. apply Hblank. lia.
    + replace j with (pos p) by lia. destruct p; reflexivity.
Qed.

Lemma step_after_root json json_len max_tokens p toks :
  depth p <= 0 -> root_done p <> 0 ->
  jstok_is_space (json_at json (pos p)) = false ->
  jstok_parse_step true json json_len max_tokens p toks
  = Some (Return JSTOK_ERROR_INVAL (jstok_set_error p JSTOK_ERROR_INVAL (pos p)) toks).
Proof.
  intros Hd Hroot Hsp.
  assert (Htop : jstok_top p = None).
  { unfold jstok_top. destruct (decide _); [reflexivity | lia]. }
  assert (Hacc : jstok_accept_value true p toks
                 = (JSTOK_ERROR_INVAL, jstok_set_error p JSTOK_ERROR_INVAL (pos p), toks)).
  { unfold jstok_accept_value. rewrite Htop.
    rewrite bool_decide_eq_false_2 by assumption. reflexivity. }
  assert (Hkey : key_expected p = false) by (unfold key_expected; by rewrite Htop).
  rewrite step_value_paths. cbv zeta. rewrite Hsp, Htop, Hkey.
  unfold jstok_start_container, jstok_end_container, value_path.
  rewrite Hacc, Htop. cbn [mbind option_bind].
  repeat (destruct (decide _); try reflexivity; try lia).
Qed.

(** X18. In strict mode, once a top-level value is complete -- no container
    is open and [root_done] is set -- the first byte after it that is not
    whitespace, whatever it is, makes [jstok_parse] return
    [JSTOK_ERROR_INVAL] with [pos] and [error_pos] at that byte; the token
    counter and the token array are not touched. *)
Theorem strict_rejects_second_value (p : jstok_parser) (json : list Z)
    (json_len : Z) (toks : tokens) (max_tokens j : Z) :
  depth p = 0 -> root_done p <> 0 -> 0 <= toknext p ->
  0 <= pos p <= j -> j < json_len ->
  (forall i, pos p <= i < j -> jstok_is_space (json_at json i) = true) ->
  jstok_is_space (json_at json j) = false ->
  exists p',
    jstok_parse true (Some p) (Some json) json_len toks max_tokens
    = Some (JSTOK_ERROR_INVAL, Some p', toks)
    /\ pos p' = j /\ error_pos p' = j /\ error_code p' = JSTOK_ERROR_INVAL
    /\ toknext p' = toknext p /\ depth p' = 0.
Proof.
  intros Hd Hroot Htn Hj Hlen Hblank Hbyte.
  rewrite parse_valid_args by lia.
  rewrite (run_skip_spaces true json json_len max_tokens (Z.to_nat (j - pos p)) _ _ j)
    by (simpl; (assumption || lia)).
  rewrite run_step by (simpl; lia).
  rewrite step_after_root by (simpl; (assumption || lia)).
  eexists. split; [reflexivity |]. simpl. auto.
Qed.

Lemma strict_rejects_second_value_witness :
  exists p',
    jstok_parse true (Some (mk_parser 2 1 0 1 (-1) 0 (stack blank_parser)))
      (Some (bytes_of_string "[] 1")) 4 None 0
    = Some (JSTOK_ERROR_INVAL, Some p', None)
    /\ pos p' = 3 /\ error_pos p' = 3 /\ error_code p' = JSTOK_ERROR_INVAL
    /\ toknext p' = 1 /\ depth p' = 0.
Proof.
  apply (strict_rejects_second_value (mk_parser 2 1 0 1 (-1) 0 (stack blank_parser))
           (bytes_of_string "[] 1") 4 None 0 3).
  - reflexivity.
  - simpl. lia.
  - simpl. lia.
  - simpl. lia.
  - lia.
  - intros i Hi. simpl in Hi. replace i with 2 by lia. reflexivity.
  - reflexivity.
Defined.

(** * Further properties of the recognizers *)

(** ** Numbers *)

Lemma span_text_nil json a b : b <= a -> span_text json a b = [].
Proof. intros H. unfold span_text. by rewrite seqZ_nil by lia. Qed.

Lemma span_text_cons json a b :
  a < b -> span_text json a b = json_at json a :: span_text json (a + 1) b.
Proof.
  intros H. unfold span_text. rewrite seqZ_cons by lia.
  replace (Z.succ a) with (a + 1) by lia.
  replace (Z.pred (b - a)) with (b - (a + 1)) by lia.
  reflexivity.
Qed.

Lemma spec_is_digit_eq c : spec_is_digit c = jstok_is_digit c.
Proof.
  unfold spec_is_digit, jstok_is_digit.
  destruct (bool_decide (c >= ch_0)) eqn:H1; destruct (bool_decide (c <= ch_9)) eqn:H2;
    simpl;
    repeat match goal with
           | H : bool_decide _ = true |- _ => apply bool_decide_eq_true in H
           | H : bool_decide _ = false |- _ => apply bool_decide_eq_false in H
           end;
    [apply bool_decide_eq_true_2 | apply bool_decide_eq_false_2 ..]; lia.
Qed.

(** Where the loop over the digits stops: after digits, and short of the
    end of the buffer on a byte that is no digit. *)
Lemma digits_loop_spec fuel json json_len i :
  (forall a, i <= a < digits_loop fuel json json_len i ->
             jstok_is_digit (json_at json a) = true)
  /\ ((Z.to_nat (json_len - i) <= fuel)%nat ->
      digits_loop fuel json json_len i < json_len ->
      jstok_is_digit (json_at json (digits_loop fuel json json_len i)) = false).
Proof.
  revert i; induction fuel as [| fuel IH]; intros i; cbn [digits_loop].
  - split; [intros a Ha; lia | intros Hf Hlt; lia].
  - destruct (bool_decide (i < json_len)) eqn:Hlt; cbn [andb].
    + apply bool_decide_eq_true in Hlt.
      destruct (jstok_is_digit (json_at json i)) eqn:Hd.
      * destruct (IH (i + 1)) as [IH1 IH2].
        pose proof (digits_loop_ge fuel json json_len (i + 1)) as Hge. split.
        -- intros a Ha. destruct (decide (a = i)) as [-> | Hne]; [assumption |].
           apply IH1. lia.
        -- intros Hf Hk. apply IH2; [lia | assumption].
      * split; [intros a Ha; lia | intros _ _; assumption].
    + apply bool_decide_eq_false in Hlt. split; [intros a Ha; lia | intros _ Hk; lia].
Qed.

Lemma skip_digits_spec json json_len i :
  i <= skip_digits json json_len i
  /\ (forall a, i <= a < skip_digits json json_len i ->
                jstok_is_digit (json_at json a) = true)
  /\ (skip_digits json json_len i < json_len ->
      jstok_is_digit (json_at json (skip_digits json json_len i)) = false).
Proof.
  unfold skip_digits.
  destruct (digits_loop_spec (Z.to_nat (json_len - i)) json json_len i) as [H1 H2].
  split; [apply digits_loop_ge |]. split; [exact H1 |]. intros Hk. by apply H2.
Qed.

Lemma spec_digits_span json i k e :
  i <= k <= e ->
  (forall a, i <= a < k -> jstok_is_digit (json_at json a) = true) ->
  (k < e -> jstok_is_digit (json_at json k) = false) ->
  spec_digits (span_text json i e) = span_text json k e.
Proof.
  intros Hik Hd Hk. remember (Z.to_nat (k - i)) as n eqn:Hn.
  revert i Hik Hd Hn; induction n as [| n IH]; intros i Hik Hd Hn.
  - replace i with k in * by lia.
    destruct (decide (k < e)) as [Hlt | Hge].
    + rewrite span_text_cons by assumption. cbn [spec_digits].
      by rewrite spec_is_digit_eq, (Hk Hlt).
    + by rewrite span_text_nil by lia.
  - rewrite span_text_cons by lia. cbn [spec_digits].
    rewrite spec_is_digit_eq, Hd by lia. apply IH; [lia | | lia].
    intros a Ha. apply Hd. lia.
Qed.

Lemma number_tail_sound p json json_len i p' e :
  number_tail p json json_len i = (0, p', e) ->
  e = i /\ i < json_len /\ jstok_is_delim (json_at json i) = true.
Proof.
  unfold number_tail. destruct (decide _); [discriminate |].
  destruct (bool_decide (i < json_len)) eqn:Hlt; cbn [andb].
  - destruct (jstok_is_delim _) eqn:Hd; cbn [negb]; [| discriminate].
    intros [= _ <-]. apply bool_decide_eq_true in Hlt. auto.
  - apply bool_decide_eq_false in Hlt. lia.
Qed.

Lemma digits_then_tail p json json_len m p' e :
  m < json_len -> jstok_is_digit (json_at json m) = true ->
  number_tail p json json_len (skip_digits json json_len m) = (0, p', e) ->
  m < e < json_len /\ jstok_is_delim (json_at json e) = true
  /\ spec_digits1 (span_text json m e) = Some [].
Proof.
  intros Hm Hd Ht. apply number_tail_sound in Ht as (-> & Hlt & Hdelim).
  destruct (skip_digits_spec json json_len m) as (Hge & Hall & Hstop).
  assert (m < skip_digits json json_len m).
  { destruct (decide (m = skip_digits json json_len m)) as [Heq | ?]; [| lia].
    rewrite <- Heq in Hstop. rewrite (Hstop Hm) in Hd. discriminate. }
  split; [lia |]. split; [assumption |].
  rewrite span_text_cons by lia. cbn [spec_digits1]. rewrite spec_is_digit_eq, Hd.
  rewrite (spec_digits_span json (m + 1) (skip_digits json json_len m)
             (skip_digits json json_len m)); [by rewrite span_text_nil by lia | lia | | lia].
  intros a Ha. apply Hall. lia.
Qed.

Lemma number_exp_sound p json json_len i p' e :
  number_exp p json json_len i = (0, p', e) ->
  i <= e < json_len /\ jstok_is_delim (json_at json e) = true
  /\ spec_exp (span_text json i e) = Some []
  /\ (i < e -> json_at json i = ch_e \/ json_at json i = ch_E).
Proof.
  unfold number_exp.
  destruct (bool_decide (i < json_len) && _) eqn:Hexp.
  - apply andb_true_iff in Hexp as [Hlt He]. apply bool_decide_eq_true in Hlt.
    assert (HeE : json_at json i = ch_e \/ json_at json i = ch_E).
    { apply orb_true_iff in He as [H | H]; apply bool_decide_eq_true in H; auto. }
    destruct (decide (i + 1 >= json_len)); [discriminate |].
    assert (Hafter : forall m, i + 1 <= m -> m < json_len ->
              (if negb (jstok_is_digit (json_at json m))
               then (JSTOK_ERROR_INVAL, jstok_set_error p JSTOK_ERROR_INVAL m, 0)
               else number_tail p json json_len (skip_digits json json_len m))
              = (0, p', e) ->
              m < e < json_len /\ jstok_is_delim (json_at json e) = true
              /\ spec_digits1 (span_text json m e) = Some []).
    { intros m Hm Hml. destruct (jstok_is_digit (json_at json m)) eqn:Hd; cbn [negb];
        [| discriminate].
      by apply digits_then_tail. }
    destruct (bool_decide (json_at json (i + 1) = ch_plus)
              || bool_decide (json_at json (i + 1) = ch_minus)) eqn:Hsign.
    + destruct (decide (i + 1 + 1 >= json_len)); [discriminate |].
      intros H. apply Hafter in H as (Hme & Hdelim & Hds); [| lia | lia].
      split; [lia |]. split; [assumption |]. split; [| auto].
      rewrite span_text_cons by lia. cbn [spec_exp].
      rewrite (bool_decide_eq_true_2 _ HeE).
      rewrite span_text_cons by lia.
      rewrite bool_decide_eq_true_2; [exact Hds |].
      apply orb_true_iff in Hsign as [H | H]; apply bool_decide_eq_true in H; auto.
    + intros H. apply Hafter in H as (Hme & Hdelim & Hds); [| lia | lia].
      split; [lia |]. split; [assumption |]. split; [| auto].
      rewrite span_text_cons by lia. cbn [spec_exp].
      rewrite (bool_decide_eq_true_2 _ HeE).
      rewrite span_text_cons in * by lia.
      rewrite bool_decide_eq_false_2; [exact Hds |].
      apply orb_false_iff in Hsign as [H1 H2].
      apply bool_decide_eq_false in H1, H2. tauto.
  - intros H. apply number_tail_sound in H as (-> & Hlt & Hdelim).
    split; [lia |]. split; [assumption |].
    split; [by rewrite span_text_nil by lia | lia].
Qed.

Lemma spec_exp_no_exp json i e :
  (i < e -> ~ (json_at json i = ch_e \/ json_at json i = ch_E)) ->
  spec_exp (span_text json i e) = Some (span_text json i e).
Proof.
  intros H. destruct (decide (i < e)) as [Hlt | Hge].
  - rewrite span_text_cons by assumption. cbn [spec_exp].
    by rewrite bool_decide_eq_false_2 by auto.
  - by rewrite span_text_nil by lia.
Qed.

Lemma number_frac_sound p json json_len i p' e :
  number_frac p json json_len i = (0, p', e) ->
  i <= e < json_len /\ jstok_is_delim (json_at json e) = true
  /\ exists l2, spec_frac (span_text json i e) = Some l2 /\ spec_exp l2 = Some [].
Proof.
  unfold number_frac.
  destruct (bool_decide (i < json_len) && bool_decide (json_at json i = ch_dot)) eqn:Hdot.
  - apply andb_true_iff in Hdot as [Hlt Hd]. apply bool_decide_eq_true in Hlt, Hd.
    destruct (decide (i + 1 >= json_len)); [discriminate |].
    destruct (jstok_is_digit (json_at json (i + 1))) eqn:Hdig; cbn [negb]; [| discriminate].
    intros H. apply number_exp_sound in H as (Hke & Hdelim & Hexp & _).
    destruct (skip_digits_spec json json_len (i + 1)) as (Hge & Hall & Hstop).
    assert (i + 1 < skip_digits json json_len (i + 1)).
    { destruct (decide (i + 1 = skip_digits json json_len (i + 1))) as [Heq | ?]; [| lia].
      rewrite <- Heq in Hstop. rewrite Hstop in Hdig by lia. discriminate. }
    split; [lia |]. split; [assumption |].
    exists (span_text json (skip_digits json json_len (i + 1)) e). split; [| assumption].
    rewrite span_text_cons by lia. cbn [spec_frac].
    rewrite (bool_decide_eq_true_2 _ Hd).
    rewrite span_text_cons by lia. cbn [spec_digits1]. rewrite spec_is_digit_eq, Hdig.
    f_equal. apply spec_digits_span; [lia | |].
    + intros a Ha. apply Hall. lia.
    + intros Hk. apply Hstop. lia.
  - intros H. apply number_exp_sound in H as (Hie & Hdelim & Hexp & _).
    split; [assumption |]. split; [assumption |].
    exists (span_text json i e). split; [| assumption].
    destruct (decide (i < e)) as [Hlt | Hge].
    + rewrite span_text_cons by assumption. cbn [spec_frac].
      rewrite bool_decide_eq_false_2; [reflexivity |].
      intros Hd. apply andb_false_iff in Hdot as [H | H].
      * apply bool_decide_eq_false in H. lia.
      * apply bool_decide_eq_false in H. contradiction.
    + by rewrite span_text_nil by lia.
Qed.

Lemma number_int_sound strict p json json_len i p' e :
  number_int strict p json json_len i = (0, p', e) ->
  i < e < json_len /\ jstok_is_delim (json_at json e) = true
  /\ exists l1 l2, spec_int (span_text json i e) = Some l1
                   /\ spec_frac l1 = Some l2 /\ spec_exp l2 = Some [].
Proof.
  unfold number_int. destruct (decide (json_at json i = ch_0)) as [H0 | H0].
  - destruct (_ && _ && strict); [discriminate |].
    intros H. apply number_frac_sound in H as (Hie & Hdelim & l2 & Hfrac & Hexp).
    split; [lia |]. split; [assumption |].
    exists (span_text json (i + 1) e), l2. split; [| auto].
    rewrite span_text_cons by lia. cbn [spec_int].
    by rewrite bool_decide_eq_true_2.
  - destruct (bool_decide (json_at json i >= ch_1) && bool_decide (json_at json i <= ch_9))
      eqn:H19; [| discriminate].
    apply andb_true_iff in H19 as [H1 H9]. apply bool_decide_eq_true in H1, H9.
    intros H. apply number_frac_sound in H as (Hie & Hdelim & l2 & Hfrac & Hexp).
    destruct (skip_digits_spec json json_len (i + 1)) as (Hge & Hall & Hstop).
    split; [lia |]. split; [assumption |].
    exists (span_text json (skip_digits json json_len (i + 1)) e), l2. split; [| auto].
    rewrite span_text_cons by lia. cbn [spec_int].
    rewrite bool_decide_eq_false_2 by assumption.
    rewrite bool_decide_eq_true_2 by lia.
    f_equal. apply spec_digits_span; [lia | assumption |].
    intros Hk. apply Hstop. lia.
Qed.

(** *** Every number before a delimiter is accepted *)

Lemma delim_not_digit c :
  jstok_is_delim c = true ->
  jstok_is_digit c = false /\ c <> ch_dot /\ c <> ch_e /\ c <> ch_E.
Proof.
  unfold jstok_is_delim, jstok_is_space, jstok_is_digit. intros H.
  repeat (apply orb_true_iff in H as [H | H]); apply bool_decide_eq_true in H; subst c;
    (split; [reflexivity | lia]).
Qed.

Lemma skip_digits_step json json_len m :
  m < json_len -> jstok_is_digit (json_at json m) = true ->
  skip_digits json json_len m = skip_digits json json_len (m + 1).
Proof.
  intros Hm Hd. unfold skip_digits.
  replace (Z.to_nat (json_len - m)) with (S (Z.to_nat (json_len - (m + 1)))) by lia.
  cbn [digits_loop]. rewrite bool_decide_eq_true_2 by assumption. by rewrite Hd.
Qed.

(** The digits of the grammar are the digits of the loop. *)
Lemma spec_digits_skip json json_len i e :
  i <= e < json_len -> jstok_is_digit (json_at json e) = false ->
  i <= skip_digits json json_len i <= e
  /\ spec_digits (span_text json i e) = span_text json (skip_digits json json_len i) e.
Proof.
  intros Hie He. destruct (skip_digits_spec json json_len i) as (Hge & Hall & Hstop).
  assert (Hke : skip_digits json json_len i <= e).
  { destruct (decide (skip_digits json json_len i <= e)) as [| Hgt]; [assumption |].
    rewrite Hall in He by lia. discriminate. }
  split; [lia |]. apply spec_digits_span; [lia | assumption |].
  intros Hk. apply Hstop. lia.
Qed.

Lemma spec_digits1_skip json json_len m e l :
  m <= e < json_len -> jstok_is_digit (json_at json e) = false ->
  spec_digits1 (span_text json m e) = Some l ->
  m < e /\ jstok_is_digit (json_at json m) = true
  /\ m < skip_digits json json_len m <= e
  /\ l = span_text json (skip_digits json json_len m) e.
Proof.
  intros Hme He. destruct (decide (m < e)) as [Hlt | Hge];
    [| rewrite span_text_nil by lia; discriminate].
  rewrite span_text_cons by assumption. cbn [spec_digits1]. rewrite spec_is_digit_eq.
  destruct (jstok_is_digit (json_at json m)) eqn:Hd; [| discriminate].
  intros [= <-]. rewrite skip_digits_step by (assumption || lia).
  destruct (spec_digits_skip json json_len (m + 1) e ltac:(lia) He) as [Hk Heq].
  split; [assumption |]. split; [reflexivity |]. split; [lia | assumption].
Qed.

Lemma span_text_empty json a b : span_text json a b = [] -> b <= a.
Proof.
  intros H. destruct (decide (a < b)) as [Hlt | ?]; [| lia].
  rewrite span_text_cons in H by assumption. discriminate.
Qed.

Lemma number_tail_complete p json json_len e :
  e < json_len -> jstok_is_delim (json_at json e) = true ->
  number_tail p json json_len e = (0, p, e).
Proof.
  intros He Hd. unfold number_tail. destruct (decide _); [lia |].
  by rewrite Hd, andb_false_r.
Qed.

Lemma number_exp_complete p json json_len i e :
  i <= e < json_len -> jstok_is_delim (json_at json e) = true ->
  spec_exp (span_text json i e) = Some [] ->
  number_exp p json json_len i = (0, p, e).
Proof.
  intros Hie Hdelim. destruct (delim_not_digit _ Hdelim) as (Hnd & Hdot & He1 & He2).
  unfold number_exp. destruct (decide (i < e)) as [Hlt | Hge].
  - rewrite span_text_cons by assumption. cbn [spec_exp].
    destruct (bool_decide (json_at json i = ch_e \/ json_at json i = ch_E)) eqn:HeE;
      [| discriminate].
    apply bool_decide_eq_true in HeE.
    rewrite (bool_decide_eq_true_2 (i < json_len)) by lia.
    replace (bool_decide (json_at json i = ch_e) || bool_decide (json_at json i = ch_E))
      with true
      by (symmetry; apply orb_true_iff;
          destruct HeE; [left | right]; by apply bool_decide_eq_true_2).
    cbn [andb].
    destruct (decide (i + 1 < e)) as [Hlt1 | Hge1];
      [| rewrite span_text_nil by lia; discriminate].
    rewrite span_text_cons by assumption.
    destruct (decide (i + 1 >= json_len)); [lia |].
    assert (Hafter : forall m, m <= e ->
              spec_digits1 (span_text json m e) = Some [] ->
              (if negb (jstok_is_digit (json_at json m))
               then (JSTOK_ERROR_INVAL, jstok_set_error p JSTOK_ERROR_INVAL m, 0)
               else number_tail p json json_len (skip_digits json json_len m))
              = (0, p, e)).
    { intros m Hm Hs.
      apply (spec_digits1_skip json json_len) in Hs as (_ & Hd & Hk & Hs); [| lia | assumption].
      symmetry in Hs. apply span_text_empty in Hs. rewrite Hd. cbn [negb].
      replace (skip_digits json json_len m) with e by lia.
      apply number_tail_complete; [lia | assumption]. }
    destruct (bool_decide (json_at json (i + 1) = ch_plus \/ json_at json (i + 1) = ch_minus))
      eqn:Hsign.
    + apply bool_decide_eq_true in Hsign. intros Hs.
      replace (bool_decide (json_at json (i + 1) = ch_plus)
               || bool_decide (json_at json (i + 1) = ch_minus)) with true
        by (symmetry; apply orb_true_iff;
            destruct Hsign; [left | right]; by apply bool_decide_eq_true_2).
      assert (i + 1 + 1 < e).
      { destruct (decide (i + 1 + 1 < e)); [assumption |].
        rewrite span_text_nil in Hs by lia. discriminate. }
      destruct (decide (i + 1 + 1 >= json_len)); [lia |].
      apply Hafter; [lia | assumption].
    + apply bool_decide_eq_false in Hsign. intros Hs.
      replace (bool_decide (json_at json (i + 1) = ch_plus)
               || bool_decide (json_at json (i + 1) = ch_minus)) with false
        by (symmetry; apply orb_false_iff; split; apply bool_decide_eq_false_2; tauto).
      apply Hafter; [lia |]. by rewrite span_text_cons by assumption.
  - intros _. replace i with e by lia.
    rewrite (bool_decide_eq_false_2 (json_at json e = ch_e)) by assumption.
    rewrite (bool_decide_eq_false_2 (json_at json e = ch_E)) by assumption.
    rewrite andb_false_r. apply number_tail_complete; [lia | assumption].
Qed.

Lemma number_frac_complete p json json_len i e l2 :
  i <= e < json_len -> jstok_is_delim (json_at json e) = true ->
  spec_frac (span_text json i e) = Some l2 -> spec_exp l2 = Some [] ->
  number_frac p json json_len i = (0, p, e).
Proof.
  intros Hie Hdelim. destruct (delim_not_digit _ Hdelim) as (Hnd & Hdot & He1 & He2).
  unfold number_frac. destruct (decide (i < e)) as [Hlt | Hge].
  - rewrite span_text_cons by assumption. cbn [spec_frac].
    destruct (bool_decide (json_at json i = ch_dot)) eqn:Hd.
    + rewrite (bool_decide_eq_true_2 (i < json_len)) by lia. cbn [andb].
      intros Hs Hexp.
      apply (spec_digits1_skip json json_len) in Hs as (Hlt1 & Hdig & Hk & ->);
        [| lia | assumption].
      destruct (decide (i + 1 >= json_len)); [lia |]. rewrite Hdig. cbn [negb].
      apply number_exp_complete; [lia | assumption | assumption].
    + rewrite andb_false_r. intros [= <-] Hexp.
      apply number_exp_complete; [lia | assumption |].
      by rewrite span_text_cons by assumption.
  - rewrite span_text_nil by lia. intros [= <-] Hexp. replace i with e by lia.
    rewrite (bool_decide_eq_false_2 (json_at json e = ch_dot)) by assumption.
    rewrite andb_false_r.
    apply number_exp_complete; [lia | assumption | by rewrite span_text_nil by lia].
Qed.

Lemma number_int_complete strict p json json_len i e l1 l2 :
  i <= e < json_len -> jstok_is_delim (json_at json e) = true ->
  spec_int (span_text json i e) = Some l1 ->
  spec_frac l1 = Some l2 -> spec_exp l2 = Some [] ->
  number_int strict p json json_len i = (0, p, e).
Proof.
  intros Hie Hdelim. destruct (delim_not_digit _ Hdelim) as (Hnd & Hdot & He1 & He2).
  unfold number_int. destruct (decide (i < e)) as [Hlt | Hge];
    [| rewrite span_text_nil by lia; discriminate].
  rewrite span_text_cons by assumption. cbn [spec_int].
  destruct (decide (json_at json i = ch_0)) as [H0 | H0].
  - rewrite bool_decide_eq_true_2 by assumption. intros [= <-] Hfrac Hexp.
    assert (Hnext : jstok_is_digit (json_at json (i + 1)) = false).
    { destruct (jstok_is_digit (json_at json (i + 1))) eqn:Hd; [| reflexivity].
      destruct (decide (i + 1 < e)) as [Hlt1 | ?];
        [| replace (i + 1) with e in Hd by lia; congruence].
      rewrite span_text_cons in Hfrac by assumption. cbn [spec_frac] in Hfrac.
      unfold jstok_is_digit in Hd. apply andb_true_iff in Hd as [Hd0 Hd9].
      apply bool_decide_eq_true in Hd0, Hd9.
      rewrite bool_decide_eq_false_2 in Hfrac by lia. injection Hfrac as <-.
      cbn [spec_exp] in Hexp. rewrite bool_decide_eq_false_2 in Hexp by lia.
      discriminate. }
    rewrite Hnext, andb_false_r. cbn [andb].
    apply (number_frac_complete _ _ _ _ _ l2); [lia | assumption | assumption | assumption].
  - rewrite bool_decide_eq_false_2 by assumption.
    destruct (bool_decide (ch_1 <= json_at json i <= ch_9)) eqn:H19; [| discriminate].
    apply bool_decide_eq_true in H19. intros [= <-] Hfrac Hexp.
    rewrite (bool_decide_eq_true_2 (json_at json i >= ch_1)) by lia.
    rewrite (bool_decide_eq_true_2 (json_at json i <= ch_9)) by lia. cbn [andb].
    destruct (spec_digits_skip json json_len (i + 1) e ltac:(lia) Hnd) as [Hk Heq].
    rewrite Heq in Hfrac.
    apply (number_frac_complete _ _ _ _ _ l2); [lia | assumption | assumption | assumption].
Qed.

Lemma number_span_sound strict p json json_len p' e :
  jstok_parse_number_span strict p json json_len = (0, p', e) ->
  p' = p /\ pos p < e < json_len
  /\ jstok_is_delim (json_at json e) = true
  /\ spec_number (span_text json (pos p) e) = true.
Proof.
  intros H.
  assert (Hp : p' = p).
  { pose proof (number_span_ok strict p json json_len) as Hok. rewrite H in Hok.
    destruct Hok as [(_ & Hp & _) | ([Hr | Hr] & _)]; simpl in *;
      [assumption | lia | lia]. }
  split; [assumption |]. revert H. unfold jstok_parse_number_span.
  destruct (decide (pos p >= json_len)); [discriminate |].
  destruct (decide (json_at json (pos p) = ch_minus)) as [Hm | Hm].
  - destruct (decide (pos p + 1 >= json_len)); [discriminate |].
    intros H. apply number_int_sound in H as (Hie & Hdelim & l1 & l2 & Hi & Hf & He).
    split; [lia |]. split; [assumption |].
    rewrite span_text_cons by lia. unfold spec_number.
    rewrite bool_decide_eq_true_2 by assumption. by rewrite Hi, Hf, He.
  - intros H. apply number_int_sound in H as (Hie & Hdelim & l1 & l2 & Hi & Hf & He).
    split; [lia |]. split; [assumption |].
    rewrite span_text_cons in * by lia. unfold spec_number.
    rewrite bool_decide_eq_false_2 by assumption. by rewrite Hi, Hf, He.
Qed.

(** X25. [jstok_parse_number_span] accepts the JSON numbers that stand
    before a delimiter, and nothing else: it returns 0 with the end offset
    [e] exactly when the bytes from [pos] up to [e] are a number of the
    grammar [spec_number] -- an optional minus sign; a zero, or a digit from
    1 to 9 and then digits; an optional fraction, a dot and one digit or
    more; an optional exponent, e or E, an optional sign and one digit or
    more -- and the byte at [e] is inside the buffer and is a comma, a
    closing bracket or brace, or white space.  The parser is not changed.
    A number that runs up to the end of the buffer is never accepted. *)
Theorem number_span_exact (strict : bool) (p : jstok_parser) (json : list Z)
    (json_len : Z) (p' : jstok_parser) (e : Z) :
  jstok_parse_number_span strict p json json_len = (0, p', e)
  <-> p' = p /\ pos p < e < json_len
      /\ jstok_is_delim (json_at json e) = true
      /\ spec_number (span_text json (pos p) e) = true.
Proof.
  split; [apply number_span_sound |].
  intros (-> & Hpe & Hdelim & Hnum). unfold jstok_parse_number_span.
  destruct (decide (pos p >= json_len)); [lia |].
  rewrite span_text_cons in Hnum by lia. unfold spec_number in Hnum.
  destruct (decide (json_at json (pos p) = ch_minus)) as [Hm | Hm].
  + rewrite bool_decide_eq_true_2 in Hnum by assumption.
    destruct (spec_int _) as [l1 |] eqn:Hi; [| discriminate].
    destruct (spec_frac l1) as [l2 |] eqn:Hf; [| discriminate].
    destruct (spec_exp l2) as [[| ? ?] |] eqn:He; try discriminate.
    destruct (decide (pos p + 1 >= json_len)); [lia |].
    apply (number_int_complete _ _ _ _ _ _ l1 l2); (assumption || lia).
  + rewrite bool_decide_eq_false_2 in Hnum by assumption.
    rewrite <- span_text_cons in Hnum by lia.
    destruct (spec_int _) as [l1 |] eqn:Hi; [| discriminate].
    destruct (spec_frac l1) as [l2 |] eqn:Hf; [| discriminate].
    destruct (spec_exp l2) as [[| ? ?] |] eqn:He; try discriminate.
    apply (number_int_complete _ _ _ _ _ _ l1 l2); (assumption || lia).
Qed.

Lemma number_int_strict p json json_len i :
  number_int true p json json_len i = number_int false p json json_len i.
Proof.
  unfold number_int. destruct (decide (json_at json i = ch_0)); [| reflexivity].
  destruct (bool_decide (i + 1 < json_len)) eqn:Hlt; [| reflexivity].
  destruct (jstok_is_digit (json_at json (i + 1))) eqn:Hd; [| reflexivity].
  cbn [andb]. unfold number_frac, number_exp, number_tail. rewrite Hlt. cbn [andb].
  apply bool_decide_eq_true in Hlt.
  unfold jstok_is_digit in Hd. apply andb_true_iff in Hd as [H0 H9].
  apply bool_decide_eq_true in H0, H9.
  rewrite (bool_decide_eq_false_2 (json_at json (i + 1) = ch_dot)) by lia.
  rewrite (bool_decide_eq_false_2 (json_at json (i + 1) = ch_e)) by lia.
  rewrite (bool_decide_eq_false_2 (json_at json (i + 1) = ch_E)) by lia.
  cbn [orb]. destruct (decide (i + 1 >= json_len)); [lia |].
  unfold jstok_is_delim, jstok_is_space.
  rewrite !bool_decide_eq_false_2 by lia. reflexivity.
Qed.

(** X26. The strict flag makes no difference to the primitives: a number
    with a leading zero is refused in permissive mode as well, by the
    delimiter test, with the same error at the same offset, and
    [jstok_parse_primitive_token] gives the same answer in both modes. *)
Theorem primitive_token_ignores_strict (strict : bool) (p : jstok_parser)
    (json : list Z) (json_len : Z) (toks : tokens) (max_tokens : Z) :
  jstok_parse_primitive_token strict p json json_len toks max_tokens
  = jstok_parse_primitive_token false p json json_len toks max_tokens.
Proof.
  destruct strict; [| reflexivity].
  unfold jstok_parse_primitive_token, jstok_parse_number_span.
  by rewrite !number_int_strict.
Qed.

(** ** The output is a tree *)

(** *** Values and members *)

Lemma value_end_S d ts i :
  value_end (S d) ts i
  = let t := tok_at ts i in
    if decide (tok_type t = JSTOK_STRING \/ tok_type t = JSTOK_PRIMITIVE) then Some (i + 1)
    else if decide (tok_type t = JSTOK_ARRAY) then
      if decide (tok_size t < 0) then None
      else members_end false false (value_end d ts) ts (Z.to_nat (tok_size t)) (i + 1)
    else if decide (tok_type t = JSTOK_OBJECT) then
      if decide (tok_size t < 0) then None
      else members_end true true (value_end d ts) ts (Z.to_nat (2 * tok_size t)) (i + 1)
    else None.
Proof. reflexivity. Qed.

Lemma members_end_ge obj (next : Z -> option Z) ts c :
  (forall a b, next a = Some b -> a < b) ->
  forall key i j, members_end obj key next ts c i = Some j -> i + Z.of_nat c <= j.
Proof.
  intros Hnext. induction c as [| c IH]; intros key i j; cbn [members_end].
  - intros [= <-]. lia.
  - destruct key.
    + destruct (decide _); [| discriminate]. intros H. apply IH in H. lia.
    + destruct (next i) as [k |] eqn:Hk; [| discriminate]. cbn [mbind option_bind].
      intros H. apply Hnext in Hk. apply IH in H. lia.
Qed.

Lemma value_end_gt d ts i j : value_end d ts i = Some j -> i < j.
Proof.
  revert i j; induction d as [| d IH]; intros i j.
  - unfold value_end. destruct (decide _); [intros [= <-]; lia | discriminate].
  - rewrite value_end_S. cbv zeta.
    destruct (decide _); [intros [= <-]; lia |].
    repeat (destruct (decide _); try discriminate);
      intros H; apply (members_end_ge _ _ _ _ IH) in H; lia.
Qed.

Lemma members_end_value_ge d ts obj key c i j :
  members_end obj key (value_end d ts) ts c i = Some j -> i + Z.of_nat c <= j.
Proof. apply members_end_ge. intros ? ?. apply value_end_gt. Qed.

Lemma members_end_ext obj (next next' : Z -> option Z) ts ts' c :
  (forall a b, next a = Some b -> a < b) ->
  forall key i j,
    (forall a b, i <= a -> b <= j -> next a = Some b -> next' a = Some b) ->
    (forall a, i <= a < j -> tok_type (tok_at ts' a) = tok_type (tok_at ts a)) ->
    members_end obj key next ts c i = Some j ->
    members_end obj key next' ts' c i = Some j.
Proof.
  intros Hlt. induction c as [| c IH]; intros key i j Hext Hty; cbn [members_end];
    [auto |].
  destruct key.
  - destruct (decide _) as [Hs |]; [| discriminate]. intros H.
    pose proof (members_end_ge _ _ _ _ Hlt _ _ _ H) as Hge.
    rewrite decide_True by (rewrite Hty; [assumption | lia]).
    apply IH; [| | assumption].
    + intros a b Ha Hb. apply Hext; lia.
    + intros a Ha. apply Hty. lia.
  - destruct (next i) as [k |] eqn:Hk; [| discriminate]. cbn [mbind option_bind].
    intros H. pose proof (Hlt _ _ Hk) as Hik.
    pose proof (members_end_ge _ _ _ _ Hlt _ _ _ H) as Hge.
    rewrite (Hext i k) by (assumption || lia). cbn [mbind option_bind].
    apply IH; [| | assumption].
    + intros a b Ha Hb. apply Hext; lia.
    + intros a Ha. apply Hty. lia.
Qed.

(** The end of a value depends only on the kinds and the sizes of its
    tokens. *)
Lemma value_end_ext d ts ts' i j :
  (forall k, i <= k < j ->
     tok_type (tok_at ts' k) = tok_type (tok_at ts k)
     /\ tok_size (tok_at ts' k) = tok_size (tok_at ts k)) ->
  value_end d ts i = Some j -> value_end d ts' i = Some j.
Proof.
  revert i j; induction d as [| d IH]; intros i j Hext Hend.
  - pose proof (value_end_gt _ _ _ _ Hend) as Hlt.
    destruct (Hext i ltac:(lia)) as [Hty Hsz].
    unfold value_end in *. rewrite Hty. destruct (decide _); [assumption | discriminate].
  - pose proof (value_end_gt _ _ _ _ Hend) as Hlt.
    destruct (Hext i ltac:(lia)) as [Hty Hsz].
    rewrite value_end_S in *. cbv zeta in *. rewrite Hty, Hsz.
    assert (Hf : forall obj key n,
              members_end obj key (value_end d ts) ts n (i + 1) = Some j ->
              members_end obj key (value_end d ts') ts' n (i + 1) = Some j).
    { intros obj key n. apply members_end_ext; [intros a b; apply value_end_gt | |].
      - intros a b Ha Hb. apply IH. intros k Hk. apply Hext. lia.
      - intros a Ha. apply Hext. lia. }
    repeat (destruct (decide _); try assumption; try discriminate); auto.
Qed.

Lemma members_value_ext d ts ts' obj key n i j :
  (forall k, i <= k < j ->
     tok_type (tok_at ts' k) = tok_type (tok_at ts k)
     /\ tok_size (tok_at ts' k) = tok_size (tok_at ts k)) ->
  members_end obj key (value_end d ts) ts n i = Some j ->
  members_end obj key (value_end d ts') ts' n i = Some j.
Proof.
  intros Hext. apply members_end_ext; [intros a b; apply value_end_gt | |].
  - intros a b Ha Hb. apply value_end_ext. intros k Hk. apply Hext. lia.
  - intros a Ha. apply Hext. lia.
Qed.

Lemma members_end_app obj (next : Z -> option Z) ts c c2 :
  forall key i k e,
    members_end obj key next ts c i = Some k ->
    members_end obj (turn obj key c) next ts c2 k = Some e ->
    members_end obj key next ts (c + c2) i = Some e.
Proof.
  induction c as [| c IH]; intros key i k e; cbn [members_end turn Nat.add].
  - intros [= ->]. auto.
  - destruct key.
    + destruct (decide _); [| discriminate]. apply IH.
    + destruct (next i) as [m |]; [| discriminate]. cbn [mbind option_bind]. apply IH.
Qed.

Lemma members_end_split obj (next : Z -> option Z) ts c c2 :
  forall key i e,
    members_end obj key next ts (c + c2) i = Some e ->
    exists k, members_end obj key next ts c i = Some k
              /\ members_end obj (turn obj key c) next ts c2 k = Some e.
Proof.
  induction c as [| c IH]; intros key i e; cbn [members_end turn Nat.add].
  - eauto.
  - destruct key.
    + destruct (decide _); [| discriminate]. apply IH.
    + destruct (next i) as [m |]; [| discriminate]. cbn [mbind option_bind]. apply IH.
Qed.

Lemma turn_array c : turn false false c = false.
Proof. induction c; simpl; auto. Qed.

Lemma turn_object n :
  turn true true (2 * n) = true /\ turn true true (S (2 * n)) = false.
Proof.
  induction n as [| n [IH1 IH2]]; [split; reflexivity |].
  replace (2 * S n)%nat with (S (S (2 * n))) by lia. split.
  - cbn [turn]. exact IH1.
  - cbn [turn]. exact IH2.
Qed.

Lemma members_snoc_value obj (next : Z -> option Z) ts c i k e :
  members_end obj obj next ts c i = Some k ->
  turn obj obj c = false ->
  next k = Some e ->
  members_end obj obj next ts (S c) i = Some e.
Proof.
  intros Hm Ht Hn. replace (S c) with (c + 1)%nat by lia.
  eapply members_end_app; [exact Hm |]. rewrite Ht. cbn [members_end].
  rewrite Hn. reflexivity.
Qed.

Lemma members_snoc_key obj (next : Z -> option Z) ts c i k :
  members_end obj obj next ts c i = Some k ->
  turn obj obj c = true ->
  tok_type (tok_at ts k) = JSTOK_STRING ->
  members_end obj obj next ts (S c) i = Some (k + 1).
Proof.
  intros Hm Ht Hs. replace (S c) with (c + 1)%nat by lia.
  eapply members_end_app; [exact Hm |]. rewrite Ht. cbn [members_end].
  by rewrite decide_True.
Qed.

(** A value is a subtree, and the members of a container are subtrees in a
    row. *)
Lemma members_forest obj (next next' : Z -> option Z) ts c :
  (forall a b, next a = Some b -> next' a = Some b) ->
  (forall a, tok_type (tok_at ts a) = JSTOK_STRING -> next' a = Some (a + 1)) ->
  forall key i j,
    members_end obj key next ts c i = Some j -> forest_end next' c i = Some j.
Proof.
  intros Hnext Hstr. induction c as [| c IH]; intros key i j;
    cbn [members_end forest_end]; [auto |].
  destruct key.
  - destruct (decide _) as [Hs |]; [| discriminate]. rewrite (Hstr _ Hs).
    cbn [mbind option_bind]. apply IH.
  - destruct (next i) as [k |] eqn:Hk; [| discriminate]. rewrite (Hnext _ _ Hk).
    cbn [mbind option_bind]. apply IH.
Qed.

Lemma tree_end_scalar d ts k :
  tok_type (tok_at ts k) = JSTOK_STRING \/ tok_type (tok_at ts k) = JSTOK_PRIMITIVE ->
  tree_end d ts k = Some (k + 1).
Proof.
  intros H. destruct d; [unfold tree_end | rewrite tree_end_S; cbv zeta];
    by rewrite decide_True.
Qed.

Lemma value_end_tree d ts i j : value_end d ts i = Some j -> tree_end d ts i = Some j.
Proof.
  revert i j; induction d as [| d IH]; intros i j.
  - unfold value_end, tree_end. destruct (decide _); [auto | discriminate].
  - rewrite value_end_S, tree_end_S. cbv zeta.
    assert (Hf : forall obj key n,
              members_end obj key (value_end d ts) ts n (i + 1) = Some j ->
              forest_end (tree_end d ts) n (i + 1) = Some j).
    { intros obj key n. apply members_forest; [exact IH |].
      intros a Ha. apply tree_end_scalar. by left. }
    repeat (destruct (decide _); try assumption; try discriminate); eauto.
Qed.

(** *** The frames in use *)

Lemma frames_nil p : depth p <= 0 -> frames p = [].
Proof.
  intros H. unfold frames. replace (Z.to_nat (depth p)) with 0%nat by lia. reflexivity.
Qed.

Lemma frames_top p :
  0 < depth p <= Z.of_nat (length (stack p)) ->
  jstok_top p = Some (depth p - 1)
  /\ exists rest, frames p = frame_at p (depth p - 1) :: rest
                  /\ Z.of_nat (length rest) = depth p - 1
                  /\ rest = rev (take (Z.to_nat (depth p - 1)) (stack p)).
Proof.
  intros H. split.
  { unfold jstok_top. destruct (decide _); [lia | reflexivity]. }
  unfold frames, frame_at, arr_get. destruct (decide _); [lia |].
  replace (Z.to_nat (depth p)) with (S (Z.to_nat (depth p - 1))) by lia.
  destruct (lookup_lt_is_Some_2 (stack p) (Z.to_nat (depth p - 1))) as [f Hf]; [lia |].
  rewrite (take_S_r _ _ _ Hf), rev_app_distr, Hf. simpl.
  eexists. split; [reflexivity |]. split; [| reflexivity].
  rewrite length_rev, length_take. lia.
Qed.

Lemma frames_set_pos p v : frames (set_pos p v) = frames p.
Proof. reflexivity. Qed.

Lemma frames_set_root_done p v : frames (set_root_done p v) = frames p.
Proof. reflexivity. Qed.

Lemma frames_set_top p st :
  0 < depth p <= Z.of_nat (length (stack p)) ->
  frames (set_frame_st p (depth p - 1) st)
  = mk_frame (fr_type (frame_at p (depth p - 1))) st (fr_tok (frame_at p (depth p - 1)))
    :: tl (frames p).
Proof.
  intros H. destruct (frames_top p H) as (_ & rest & Hfr & _ & Hrest).
  rewrite Hfr. simpl. unfold frames, set_frame_st. cbn [depth stack set_stack].
  unfold arr_set. destruct (decide _); [lia |].
  replace (Z.to_nat (depth p)) with (S (Z.to_nat (depth p - 1))) by lia.
  rewrite (take_S_r _ _ (mk_frame (fr_type (frame_at p (depth p - 1))) st
                           (fr_tok (frame_at p (depth p - 1)))))
    by (apply list_lookup_insert_eq; lia).
  rewrite take_insert_ge by lia. rewrite rev_app_distr. simpl. by rewrite Hrest.
Qed.

Lemma frames_push p type st tok :
  0 <= depth p < Z.of_nat (length (stack p)) ->
  frames (set_depth (set_stack p (arr_set (stack p) (depth p) (mk_frame type st tok)))
            (depth p + 1))
  = mk_frame type st tok :: frames p.
Proof.
  intros H. unfold frames. cbn [depth stack set_stack set_depth].
  unfold arr_set. destruct (decide _); [lia |].
  replace (Z.to_nat (depth p + 1)) with (S (Z.to_nat (depth p))) by lia.
  rewrite (take_S_r _ _ (mk_frame type st tok)) by (apply list_lookup_insert_eq; lia).
  rewrite take_insert_ge by lia. rewrite rev_app_distr. reflexivity.
Qed.

Lemma frames_pop p :
  0 < depth p <= Z.of_nat (length (stack p)) ->
  frames (jstok_pop p) = tl (frames p).
Proof.
  intros H. destruct (frames_top p H) as (_ & rest & Hfr & _ & Hrest).
  rewrite Hfr. simpl. unfold jstok_pop. destruct (decide _); [| lia].
  unfold frames. cbn [depth stack set_depth]. by rewrite Hrest.
Qed.

(** *** The shape under the operations of the parser *)

#[local] Arguments tree_end : simpl never.
#[local] Arguments value_end : simpl never.

Lemma outer_bounds strict rd ts fs stop :
  outer strict rd ts fs stop ->
  0 <= stop /\ forall f, f ∈ fs -> 0 <= fr_tok f < stop.
Proof.
  revert stop; induction fs as [| f rest IH]; intros stop; cbn [outer].
  - intros (_ & c & Hf & _). apply members_end_value_ge in Hf.
    split; [lia |]. intros f Hin. by apply elem_of_nil in Hin.
  - intros (Hk & _ & (c & Hf & _) & Hout). apply members_end_value_ge in Hf.
    destruct (IH _ Hout) as [_ Hrest]. split; [lia |].
    intros g Hin. apply elem_of_cons in Hin as [-> | Hin]; [lia |].
    specialize (Hrest g Hin). lia.
Qed.

Lemma outer_open_toks strict rd ts fs stop :
  outer strict rd ts fs stop -> forall g, g ∈ open_toks fs -> g < stop.
Proof.
  intros H g Hg. apply list_elem_of_fmap in Hg as (f & -> & Hf).
  destruct (outer_bounds _ _ _ _ _ H) as [_ Hb]. specialize (Hb f Hf). lia.
Qed.

Lemma inner_open_toks strict rd ts fs stop :
  inner strict rd ts fs stop ->
  (forall g, g ∈ open_toks fs -> g < stop)
  /\ match fs with
     | [] => True
     | f :: rest => 0 <= fr_tok f < stop /\ forall g, g ∈ open_toks rest -> g < fr_tok f
     end.
Proof.
  destruct fs as [| f rest]; cbn [inner].
  - intros _. split; [| exact I]. intros g Hg. by apply elem_of_nil in Hg.
  - intros (Hk & _ & (c & Hf & _) & Hout). apply members_end_value_ge in Hf.
    pose proof (outer_open_toks _ _ _ _ _ Hout) as Hrest.
    split; [| split; [lia | exact Hrest]].
    intros g Hg. apply elem_of_cons in Hg as [-> | Hg]; [lia |].
    apply Hrest in Hg. lia.
Qed.

Lemma outer_ext strict rd ts ts' fs stop :
  same_shape ts ts' 0 stop ->
  outer strict rd ts fs stop -> outer strict rd ts' fs stop.
Proof.
  revert stop; induction fs as [| f rest IH]; intros stop Hext; cbn [outer].
  - intros (Hrd & c & Hf & Hc). split; [assumption |]. exists c. split; [| assumption].
    pose proof (members_end_value_ge _ _ _ _ _ _ _ Hf).
    eapply members_value_ext; [| exact Hf]. intros k Hk. apply Hext. lia.
  - intros (Hk & Hty & (c & Hf & Hrel) & Hout).
    pose proof (members_end_value_ge _ _ _ _ _ _ _ Hf) as Hge.
    destruct (Hext (fr_tok f) ltac:(lia)) as [Hty' Hsz'].
    split; [assumption |]. split; [congruence |]. split.
    + exists c. split; [| by rewrite Hsz'].
      eapply members_value_ext; [| exact Hf]. intros k Hk'. apply Hext. lia.
    + apply IH; [| assumption]. intros k Hk'. apply Hext. lia.
Qed.

(** After [c] members of a container one of whose values is counted but not
    complete, a value comes. *)
Lemma pending_turn f size c :
  pending_rel f size c -> turn (is_object f) (is_object f) c = false.
Proof.
  unfold pending_rel, is_object. destruct (fr_type f); try contradiction.
  - intros [Hsz _]. rewrite bool_decide_eq_true_2 by reflexivity.
    replace c with (S (2 * (Z.to_nat size - 1)))%nat by lia. apply turn_object.
  - intros _. rewrite bool_decide_eq_false_2 by discriminate. apply turn_array.
Qed.

(** A value that was counted is complete: the frames are as before, with one
    more complete value, from [k] to [e], in the innermost container. *)
Lemma outer_complete strict rd ts fs k e :
  outer strict rd ts fs k ->
  value_end (64 - length fs) ts k = Some e ->
  inner strict rd ts fs e.
Proof.
  destruct fs as [| f rest]; cbn [outer inner].
  - intros (Hrd & c & Hf & Hc) He. exists (S c). split.
    + eapply members_snoc_value; [exact Hf | apply turn_array | exact He].
    + intros Hs. rewrite (Hc Hs). destruct (decide (rd = 0)); [contradiction | reflexivity].
  - intros (Hk & Hty & (c & Hf & Hrel) & Hout) He.
    split; [assumption |]. split; [assumption |]. split; [| assumption].
    exists (S c). split.
    + eapply members_snoc_value; [exact Hf | eapply pending_turn; exact Hrel |].
      replace (63 - length rest)%nat with (64 - length (f :: rest))%nat
        by (cbn [length]; lia).
      exact He.
    + unfold pending_rel, top_rel in *. destruct (fr_type f); try contradiction.
      * destruct Hrel as [Hsz Hst]. rewrite Hst.
        destruct (decide _) as [[? | ?] |]; [discriminate | discriminate | lia].
      * lia.
Qed.

(** A scalar token at [k]. *)
Lemma value_end_scalar d ts k :
  tok_type (tok_at ts k) = JSTOK_STRING \/ tok_type (tok_at ts k) = JSTOK_PRIMITIVE ->
  value_end d ts k = Some (k + 1).
Proof.
  intros H. destruct d; [unfold value_end | rewrite value_end_S; cbv zeta];
    by rewrite decide_True.
Qed.

(** A container token at [k] followed by its members. *)
Lemma value_end_container d ts k obj c e :
  obj = false /\ tok_type (tok_at ts k) = JSTOK_ARRAY
  /\ tok_size (tok_at ts k) = Z.of_nat c
  \/ obj = true /\ tok_type (tok_at ts k) = JSTOK_OBJECT
     /\ 2 * tok_size (tok_at ts k) = Z.of_nat c ->
  members_end obj obj (value_end d ts) ts c (k + 1) = Some e ->
  value_end (S d) ts k = Some e.
Proof.
  intros H Hf. rewrite value_end_S. cbv zeta.
  destruct H as [(-> & Hty & Hsz) | (-> & Hty & Hsz)]; rewrite Hty.
  - rewrite decide_False by (intros [? | ?]; discriminate).
    rewrite decide_True by reflexivity. rewrite decide_False by lia.
    rewrite Hsz, Nat2Z.id. exact Hf.
  - rewrite decide_False by (intros [? | ?]; discriminate).
    rewrite decide_False by discriminate. rewrite decide_True by reflexivity.
    rewrite decide_False by lia. rewrite Hsz, Nat2Z.id. exact Hf.
Qed.

(** A value is accepted in the innermost container: its size is incremented
    and its frame waits for a comma or the end. *)
Lemma inner_accept strict rd ts f rest stop st :
  inner strict rd ts (f :: rest) stop ->
  fr_type f = JSTOK_ARRAY /\ st = JSTOK_ST_ARR_COMMA_OR_END
  \/ fr_type f = JSTOK_OBJECT /\ fr_st f = JSTOK_ST_OBJ_VALUE
     /\ st = JSTOK_ST_OBJ_COMMA_OR_END ->
  outer strict rd
    (arr_set ts (fr_tok f)
       (set_tok_size (tok_at ts (fr_tok f)) (tok_size (tok_at ts (fr_tok f)) + 1)))
    (mk_frame (fr_type f) st (fr_tok f) :: rest) stop.
Proof.
  intros (Hk & Hty & (c & Hf & Hrel) & Hout) Hcase.
  pose proof (members_end_value_ge _ _ _ _ _ _ _ Hf) as Hge.
  set (ts1 := arr_set ts (fr_tok f) _).
  assert (Hother : forall k, k <> fr_tok f -> tok_at ts1 k = tok_at ts k).
  { intros k Hne. unfold ts1, tok_at. apply arr_get_set_other. congruence. }
  assert (Hself : tok_type (tok_at ts1 (fr_tok f)) = tok_type (tok_at ts (fr_tok f))
                  /\ (tok_type (tok_at ts (fr_tok f)) <> JSTOK_UNDEFINED ->
                      tok_size (tok_at ts1 (fr_tok f)) = tok_size (tok_at ts (fr_tok f)) + 1)).
  { unfold ts1, tok_at, arr_get, arr_set. destruct (decide _); [lia |].
    destruct (decide (Z.to_nat (fr_tok f) < length ts)%nat) as [Hin | Hout'].
    - rewrite list_lookup_insert_eq by assumption. simpl. auto.
    - rewrite list_insert_ge by lia. rewrite lookup_ge_None_2 by lia. simpl.
      split; [reflexivity |]. intros H. contradiction. }
  destruct Hself as [Hty1 Hsz1].
  assert (Hdef : tok_type (tok_at ts (fr_tok f)) <> JSTOK_UNDEFINED).
  { rewrite Hty. destruct Hcase as [[-> _] | [-> _]]; discriminate. }
  specialize (Hsz1 Hdef).
  cbn [outer]. unfold is_object in *. cbn [fr_tok fr_type fr_st].
  split; [assumption |]. split; [congruence |]. split.
  - exists c. split.
    + eapply members_value_ext; [| exact Hf]. intros k Hk'. rewrite Hother by lia. auto.
    + rewrite Hsz1. unfold top_rel, pending_rel in *. cbn [fr_type fr_st].
      destruct Hcase as [[Ha ->] | (Ho & Hv & ->)].
      * rewrite Ha in *. lia.
      * rewrite Ho in *. rewrite Hv in Hrel.
        rewrite decide_True in Hrel by auto. split; [lia | reflexivity].
  - eapply outer_ext; [| exact Hout]. intros k Hk'. rewrite Hother by lia. auto.
Qed.

(** A container is opened at token [stop]. *)
Lemma outer_open strict rd ts fs stop type st :
  outer strict rd ts fs stop ->
  type = JSTOK_ARRAY
  \/ type = JSTOK_OBJECT /\ st = JSTOK_ST_OBJ_KEY_OR_END ->
  forall t, tok_type t = type -> tok_size t = 0 ->
            stop < Z.of_nat (length ts) ->
  inner strict rd (arr_set ts stop t) (mk_frame type st stop :: fs) (stop + 1).
Proof.
  intros Hout Hcase t Hty Hsz Hlen.
  destruct (outer_bounds _ _ _ _ _ Hout) as [Hstop _].
  assert (Hnew : tok_at (arr_set ts stop t) stop = t).
  { unfold tok_at. apply arr_get_set_same. lia. }
  cbn [inner fr_tok fr_type fr_st]. rewrite Hnew.
  split; [assumption |]. split; [assumption |]. split.
  - exists 0%nat. split; [reflexivity |]. unfold top_rel. cbn [fr_type fr_st]. rewrite Hsz.
    destruct Hcase as [-> | [-> ->]]; [reflexivity |].
    rewrite decide_False by (intros [? | ?]; discriminate). reflexivity.
  - eapply outer_ext; [| exact Hout]. intros k Hk. unfold tok_at.
    rewrite arr_get_set_other by lia. auto.
Qed.

(** A key is read in the innermost container, an object. *)
Lemma inner_key strict rd ts f rest stop t :
  inner strict rd ts (f :: rest) stop ->
  fr_type f = JSTOK_OBJECT ->
  fr_st f = JSTOK_ST_OBJ_KEY_OR_END \/ fr_st f = JSTOK_ST_OBJ_KEY ->
  tok_type t = JSTOK_STRING -> stop < Z.of_nat (length ts) ->
  inner strict rd (arr_set ts stop t)
    (mk_frame (fr_type f) JSTOK_ST_OBJ_COLON (fr_tok f) :: rest) (stop + 1).
Proof.
  intros (Hk & Hty & (c & Hf & Hrel) & Hout) Hobj Hst Ht Hlen.
  pose proof (members_end_value_ge _ _ _ _ _ _ _ Hf) as Hge.
  assert (Hnew : tok_at (arr_set ts stop t) stop = t).
  { unfold tok_at. apply arr_get_set_same. lia. }
  assert (Hother : forall k, k <> stop -> tok_at (arr_set ts stop t) k = tok_at ts k).
  { intros k Hne. unfold tok_at. apply arr_get_set_other. congruence. }
  assert (Hc : 2 * tok_size (tok_at ts (fr_tok f)) = Z.of_nat c).
  { unfold top_rel in Hrel. rewrite Hobj in Hrel.
    rewrite decide_False in Hrel by (intros [? | ?]; destruct Hst; congruence).
    exact Hrel. }
  cbn [inner]. unfold is_object in *. cbn [fr_tok fr_type fr_st]. rewrite Hother by lia.
  split; [assumption |]. split; [assumption |]. split.
  - exists (S c). split.
    + eapply members_snoc_key.
      * eapply members_value_ext; [| exact Hf]. intros k Hk'. rewrite Hother by lia. auto.
      * rewrite Hobj, bool_decide_eq_true_2 by reflexivity.
        replace c with (2 * Z.to_nat (tok_size (tok_at ts (fr_tok f))))%nat by lia.
        apply turn_object.
      * by rewrite Hnew.
    + unfold top_rel. cbn [fr_type fr_st]. rewrite Hobj.
      rewrite decide_True by auto. lia.
  - eapply outer_ext; [| exact Hout]. intros k Hk'. rewrite Hother by lia. auto.
Qed.

(** The sub-state of the innermost frame moves on a colon or a comma. *)
Lemma inner_state strict rd ts f rest stop st :
  inner strict rd ts (f :: rest) stop ->
  fr_type f = JSTOK_ARRAY
  \/ (fr_st f = JSTOK_ST_OBJ_COLON \/ fr_st f = JSTOK_ST_OBJ_VALUE
      <-> st = JSTOK_ST_OBJ_COLON \/ st = JSTOK_ST_OBJ_VALUE) ->
  inner strict rd ts (mk_frame (fr_type f) st (fr_tok f) :: rest) stop.
Proof.
  intros (Hk & Hty & (c & Hf & Hrel) & Hout) Hcase.
  cbn [inner]. unfold is_object in *. cbn [fr_tok fr_type fr_st].
  split; [assumption |]. split; [assumption |]. split; [| assumption].
  exists c. split; [assumption |]. unfold top_rel in *. cbn [fr_type fr_st].
  destruct (fr_type f); try assumption.
  destruct Hcase as [? | Hiff]; [discriminate |].
  destruct (decide (fr_st f = _ \/ _)) as [H1 | H1];
    destruct (decide (st = _ \/ _)) as [H2 | H2]; tauto.
Qed.

(** The innermost container is closed. *)
Lemma inner_close strict rd ts ts' f rest stop :
  (length rest <= 63)%nat ->
  inner strict rd ts (f :: rest) stop ->
  fr_type f = JSTOK_ARRAY
  \/ fr_type f = JSTOK_OBJECT
     /\ (fr_st f = JSTOK_ST_OBJ_KEY_OR_END \/ fr_st f = JSTOK_ST_OBJ_COMMA_OR_END) ->
  same_shape ts ts' 0 stop ->
  inner strict rd ts' rest stop.
Proof.
  intros Hlen (Hk & Hty & (c & Hf & Hrel) & Hout) Hcase Hext.
  pose proof (members_end_value_ge _ _ _ _ _ _ _ Hf) as Hge.
  apply (outer_complete strict rd ts' rest (fr_tok f)).
  - eapply outer_ext; [| exact Hout]. intros k Hk'. apply Hext. lia.
  - replace (64 - length rest)%nat with (S (63 - length rest)) by lia.
    apply (value_end_container _ _ _ (is_object f) c).
    + destruct (Hext (fr_tok f) ltac:(lia)) as [-> ->]. rewrite Hty.
      unfold top_rel in Hrel. unfold is_object.
      destruct Hcase as [Ha | (Ho & Hst)].
      * left. rewrite Ha in *. rewrite bool_decide_eq_false_2 by discriminate. auto.
      * right. rewrite Ho in *. rewrite bool_decide_eq_true_2 by reflexivity.
        rewrite decide_False in Hrel by (intros [? | ?]; destruct Hst; congruence). auto.
    + eapply members_value_ext; [| exact Hf]. intros k Hk'. apply Hext. lia.
Qed.

(** *** What the recognizers store *)

Lemma string_token_emitted p json json_len ts max_tokens res :
  0 <= toknext p ->
  jstok_parse_string_token p json json_len (Some ts) max_tokens = Some res ->
  emitted json JSTOK_STRING p ts max_tokens json_len res.
Proof.
  intros Htn. unfold jstok_parse_string_token.
  destruct (decide _) as [| Hq]; [intros [= <-]; left; simpl; lia |].
  rewrite string_loop_scan. cbn [pos set_pos].
  destruct (string_scan _ _ _ _) as [s |] eqn:Hs; [| discriminate].
  pose proof (string_scan_bounds _ _ _ _ _ Hs) as Hb. simpl. intros [= <-].
  destruct s as [e | e | e]; simpl; [| left; simpl; lia | left; simpl; lia].
  unfold jstok_new_token. cbn [toknext set_pos pos].
  destruct (decide (toknext p >= max_tokens)); [left; simpl; lia |].
  destruct (decide (toknext p < 0)); [lia |].
  right. exists (mk_tok JSTOK_STRING (pos p + 1) e 0).
  assert (Htext : tok_text_ok json (mk_tok JSTOK_STRING (pos p + 1) e 0)).
  { unfold tok_text_ok. cbn [tok_type tok_start tok_end]. split; [| eauto].
    replace (pos p + 1 - 1) with (pos p) by lia.
    destruct (decide (json_at json (pos p) = ch_quote)); [assumption | tauto]. }
  simpl. repeat split; auto; first [lia | apply Htext].
Qed.

Lemma new_token_emitted json p ts max_tokens json_len e ty s :
  pos p <= s <= e -> e <= json_len -> s < e ->
  tok_text_ok json (mk_tok ty s e 0) ->
  emitted json ty p ts max_tokens json_len
    (jstok_new_token (set_pos p e) (Some ts) max_tokens ty s e).
Proof.
  intros Hs He Hlt Htext. unfold jstok_new_token. cbn [toknext set_pos pos].
  destruct (decide (toknext p >= max_tokens)); [left; simpl; lia |].
  right. exists (mk_tok ty s e 0).
  repeat (split; [first [reflexivity | simpl; lia] |]). exact Htext.
Qed.

Lemma lit_matches_span json lit :
  forall a, lit_matches json a lit (length lit) ->
            span_text json a (a + Z.of_nat (length lit)) = lit.
Proof.
  induction lit as [| c lit IH]; intros a H.
  - apply span_text_nil. simpl. lia.
  - rewrite span_text_cons by (cbn [length]; lia). f_equal.
    + specialize (H 0%nat ltac:(cbn [length]; lia)).
      replace (a + Z.of_nat 0) with a in H by lia. exact H.
    + replace (a + Z.of_nat (length (c :: lit))) with (a + 1 + Z.of_nat (length lit))
        by (cbn [length]; lia).
      apply IH. intros idx Hidx. specialize (H (S idx) ltac:(cbn [length]; lia)).
      replace (a + 1 + Z.of_nat idx) with (a + Z.of_nat (S idx)) by lia. exact H.
Qed.

Lemma primitive_token_emitted strict p json json_len ts max_tokens :
  emitted json JSTOK_PRIMITIVE p ts max_tokens json_len
    (jstok_parse_primitive_token strict p json json_len (Some ts) max_tokens).
Proof.
  unfold jstok_parse_primitive_token.
  destruct (decide (pos p >= json_len)); [left; simpl; lia |].
  assert (Hlit : forall lit, (0 < length lit)%nat ->
            lit = lit_true \/ lit = lit_false \/ lit = lit_null ->
            emitted json JSTOK_PRIMITIVE p ts max_tokens json_len
              (let '(n, p1) := jstok_parse_literal p json json_len lit in
               if decide (n < 0) then (n, p1, Some ts)
               else jstok_new_token (set_pos p1 (pos p1 + n)) (Some ts) max_tokens
                      JSTOK_PRIMITIVE (pos p) (pos (set_pos p1 (pos p1 + n))))).
  { intros lit Hlen Hwhich.
    destruct (jstok_parse_literal p json json_len lit) as [ln lp] eqn:Hl.
    unfold jstok_parse_literal in Hl. apply literal_loop_shape in Hl; [| lia].
    destruct Hl as [(-> & -> & Hle & Hm) | ([-> | ->] & x & ->)];
      [| left; simpl; lia | left; simpl; lia].
    destruct (decide _); [lia |]. cbn [pos set_pos].
    apply new_token_emitted; [lia | lia | lia |].
    unfold tok_text_ok, tok_text. cbn [tok_type tok_start tok_end].
    replace (pos p + 0) with (pos p) in Hm by lia.
    apply lit_matches_span in Hm. unfold span_text in Hm.
    replace (pos p + (0 + Z.of_nat (length lit)) - pos p)
      with (pos p + Z.of_nat (length lit) - pos p) by lia.
    rewrite Hm. tauto. }
  destruct (decide _); [apply Hlit; [simpl; lia | tauto] |].
  destruct (decide _); [apply Hlit; [simpl; lia | tauto] |].
  destruct (decide _); [apply Hlit; [simpl; lia | tauto] |].
  destruct (jstok_parse_number_span strict p json json_len) as [[r p1] e] eqn:Hnum.
  destruct (decide (r < 0)); [left; simpl; lia |].
  assert (r = 0) as ->.
  { pose proof (number_span_ok strict p json json_len) as Hok. rewrite Hnum in Hok.
    destruct Hok as [(Hr & _) | ([Hr | Hr] & _)]; simpl in *; lia. }
  apply number_span_sound in Hnum as (-> & Hpe & _ & Hspec).
  cbn [pos set_pos].
  apply new_token_emitted; [lia | lia | lia |].
  unfold tok_text_ok. cbn [tok_type]. do 3 right. exact Hspec.
Qed.

(** *** Tokens within the buffer *)

(** The tokens keep their kinds and spans, and the same containers are
    open. *)
Lemma tok_text_ok_same json t t' :
  tok_type t' = tok_type t -> tok_start t' = tok_start t -> tok_end t' = tok_end t ->
  tok_text_ok json t -> tok_text_ok json t'.
Proof.
  intros Hty Hs He. unfold tok_text_ok, tok_text. by rewrite Hty, Hs, He.
Qed.

Lemma spans_same check json ps ps' fs fs' n ts ts' :
  spans_ok check json ps fs n ts ->
  ps <= ps' ->
  open_toks fs' = open_toks fs ->
  (forall j, 0 <= j < n ->
     tok_type (tok_at ts' j) = tok_type (tok_at ts j)
     /\ tok_start (tok_at ts' j) = tok_start (tok_at ts j)
     /\ tok_end (tok_at ts' j) = tok_end (tok_at ts j)) ->
  spans_ok check json ps' fs' n ts'.
Proof.
  intros (Hw & Ho & Hx) Hps Hfs Hsame. split; [| split].
  - intros j Hj. destruct (Hsame j Hj) as (Hty & Hs & He).
    destruct (Hw j Hj) as (Hty0 & Hs0 & Hcase). unfold tok_within.
    rewrite Hty, Hs, He, Hfs. split; [assumption |]. split; [lia |].
    destruct (decide _); [assumption | lia].
  - intros j k Hj Hk. destruct (Hsame j ltac:(lia)) as (_ & Hs & He).
    destruct (Hsame k ltac:(lia)) as (_ & Hs' & He').
    unfold tok_ordered. rewrite Hs, He, Hs', He'. by apply Ho.
  - intros Hc j Hj. destruct (Hsame j Hj) as (Hty & Hs & He).
    eapply tok_text_ok_same; [exact Hty | exact Hs | exact He | by apply Hx].
Qed.

(** A token is stored at [n]: a closed one, or the token of a container
    that is opened. *)
Lemma spans_new check json ps ps' fs fs' n ts t :
  spans_ok check json ps fs n ts ->
  0 <= n < Z.of_nat (length ts) ->
  (forall g, g ∈ open_toks fs -> g < n) ->
  tok_type t <> JSTOK_UNDEFINED ->
  tok_text_ok json t ->
  0 <= ps <= tok_start t -> tok_start t < ps' ->
  open_toks fs' = open_toks fs /\ tok_start t <= tok_end t <= ps'
  \/ open_toks fs' = n :: open_toks fs /\ tok_end t = -1 ->
  spans_ok check json ps' fs' (n + 1) (arr_set ts n t).
Proof.
  intros (Hw & Ho & Hx) Hn Hopen Hty Htext Hstart Hps Hcase.
  assert (Hnew : tok_at (arr_set ts n t) n = t).
  { unfold tok_at. apply arr_get_set_same. lia. }
  assert (Hold : forall j, j <> n -> tok_at (arr_set ts n t) j = tok_at ts j).
  { intros j Hj. unfold tok_at. apply arr_get_set_other. congruence. }
  assert (Hfresh : n ∉ open_toks fs).
  { intros Hin. apply Hopen in Hin. lia. }
  split; [| split].
  - intros j Hj. destruct (decide (j = n)) as [-> | Hne].
    + rewrite Hnew. unfold tok_within. split; [assumption |]. split; [lia |].
      destruct Hcase as [[-> Hend] | [-> Hend]].
      * rewrite decide_False by assumption. exact Hend.
      * rewrite decide_True by (apply elem_of_cons; by left). exact Hend.
    + rewrite Hold by assumption.
      destruct (Hw j ltac:(lia)) as (Hty0 & Hs0 & Hc0). unfold tok_within.
      split; [assumption |]. split; [lia |].
      assert (Hiff : j ∈ open_toks fs' <-> j ∈ open_toks fs).
      { destruct Hcase as [[-> _] | [-> _]]; [reflexivity |].
        rewrite elem_of_cons. tauto. }
      destruct (decide (j ∈ open_toks fs)) as [Hin | Hin].
      * rewrite decide_True by tauto. assumption.
      * rewrite decide_False by tauto. lia.
  - intros j k Hj Hk. destruct (decide (k = n)) as [-> | Hne].
    + rewrite Hnew, Hold by lia.
      destruct (Hw j ltac:(lia)) as (_ & Hs0 & Hc0). unfold tok_ordered.
      split; [lia |]. destruct (decide _); [right; by left | left; lia].
    + rewrite !Hold by lia. apply Ho; lia.
  - intros Hc j Hj. destruct (decide (j = n)) as [-> | Hne]; [by rewrite Hnew |].
    rewrite Hold by assumption. apply Hx; [assumption | lia].
Qed.

(** The innermost open container, whose token is [k], is closed at the
    position [ps]. *)
Lemma spans_close check json ps f rest n ts :
  spans_ok check json ps (f :: rest) n ts ->
  0 <= fr_tok f < n -> n <= Z.of_nat (length ts) ->
  (forall g, g ∈ open_toks rest -> g < fr_tok f) ->
  tok_type (tok_at ts (fr_tok f)) = JSTOK_OBJECT /\ json_at json ps = ch_rbrace
  \/ tok_type (tok_at ts (fr_tok f)) = JSTOK_ARRAY /\ json_at json ps = ch_rbracket ->
  spans_ok check json (ps + 1) rest n
    (arr_set ts (fr_tok f) (set_tok_end (tok_at ts (fr_tok f)) (ps + 1))).
Proof.
  intros (Hw & Ho & Hx) Hk Hn Hrest Hcl. set (k := fr_tok f) in *.
  set (ts1 := arr_set ts k _).
  assert (Hself : tok_at ts1 k = set_tok_end (tok_at ts k) (ps + 1)).
  { unfold ts1, tok_at. apply arr_get_set_same. lia. }
  assert (Hother : forall j, j <> k -> tok_at ts1 j = tok_at ts j).
  { intros j Hj. unfold ts1, tok_at. apply arr_get_set_other. congruence. }
  assert (Hk_out : k ∉ open_toks rest).
  { intros Hin. apply Hrest in Hin. lia. }
  assert (Hopen : tok_end (tok_at ts k) = -1).
  { destruct (Hw k Hk) as (_ & _ & Hc). rewrite decide_True in Hc; [assumption |].
    apply elem_of_cons. by left. }
  assert (Hafter : forall j, k < j < n ->
            0 <= tok_start (tok_at ts j) <= tok_end (tok_at ts j)
            /\ tok_end (tok_at ts j) <= ps).
  { intros j Hj. destruct (Hw j ltac:(lia)) as (_ & Hs & Hc).
    rewrite decide_False in Hc; [lia |].
    intros Hin. apply elem_of_cons in Hin as [Hin | Hin]; [fold k in Hin; lia |].
    apply Hrest in Hin. lia. }
  split; [| split].
  - intros j Hj. destruct (decide (j = k)) as [-> | Hne].
    + rewrite Hself. destruct (Hw k Hk) as (Hty & Hs & _). unfold tok_within.
      cbn [tok_type tok_start tok_end set_tok_end].
      split; [assumption |]. split; [lia |]. rewrite decide_False by assumption. lia.
    + rewrite Hother by assumption.
      destruct (Hw j Hj) as (Hty & Hs & Hc). unfold tok_within.
      split; [assumption |]. split; [lia |].
      assert (Hiff : j ∈ open_toks (f :: rest) <-> j ∈ open_toks rest).
      { unfold open_toks. rewrite fmap_cons, elem_of_cons. fold k. tauto. }
      destruct (decide (j ∈ open_toks rest)) as [Hin | Hin].
      * rewrite decide_True in Hc by tauto. assumption.
      * rewrite decide_False in Hc by tauto. lia.
  - intros j m Hj Hm. unfold tok_ordered.
    destruct (decide (j = k)) as [-> | Hj'].
    + rewrite Hself, Hother by lia. cbn [tok_start tok_end set_tok_end].
      destruct (Ho k m ltac:(lia) Hm) as [Hlt _].
      destruct (Hafter m ltac:(lia)). split; [assumption |]. right; right. lia.
    + rewrite (Hother j) by assumption. destruct (decide (m = k)) as [-> | Hm'].
      * rewrite Hself. cbn [tok_start tok_end set_tok_end].
        destruct (Ho j k Hj Hm) as [Hlt Hc]. split; [assumption |].
        destruct Hc as [? | [? | ?]]; [by left | right; by left | lia].
      * rewrite Hother by assumption. by apply Ho.
  - intros Hc j Hj. destruct (decide (j = k)) as [-> | Hne].
    + rewrite Hself. pose proof (Hx Hc k Hk) as Hold. unfold tok_text_ok in *.
      cbn [tok_type tok_start tok_end set_tok_end].
      destruct Hcl as [[Hty Hb] | [Hty Hb]]; rewrite Hty in *;
        (split; [apply Hold |]); intros _; by replace (ps + 1 - 1) with ps by lia.
    + rewrite Hother by assumption. by apply Hx.
Qed.

(** Writing the size of a token changes neither its kind nor its span. *)
Lemma tok_at_set_size ts k v j :
  tok_type (tok_at ts k) <> JSTOK_UNDEFINED ->
  let ts' := arr_set ts k (set_tok_size (tok_at ts k) v) in
  tok_type (tok_at ts' j) = tok_type (tok_at ts j)
  /\ tok_start (tok_at ts' j) = tok_start (tok_at ts j)
  /\ tok_end (tok_at ts' j) = tok_end (tok_at ts j).
Proof.
  intros Hdef ts'. destruct (decide (j = k)) as [-> | Hne].
  - unfold ts', tok_at, arr_get, arr_set. destruct (decide _); [auto |].
    destruct (decide (Z.to_nat k < length ts)%nat).
    + rewrite list_lookup_insert_eq by assumption. auto.
    + rewrite list_insert_ge by lia. auto.
  - unfold ts', tok_at. rewrite arr_get_set_other by congruence. auto.
Qed.

(** *** A value is accepted *)

Lemma accept_value_inv strict check json max_tokens p ts p1 toks1 :
  parse_inv strict check json max_tokens p (Some ts) ->
  jstok_accept_value strict p (Some ts) = (0, p1, toks1) ->
  exists ts1,
    toks1 = Some ts1 /\ length ts1 = length ts
    /\ pos p1 = pos p /\ toknext p1 = toknext p /\ depth p1 = depth p
    /\ length (stack p1) = length (stack p)
    /\ outer strict (root_done p1) ts1 (frames p1) (toknext p)
    /\ spans_ok check json (pos p) (frames p1) (toknext p) ts1.
Proof.
  intros (ts0 & [= <-] & Hmax & Hpos & Htn & Hd & Hstack & Hin & Hw) Hacc.
  unfold jstok_accept_value in Hacc.
  destruct (jstok_top p) as [fr |] eqn:Htop.
  - (* inside a container *)
    assert (Hdepth : 0 < depth p <= Z.of_nat (length (stack p))).
    { unfold jstok_top in Htop. destruct (decide _); [discriminate |].
      rewrite Hstack. unfold JSTOK_MAX_DEPTH in *. lia. }
    destruct (frames_top p Hdepth) as (Htop' & rest & Hfr & Hrl & _).
    rewrite Htop in Htop'. injection Htop' as ->.
    set (f := frame_at p (depth p - 1)) in *.
    rewrite Hfr in Hin. pose proof Hin as (Hk & Hty & _).
    assert (Hres : forall st,
              fr_type f = JSTOK_ARRAY /\ st = JSTOK_ST_ARR_COMMA_OR_END
              \/ fr_type f = JSTOK_OBJECT /\ fr_st f = JSTOK_ST_OBJ_VALUE
                 /\ st = JSTOK_ST_OBJ_COMMA_OR_END ->
              (0, set_frame_st p (depth p - 1) st, jstok_inc_container_size p (Some ts))
              = (0, p1, toks1) ->
              exists ts1,
                toks1 = Some ts1 /\ length ts1 = length ts
                /\ pos p1 = pos p /\ toknext p1 = toknext p /\ depth p1 = depth p
                /\ length (stack p1) = length (stack p)
                /\ outer strict (root_done p1) ts1 (frames p1) (toknext p)
                /\ spans_ok check json (pos p) (frames p1) (toknext p) ts1).
    { intros st Hcase [= <- <-].
      unfold jstok_inc_container_size. rewrite Htop. fold f.
      destruct (decide (fr_tok f < 0)); [lia |].
      eexists. split; [reflexivity |]. split; [apply arr_set_length |].
      split; [reflexivity |]. split; [reflexivity |]. split; [reflexivity |].
      split; [unfold set_frame_st; cbn [stack set_stack]; apply arr_set_length |].
      rewrite frames_set_top by assumption. fold f. rewrite Hfr. cbn [tl].
      split.
      - apply inner_accept; assumption.
      - assert (Hdef : tok_type (tok_at ts (fr_tok f)) <> JSTOK_UNDEFINED).
        { rewrite Hty. destruct Hcase as [[-> _] | [-> _]]; discriminate. }
        eapply spans_same; [exact Hw | lia | by rewrite Hfr |].
        intros j _. apply tok_at_set_size. exact Hdef. }
    destruct (decide (fr_type f = JSTOK_ARRAY)) as [Ha | Ha].
    { destruct (decide _); [discriminate |]. apply (Hres _ (or_introl (conj Ha eq_refl)) Hacc). }
    destruct (decide (fr_type f = JSTOK_OBJECT)) as [Ho | Ho]; [| discriminate].
    destruct (decide (fr_st f <> _)) as [| Hst]; [discriminate |].
    apply dec_stable in Hst.
    apply (Hres _ (or_intror (conj Ho (conj Hst eq_refl))) Hacc).
  - (* at the top level *)
    assert (Hdepth : depth p <= 0).
    { unfold jstok_top in Htop. destruct (decide _); [assumption | discriminate]. }
    rewrite (frames_nil p Hdepth) in *.
    destruct (strict && negb (bool_decide (root_done p = 0))) eqn:Hs; [discriminate |].
    injection Hacc as <- <-.
    exists ts. split; [reflexivity |]. split; [reflexivity |].
    split; [reflexivity |]. split; [reflexivity |]. split; [reflexivity |].
    split; [reflexivity |].
    rewrite frames_set_root_done, (frames_nil p Hdepth). cbn [root_done set_root_done].
    split; [| exact Hw].
    destruct Hin as (c & Hf & Hc). cbn [outer]. split; [lia |].
    exists c. split; [assumption |]. intros ->. rewrite (Hc eq_refl).
    simpl in Hs. apply negb_false_iff, bool_decide_eq_true in Hs.
    rewrite decide_True by assumption. reflexivity.
Qed.

Lemma frames_eq p q : depth q = depth p -> stack q = stack p -> frames q = frames p.
Proof. unfold frames. intros -> ->. reflexivity. Qed.

(** *** A string or a primitive is stored as a value *)

Lemma emitted_value_inv strict check json max_tokens json_len ty p p1 ts1 r p2 toks2 :
  ty = JSTOK_STRING \/ ty = JSTOK_PRIMITIVE ->
  0 <= pos p -> pos p1 = pos p -> 0 <= toknext p1 ->
  max_tokens <= Z.of_nat (length ts1) ->
  0 <= depth p1 <= JSTOK_MAX_DEPTH ->
  length (stack p1) = Z.to_nat JSTOK_MAX_DEPTH ->
  outer strict (root_done p1) ts1 (frames p1) (toknext p1) ->
  spans_ok check json (pos p) (frames p1) (toknext p1) ts1 ->
  emitted json ty p1 ts1 max_tokens json_len (r, p2, toks2) -> 0 <= r ->
  parse_inv strict check json max_tokens p2 toks2.
Proof.
  intros Hkind Hpos Hp1 Htn Hmax Hd Hstack Hout Hw Hem Hr.
  destruct Hem as [? | (t & _ & Hroom & Ht2 & Hty & Hsz & Hspan & Hend & Hadv & Htn2 & Hd2 & Hs2 & Hrd2 & Htext)];
    [simpl in *; lia |].
  simpl in *. subst toks2.
  assert (Hfr : frames p2 = frames p1) by (apply frames_eq; assumption).
  assert (Hnew : tok_at (arr_set ts1 (toknext p1) t) (toknext p1) = t).
  { unfold tok_at. apply arr_get_set_same. lia. }
  assert (Hold : forall j, j <> toknext p1 ->
                           tok_at (arr_set ts1 (toknext p1) t) j = tok_at ts1 j).
  { intros j Hj. unfold tok_at. apply arr_get_set_other. congruence. }
  exists (arr_set ts1 (toknext p1) t). split; [reflexivity |].
  split; [by rewrite arr_set_length |].
  split; [lia |]. split; [lia |]. split; [lia |]. split; [congruence |].
  rewrite Hfr, Htn2, Hrd2. split.
  - apply (outer_complete _ _ _ _ (toknext p1)).
    + eapply outer_ext; [| exact Hout]. intros k Hk. rewrite Hold by lia. auto.
    + apply value_end_scalar. rewrite Hnew, Hty. exact Hkind.
  - eapply spans_new; [exact Hw | lia | | | exact Htext | | | left; split; [reflexivity | lia]].
    + eapply outer_open_toks. exact Hout.
    + rewrite Hty. destruct Hkind as [-> | ->]; discriminate.
    + lia.
    + lia.
Qed.

Lemma value_path_inv strict check json max_tokens json_len ty p ts recognize p' toks' :
  ty = JSTOK_STRING \/ ty = JSTOK_PRIMITIVE ->
  parse_inv strict check json max_tokens p (Some ts) ->
  (forall q t res, 0 <= toknext q -> recognize q (Some t) = Some res ->
                   emitted json ty q t max_tokens json_len res) ->
  value_path strict p (Some ts) recognize = Some (Continue p' toks') ->
  parse_inv strict check json max_tokens p' toks'.
Proof.
  intros Hkind Hinv Hrec. unfold value_path.
  destruct (jstok_accept_value strict p (Some ts)) as [[r0 p1] toks1] eqn:Hacc.
  destruct (decide (r0 < 0)); [discriminate |].
  destruct (accept_value_code _ _ _ _ _ _ Hacc) as [(-> & _) | (-> & _)]; [| lia].
  destruct (accept_value_inv _ _ _ _ _ _ _ _ Hinv Hacc)
    as (ts1 & -> & Hlen & Hp1 & Htn1 & Hd1 & Hs1 & Hout & Hw).
  destruct Hinv as (ts0 & [= <-] & Hmax & Hpos & Htn & Hd & Hstack & _).
  destruct (recognize p1 (Some ts1)) as [[[r p2] toks2] |] eqn:Hr; [| discriminate].
  cbn [mbind option_bind].
  destruct (decide (r < 0)) as [| Hr0].
  { destruct (decide _); [destruct (rollback_value _ _ _ _ _) |]; discriminate. }
  intros [= <- <-].
  apply Hrec in Hr; [| lia].
  apply (emitted_value_inv strict check json max_tokens json_len ty p p1 ts1 r p2 toks2).
  - exact Hkind.
  - lia.
  - exact Hp1.
  - lia.
  - lia.
  - lia.
  - lia.
  - rewrite Htn1. exact Hout.
  - rewrite Htn1. exact Hw.
  - exact Hr.
  - lia.
Qed.

(** *** A container is opened *)

Lemma start_container_inv strict check json max_tokens p ts type r p' toks' :
  parse_inv strict check json max_tokens p (Some ts) ->
  type = JSTOK_ARRAY /\ json_at json (pos p) = ch_lbracket
  \/ type = JSTOK_OBJECT /\ json_at json (pos p) = ch_lbrace ->
  jstok_start_container strict p (Some ts) max_tokens type = (r, p', toks') ->
  0 <= r ->
  parse_inv strict check json max_tokens p' toks'.
Proof.
  intros Hinv Hbyte.
  assert (Htype : type = JSTOK_ARRAY \/ type = JSTOK_OBJECT) by tauto.
  unfold jstok_start_container.
  destruct (jstok_accept_value strict p (Some ts)) as [[r0 p1] toks1] eqn:Hacc.
  destruct (decide (r0 < 0)); [intros [= <- _ _]; lia |].
  destruct (accept_value_code _ _ _ _ _ _ Hacc) as [(-> & _) | (-> & _)]; [| lia].
  destruct (accept_value_inv _ _ _ _ _ _ _ _ Hinv Hacc)
    as (ts1 & -> & Hlen & Hp1 & Htn1 & Hd1 & Hs1 & Hout & Hw).
  destruct Hinv as (ts0 & [= <-] & Hmax & Hpos & Htn & Hd & Hstack & _).
  unfold jstok_new_token.
  destruct (decide (toknext p1 >= max_tokens)); [simpl; intros [= <- _ _]; lia |].
  destruct (decide (toknext p1 < 0)); [lia |].
  unfold jstok_push. cbn [depth set_toknext pos stack].
  destruct (decide (depth p1 >= JSTOK_MAX_DEPTH)); [simpl; intros [= <- _ _]; lia |].
  simpl. intros [= _ <- <-] _.
  set (st := if decide (type = JSTOK_OBJECT)
             then JSTOK_ST_OBJ_KEY_OR_END else JSTOK_ST_ARR_VALUE_OR_END).
  set (t := mk_tok type (pos p1) (-1) 0).
  assert (Hnew : tok_at (arr_set ts1 (toknext p1) t) (toknext p1) = t).
  { unfold tok_at. apply arr_get_set_same. lia. }
  assert (Hold : forall j, j <> toknext p1 ->
                           tok_at (arr_set ts1 (toknext p1) t) j = tok_at ts1 j).
  { intros j Hj. unfold tok_at. apply arr_get_set_other. congruence. }
  exists (arr_set ts1 (toknext p1) t). split; [reflexivity |].
  split; [rewrite arr_set_length; lia |]. cbn [pos toknext depth stack root_done
    set_pos set_depth set_stack set_toknext].
  split; [lia |]. split; [lia |]. split; [lia |].
  split; [rewrite arr_set_length; lia |].
  assert (Hfr : frames (set_pos
                          (set_depth
                             (set_stack (set_toknext p1 (toknext p1 + 1))
                                (arr_set (stack p1) (depth p1)
                                   (mk_frame type st (toknext p1))))
                             (depth p1 + 1)) (pos p1 + 1))
                = mk_frame type st (toknext p1) :: frames p1).
  { rewrite frames_set_pos.
    change (stack p1) with (stack (set_toknext p1 (toknext p1 + 1))).
    change (depth p1) with (depth (set_toknext p1 (toknext p1 + 1))).
    rewrite frames_push; [reflexivity |]. simpl. unfold JSTOK_MAX_DEPTH in *. lia. }
  rewrite Hfr. split.
  - rewrite Htn1 in *. apply outer_open; try assumption; try reflexivity; [| lia].
    destruct Htype as [-> | ->]; [by left | right; split; reflexivity].
  - rewrite Htn1 in *.
    eapply spans_new; [exact Hw | lia | | | | | | right; split; reflexivity].
    + eapply outer_open_toks. exact Hout.
    + unfold t. cbn [tok_type]. destruct Htype as [-> | ->]; discriminate.
    + unfold t, tok_text_ok. cbn [tok_type tok_start tok_end]. rewrite Hp1.
      destruct Hbyte as [[-> Hb] | [-> Hb]]; (split; [exact Hb | intros H; by destruct H]).
    + unfold t. cbn [tok_start]. lia.
    + unfold t. cbn [tok_start]. lia.
Qed.

(** *** The innermost frame changes its sub-state *)

Lemma top_frame_of_inv strict check json max_tokens p ts fr :
  parse_inv strict check json max_tokens p (Some ts) ->
  jstok_top p = Some fr ->
  fr = depth p - 1
  /\ 0 < depth p <= Z.of_nat (length (stack p))
  /\ exists rest, frames p = frame_at p fr :: rest
                  /\ (length rest <= 63)%nat
                  /\ (fr_type (frame_at p fr) = JSTOK_ARRAY
                      \/ fr_type (frame_at p fr) = JSTOK_OBJECT).
Proof.
  intros (ts0 & [= <-] & Hmax & Hpos & Htn & Hd & Hstack & Hin & Hw) Htop.
  assert (Hdepth : 0 < depth p <= Z.of_nat (length (stack p))).
  { unfold jstok_top in Htop. destruct (decide _); [discriminate |].
    rewrite Hstack. unfold JSTOK_MAX_DEPTH in *. lia. }
  destruct (frames_top p Hdepth) as (Htop' & rest & Hfr & Hrl & _).
  rewrite Htop in Htop'. injection Htop' as ->.
  split; [reflexivity |]. split; [assumption |].
  exists rest. split; [assumption |].
  split; [unfold JSTOK_MAX_DEPTH in *; lia |].
  rewrite Hfr in Hin. destruct Hin as (_ & _ & (c & _ & Hrel) & _).
  unfold top_rel in Hrel. destruct (fr_type _); try contradiction; auto.
Qed.

Lemma set_frame_st_scalars p fr st :
  pos (set_frame_st p fr st) = pos p
  /\ toknext (set_frame_st p fr st) = toknext p
  /\ depth (set_frame_st p fr st) = depth p
  /\ root_done (set_frame_st p fr st) = root_done p
  /\ length (stack (set_frame_st p fr st)) = length (stack p).
Proof.
  repeat split. unfold set_frame_st. cbn [stack set_stack]. apply arr_set_length.
Qed.

Lemma set_top_state_inv strict check json max_tokens p ts fr st e :
  parse_inv strict check json max_tokens p (Some ts) ->
  jstok_top p = Some fr ->
  fr_type (frame_at p fr) = JSTOK_ARRAY
  \/ (fr_st (frame_at p fr) = JSTOK_ST_OBJ_COLON \/ fr_st (frame_at p fr) = JSTOK_ST_OBJ_VALUE
      <-> st = JSTOK_ST_OBJ_COLON \/ st = JSTOK_ST_OBJ_VALUE) ->
  pos p <= e ->
  parse_inv strict check json max_tokens (set_pos (set_frame_st p fr st) e) (Some ts).
Proof.
  intros Hinv Htop Hcase He.
  destruct (top_frame_of_inv _ _ _ _ _ _ _ Hinv Htop) as (-> & Hdepth & rest & Hfr & _ & _).
  destruct Hinv as (ts0 & [= <-] & Hmax & Hpos & Htn & Hd & Hstack & Hin & Hw).
  destruct (set_frame_st_scalars p (depth p - 1) st) as (E1 & E2 & E3 & E4 & E5).
  exists ts. split; [reflexivity |]. split; [assumption |].
  cbn [pos toknext depth root_done stack set_pos]. rewrite E2, E3, E4, E5.
  split; [lia |]. split; [assumption |]. split; [assumption |].
  split; [assumption |].
  rewrite frames_set_pos, frames_set_top, Hfr by assumption. cbn [tl]. split.
  - rewrite Hfr in Hin. apply inner_state; assumption.
  - eapply spans_same; [exact Hw | lia | by rewrite Hfr | auto].
Qed.

(** *** A key is stored *)

Lemma key_inv strict check json max_tokens json_len p ts r p1 toks1 r2 p2 :
  parse_inv strict check json max_tokens p (Some ts) ->
  key_expected p = true ->
  emitted json JSTOK_STRING p ts max_tokens json_len (r, p1, toks1) -> 0 <= r ->
  jstok_accept_key p1 = (r2, p2) -> 0 <= r2 ->
  parse_inv strict check json max_tokens p2 toks1.
Proof.
  intros Hinv Hkey Hem Hr Hacc Hr2.
  unfold key_expected in Hkey.
  destruct (jstok_top p) as [fr |] eqn:Htop; [| discriminate].
  destruct (top_frame_of_inv _ _ _ _ _ _ _ Hinv Htop) as (-> & Hdepth & rest & Hfr & Hrl & _).
  apply andb_true_iff in Hkey as [Hobj Hst]. apply bool_decide_eq_true in Hobj.
  apply orb_true_iff in Hst.
  assert (Hst' : fr_st (frame_at p (depth p - 1)) = JSTOK_ST_OBJ_KEY_OR_END
                 \/ fr_st (frame_at p (depth p - 1)) = JSTOK_ST_OBJ_KEY).
  { destruct Hst as [H | H]; apply bool_decide_eq_true in H; auto. }
  clear Hst.
  destruct Hinv as (ts0 & [= <-] & Hmax & Hpos & Htn & Hd & Hstack & Hin & Hw).
  destruct Hem as [? | (t & _ & Hroom & Ht2 & Hty & Hsz & Hspan & Hend & Hadv & Htn2 & Hd2 & Hs2 & Hrd2 & Htext)];
    [simpl in *; lia |].
  simpl in *. subst toks1.
  assert (Hfa : frame_at p1 (depth p - 1) = frame_at p (depth p - 1))
    by (unfold frame_at; by rewrite Hs2).
  unfold jstok_accept_key, jstok_top in Hacc. rewrite Hd2 in Hacc.
  destruct (decide (depth p <= 0)); [lia |]. rewrite Hfa in Hacc.
  destruct (decide (fr_type _ <> _)); [contradiction |].
  destruct (decide (_ /\ _)); [injection Hacc as <- _; lia |].
  injection Hacc as _ <-.
  assert (Hnew : tok_at (arr_set ts (toknext p) t) (toknext p) = t).
  { unfold tok_at. apply arr_get_set_same. lia. }
  assert (Hold : forall j, j <> toknext p ->
                           tok_at (arr_set ts (toknext p) t) j = tok_at ts j).
  { intros j Hj. unfold tok_at. apply arr_get_set_other. congruence. }
  destruct (set_frame_st_scalars p1 (depth p - 1) JSTOK_ST_OBJ_COLON)
    as (E1 & E2 & E3 & E4 & E5).
  exists (arr_set ts (toknext p) t). split; [reflexivity |].
  split; [by rewrite arr_set_length |]. rewrite E1, E2, E3, E4, E5.
  split; [lia |]. split; [lia |]. split; [lia |]. split; [congruence |].
  assert (Hfr2 : frames (set_frame_st p1 (depth p - 1) JSTOK_ST_OBJ_COLON)
                 = mk_frame (fr_type (frame_at p (depth p - 1))) JSTOK_ST_OBJ_COLON
                     (fr_tok (frame_at p (depth p - 1))) :: rest).
  { rewrite <- Hd2, frames_set_top by (rewrite Hd2, Hs2; assumption).
    rewrite Hd2, Hfa, (frames_eq p p1), Hfr by assumption. reflexivity. }
  rewrite Hfr2, Htn2, Hrd2. rewrite Hfr in Hin. split.
  - apply inner_key; try assumption. lia.
  - eapply spans_new; [exact Hw | lia | | | exact Htext | | | left; split; [by rewrite Hfr | lia]].
    + rewrite Hfr. apply (inner_open_toks _ _ _ _ _ Hin).
    + rewrite Hty. discriminate.
    + lia.
    + lia.
Qed.

(** *** The innermost container is closed *)

Lemma end_container_inv strict check json max_tokens p ts type closer r p' toks' :
  parse_inv strict check json max_tokens p (Some ts) ->
  closer <> 0 ->
  type = JSTOK_OBJECT /\ json_at json (pos p) = ch_rbrace
  \/ type = JSTOK_ARRAY /\ json_at json (pos p) = ch_rbracket ->
  jstok_end_container p (Some ts) type closer = (r, p', toks') ->
  0 <= r ->
  parse_inv strict check json max_tokens p' toks'.
Proof.
  intros Hinv Hcl Hbyte. unfold jstok_end_container.
  destruct (jstok_top p) as [fr |] eqn:Htop; [| intros [= <- _ _]; lia].
  destruct (top_frame_of_inv _ _ _ _ _ _ _ Hinv Htop) as (-> & Hdepth & rest & Hfr & Hrl & Hkind).
  set (f := frame_at p (depth p - 1)) in *.
  destruct (decide (fr_type f <> type)) as [| Hty]; [intros [= <- _ _]; lia |].
  apply dec_stable in Hty.
  destruct Hinv as (ts0 & [= <-] & Hmax & Hpos & Htn & Hd & Hstack & Hin & Hw).
  rewrite Hfr in Hin. pose proof Hin as (Hk & Htk & (c & Hf & Hrel) & Hout).
  pose proof (members_end_value_ge _ _ _ _ _ _ _ Hf) as Hge.
  destruct (negb _) eqn:Hok; [intros [= <- _ _]; lia |].
  apply negb_false_iff in Hok.
  assert (Hcase : fr_type f = JSTOK_ARRAY
                  \/ fr_type f = JSTOK_OBJECT
                     /\ (fr_st f = JSTOK_ST_OBJ_KEY_OR_END
                         \/ fr_st f = JSTOK_ST_OBJ_COMMA_OR_END)).
  { destruct Hkind as [Ha | Ho]; [by left | right]. split; [assumption |].
    rewrite <- Hty, Ho in Hok. rewrite decide_True in Hok by reflexivity.
    destruct (decide (fr_st f = JSTOK_ST_OBJ_KEY)); [discriminate |].
    destruct (decide (_ \/ _)); [discriminate |].
    destruct (decide (_ \/ _)); [assumption | discriminate]. }
  clear Hok.
  destruct (decide (fr_tok f >= 0)); [| lia].
  set (ts1 := arr_set ts (fr_tok f) (set_tok_end (tok_at ts (fr_tok f)) (pos p + 1))).
  assert (Hself : tok_at ts1 (fr_tok f) = set_tok_end (tok_at ts (fr_tok f)) (pos p + 1)).
  { unfold ts1, tok_at. apply arr_get_set_same. lia. }
  assert (Hother : forall j, j <> fr_tok f -> tok_at ts1 j = tok_at ts j).
  { intros j Hj. unfold ts1, tok_at. apply arr_get_set_other. congruence. }
  pose proof (proj1 Hw (fr_tok f) ltac:(lia)) as (Hdef & Hstart & Hspan).
  rewrite Hself. cbn [tok_start tok_type set_tok_end].
  destruct (decide (tok_start _ < 0)); [lia |].
  rewrite Hself. cbn [tok_start tok_type set_tok_end].
  destruct (decide (tok_type _ <> type)); [congruence |].
  destruct (decide (closer <> 0)); [| contradiction].
  intros [= _ <- <-] _.
  assert (Hshape : same_shape ts ts1 0 (toknext p)).
  { intros k _. destruct (decide (k = fr_tok f)) as [-> | Hne].
    - rewrite Hself. split; reflexivity.
    - rewrite Hother by assumption. split; reflexivity. }
  assert (Hpop : frames (jstok_pop p) = rest).
  { rewrite frames_pop, Hfr by assumption. reflexivity. }
  assert (Hscal : pos (jstok_pop p) = pos p /\ toknext (jstok_pop p) = toknext p
                  /\ depth (jstok_pop p) = depth p - 1
                  /\ root_done (jstok_pop p) = root_done p
                  /\ stack (jstok_pop p) = stack p).
  { unfold jstok_pop. destruct (decide (depth p > 0)); [repeat split | lia]. }
  destruct Hscal as (E1 & E2 & E3 & E4 & E5).
  exists ts1. split; [reflexivity |].
  split; [unfold ts1; rewrite arr_set_length; assumption |].
  rewrite frames_set_pos, Hpop.
  cbn [pos toknext depth root_done stack set_pos]. rewrite E1, E2, E3, E4, E5.
  split; [lia |]. split; [assumption |]. split; [lia |]. split; [assumption |].
  split.
  { eapply inner_close; [exact Hrl | exact Hin | exact Hcase | exact Hshape]. }
  rewrite Hfr in Hw. apply spans_close; [exact Hw | lia | lia | |].
  - apply (inner_open_toks _ _ _ _ _ Hin).
  - fold f. rewrite Htk, Hty. exact Hbyte.
Qed.

(** *** One pass through the loop body *)

Lemma step_inv strict check json json_len max_tokens p toks p' toks' :
  parse_inv strict check json max_tokens p toks ->
  jstok_parse_step strict json json_len max_tokens p toks = Some (Continue p' toks') ->
  parse_inv strict check json max_tokens p' toks'.
Proof.
  intros Hinv. pose proof Hinv as (ts & -> & Hmax & Hpos & Htn & Hd & Hstack & Hin & Hw).
  rewrite step_value_paths. cbn zeta.
  destruct (jstok_is_space _).
  { intros [= <- <-]. exists ts. split; [reflexivity |]. split; [assumption |].
    rewrite frames_set_pos. cbn [pos toknext depth root_done stack set_pos].
    split; [lia |]. split; [assumption |]. split; [assumption |]. split; [assumption |].
    split; [assumption |].
    eapply spans_same; [exact Hw | lia | reflexivity | auto]. }
  destruct (decide _) as [Hc | _].
  { destruct (jstok_start_container _ _ _ _ _) as [[r p1] toks1] eqn:Hsc.
    destruct (decide (r < 0)); intros [= <- <-].
    eapply start_container_inv; [exact Hinv | right; by split | exact Hsc | lia]. }
  destruct (decide _) as [Hc | _].
  { destruct (jstok_start_container _ _ _ _ _) as [[r p1] toks1] eqn:Hsc.
    destruct (decide (r < 0)); intros [= <- <-].
    eapply start_container_inv; [exact Hinv | left; by split | exact Hsc | lia]. }
  destruct (decide _) as [Hc | _].
  { destruct (decide _) as [Hc1 | Hc1].
    - destruct (jstok_end_container _ _ _ _) as [[r p1] toks1] eqn:Hec.
      destruct (decide (r < 0)); intros [= <- <-].
      eapply end_container_inv; [exact Hinv | | left; by split | exact Hec | lia].
      discriminate.
    - destruct (jstok_end_container _ _ _ _) as [[r p1] toks1] eqn:Hec.
      destruct (decide (r < 0)); intros [= <- <-].
      eapply end_container_inv; [exact Hinv | | right; split; [reflexivity | tauto]
                                | exact Hec | lia].
      discriminate. }
  destruct (decide _).
  { destruct (jstok_top p) as [fr |] eqn:Htop; [| discriminate].
    destruct (decide _) as [| Hok]; [discriminate |]. intros [= <- <-].
    change (pos (set_frame_st p fr JSTOK_ST_OBJ_VALUE)) with (pos p).
    apply set_top_state_inv; [assumption | assumption | | lia].
    right. assert (fr_st (frame_at p fr) = JSTOK_ST_OBJ_COLON) by (apply dec_stable; tauto).
    tauto. }
  destruct (decide _).
  { destruct (jstok_top p) as [fr |] eqn:Htop; [| discriminate].
    destruct (top_frame_of_inv _ _ _ _ _ _ _ Hinv Htop) as (_ & _ & rest & _ & _ & Hkind).
    destruct (decide (fr_type _ = JSTOK_OBJECT)) as [Ho | Ho].
    - destruct (decide _) as [| Hst]; [discriminate |]. intros [= <- <-].
      apply dec_stable in Hst.
      change (pos (set_frame_st p fr JSTOK_ST_OBJ_KEY)) with (pos p).
      apply set_top_state_inv; [assumption | assumption | | lia].
      right. rewrite Hst. split; intros [? | ?]; discriminate.
    - destruct (decide _) as [| Hst]; [discriminate |]. intros [= <- <-].
      change (pos (set_frame_st p fr JSTOK_ST_ARR_VALUE)) with (pos p).
      apply set_top_state_inv; [assumption | assumption | | lia].
      left. tauto. }
  destruct (decide _).
  { destruct (key_expected p) eqn:Hkey.
    - destruct (jstok_parse_string_token _ _ _ _ _) as [[[r p1] toks1] |] eqn:Hst;
        [| discriminate].
      cbn [mbind option_bind].
      apply (string_token_emitted p json json_len ts max_tokens) in Hst; [| lia].
      destruct (decide (r < 0)); [destruct (decide _); discriminate |].
      destruct (jstok_accept_key p1) as [r2 p2] eqn:Hak.
      destruct (decide (r2 < 0)); intros [= <- <-].
      eapply key_inv; [exact Hinv | exact Hkey | exact Hst | lia | exact Hak | lia].
    - apply (value_path_inv strict check json max_tokens json_len JSTOK_STRING); [by left | assumption |].
      intros q t res Hq Hres. eapply string_token_emitted; [exact Hq | exact Hres]. }
  apply (value_path_inv strict check json max_tokens json_len JSTOK_PRIMITIVE); [by right | assumption |].
  intros q t res _ [= <-]. apply primitive_token_emitted.
Qed.

(** *** The loop *)

Lemma parse_inv_set_error strict check json max_tokens p toks c x :
  parse_inv strict check json max_tokens p toks ->
  parse_inv strict check json max_tokens (jstok_set_error p c x) toks.
Proof. intros H. exact H. Qed.

Lemma parse_inv_init strict check json max_tokens p0 ts :
  max_tokens <= Z.of_nat (length ts) ->
  length (stack p0) = Z.to_nat JSTOK_MAX_DEPTH ->
  parse_inv strict check json max_tokens (jstok_init p0) (Some ts).
Proof.
  intros Hmax Hstack. exists ts. split; [reflexivity |]. split; [assumption |].
  cbn [jstok_init pos toknext depth root_done stack]. unfold JSTOK_MAX_DEPTH.
  split; [lia |]. split; [lia |]. split; [lia |]. split; [assumption |].
  rewrite frames_nil by (simpl; lia). split.
  - exists 0%nat. split; [reflexivity |]. intros _. by rewrite decide_True.
  - repeat split; intros; lia.
Qed.

(** What the invariant says when no container is open. *)
Lemma parse_inv_closed strict check json max_tokens p toks :
  parse_inv strict check json max_tokens p toks -> depth p = 0 ->
  exists ts c,
    toks = Some ts
    /\ toknext p <= Z.max 0 max_tokens
    /\ forest_end (tree_end (Z.to_nat JSTOK_MAX_DEPTH) ts) c 0 = Some (toknext p)
    /\ (strict = true -> root_done p <> 0 -> c = 1%nat)
    /\ (forall j, 0 <= j < toknext p ->
          tok_type (tok_at ts j) <> JSTOK_UNDEFINED
          /\ 0 <= tok_start (tok_at ts j) <= tok_end (tok_at ts j)
          /\ tok_end (tok_at ts j) <= pos p)
    /\ (forall j k, 0 <= j < k -> k < toknext p ->
          tok_start (tok_at ts j) < tok_start (tok_at ts k)
          /\ (tok_end (tok_at ts j) <= tok_start (tok_at ts k)
              \/ tok_end (tok_at ts k) <= tok_end (tok_at ts j)))
    /\ members_end false false (value_end (Z.to_nat JSTOK_MAX_DEPTH) ts) ts c 0
       = Some (toknext p).
Proof.
  intros (ts & -> & Hmax & Hpos & Htn & Hd & Hstack & Hin & Hw & Ho & _) Hdepth.
  rewrite frames_nil in * by lia. destruct Hin as (c & Hf & Hc).
  assert (Hclosed : forall j, 0 <= j < toknext p ->
            tok_type (tok_at ts j) <> JSTOK_UNDEFINED
            /\ 0 <= tok_start (tok_at ts j) <= tok_end (tok_at ts j)
            /\ tok_end (tok_at ts j) <= pos p).
  { intros j Hj. destruct (Hw j Hj) as (Hty & Hs & He).
    rewrite decide_False in He by apply not_elem_of_nil. split; [assumption |]. lia. }
  exists ts, c. split; [reflexivity |]. split; [lia |]. split.
  { revert Hf. apply members_forest; [apply value_end_tree |].
    intros a Ha. apply tree_end_scalar. by left. }
  split; [| split; [exact Hclosed | split; [| exact Hf]]].
  - intros Hs Hrd. rewrite (Hc Hs). by rewrite decide_False.
  - intros j k Hj Hk. destruct (Ho j k Hj Hk) as [Hlt Hcase].
    destruct (Hclosed j ltac:(lia)) as (_ & ? & _).
    split; [assumption |]. destruct Hcase as [? | [? | ?]]; [left; lia | lia | right; lia].
Qed.

Lemma run_tree strict check json json_len max_tokens p toks r p' toks' :
  parse_inv strict check json max_tokens p toks -> pos p <= json_len ->
  run strict json json_len max_tokens p toks = Some (r, p', toks') ->
  (r = JSTOK_ERROR_PART ->
   parse_inv strict check json max_tokens p' toks' /\ pos p' <= json_len)
  /\ (0 <= r ->
      r = toknext p' /\ depth p' = 0 /\ pos p' <= json_len
      /\ parse_inv strict check json max_tokens p' toks'
      /\ (strict = true -> root_done p' <> 0)).
Proof.
  intros Hinv Hpos Hrun.
  refine (run_invariant strict json json_len max_tokens
            (fun p toks => parse_inv strict check json max_tokens p toks /\ pos p <= json_len)
            (fun r p' toks' =>
               (r = JSTOK_ERROR_PART ->
                parse_inv strict check json max_tokens p' toks' /\ pos p' <= json_len)
               /\ (0 <= r ->
                   r = toknext p' /\ depth p' = 0 /\ pos p' <= json_len
                   /\ parse_inv strict check json max_tokens p' toks'
                   /\ (strict = true -> root_done p' <> 0)))
            _ _ _ _ _ _ _ _ _ (conj Hinv Hpos) Hrun).
  - intros q t [(ts & _ & _ & _ & Htn & _) _]. lia.
  - intros q t q' t' [Hq Hle] Hlt Hstep. split.
    + eapply step_inv; eassumption.
    + destruct Hq as (ts & _ & _ & _ & Htn & _).
      apply step_facts in Hstep; [| lia | assumption].
      destruct Hstep as (? & _). lia.
  - intros q t r1 q' t' [Hq Hle] Hlt Hstep.
    pose proof Hq as (ts & _ & _ & _ & Htn & _).
    apply step_facts in Hstep; [| lia | assumption].
    destruct Hstep as [Hneg Hpart]. split; [| lia].
    intros Hr. destruct (Hpart Hr) as (-> & x & ->).
    split; [by apply parse_inv_set_error | assumption].
  - intros q t r1 q' t' [Hq Hle] Hge. unfold jstok_parse_finish.
    destruct (strict && bool_decide (depth q = 0) && bool_decide (root_done q = 0)) eqn:Hs.
    { intros [= <- <- <-]. split; [| lia]. intros _.
      split; [by apply parse_inv_set_error | assumption]. }
    destruct (decide (depth q <> 0)) as [| Hd].
    { intros [= <- <- <-]. split; [| lia]. intros _.
      split; [by apply parse_inv_set_error | assumption]. }
    apply dec_stable in Hd. intros [= <- <- <-].
    pose proof Hq as (ts & _ & _ & _ & Htn & _).
    split; [lia |]. intros _.
    split; [reflexivity |]. split; [assumption |]. split; [assumption |].
    split; [assumption |]. intros ->.
    rewrite (bool_decide_eq_true_2 (depth q = 0)) in Hs by assumption. simpl in Hs.
    by apply bool_decide_eq_false in Hs.
Qed.

(** *** Subtrees of a tree *)

Lemma forest_end_ext (next next' : Z -> option Z) n i j :
  (forall a b, i <= a -> b <= j -> next a = Some b -> next' a = Some b) ->
  (forall a b, next a = Some b -> a < b) ->
  forest_end next n i = Some j -> forest_end next' n i = Some j.
Proof.
  intros Hext Hlt. revert i Hext; induction n as [| n IH]; intros i Hext; simpl; [auto |].
  destruct (next i) as [k |] eqn:Hk; [| discriminate]. simpl. intros Hf.
  pose proof (Hlt _ _ Hk) as Hik.
  pose proof (forest_end_mono next n Hlt _ _ Hf) as Hkj.
  rewrite (Hext i k) by (assumption || lia). simpl.
  apply IH; [| assumption]. intros a b Ha Hb. apply Hext; lia.
Qed.

Lemma tree_end_deeper d ts i j :
  tree_end d ts i = Some j -> tree_end (S d) ts i = Some j.
Proof.
  revert i j; induction d as [| d IH]; intros i j.
  - rewrite tree_end_S. cbv zeta. unfold tree_end.
    destruct (decide _); [auto | discriminate].
  - rewrite (tree_end_S (S d)), (tree_end_S d). cbv zeta.
    assert (Hf : forall n, forest_end (tree_end d ts) n (i + 1) = Some j ->
                           forest_end (tree_end (S d) ts) n (i + 1) = Some j).
    { intros n. apply forest_end_ext; [| intros a b; apply tree_end_gt].
      intros a b _ _. apply IH. }
    repeat (destruct (decide _); try assumption; try discriminate); auto.
Qed.

Lemma forest_inside (next next' : Z -> option Z) n i e :
  (forall a b, next a = Some b -> a < b) ->
  (forall a b, next a = Some b ->
     forall k, a <= k < b -> exists j, next' k = Some j /\ j <= b) ->
  forest_end next n i = Some e ->
  forall k, i <= k < e -> exists j, next' k = Some j /\ j <= e.
Proof.
  intros Hlt Hin. revert i; induction n as [| n IH]; intros i; simpl.
  - intros [= <-] k Hk. lia.
  - destruct (next i) as [m |] eqn:Hm; [| discriminate]. simpl. intros Hf k Hk.
    pose proof (forest_end_mono next n Hlt _ _ Hf) as Hme.
    destruct (decide (k < m)) as [Hkm | Hkm].
    + destruct (Hin _ _ Hm k ltac:(lia)) as (j & Hj & Hjm). exists j. split; [assumption | lia].
    + apply (IH m Hf). lia.
Qed.

Lemma forest_end_one (next : Z -> option Z) i e :
  forest_end next 1 i = Some e -> next i = Some e.
Proof. simpl. destruct (next i); [auto | discriminate]. Qed.

(** Every token inside a subtree is the root of a subtree that ends inside
    it. *)
Lemma tree_inside d ts i e :
  tree_end d ts i = Some e ->
  forall k, i <= k < e -> exists j, tree_end d ts k = Some j /\ j <= e.
Proof.
  revert i e; induction d as [| d IH]; intros i e He k Hk.
  - assert (e = i + 1).
    { unfold tree_end in He. destruct (decide _); [by injection He | discriminate]. }
    replace k with i by lia. exists e. split; [assumption | lia].
  - destruct (decide (k = i)) as [-> | Hne]; [exists e; split; [assumption | lia] |].
    assert (Hf : forall n, forest_end (tree_end d ts) n (i + 1) = Some e ->
                           exists j, tree_end (S d) ts k = Some j /\ j <= e).
    { intros n Hf. apply (forest_inside (tree_end d ts) (tree_end (S d) ts) n (i + 1) e);
        [intros a b; apply tree_end_gt | | assumption | lia].
      intros a b Hab k' Hk'. destruct (IH _ _ Hab k' Hk') as (j & Hj & Hjb).
      exists j. split; [by apply tree_end_deeper | assumption]. }
    rewrite tree_end_S in He. cbv zeta in He.
    destruct (decide (_ \/ _)); [injection He as <-; lia |].
    destruct (decide (_ = JSTOK_ARRAY)).
    { destruct (decide _); [discriminate | eauto]. }
    destruct (decide (_ = JSTOK_OBJECT)).
    { destruct (decide _); [discriminate | eauto]. }
    injection He as <-. lia.
Qed.

(** *** Values inside values *)

Lemma value_end_deeper d ts i j :
  value_end d ts i = Some j -> value_end (S d) ts i = Some j.
Proof.
  revert i j; induction d as [| d IH]; intros i j.
  - rewrite value_end_S. cbv zeta. unfold value_end.
    destruct (decide _); [auto | discriminate].
  - rewrite (value_end_S (S d)), (value_end_S d). cbv zeta.
    assert (Hf : forall obj key n,
              members_end obj key (value_end d ts) ts n (i + 1) = Some j ->
              members_end obj key (value_end (S d) ts) ts n (i + 1) = Some j).
    { intros obj key n. apply members_end_ext; [intros a b; apply value_end_gt | | auto].
      intros a b _ _. apply IH. }
    repeat (destruct (decide _); try assumption; try discriminate); auto.
Qed.

Lemma members_inside obj (next next' : Z -> option Z) ts c :
  (forall a b, next a = Some b -> a < b) ->
  (forall a b, next a = Some b ->
     forall k, a <= k < b -> exists j, next' k = Some j /\ j <= b) ->
  (forall a, tok_type (tok_at ts a) = JSTOK_STRING -> next' a = Some (a + 1)) ->
  forall key i e,
    members_end obj key next ts c i = Some e ->
    forall k, i <= k < e -> exists j, next' k = Some j /\ j <= e.
Proof.
  intros Hlt Hin Hstr. induction c as [| c IH]; intros key i e; cbn [members_end].
  - intros [= <-] k Hk. lia.
  - destruct key.
    + destruct (decide _) as [Hs |]; [| discriminate]. intros Hf k Hk.
      pose proof (members_end_ge _ _ _ _ Hlt _ _ _ Hf) as Hge.
      destruct (decide (k = i)) as [-> | Hne].
      * exists (i + 1). split; [by apply Hstr | lia].
      * apply (IH _ _ _ Hf). lia.
    + destruct (next i) as [m |] eqn:Hm; [| discriminate]. cbn [mbind option_bind].
      intros Hf k Hk.
      pose proof (members_end_ge _ _ _ _ Hlt _ _ _ Hf) as Hge.
      destruct (decide (k < m)) as [Hkm | Hkm].
      * destruct (Hin _ _ Hm k ltac:(lia)) as (j & Hj & Hjm).
        exists j. split; [assumption | lia].
      * apply (IH _ _ _ Hf). lia.
Qed.

(** Every token inside a value is the first token of a value that ends
    inside it. *)
Lemma value_inside d ts i e :
  value_end d ts i = Some e ->
  forall k, i <= k < e -> exists j, value_end d ts k = Some j /\ j <= e.
Proof.
  revert i e; induction d as [| d IH]; intros i e He k Hk.
  - assert (e = i + 1).
    { unfold value_end in He. destruct (decide _); [by injection He | discriminate]. }
    replace k with i by lia. exists e. split; [assumption | lia].
  - destruct (decide (k = i)) as [-> | Hne]; [exists e; split; [assumption | lia] |].
    assert (Hf : forall obj key n,
              members_end obj key (value_end d ts) ts n (i + 1) = Some e ->
              exists j, value_end (S d) ts k = Some j /\ j <= e).
    { intros obj key n Hf.
      apply (members_inside obj (value_end d ts) (value_end (S d) ts) ts n
               (value_end_gt d ts)) with (key := key) (i := i + 1);
        [| | assumption | lia].
      - intros a b Hab k' Hk'. destruct (IH _ _ Hab k' Hk') as (j & Hj & Hjb).
        exists j. split; [by apply value_end_deeper | assumption].
      - intros a Ha. apply value_end_scalar. by left. }
    rewrite value_end_S in He. cbv zeta in He.
    destruct (decide (_ \/ _)); [injection He as <-; lia |].
    destruct (decide (_ = JSTOK_ARRAY)).
    { destruct (decide _); [discriminate | eauto]. }
    destruct (decide (_ = JSTOK_OBJECT)); [| discriminate].
    destruct (decide _); [discriminate | eauto].
Qed.

Lemma parse_inv_texts strict json max_tokens p ts :
  parse_inv strict true json max_tokens p (Some ts) ->
  forall j, 0 <= j < toknext p -> tok_text_ok json (tok_at ts j).
Proof.
  intros (ts0 & [= <-] & _ & _ & _ & _ & _ & _ & _ & _ & Hx). by apply Hx.
Qed.

(** The invariant without the texts does not depend on the buffer. *)
Lemma parse_inv_forget strict check json json2 max_tokens p toks :
  parse_inv strict check json max_tokens p toks ->
  parse_inv strict false json2 max_tokens p toks.
Proof.
  intros (ts & -> & Hmax & Hpos & Htn & Hd & Hstack & Hin & Hw & Ho & _).
  exists ts. split; [reflexivity |]. repeat (split; [assumption |]). discriminate.
Qed.

(** When no container is open, every token begins a value. *)
Lemma parse_inv_values strict check json max_tokens p ts :
  parse_inv strict check json max_tokens p (Some ts) -> depth p = 0 ->
  forall i, 0 <= i < toknext p ->
    exists e, value_end (Z.to_nat JSTOK_MAX_DEPTH) ts i = Some e /\ e <= toknext p.
Proof.
  intros Hinv Hd i Hi.
  destruct (parse_inv_closed _ _ _ _ _ _ Hinv Hd) as (ts2 & c & [= <-] & _ & _ & _ & _ & _ & Hf).
  apply (members_inside false (value_end (Z.to_nat JSTOK_MAX_DEPTH) ts)
           (value_end (Z.to_nat JSTOK_MAX_DEPTH) ts) ts c (value_end_gt _ ts))
    with (key := false) (i := 0); [| | assumption | assumption].
  - apply value_inside.
  - intros a Ha. apply value_end_scalar. by left.
Qed.

(** A successful call on a parser fresh from [jstok_init] ends with no
    container open. *)
Lemma parse_init_done strict p0 json json_len ts max_tokens r p' toks' :
  0 <= json_len ->
  max_tokens <= Z.of_nat (length ts) ->
  length (stack p0) = Z.to_nat JSTOK_MAX_DEPTH ->
  jstok_parse strict (Some (jstok_init p0)) (Some json) json_len (Some ts) max_tokens
  = Some (r, Some p', toks') ->
  0 <= r ->
  r = toknext p' /\ depth p' = 0 /\ pos p' <= json_len
  /\ parse_inv strict true json max_tokens p' toks'.
Proof.
  intros Hlen Hmax Hstack Hparse Hr. rewrite parse_valid_args in Hparse by assumption.
  destruct (run _ _ _ _ _ _) as [[[r1 p1] t1] |] eqn:Hrun; [| discriminate].
  injection Hparse as -> -> ->.
  apply (run_tree _ true) in Hrun;
    [| apply parse_inv_set_error, parse_inv_init; assumption | simpl; lia].
  destruct Hrun as [_ Hok]. destruct (Hok Hr) as (-> & Hd & Hpos & Hinv & Hrd). auto.
Qed.

(** The pairs of an object: its keys are string tokens. *)
Lemma members_object_keys ts n :
  forall cur e,
    members_end true true (value_end 63 ts) ts (2 * n) cur = Some e ->
    exists ks, object_keys ts n cur = Some (ks, e)
               /\ Forall (fun k => tok_type (tok_at ts k) = JSTOK_STRING) ks.
Proof.
  induction n as [| n IH]; intros cur e.
  - cbn [Nat.mul members_end object_keys]. intros [= <-].
    exists []. split; [reflexivity | constructor].
  - replace (2 * S n)%nat with (S (S (2 * n))) by lia. cbn [members_end object_keys].
    destruct (decide _) as [Hs |]; [| discriminate].
    destruct (value_end 63 ts (cur + 1)) as [v |] eqn:Hv; [| discriminate].
    cbn [mbind option_bind]. intros H. destruct (IH _ _ H) as (ks & Hk & Hall).
    apply value_end_tree, tree_end_deeper in Hv.
    change (S 63) with (Z.to_nat JSTOK_MAX_DEPTH) in Hv. rewrite Hv.
    cbn [mbind option_bind]. rewrite Hk. cbn [mbind option_bind].
    exists (cur :: ks). split; [reflexivity | by constructor].
Qed.

(** *** The tokens of a successful call *)

(** X19. In token mode, a call of [jstok_parse] that succeeds on a parser
    fresh from [jstok_init] leaves the tokens of JSON values: the [r] tokens
    it returns are [c] values in a row, where a string or a primitive is one
    token, an array of size [n] is followed by its [n] elements and an
    object of size [n] by its [n] pairs of a key, one string token, and a
    value, with containers nested at most [JSTOK_MAX_DEPTH] deep; in strict
    mode there is one value.  Every token has a kind and a span with
    [0 <= start <= end <= json_len].  The token array has room for
    [max_tokens] tokens and the parser the [JSTOK_MAX_DEPTH] frames of its
    stack. *)
Theorem jstok_parse_tree (strict : bool) (p0 : jstok_parser) (json : list Z)
    (json_len : Z) (ts : list jstoktok_t) (max_tokens r : Z)
    (p' : jstok_parser) (toks' : tokens) :
  0 <= json_len ->
  max_tokens <= Z.of_nat (length ts) ->
  length (stack p0) = Z.to_nat JSTOK_MAX_DEPTH ->
  jstok_parse strict (Some (jstok_init p0)) (Some json) json_len (Some ts) max_tokens
  = Some (r, Some p', toks') ->
  0 <= r ->
  exists ts' c,
    toks' = Some ts'
    /\ r <= Z.max 0 max_tokens
    /\ members_end false false (value_end (Z.to_nat JSTOK_MAX_DEPTH) ts') ts' c 0 = Some r
    /\ (strict = true -> c = 1%nat)
    /\ forall j, 0 <= j < r ->
         tok_type (tok_at ts' j) <> JSTOK_UNDEFINED
         /\ 0 <= tok_start (tok_at ts' j) <= tok_end (tok_at ts' j)
         /\ tok_end (tok_at ts' j) <= json_len.
Proof.
  intros Hlen Hmax Hstack Hparse Hr. rewrite parse_valid_args in Hparse by assumption.
  destruct (run _ _ _ _ _ _) as [[[r1 p1] t1] |] eqn:Hrun; [| discriminate].
  injection Hparse as -> -> ->.
  apply (run_tree _ true) in Hrun;
    [| apply parse_inv_set_error, parse_inv_init; assumption | simpl; lia].
  destruct Hrun as [_ Hok]. destruct (Hok Hr) as (-> & Hd & Hpos & Hinv & Hrd).
  destruct (parse_inv_closed _ _ _ _ _ _ Hinv Hd) as (ts' & c & -> & Hle & _ & Hc & Hw & _ & Hf).
  exists ts', c. split; [reflexivity |]. split; [assumption |]. split; [assumption |].
  split; [auto |]. intros j Hj. destruct (Hw j Hj) as (? & ? & ?).
  split; [assumption |]. split; [assumption | lia].
Qed.

Lemma jstok_parse_tree_witness :
  exists ts' c,
    Some tokens_async_done = Some ts'
    /\ 5 <= Z.max 0 6
    /\ members_end false false (value_end (Z.to_nat JSTOK_MAX_DEPTH) ts') ts' c 0 = Some 5
    /\ (true = true -> c = 1%nat)
    /\ forall j, 0 <= j < 5 ->
         tok_type (tok_at ts' j) <> JSTOK_UNDEFINED
         /\ 0 <= tok_start (tok_at ts' j) <= tok_end (tok_at ts' j)
         /\ tok_end (tok_at ts' j) <= 30.
Proof.
  apply (jstok_parse_tree true blank_parser json_async 30 (blank_tokens 6) 6 5
           parser_async_done (Some tokens_async_done)).
  - lia.
  - simpl. lia.
  - reflexivity.
  - vm_compute. reflexivity.
  - lia.
Defined.

(** X20. The tokens of a successful call can be walked with [jstok_skip]:
    after a call of [jstok_parse] in token mode that returned [r] on a
    parser fresh from [jstok_init], [jstok_skip] with the count [r] returns
    for every token [i] below [r] the index [j] just after the subtree of
    [i], with [i < j <= r]; in strict mode the subtree of token 0 is the
    whole array, [j = r]. *)
Theorem jstok_skip_after_parse (strict : bool) (p0 : jstok_parser) (json : list Z)
    (json_len : Z) (ts : list jstoktok_t) (max_tokens r : Z)
    (p' : jstok_parser) (ts' : list jstoktok_t) (i : Z) :
  0 <= json_len ->
  max_tokens <= Z.of_nat (length ts) -> max_tokens < 2 ^ 31 ->
  length (stack p0) = Z.to_nat JSTOK_MAX_DEPTH ->
  jstok_parse strict (Some (jstok_init p0)) (Some json) json_len (Some ts) max_tokens
  = Some (r, Some p', Some ts') ->
  0 <= i < r ->
  exists j,
    jstok_skip (Some ts') r i = Some j
    /\ tree_end (Z.to_nat JSTOK_MAX_DEPTH) ts' i = Some j
    /\ i < j <= r
    /\ (strict = true -> i = 0 -> j = r).
Proof.
  intros Hlen Hmax Hint Hstack Hparse Hi. rewrite parse_valid_args in Hparse by assumption.
  destruct (run _ _ _ _ _ _) as [[[r1 p1] t1] |] eqn:Hrun; [| discriminate].
  injection Hparse as -> -> ->.
  apply (run_tree _ true) in Hrun;
    [| apply parse_inv_set_error, parse_inv_init; assumption | simpl; lia].
  destruct Hrun as [_ Hok]. destruct (Hok ltac:(lia)) as (-> & Hd & Hpos & Hinv & Hrd).
  destruct (parse_inv_closed _ _ _ _ _ _ Hinv Hd) as (ts2 & c & [= <-] & Hle & Hf & Hc & _).
  destruct (forest_inside _ (tree_end (Z.to_nat JSTOK_MAX_DEPTH) ts') _ _ _
              (tree_end_gt _ _) (tree_inside _ _) Hf i Hi) as (j & Hj & Hjr).
  pose proof (tree_end_gt _ _ _ _ Hj) as Hij.
  exists j. split; [apply skip_subtree; (assumption || lia) |].
  split; [assumption |]. split; [lia |].
  intros -> ->. rewrite (Hc eq_refl (Hrd eq_refl)) in Hf.
  apply forest_end_one in Hf. congruence.
Qed.

Lemma jstok_skip_after_parse_witness :
  exists j,
    jstok_skip (Some tokens_async_done) 5 0 = Some j
    /\ tree_end (Z.to_nat JSTOK_MAX_DEPTH) tokens_async_done 0 = Some j
    /\ 0 < j <= 5
    /\ (true = true -> 0 = 0 -> j = 5).
Proof.
  apply (jstok_skip_after_parse true blank_parser json_async 30 (blank_tokens 6) 6 5
           parser_async_done tokens_async_done 0).
  - lia.
  - simpl. lia.
  - lia.
  - reflexivity.
  - vm_compute. reflexivity.
  - lia.
Defined.

(** X21. Incremental parsing leaves the tokens of JSON values as well: when
    a first call on a parser fresh from [jstok_init] returned
    [JSTOK_ERROR_PART], and a second call on the parser and the tokens it
    left, with a buffer at least as long and the same [max_tokens], succeeds
    with [r], the [r] tokens are values in a row, one in strict mode, and
    every token has a kind and a span inside the second buffer. *)
Theorem jstok_parse_resumed_tree (strict : bool) (p0 : jstok_parser)
    (json json2 : list Z) (json_len json_len2 : Z) (ts : list jstoktok_t)
    (max_tokens r : Z) (p1 p' : jstok_parser) (toks1 toks' : tokens) :
  0 <= json_len <= json_len2 ->
  max_tokens <= Z.of_nat (length ts) ->
  length (stack p0) = Z.to_nat JSTOK_MAX_DEPTH ->
  jstok_parse strict (Some (jstok_init p0)) (Some json) json_len (Some ts) max_tokens
  = Some (JSTOK_ERROR_PART, Some p1, toks1) ->
  jstok_parse strict (Some p1) (Some json2) json_len2 toks1 max_tokens
  = Some (r, Some p', toks') ->
  0 <= r ->
  exists ts' c,
    toks' = Some ts'
    /\ r <= Z.max 0 max_tokens
    /\ members_end false false (value_end (Z.to_nat JSTOK_MAX_DEPTH) ts') ts' c 0 = Some r
    /\ (strict = true -> c = 1%nat)
    /\ forall j, 0 <= j < r ->
         tok_type (tok_at ts' j) <> JSTOK_UNDEFINED
         /\ 0 <= tok_start (tok_at ts' j) <= tok_end (tok_at ts' j)
         /\ tok_end (tok_at ts' j) <= json_len2.
Proof.
  intros Hlen Hmax Hstack Hfirst Hsecond Hr.
  rewrite parse_valid_args in Hfirst by lia.
  destruct (run _ _ _ _ _ _) as [[[r1 q1] t1] |] eqn:Hrun; [| discriminate].
  injection Hfirst as -> -> ->.
  apply (run_tree _ true) in Hrun;
    [| apply parse_inv_set_error, parse_inv_init; assumption | simpl; lia].
  destruct Hrun as [Hpart _]. destruct (Hpart eq_refl) as [Hinv1 Hpos1].
  apply (parse_inv_forget _ _ _ json2) in Hinv1.
  rewrite parse_valid_args in Hsecond by lia.
  destruct (run _ _ _ _ _ _) as [[[r2 q2] t2] |] eqn:Hrun2; [| discriminate].
  injection Hsecond as -> -> ->.
  apply (run_tree _ false) in Hrun2; [| by apply parse_inv_set_error | simpl; lia].
  destruct Hrun2 as [_ Hok]. destruct (Hok Hr) as (-> & Hd & Hpos & Hinv & Hrd).
  destruct (parse_inv_closed _ _ _ _ _ _ Hinv Hd) as (ts' & c & -> & Hle & _ & Hc & Hw & _ & Hf).
  exists ts', c. split; [reflexivity |]. split; [assumption |]. split; [assumption |].
  split; [auto |]. intros j Hj. destruct (Hw j Hj) as (? & ? & ?).
  split; [assumption |]. split; [assumption | lia].
Qed.

Lemma jstok_parse_resumed_tree_witness :
  exists ts' c,
    Some tokens_async_done = Some ts'
    /\ 5 <= Z.max 0 6
    /\ members_end false false (value_end (Z.to_nat JSTOK_MAX_DEPTH) ts') ts' c 0 = Some 5
    /\ (true = true -> c = 1%nat)
    /\ forall j, 0 <= j < 5 ->
         tok_type (tok_at ts' j) <> JSTOK_UNDEFINED
         /\ 0 <= tok_start (tok_at ts' j) <= tok_end (tok_at ts' j)
         /\ tok_end (tok_at ts' j) <= 30.
Proof.
  apply (jstok_parse_resumed_tree true blank_parser json_async json_async 12 30
           (blank_tokens 6) 6 5 parser_async_part parser_async_done
           (Some tokens_async_part) (Some tokens_async_done)).
  - lia.
  - simpl. lia.
  - reflexivity.
  - vm_compute. reflexivity.
  - vm_compute. reflexivity.
  - lia.
Defined.

(** X22. The tokens of a successful call stand in the order of the text:
    after a call of [jstok_parse] in token mode that returned [r] on a
    parser fresh from [jstok_init], a token starts before every later
    token, and the spans of two tokens are nested or apart: the earlier one
    ends before the later one starts, or it ends after the later one
    ends. *)
Theorem jstok_parse_token_order (strict : bool) (p0 : jstok_parser) (json : list Z)
    (json_len : Z) (ts : list jstoktok_t) (max_tokens r : Z)
    (p' : jstok_parser) (ts' : list jstoktok_t) (j k : Z) :
  0 <= json_len ->
  max_tokens <= Z.of_nat (length ts) ->
  length (stack p0) = Z.to_nat JSTOK_MAX_DEPTH ->
  jstok_parse strict (Some (jstok_init p0)) (Some json) json_len (Some ts) max_tokens
  = Some (r, Some p', Some ts') ->
  0 <= j < k -> k < r ->
  tok_start (tok_at ts' j) < tok_start (tok_at ts' k)
  /\ (tok_end (tok_at ts' j) <= tok_start (tok_at ts' k)
      \/ tok_end (tok_at ts' k) <= tok_end (tok_at ts' j)).
Proof.
  intros Hlen Hmax Hstack Hparse Hj Hk. rewrite parse_valid_args in Hparse by assumption.
  destruct (run _ _ _ _ _ _) as [[[r1 p1] t1] |] eqn:Hrun; [| discriminate].
  injection Hparse as -> -> ->.
  apply (run_tree _ true) in Hrun;
    [| apply parse_inv_set_error, parse_inv_init; assumption | simpl; lia].
  destruct Hrun as [_ Hok]. destruct (Hok ltac:(lia)) as (-> & Hd & Hpos & Hinv & Hrd).
  destruct (parse_inv_closed _ _ _ _ _ _ Hinv Hd) as (ts2 & c & [= <-] & _ & _ & _ & _ & Ho & _).
  by apply Ho.
Qed.

Lemma jstok_parse_token_order_witness :
  tok_start (tok_at tokens_async_done 0) < tok_start (tok_at tokens_async_done 2)
  /\ (tok_end (tok_at tokens_async_done 0) <= tok_start (tok_at tokens_async_done 2)
      \/ tok_end (tok_at tokens_async_done 2) <= tok_end (tok_at tokens_async_done 0)).
Proof.
  apply (jstok_parse_token_order true blank_parser json_async 30 (blank_tokens 6) 6 5
           parser_async_done tokens_async_done 0 2).
  - lia.
  - simpl. lia.
  - reflexivity.
  - vm_compute. reflexivity.
  - lia.
  - lia.
Defined.


(** X23. Keys are strings, and the tokens of a successful call can be
    searched with [jstok_object_get]: after a call of [jstok_parse] in token
    mode that returned [r] on a parser fresh from [jstok_init], every object
    token of size [n] is followed by [n] pairs of a key, which is one string
    token, and a value, and [jstok_object_get] with the count [r] returns
    the value of the first pair whose key has the text [key], or -1 when
    there is none. *)
Theorem jstok_object_get_after_parse (strict : bool) (p0 : jstok_parser)
    (json : list Z) (json_len : Z) (ts : list jstoktok_t) (max_tokens r : Z)
    (p' : jstok_parser) (ts' : list jstoktok_t) (obj_tok : Z) (key : list Z) :
  0 <= json_len ->
  max_tokens <= Z.of_nat (length ts) -> max_tokens < 2 ^ 31 ->
  length (stack p0) = Z.to_nat JSTOK_MAX_DEPTH ->
  jstok_parse strict (Some (jstok_init p0)) (Some json) json_len (Some ts) max_tokens
  = Some (r, Some p', Some ts') ->
  0 <= obj_tok < r -> tok_type (tok_at ts' obj_tok) = JSTOK_OBJECT ->
  no_nul key ->
  exists ks e,
    object_keys ts' (Z.to_nat (tok_size (tok_at ts' obj_tok))) (obj_tok + 1) = Some (ks, e)
    /\ e <= r
    /\ Forall (fun k => tok_type (tok_at ts' k) = JSTOK_STRING) ks
    /\ jstok_object_get (Some json) (Some ts') r obj_tok (Some key)
       = Some (match find (fun k => bool_decide (key_is json (tok_at ts' k) key)) ks with
               | Some k => k + 1
               | None => -1
               end).
Proof.
  intros Hlen Hmax Hint Hstack Hparse Hobj Hty Hkey.
  destruct (parse_init_done _ _ _ _ _ _ _ _ _ Hlen Hmax Hstack Hparse ltac:(lia))
    as (-> & Hd & _ & Hinv).
  pose proof Hinv as (ts2 & [= <-] & _ & _ & Htn & _).
  destruct (parse_inv_values _ _ _ _ _ _ Hinv Hd obj_tok Hobj) as (e & He & Hle).
  change (Z.to_nat JSTOK_MAX_DEPTH) with (S 63) in He.
  rewrite value_end_S in He. cbv zeta in He. rewrite Hty in He.
  rewrite decide_False in He by (intros [? | ?]; discriminate).
  rewrite decide_False in He by discriminate.
  rewrite decide_True in He by reflexivity.
  destruct (decide (tok_size (tok_at ts' obj_tok) < 0)); [discriminate |].
  replace (Z.to_nat (2 * tok_size (tok_at ts' obj_tok)))
    with (2 * Z.to_nat (tok_size (tok_at ts' obj_tok)))%nat in He by lia.
  destruct (members_object_keys _ _ _ _ He) as (ks & Hks & Hall).
  exists ks, e. split; [assumption |]. split; [assumption |]. split; [assumption |].
  unfold jstok_object_get.
  destruct (decide (obj_tok < 0 \/ _)); [lia |].
  destruct (decide (tok_type _ <> _)); [congruence |].
  apply (object_get_loop_keys json ts' (toknext p') key _ _ ks e); (assumption || lia).
Qed.

Lemma jstok_object_get_after_parse_witness :
  exists ks e,
    object_keys tokens_async_done (Z.to_nat (tok_size (tok_at tokens_async_done 0))) (0 + 1)
    = Some (ks, e)
    /\ e <= 5
    /\ Forall (fun k => tok_type (tok_at tokens_async_done k) = JSTOK_STRING) ks
    /\ jstok_object_get (Some json_async) (Some tokens_async_done) 5 0
         (Some (bytes_of_string "num"))
       = Some (match find (fun k => bool_decide
                                      (key_is json_async (tok_at tokens_async_done k)
                                         (bytes_of_string "num"))) ks with
               | Some k => k + 1
               | None => -1
               end).
Proof.
  apply (jstok_object_get_after_parse true blank_parser json_async 30 (blank_tokens 6) 6 5
           parser_async_done tokens_async_done 0 (bytes_of_string "num")).
  - lia.
  - simpl. lia.
  - lia.
  - reflexivity.
  - vm_compute. reflexivity.
  - lia.
  - reflexivity.
  - repeat (constructor; [discriminate |]). constructor.
Defined.

(** X24. The tokens of a successful call can be indexed with
    [jstok_array_at]: after a call of [jstok_parse] in token mode that
    returned [r] on a parser fresh from [jstok_init], for every array token
    and every index below its size [jstok_array_at] with the count [r]
    returns a token [c] of the array, [arr_tok < c < r], the one reached
    from [arr_tok + 1] by passing over [idx] subtrees. *)
Theorem jstok_array_at_after_parse (strict : bool) (p0 : jstok_parser)
    (json : list Z) (json_len : Z) (ts : list jstoktok_t) (max_tokens r : Z)
    (p' : jstok_parser) (ts' : list jstoktok_t) (arr_tok idx : Z) :
  0 <= json_len ->
  max_tokens <= Z.of_nat (length ts) -> max_tokens < 2 ^ 31 ->
  length (stack p0) = Z.to_nat JSTOK_MAX_DEPTH ->
  jstok_parse strict (Some (jstok_init p0)) (Some json) json_len (Some ts) max_tokens
  = Some (r, Some p', Some ts') ->
  0 <= arr_tok < r -> tok_type (tok_at ts' arr_tok) = JSTOK_ARRAY ->
  0 <= idx < tok_size (tok_at ts' arr_tok) ->
  exists c,
    jstok_array_at (Some ts') r arr_tok idx = Some c
    /\ arr_tok < c < r
    /\ forest_end (tree_end (Z.to_nat JSTOK_MAX_DEPTH) ts') (Z.to_nat idx) (arr_tok + 1)
       = Some c.
Proof.
  intros Hlen Hmax Hint Hstack Hparse Harr Hty Hidx.
  destruct (parse_init_done _ _ _ _ _ _ _ _ _ Hlen Hmax Hstack Hparse ltac:(lia))
    as (-> & Hd & _ & Hinv).
  pose proof Hinv as (ts2 & [= <-] & _ & _ & Htn & _).
  destruct (parse_inv_values _ _ _ _ _ _ Hinv Hd arr_tok Harr) as (e & He & Hle).
  change (Z.to_nat JSTOK_MAX_DEPTH) with (S 63) in He.
  rewrite value_end_S in He. cbv zeta in He. rewrite Hty in He.
  rewrite decide_False in He by (intros [? | ?]; discriminate).
  rewrite decide_True in He by reflexivity.
  destruct (decide (tok_size (tok_at ts' arr_tok) < 0)); [discriminate |].
  replace (Z.to_nat (tok_size (tok_at ts' arr_tok)))
    with (Z.to_nat idx + Z.to_nat (tok_size (tok_at ts' arr_tok) - idx))%nat in He by lia.
  apply members_end_split in He as (c & Hc & Hrest).
  apply members_end_value_ge in Hrest.
  pose proof (members_end_value_ge _ _ _ _ _ _ _ Hc) as Hge.
  assert (Hf : forest_end (tree_end (Z.to_nat JSTOK_MAX_DEPTH) ts') (Z.to_nat idx)
                 (arr_tok + 1) = Some c).
  { revert Hc. apply members_forest.
    - intros a b Hab. apply value_end_tree, tree_end_deeper in Hab. exact Hab.
    - intros a Ha. apply tree_end_scalar. by left. }
  exists c. split; [| split; [lia | exact Hf]].
  unfold jstok_array_at.
  destruct (decide (arr_tok < 0 \/ _)); [lia |].
  destruct (decide (tok_type _ <> _)); [congruence |].
  destruct (decide (idx < 0 \/ _)); [lia |].
  apply array_at_loop_forest; (assumption || lia).
Qed.

Lemma jstok_array_at_after_parse_witness :
  exists c,
    jstok_array_at (Some tokens_array_done) 4 0 2 = Some c
    /\ 0 < c < 4
    /\ forest_end (tree_end (Z.to_nat JSTOK_MAX_DEPTH) tokens_array_done) (Z.to_nat 2) (0 + 1)
       = Some c.
Proof.
  apply (jstok_array_at_after_parse true blank_parser json_array_123 7 (blank_tokens 4) 4 4
           parser_array_done tokens_array_done 0 2).
  - lia.
  - simpl. lia.
  - lia.
  - reflexivity.
  - vm_compute. reflexivity.
  - lia.
  - reflexivity.
  - simpl. lia.
Defined.

(** X27. The text of every token of a successful call is what its kind
    says: after a call of [jstok_parse] in token mode that returned [r] on a
    parser fresh from [jstok_init], an object token begins at an opening
    brace and ends after a closing brace, an array token begins at an
    opening bracket and ends after a closing bracket, a string token stands
    between two double quotes, which are not part of it, and the text of a
    primitive token is [true], [false], [null] or a JSON number of the
    grammar [spec_number]. *)
Theorem jstok_parse_token_texts (strict : bool) (p0 : jstok_parser) (json : list Z)
    (json_len : Z) (ts : list jstoktok_t) (max_tokens r : Z)
    (p' : jstok_parser) (ts' : list jstoktok_t) (j : Z) :
  0 <= json_len ->
  max_tokens <= Z.of_nat (length ts) ->
  length (stack p0) = Z.to_nat JSTOK_MAX_DEPTH ->
  jstok_parse strict (Some (jstok_init p0)) (Some json) json_len (Some ts) max_tokens
  = Some (r, Some p', Some ts') ->
  0 <= j < r ->
  let t := tok_at ts' j in
  match tok_type t with
  | JSTOK_OBJECT =>
      json_at json (tok_start t) = ch_lbrace /\ json_at json (tok_end t - 1) = ch_rbrace
  | JSTOK_ARRAY =>
      json_at json (tok_start t) = ch_lbracket /\ json_at json (tok_end t - 1) = ch_rbracket
  | JSTOK_STRING =>
      json_at json (tok_start t - 1) = ch_quote /\ json_at json (tok_end t) = ch_quote
  | JSTOK_PRIMITIVE =>
      tok_text json t = lit_true \/ tok_text json t = lit_false
      \/ tok_text json t = lit_null \/ spec_number (tok_text json t) = true
  | JSTOK_UNDEFINED => False
  end.
Proof.
  intros Hlen Hmax Hstack Hparse Hj t.
  destruct (parse_init_done _ _ _ _ _ _ _ _ _ Hlen Hmax Hstack Hparse ltac:(lia))
    as (-> & Hd & _ & Hinv).
  pose proof (parse_inv_texts _ _ _ _ _ Hinv j Hj) as Htext.
  destruct (parse_inv_closed _ _ _ _ _ _ Hinv Hd) as (ts2 & c & [= <-] & _ & _ & _ & Hw & _).
  destruct (Hw j Hj) as (_ & Hspan & _). fold t in Htext, Hspan.
  unfold tok_text_ok in Htext. destruct (tok_type t); try exact Htext.
  - destruct Htext as [H1 H2]. split; [assumption | apply H2; lia].
  - destruct Htext as [H1 H2]. split; [assumption | apply H2; lia].
  - destruct Htext as (H1 & fuel & len & Hs). split; [assumption |].
    apply string_scan_bounds in Hs. apply Hs.
Qed.

Lemma jstok_parse_token_texts_witness :
  let t := tok_at tokens_async_done 4 in
  match tok_type t with
  | JSTOK_OBJECT =>
      json_at json_async (tok_start t) = ch_lbrace
      /\ json_at json_async (tok_end t - 1) = ch_rbrace
  | JSTOK_ARRAY =>
      json_at json_async (tok_start t) = ch_lbracket
      /\ json_at json_async (tok_end t - 1) = ch_rbracket
  | JSTOK_STRING =>
      json_at json_async (tok_start t - 1) = ch_quote
      /\ json_at json_async (tok_end t) = ch_quote
  | JSTOK_PRIMITIVE =>
      tok_text json_async t = lit_true \/ tok_text json_async t = lit_false
      \/ tok_text json_async t = lit_null \/ spec_number (tok_text json_async t) = true
  | JSTOK_UNDEFINED => False
  end.
Proof.
  apply (jstok_parse_token_texts true blank_parser json_async 30 (blank_tokens 6) 6 5
           parser_async_done tokens_async_done 4).
  - lia.
  - simpl. lia.
  - reflexivity.
  - vm_compute. reflexivity.
  - lia.
Defined.

(** X28. Every string token of a successful call can be decoded: after a
    call of [jstok_parse] in token mode that returned [r] on a parser fresh
    from [jstok_init], [jstok_unescape] on a string token among the [r]
    answers 0 whenever [out_cap] is at least the length of the token
    text. *)
Theorem jstok_unescape_after_parse (strict : bool) (p0 : jstok_parser)
    (json : list Z) (json_len : Z) (ts : list jstoktok_t) (max_tokens r : Z)
    (p' : jstok_parser) (ts' : list jstoktok_t) (j : Z)
    (out : list Z) (out_cap ol : Z) :
  0 <= json_len ->
  max_tokens <= Z.of_nat (length ts) ->
  length (stack p0) = Z.to_nat JSTOK_MAX_DEPTH ->
  jstok_parse strict (Some (jstok_init p0)) (Some json) json_len (Some ts) max_tokens
  = Some (r, Some p', Some ts') ->
  0 <= j < r -> tok_type (tok_at ts' j) = JSTOK_STRING ->
  tok_end (tok_at ts' j) - tok_start (tok_at ts' j) <= out_cap ->
  exists out' w,
    jstok_unescape (Some json) (Some (tok_at ts' j)) (Some out) out_cap (Some ol)
    = Some (0, Some out', Some w).
Proof.
  intros Hlen Hmax Hstack Hparse Hj Hty Hcap.
  destruct (parse_init_done _ _ _ _ _ _ _ _ _ Hlen Hmax Hstack Hparse ltac:(lia))
    as (-> & Hd & _ & Hinv).
  pose proof (parse_inv_texts _ _ _ _ _ Hinv j Hj) as Htext.
  destruct (parse_inv_closed _ _ _ _ _ _ Hinv Hd) as (ts2 & c & [= <-] & _ & _ & _ & Hw & _).
  destruct (Hw j Hj) as (_ & Hspan & _).
  unfold tok_text_ok in Htext. rewrite Hty in Htext.
  destruct Htext as (_ & fuel & len & Hs).
  unfold jstok_unescape, jstok_span. rewrite Hty.
  destruct (decide (JSTOK_STRING <> JSTOK_STRING)); [congruence |].
  destruct (decide (tok_start (tok_at ts' j) < 0 \/ _)); [lia |]. cbn [span_n].
  destruct (scan_unescape json len
              (mk_span (tok_start (tok_at ts' j))
                 (tok_end (tok_at ts' j) - tok_start (tok_at ts' j)))
              out_cap _ _ _
              (Z.to_nat (tok_end (tok_at ts' j) - tok_start (tok_at ts' j))) 0 0 out Hs)
    as (out' & w' & ->); cbn [span_p span_n]; try lia.
  simpl. destruct (decide (0 < 0)); [lia |]. eauto.
Qed.

Lemma jstok_unescape_after_parse_witness :
  exists out' w,
    jstok_unescape (Some json_async) (Some (tok_at tokens_async_done 2))
      (Some (replicate 8 0)) 8 (Some 0)
    = Some (0, Some out', Some w).
Proof.
  apply (jstok_unescape_after_parse true blank_parser json_async 30 (blank_tokens 6) 6 5
           parser_async_done tokens_async_done 2 (replicate 8 0) 8 0).
  - lia.
  - simpl. lia.
  - reflexivity.
  - vm_compute. reflexivity.
  - lia.
  - reflexivity.
  - vm_compute. discriminate.
Defined.
